(** * converting-dice: the conversion-planning engine of [lib.js]

    A shallow embedding of [getDivisors], [generateTosses], [partitionTosses],
    [getConversion], [getBestConversion] and [createDie], and the properties
    of the specification that concern them.

    Conventions of the embedding.
    - A [Die] is the JS array of face labels, a [list string].
    - Array lengths, toss ids and loop counters are natural numbers.
    - A JS [Map] keyed by objects or strings is an association list in
      insertion order.
    - The non-integer numbers of the code ([z], [expectation]) are values of an
      arithmetic interface [JSNumber], with two instances: [Double], the IEEE
      binary64 numbers of JavaScript (Rocq's primitive floats), and [Exact],
      the rationals extended with the infinities and NaN, without rounding.
    - The two [while] loops of [getBestConversion] take fuel; running out of
      fuel is the outcome [OutOfFuel]. *)

From Stdlib Require Import PrimFloat Uint63 Floats ZArith QArith Qcanon Qround.
From Stdlib Require Import String Ascii DecimalString DecimalNat Lia Permutation Sorted.
From stdpp Require Import list strings sorting.

Local Open Scope nat_scope.

(** ** Data model *)

(** [@typedef {Array<string>} Die] *)
Abbreviation Die := (list string).

(** [@typedef {Object} TossRange]: two parallel arrays. *)
Record TossRange : Type := mkRange {
  faces : list (list string);
  ids : list nat
}.

Definition emptyRange : TossRange := {| faces := []; ids := [] |}.

(** [range.faces.push(f); range.ids.push(id)] *)
Definition pushToss (f : list string) (id : nat) (r : TossRange) : TossRange :=
  {| faces := faces r ++ [f]; ids := ids r ++ [id] |}.

(** What a call produces: a value, an exception, or no answer within the fuel. *)
Inductive Outcome (A : Type) : Type :=
  | Returned (a : A)
  | Thrown (msg : string)
  | OutOfFuel.
Arguments Returned {A} a.
Arguments Thrown {A} msg.
Arguments OutOfFuel {A}.

Definition bindO {A B : Type} (m : Outcome A) (k : A -> Outcome B) : Outcome B :=
  match m with
  | Returned a => k a
  | Thrown msg => Thrown msg
  | OutOfFuel => OutOfFuel
  end.

#[export] Instance Outcome_bind : MBind Outcome := fun A B k m => bindO m k.
#[export] Instance Outcome_ret : MRet Outcome := fun A a => Returned a.
#[export] Instance Outcome_fmap : FMap Outcome :=
  fun A B f m => bindO m (fun a => Returned (f a)).

(** The value a rule's [conversions] map holds for a toss range, once
    [getConversion] has overwritten it: a face label, a rule for a smaller
    die, or the enclosing rule itself. *)
Inductive Branch (R : Type) : Type :=
  | Terminal (label : string)
  | Reduce (rule : R)
  | Repeat.
Arguments Terminal {R} label.
Arguments Reduce {R} rule.
Arguments Repeat {R}.

(** [@typedef {Object} ConversionRule] *)
#[warnings="-register-all"]
Inductive ConversionRule (N : Type) : Type := mkRule {
  dieA : Die;
  dieB : Die;
  makeFair : bool;
  throws : nat;
  conversions : list (TossRange * Branch (ConversionRule N));
  expectation : N
}.
Arguments mkRule {N}.
Arguments dieA {N}.
Arguments dieB {N}.
Arguments makeFair {N}.
Arguments throws {N}.
Arguments conversions {N}.
Arguments expectation {N}.

(** ** Numbers *)

(** The operations [getConversion] and [getBestConversion] apply to
    non-integer numbers. *)
Class JSNumber (N : Type) : Type := {
  ofNat : nat -> N;
  add : N -> N -> N;
  sub : N -> N -> N;
  mul : N -> N -> N;
  div : N -> N -> N;
  lt : N -> N -> bool;
  ge : N -> N -> bool
}.

(** IEEE binary64, as in JavaScript. An array length is below 2^32, so its
    conversion is exact. *)
Definition doubleOfNat (n : nat) : float :=
  PrimFloat.of_uint63 (Uint63.of_Z (Z.of_nat n)).

#[export] Instance Double : JSNumber float := {
  ofNat := doubleOfNat;
  add := PrimFloat.add;
  sub := PrimFloat.sub;
  mul := PrimFloat.mul;
  div := PrimFloat.div;
  lt := PrimFloat.ltb;
  ge := fun x y => PrimFloat.leb y x
}.

(** Rationals with the special values of IEEE arithmetic and no rounding. *)
Inductive ExtQ : Type :=
  | Finite (q : Qc)
  | PosInf
  | NegInf
  | NotANumber.

Definition qsign (q : Qc) : comparison := (q ?= 0)%Qc.

Definition extAdd (x y : ExtQ) : ExtQ :=
  match x, y with
  | NotANumber, _ | _, NotANumber => NotANumber
  | Finite a, Finite b => Finite (a + b)%Qc
  | PosInf, NegInf | NegInf, PosInf => NotANumber
  | PosInf, _ | _, PosInf => PosInf
  | NegInf, _ | _, NegInf => NegInf
  end.

Definition extNeg (x : ExtQ) : ExtQ :=
  match x with
  | Finite a => Finite (- a)%Qc
  | PosInf => NegInf
  | NegInf => PosInf
  | NotANumber => NotANumber
  end.

Definition extSub (x y : ExtQ) : ExtQ := extAdd x (extNeg y).

Definition extSign (x : ExtQ) : option comparison :=
  match x with
  | Finite a => Some (qsign a)
  | PosInf => Some Gt
  | NegInf => Some Lt
  | NotANumber => None
  end.

Definition infOfSign (c : comparison) : ExtQ :=
  match c with
  | Gt => PosInf
  | Lt => NegInf
  | Eq => NotANumber
  end.

Definition signMul (c d : comparison) : comparison :=
  match c, d with
  | Eq, _ | _, Eq => Eq
  | Gt, Gt | Lt, Lt => Gt
  | _, _ => Lt
  end.

Definition extMul (x y : ExtQ) : ExtQ :=
  match x, y with
  | Finite a, Finite b => Finite (a * b)%Qc
  | _, _ =>
      match extSign x, extSign y with
      | Some c, Some d => infOfSign (signMul c d)
      | _, _ => NotANumber
      end
  end.

(** [x / 0] is an infinity of the sign of [x], and [0 / 0] is NaN. *)
Definition extDiv (x y : ExtQ) : ExtQ :=
  match x, y with
  | NotANumber, _ | _, NotANumber => NotANumber
  | Finite a, Finite b =>
      match qsign b with
      | Eq => infOfSign (qsign a)
      | _ => Finite (a / b)%Qc
      end
  | Finite _, _ => Finite 0%Qc
  | _, Finite b =>
      match qsign b, x with
      | Lt, PosInf => NegInf
      | Lt, _ => PosInf
      | _, _ => x
      end
  | _, _ => NotANumber
  end.

Definition extLt (x y : ExtQ) : bool :=
  match x, y with
  | NotANumber, _ | _, NotANumber => false
  | Finite a, Finite b => match (a ?= b)%Qc with Lt => true | _ => false end
  | NegInf, NegInf | PosInf, _ | _, NegInf => false
  | _, _ => true
  end.

Definition extGe (x y : ExtQ) : bool :=
  match x, y with
  | NotANumber, _ | _, NotANumber => false
  | _, _ => negb (extLt x y)
  end.

Definition extOfNat (n : nat) : ExtQ := Finite (Q2Qc (inject_Z (Z.of_nat n))).

#[export] Instance Exact : JSNumber ExtQ := {
  ofNat := extOfNat;
  add := extAdd;
  sub := extSub;
  mul := extMul;
  div := extDiv;
  lt := extLt;
  ge := extGe
}.

(** ** [createDie] *)

(** [String(i)] for a non-negative integer. *)
Definition stringOfNat (i : nat) : string :=
  NilEmpty.string_of_uint (Nat.to_uint i).

Definition createDie (n : nat) : Die :=
  if n =? 2 then ["H"; "T"]%string else stringOfNat <$> seq 1 n.

(** ** [getDivisors] *)

(** The loop [for (let i = n; i >= 1; i--)], entered with counter [i]. *)
Fixpoint divisorsFrom (n i : nat) : list nat :=
  match i with
  | 0 => []
  | S i' => (if n mod i =? 0 then [i] else []) ++ divisorsFrom n i'
  end.

Definition getDivisors (n : nat) : list nat := divisorsFrom n n.

(** ** [generateTosses] *)

(** The default [Array.prototype.sort]: ascending in the order of the code
    units of the strings. *)
Fixpoint insertFace (x : string) (l : list string) : list string :=
  match l with
  | [] => [x]
  | y :: l' => if String.leb x y then x :: l else y :: insertFace x l'
  end.

Fixpoint sortFaces (l : list string) : list string :=
  match l with
  | [] => []
  | x :: l' => insertFace x (sortFaces l')
  end.

(** The key of [byChance]. [JSON.stringify] is injective on arrays of strings
    and never yields the empty string, so the key of an unfair toss is
    represented by the sorted array it serialises. *)
Inductive ChanceKey : Type :=
  | KeyEmpty
  | KeyJSON (sorted : list string).

#[export] Instance ChanceKey_eq_dec : EqDecision ChanceKey.
Proof. solve_decision. Defined.

(** [byChance.get(chanceKey)], [byChance.set] of a new range when there is
    none, and the two [push]es on the range. *)
Fixpoint addToss (key : ChanceKey) (f : list string) (id : nat)
    (byChance : list (ChanceKey * TossRange)) : list (ChanceKey * TossRange) :=
  match byChance with
  | [] => [(key, pushToss f id emptyRange)]
  | (k, r) :: rest =>
      if decide (k = key) then (k, pushToss f id r) :: rest
      else (k, r) :: addToss key f id rest
  end.

(** The carry loop [for (let j = throws - 1; j >= 0; j--)], entered with
    [j + 1 = k]. The write to [idDigits[-1]] of the last carry sets a
    property of the array that is not an element, so the elements do not
    change. *)
Fixpoint carry (n k : nat) (idDigits : list nat) : list nat :=
  match k with
  | 0 => idDigits
  | S j =>
      if nth j idDigits 0 <? n then idDigits
      else
        let d1 := <[j := nth j idDigits 0 - n]> idDigits in
        let d2 := match j with
                  | 0 => d1
                  | S j' => <[j' := nth j' d1 0 + 1]> d1
                  end in
        carry n j d2
  end.

(** "Move to next toss". *)
Definition nextDigits (n throws : nat) (idDigits : list nat) : list nat :=
  match throws with
  | 0 => idDigits
  | S j => carry n throws (<[j := nth j idDigits 0 + 1]> idDigits)
  end.

Definition chanceKeyOf (assumeUnfair : bool) (tossFacesArray : list string) : ChanceKey :=
  if assumeUnfair then KeyJSON (sortFaces tossFacesArray) else KeyEmpty.

(** The loop [for (let id = 0; id < total; id++)] with [count] iterations
    left. *)
Fixpoint tossLoop (die : Die) (assumeUnfair : bool) (throws count id : nat)
    (byChance : list (ChanceKey * TossRange)) (idDigits : list nat)
    : list (ChanceKey * TossRange) :=
  match count with
  | 0 => byChance
  | S count' =>
      let tossFacesArray := (fun d => nth d die ""%string) <$> idDigits in
      let byChance' :=
        addToss (chanceKeyOf assumeUnfair tossFacesArray) tossFacesArray id byChance in
      tossLoop die assumeUnfair throws count' (S id) byChance'
        (nextDigits (length die) throws idDigits)
  end.

Definition generateTosses (die : Die) (assumeUnfair : bool) (throws : nat)
    : list TossRange :=
  let total := length die ^ throws in
  snd <$> tossLoop die assumeUnfair throws total 0 [] (replicate throws 0).

(** ** [partitionTosses] *)

(** [a.slice(b, e)] for [0 <= b]. *)
Definition slice {A : Type} (b e : nat) (a : list A) : list A :=
  take (e - b) (drop b a).

(** The two nested loops under "Allocate them". *)
Definition allocate (divisor k : nat) (uniformRange : TossRange)
    (subRanges : list TossRange) : list TossRange :=
  foldl (fun sr i =>
           foldl (fun sr' j =>
                    alter (pushToss (nth (i * k + j) (faces uniformRange) [])
                                    (nth (i * k + j) (ids uniformRange) 0)) i sr')
                 sr (seq 0 k))
        subRanges (seq 0 divisor).

(** The loop over [tosses] for one divisor: the classes that remain, and the
    sub-ranges filled. A class used up is spliced out of [tosses]; a class
    partly used loses its first [divisor * k] members. *)
Fixpoint allocateAll (divisor : nat) (tosses subRanges : list TossRange)
    : list TossRange * list TossRange :=
  match tosses with
  | [] => ([], subRanges)
  | uniformRange :: rest =>
      let k := length (faces uniformRange) / divisor in
      if k =? 0 then
        let '(rest', sr) := allocateAll divisor rest subRanges in
        (uniformRange :: rest', sr)
      else
        let sr1 := allocate divisor k uniformRange subRanges in
        let n := divisor * k in
        if length (faces uniformRange) =? n then allocateAll divisor rest sr1
        else
          let '(rest', sr) := allocateAll divisor rest sr1 in
          ({| faces := drop n (faces uniformRange);
              ids := drop n (ids uniformRange) |} :: rest', sr)
  end.

(** [.sort((a, b) => a.id - b.id)] *)
Fixpoint insertById (x : list string * nat) (l : list (list string * nat))
    : list (list string * nat) :=
  match l with
  | [] => [x]
  | y :: l' => if snd x <=? snd y then x :: l else y :: insertById x l'
  end.

Fixpoint sortById (l : list (list string * nat)) : list (list string * nat) :=
  match l with
  | [] => []
  | x :: l' => insertById x (sortById l')
  end.

(** The range stored as a key of the result: the sub-range sorted by id. *)
Definition sortedRange (subRange : TossRange) : TossRange :=
  let toss := sortById (imap (fun i face => (face, nth i (ids subRange) 0))
                             (faces subRange)) in
  {| faces := fst <$> toss; ids := snd <$> toss |}.

(** "Add to result": the entries one divisor appends to the map. *)
Definition addToResult (subRanges : list TossRange) (subDice : list Die)
    : list (TossRange * Die) :=
  omap (fun '(i, subRange) =>
          if length (faces subRange) =? 0 then None
          else Some (sortedRange subRange, nth i subDice []))
       (imap (fun i subRange => (i, subRange)) subRanges).

Definition subDiceOf (die : Die) (divisor : nat) : list Die :=
  let subLength := length die / divisor in
  (fun i => slice (i * subLength) ((i + 1) * subLength) die) <$> seq 0 divisor.

(** The loop over the divisors: [tosses] is mutated from one divisor to the
    next, [result] grows. *)
Fixpoint partitionLoop (divisors : list nat) (die : Die)
    (tosses : list TossRange) (result : list (TossRange * Die))
    : list (TossRange * Die) :=
  match divisors with
  | [] => result
  | divisor :: divisors' =>
      let '(tosses', subRanges) :=
        allocateAll divisor tosses (replicate divisor emptyRange) in
      partitionLoop divisors' die tosses'
        (result ++ addToResult subRanges (subDiceOf die divisor))
  end.

Definition partitionTosses (tosses : list TossRange) (die : Die)
    : list (TossRange * Die) :=
  partitionLoop (getDivisors (length die)) die tosses [].

(** ** [getConversion] and [getBestConversion] *)

Section Conversion.
Context {N : Type} `{JSNumber N}.

(** The loop over [conversion.conversions]; [getBest] is the call
    [getBestConversion(dieA, subDie, makeFair)]. It returns the map with
    its values overwritten, and the final [z] and [sizeB]. *)
Fixpoint branchLoop (getBest : Die -> Outcome (ConversionRule N))
    (dieB : Die) (throws : nat) (sizeA : N)
    (entries : list (TossRange * Die)) (z : N) (sizeB : nat)
    : Outcome (list (TossRange * Branch (ConversionRule N)) * N * nat) :=
  match entries with
  | [] => Returned ([], z, sizeB)
  | (range, subDie) :: rest =>
      if length subDie =? length dieB then
        '(bs, z', sizeB') ← branchLoop getBest dieB throws sizeA rest z (length (faces range));
        Returned ((range, Repeat) :: bs, z', sizeB')
      else if length subDie =? 1 then
        '(bs, z', sizeB') ← branchLoop getBest dieB throws sizeA rest
            (add z (mul (div (ofNat (length (faces range))) sizeA) (ofNat throws)))
            sizeB;
        Returned ((range, Terminal (nth 0 subDie ""%string)) :: bs, z', sizeB')
      else
        subConversion ← getBest subDie;
        '(bs, z', sizeB') ← branchLoop getBest dieB throws sizeA rest
            (add z (mul (div (ofNat (length (faces range))) sizeA)
                        (add (ofNat throws) (expectation subConversion))))
            sizeB;
        Returned ((range, Reduce subConversion) :: bs, z', sizeB')
  end.

Definition getConversionWith (getBest : Die -> Outcome (ConversionRule N))
    (dieA dieB : Die) (makeFair : bool) (throws : nat)
    : Outcome (ConversionRule N) :=
  let entries := partitionTosses (generateTosses dieA makeFair throws) dieB in
  let sizeA := ofNat (length dieA ^ throws) in
  '(bs, z, sizeB) ← branchLoop getBest dieB throws sizeA entries (ofNat 0) 0;
  Returned (mkRule dieA dieB makeFair throws bs
              (div (add (mul sizeA z) (mul (ofNat sizeB) (ofNat throws)))
                   (sub sizeA (ofNat sizeB)))).

(** [while (totalAFaces < bFaces)] *)
Fixpoint minThrows (fuel aFaces bFaces throws totalAFaces : nat) : Outcome nat :=
  match fuel with
  | 0 => OutOfFuel
  | S fuel' =>
      if totalAFaces <? bFaces then
        minThrows fuel' aFaces bFaces (throws + 1) (totalAFaces * aFaces)
      else Returned throws
  end.

(** [while (true)] *)
Fixpoint search (conversionAt : nat -> Outcome (ConversionRule N))
    (fuel throws : nat) (best : option (ConversionRule N))
    : Outcome (ConversionRule N) :=
  match fuel with
  | 0 => OutOfFuel
  | S fuel' =>
      conversion ← conversionAt throws;
      let best' :=
        match best with
        | None => conversion
        | Some b => if lt (expectation conversion) (expectation b)
                    then conversion else b
        end in
      if ge (ofNat (throws + 1)) (expectation best') then Returned best'
      else search conversionAt fuel' (throws + 1) (Some best')
  end.

Fixpoint getBestConversion (fuel : nat) (dieA dieB : Die) (makeFair : bool)
    : Outcome (ConversionRule N) :=
  match fuel with
  | 0 => OutOfFuel
  | S fuel' =>
      throws ← minThrows fuel' (length dieA) (length dieB) 1 (length dieA);
      search (getConversionWith
                (fun subDie => getBestConversion fuel' dieA subDie makeFair)
                dieA dieB makeFair)
             fuel' throws None
  end.

Definition getConversion (fuel : nat) (dieA dieB : Die) (makeFair : bool)
    (throws : nat) : Outcome (ConversionRule N) :=
  getConversionWith (fun subDie => getBestConversion fuel dieA subDie makeFair)
    dieA dieB makeFair throws.
End Conversion.

(** ** Definitions used to state the properties *)

(** A list of face indices read as a number in base [n], the first draw being
    the most significant digit. *)
Definition digitsValue (n : nat) (ds : list nat) : nat :=
  foldl (fun acc d => acc * n + d) 0 ds.

(** The face sequence of a list of face indices. *)
Definition facesOf (die : Die) (ds : list nat) : list string :=
  (fun d => nth d die ""%string) <$> ds.

(** The tosses of a range, as pairs of a face sequence and an id. *)
Definition tossesOf (r : TossRange) : list (list string * nat) :=
  zip (faces r) (ids r).

(** All toss ids of a list of ranges. *)
Definition allIds (rs : list TossRange) : list nat := concat (ids <$> rs).

(** All the tosses of a list of ranges. *)
Definition allTosses (rs : list TossRange) : list (list string * nat) :=
  concat (tossesOf <$> rs).

(** The number of tosses of an entry of a map keyed by ranges. *)
Definition entrySize {B : Type} (e : TossRange * B) : nat := length (faces e.1).

Definition isRepeat {R : Type} (b : Branch R) : bool :=
  match b with
  | Repeat => true
  | _ => false
  end.

(** The expectation formula, in the words of the specification. *)
Section Formula.
Context {N : Type} `{JSNumber N}.

(** The expectation of a branch that is not the repeat branch. *)
Definition branchExpectation (b : Branch (ConversionRule N)) : option N :=
  match b with
  | Terminal _ => Some (ofNat 0)
  | Reduce rule => Some (expectation rule)
  | Repeat => None
  end.

(** [z] with the term of one branch added: [(branchSize / a) * (throws +
    branchExpectation)], and nothing for the repeat branch. *)
Definition specTerm (a : N) (throws : nat) (z : N)
    (rb : TossRange * Branch (ConversionRule N)) : N :=
  match branchExpectation rb.2 with
  | Some e => add z (mul (div (ofNat (entrySize rb)) a) (add (ofNat throws) e))
  | None => z
  end.

(** [z]: the sum of these terms over the branches. *)
Definition specZ (a : N) (throws : nat)
    (branches : list (TossRange * Branch (ConversionRule N))) : N :=
  foldl (specTerm a throws) (ofNat 0) branches.

(** [sizeB]: the number of outcomes in the repeat branch. *)
Definition specSizeB (branches : list (TossRange * Branch (ConversionRule N))) : nat :=
  sum_list_with entrySize (filter (fun rb => isRepeat rb.2) branches).

(** [(a * z + sizeB * throws) / (a - sizeB)] with [a = faceCount ^ throws]. *)
Definition specExpectation (rule : ConversionRule N) : N :=
  let a := ofNat (length (dieA rule) ^ throws rule) in
  let sizeB := specSizeB (conversions rule) in
  div (add (mul a (specZ a (throws rule) (conversions rule)))
           (mul (ofNat sizeB) (ofNat (throws rule))))
      (sub a (ofNat sizeB)).
End Formula.

(** Adding zero to an integer leaves it as it is, a law of both
    arithmetics. *)
Class AddsZero (N : Type) `{JSNumber N} : Prop :=
  add_zero : forall t : nat, add (ofNat t) (ofNat 0) = ofNat t.

(** ** Predicates of the invariants and of the statements *)

(** The digits while the carry loop runs: every digit is below [n], except
    that the digit the loop is about to look at may equal [n]. *)
Definition carrying (n t k : nat) (ds : list nat) : Prop :=
  length ds = t /\ k <= t /\
  forall i d, ds !! i = Some d -> d <= n /\ (S i <> k -> d < n).

(** [f] is the face sequence of the toss [id], and [key] its chance key. *)
Definition tossAt (die : Die) (unfair : bool) (t id : nat) (f : list string)
    (key : ChanceKey) : Prop :=
  exists ds, length ds = t /\ Forall (fun d => d < length die) ds /\
             digitsValue (length die) ds = id /\ f = facesOf die ds /\
             chanceKeyOf unfair f = key.

Record classOK (die : Die) (unfair : bool) (t bound : nat) (key : ChanceKey)
    (r : TossRange) : Prop := {
  class_len : length (faces r) = length (ids r);
  class_nonempty : ids r <> [];
  class_sorted : StronglySorted Nat.lt (ids r);
  class_tosses : forall i f id,
    faces r !! i = Some f -> ids r !! i = Some id ->
    id < bound /\ tossAt die unfair t id f key
}.

Definition chanceInv (die : Die) (unfair : bool) (t bound : nat)
    (m : list (ChanceKey * TossRange)) : Prop :=
  NoDup m.*1 /\
  Forall (fun kr => classOK die unfair t bound kr.1 kr.2) m /\
  allIds m.*2 ≡ₚ seq 0 bound.

(** A range whose two arrays run in parallel. *)
Definition wfRange (r : TossRange) : Prop := length (faces r) = length (ids r).

(** [r] with the tosses [fs], [is] pushed at its end. *)
Definition appendRange (fs : list (list string)) (js : list nat) (r : TossRange)
    : TossRange :=
  {| faces := faces r ++ fs; ids := ids r ++ js |}.

(** The sub-range [i] receives the [k] members from [i * k] on. *)
Definition chunkTo (k : nat) (u : TossRange) (i : nat) : TossRange -> TossRange :=
  appendRange (take k (drop (i * k) (faces u))) (take k (drop (i * k) (ids u))).

(** The entries of the sub-ranges [sr], the first of which has index [off]. *)
Definition entriesFrom (off : nat) (sr : list TossRange) (subDice : list Die)
    : list (TossRange * Die) :=
  omap (fun '(i, subRange) =>
          if length (faces subRange) =? 0 then None
          else Some (sortedRange subRange, nth i subDice []))
       (imap (fun i subRange => (off + i, subRange)) sr).

(** An entry whose sub-die has as many faces as the die: a repeat branch. *)
Definition fullEntry (die : Die) (e : TossRange * Die) : Prop :=
  length e.2 = length die.

Section Classified.
Context {N : Type} `{JSNumber N}.
Variables (getBest : Die -> Outcome (ConversionRule N)) (dieB : Die) (t : nat) (sizeA : N).

(** One iteration: the entry [(range, subDie)], entered with [z] and [sizeB],
    stores the branch [b] and leaves [z'] and [sizeB']. *)
Inductive classified (range : TossRange) (subDie : Die) (z : N) (sizeB : nat)
    : Branch (ConversionRule N) -> N -> nat -> Prop :=
  | classified_repeat :
      length subDie = length dieB ->
      classified range subDie z sizeB Repeat z (length (faces range))
  | classified_terminal :
      length subDie <> length dieB -> length subDie = 1 ->
      classified range subDie z sizeB (Terminal (nth 0 subDie ""%string))
        (add z (mul (div (ofNat (length (faces range))) sizeA) (ofNat t))) sizeB
  | classified_reduce subConversion :
      length subDie <> length dieB -> length subDie <> 1 ->
      getBest subDie = Returned subConversion ->
      classified range subDie z sizeB (Reduce subConversion)
        (add z (mul (div (ofNat (length (faces range))) sizeA)
                    (add (ofNat t) (expectation subConversion)))) sizeB.
End Classified.

(** [t] is the least number of throws, at least 1, with [a ^ t >= b]. *)
Definition leastThrows (a b t : nat) : Prop :=
  1 <= t /\ b <= a ^ t /\ forall s, 1 <= s < t -> a ^ s < b.

(** The rational of a natural number. *)
Definition qn (n : nat) : Qc := Q2Qc (inject_Z (Z.of_nat n)).

(** The toss [j] of one throw, alone in a range. *)
Definition singleToss (die : Die) (j : nat) : TossRange :=
  {| faces := [[nth j die ""%string]]; ids := [j] |}.

(** A non-negative rational. *)
Definition finiteNonneg (x : ExtQ) : Prop := exists q, x = Finite q /\ (0 <= q)%Qc.

(** A non-negative rational or [+Infinity]. *)
Definition comparable (x : ExtQ) : Prop := x = PosInf \/ finiteNonneg x.

(** The draws with the second face once, at [i], and the first face
    elsewhere. *)
Definition oneHot (t i : nat) : list nat := <[i := 1]> (replicate t 0).

(** [getBestConversion] returns the same rule from some fuel on, and its
    expectation is a non-negative rational. *)
Definition converges (dieA dieB : Die) (makeFair : bool) : Prop :=
  exists fuel0 rule,
    finiteNonneg (expectation rule) /\
    forall fuel, fuel0 <= fuel ->
      getBestConversion (N := ExtQ) fuel dieA dieB makeFair = Returned rule.

(** An expectation that is [+Infinity] or a rational that is at least [t]. *)
Definition atLeast (t : nat) (x : ExtQ) : Prop :=
  x = PosInf \/ exists q, x = Finite q /\ (qn t <= q)%Qc.

(** The running sum [z] after [c] terminal branches of the same [term]. *)
Fixpoint runningSum {N : Type} `{JSNumber N} (c : nat) (term z : N) : N :=
  match c with
  | 0 => z
  | S c' => runningSum c' term (add z term)
  end.

(** The expectation that [getConversion] stores for two dice of [n] faces
    and one throw: [sizeB] is 0 and [z] is the running sum of [n] terms
    [(1 / n) * 1]. *)
Definition sameSizeExpectation {N : Type} `{JSNumber N} (n : nat) : N :=
  let sizeA := ofNat (n ^ 1) in
  let z := runningSum n (mul (div (ofNat 1) sizeA) (ofNat 1)) (ofNat 0) in
  div (add (mul sizeA z) (mul (ofNat 0) (ofNat 1))) (sub sizeA (ofNat 0)).

(** The branches of the rule for two dice of the same size. *)
Definition identityBranches {N : Type} (dieA dieB : Die)
    : list (TossRange * Branch (ConversionRule N)) :=
  (fun j => (singleToss dieA j, Terminal (nth j dieB ""%string)))
    <$> seq 0 (length dieA).

(** The round and sticky bits of a shifted mantissa are both off: nothing
    was lost. *)
Definition flagsOff (mrs : shr_record) : Prop :=
  shr_r mrs = false /\ shr_s mrs = false.

(** The double [f] is [+0] or a positive finite double that is at most
    [mB * 2 ^ eB]. *)
Definition below (f : spec_float) (mB eB : Z) : Prop :=
  f = S754_zero false \/
  exists m e, f = S754_finite false m e /\ (e <= eB)%Z /\
              (Zpos m <= mB * 2 ^ (eB - e))%Z.

(** ** The analytic script [part_000] *)

(** The numbers of the script have a literal [Infinity]. *)
Class JSInfinity (N : Type) : Type := Infinity : N.

#[export] Instance Double_infinity : JSInfinity float := PrimFloat.infinity.
#[export] Instance Exact_infinity : JSInfinity ExtQ := PosInf.

Module Analytic.

(** The objects [{size, b, k, d}] of [getPartitions]. *)
Record Partition : Type := mkPartition {
  size : nat;
  b : nat;
  k : nat;
  d : nat
}.

(** The loop [for (let divisor of getDivisors(b))]; [a] is what is left to
    partition. The script's [getDivisors] is, letter for letter, that of
    [lib.js]. *)
Fixpoint partitionsLoop (divisors : list nat) (a b : nat) : list Partition :=
  match divisors with
  | [] => []
  | divisor :: rest =>
      let k := a / divisor in
      if k =? 0 then partitionsLoop rest a b
      else mkPartition (divisor * k) (b / divisor) k divisor
             :: partitionsLoop rest (a - divisor * k) b
  end.

Definition getPartitions (a b : nat) : list Partition :=
  partitionsLoop (getDivisors b) a b.

(** The objects [{weight, expected, desc}]. *)
Record Expected (N : Type) : Type := mkExpected {
  weight : nat;
  expected : N;
  desc : string
}.
Arguments mkExpected {N}.
Arguments weight {N}.
Arguments expected {N}.
Arguments desc {N}.

Section Expectation.
Context {N : Type} `{JSNumber N} `{JSInfinity N}.

(** The loop [for (let partition of partitions)] of [getExpectedValue];
    [getBest] is the call [getBestExpectedValue(a, partition.b)]. *)
Fixpoint valueLoop (getBest : nat -> Outcome (Expected N)) (a b weight : nat)
    (partitions : list Partition) (z : N) (sizeB : nat) (descSteps : list string)
    : Outcome (N * nat * list string) :=
  match partitions with
  | [] => Returned (z, sizeB, descSteps)
  | partition :: rest =>
      let step := (stringOfNat (Analytic.k partition) ++ "*"
                   ++ stringOfNat (Analytic.d partition))%string in
      if Analytic.b partition =? b then
        valueLoop getBest a b weight rest z (size partition) (descSteps ++ [step])
      else
        best ← getBest (Analytic.b partition);
        valueLoop getBest a b weight rest
          (add z (mul (div (ofNat (size partition)) (ofNat a))
                      (add (ofNat weight) (expected best))))
          sizeB (descSteps ++ [step])
  end.

(** [getExpectedValue(a, b, weight)]; the object it returns has no [weight]
    yet, which is 0 here until the caller sets it. *)
Definition getExpectedValueWith (getBest : nat -> Outcome (Expected N))
    (a b weight : nat) : Outcome (Expected N) :=
  if b =? 1 then Returned (mkExpected 0 (ofNat 0) ""%string)
  else
    '(z, sizeB, descSteps) ←
      valueLoop getBest a b weight (getPartitions a b) (ofNat 0) 0 [];
    Returned (mkExpected 0
                (div (add (mul (ofNat a) z) (mul (ofNat sizeB) (ofNat weight)))
                     (sub (ofNat a) (ofNat sizeB)))
                (String.concat "+" descSteps)).

(** [while (A < b)] *)
Fixpoint minWeight (fuel a b weight A : nat) : Outcome (nat * nat) :=
  match fuel with
  | 0 => OutOfFuel
  | S fuel' =>
      if A <? b then minWeight fuel' a b (weight + 1) (A * a)
      else Returned (weight, A)
  end.

(** [while (true)] *)
Fixpoint bestLoop (valueAt : nat -> nat -> Outcome (Expected N))
    (fuel a weight A : nat) (bestExpected : Expected N) : Outcome (Expected N) :=
  match fuel with
  | 0 => OutOfFuel
  | S fuel' =>
      value ← valueAt A weight;
      let expected' := mkExpected weight (expected value) (desc value) in
      let bestExpected' :=
        if lt (expected expected') (expected bestExpected)
        then expected' else bestExpected in
      if ge (ofNat (weight + 1)) (expected bestExpected') then Returned bestExpected'
      else bestLoop valueAt fuel' a (weight + 1) (A * a) bestExpected'
  end.

Fixpoint getBestExpectedValue (fuel a b : nat) : Outcome (Expected N) :=
  match fuel with
  | 0 => OutOfFuel
  | S fuel' =>
      '(weight, A) ← minWeight fuel' a b 1 a;
      bestLoop (fun A weight =>
                  getExpectedValueWith (getBestExpectedValue fuel' A) A b weight)
               fuel' a weight A (mkExpected 0 Infinity ""%string)
  end.

Definition getExpectedValue (fuel a b weight : nat) : Outcome (Expected N) :=
  getExpectedValueWith (getBestExpectedValue fuel a) a b weight.
End Expectation.

End Analytic.

(** ** Predicates of the shares of [partitionTosses] *)

(** The members of a class have one key. *)
Definition uniformClass {K : Type} (key : list string -> K) (u : TossRange) : Prop :=
  forall f g, f ∈ faces u -> g ∈ faces u -> key f = key g.

(** The entries of the pass of a divisor [d]: none, or one for each sub-die,
    in order, all with the keys [M] up to their order. *)
Definition passEntries {K : Type} (key : list string -> K) (die : Die) (d : nat)
    (es : list (TossRange * Die)) : Prop :=
  es = [] \/
  (es.*2 = subDiceOf die d /\
   exists M, M <> [] /\ Forall (fun e => key <$> faces e.1 ≡ₚ M) es).

(** The number of tosses of an entry and the number of faces of its
    sub-die. *)
Definition entryShape (e : TossRange * Die) : nat * nat := (entrySize e, length e.2).

(** The entries an object of [getPartitions] stands for: [d] of them, of
    [k] tosses each, with sub-dice of [b] faces. *)
Definition partitionShape (p : Analytic.Partition) : list (nat * nat) :=
  replicate (Analytic.d p) (Analytic.k p, Analytic.b p).

(** ** [getTossRangeText] *)

(** [a.join(sep)] for an array of strings. *)
Definition join (sep : string) (a : list string) : string := String.concat sep a.

(** Reading [.join] of [undefined]. *)
Definition TypeError : string := "TypeError".

(** [pushSeq(iStart, iEnd)]; [iStart = None] is [-Infinity], for which
    [range.faces[iStart]] is [undefined] whatever [iEnd]. *)
Definition pushSeq (range : TossRange) (iStart : option nat) (iEnd : nat)
    (seq : list string) : Outcome (list string) :=
  match iStart with
  | None => Thrown TypeError
  | Some s =>
      match faces range !! s with
      | None => Thrown TypeError
      | Some fs =>
          let start := join " " fs in
          if iEnd =? s then Returned (seq ++ [start])
          else if iEnd =? s + 1 then
            match faces range !! iEnd with
            | None => Thrown TypeError
            | Some fe => Returned (seq ++ [start; join " " fe])
            end
          else
            match faces range !! iEnd with
            | None => Thrown TypeError
            | Some fe => Returned (seq ++ [(start ++ " - " ++ join " " fe)%string])
            end
      end
  end.

(** The loop [for (let i = 0; i < range.ids.length; i++)], entered at index
    [i] with the ids from there on; [lastId = None] is [-Infinity]. *)
Fixpoint textLoop (range : TossRange) (ids : list nat) (i : nat)
    (iStart lastId : option nat) (seq : list string)
    : Outcome (option nat * list string) :=
  match ids with
  | [] => Returned (iStart, seq)
  | id :: rest =>
      let newSequence := match lastId with
                         | None => true
                         | Some l => l + 1 <? id
                         end in
      if newSequence then
        seq' ← match iStart with
               | None => Returned seq
               | Some _ => pushSeq range iStart (i - 1) seq
               end;
        textLoop range rest (i + 1) (Some i) (Some id) seq'
      else textLoop range rest (i + 1) iStart (Some id) seq
  end.

Definition getTossRangeText (range : TossRange) : Outcome string :=
  '(iStart, seq) ← textLoop range (ids range) 0 None None [];
  seq' ← pushSeq range iStart (length (ids range) - 1) seq;
  Returned (join ", " seq').

(** ** [getConversionText] *)

(** [String(n)] for a natural number, and the two ways of saying how many
    throws. *)
Definition throwsText (throws : nat) : string :=
  if throws =? 1 then "once"%string else (stringOfNat throws ++ " times")%string.

Section ConversionText.
Context {N : Type}.

(** [Number.prototype.toFixed(1)] of the arithmetic at hand. *)
Variable toFixed1 : N -> string.

(** The loop [for (let [range, subConversion] of conversion.conversions)] of
    [prepareText(conversion, prefix)], with the shared [step] and [lines]
    passed along; [prepare] is the call of [prepareText] on a rule of a
    reduction. *)
Definition branchLines
    (prepare : ConversionRule N -> string -> nat -> list string
               -> Outcome (nat * list string))
    (prefix : string) (firstStep : nat)
    : list (TossRange * Branch (ConversionRule N)) -> nat -> list string
      -> Outcome (nat * list string) :=
  fix branches bs step lines :=
    match bs with
    | [] => Returned (step, lines)
    | (range, subConversion) :: rest =>
        text ← getTossRangeText range;
        match subConversion with
        | Terminal label =>
            branches rest step
              (lines ++ [(prefix ++ "  " ++ text ++ " => return " ++ label)%string])
        | Repeat =>
            branches rest step
              (lines ++ [(prefix ++ "  " ++ text ++ " => repeat from step "
                          ++ stringOfNat firstStep)%string])
        | Reduce sub =>
            '(step', lines') ←
              prepare sub (prefix ++ "    ")%string step
                (lines ++ [(prefix ++ "  " ++ text
                            ++ " => execute the following")%string]);
            branches rest step' lines'
        end
    end.

(** [prepareText(conversion, prefix)] *)
Fixpoint prepareText (conversion : ConversionRule N) (prefix : string)
    (step : nat) (lines : list string) : Outcome (nat * list string) :=
  let firstStep := step in
  let lines1 :=
    lines ++ [(prefix ++ stringOfNat step ++ ". Throw it "
               ++ throwsText (throws conversion))%string] in
  let lines2 :=
    lines1 ++ [(prefix ++ stringOfNat (step + 1)
                ++ ". Find the result in the following table:")%string] in
  branchLines prepareText prefix firstStep (conversions conversion) (step + 2) lines2.

(** The lines of [getConversionText], before [lines.join('\n')]. *)
Definition conversionLines (conversion : ConversionRule N)
    : Outcome (list string) :=
  let lines :=
    [("Convert " ++ join " " (dieA conversion) ++ " to "
      ++ join " " (dieB conversion)
      ++ (if makeFair conversion then "" else " without")
      ++ " guaranteeing the result to be equally likely")%string;
     ("You will have to throw it " ++ toFixed1 (expectation conversion)
      ++ " times on average")%string] in
  '(_, lines') ← prepareText conversion ""%string 1 lines;
  Returned lines'.

Definition newline : string := String (ascii_of_nat 10) EmptyString.

Definition getConversionText (conversion : ConversionRule N) : Outcome string :=
  lines ← conversionLines conversion;
  Returned (join newline lines).
End ConversionText.

(** ** Predicates of the texts *)

(** The pieces of text of a run of tosses from the index [iStart] to the
    index [iEnd] of a range: one face sequence, two, or the first and the
    last with a dash. *)
Definition runText (fs : list string) (iStart iEnd : nat) (fe : list string)
    : list string :=
  if iEnd =? iStart then [join " " fs]
  else if iEnd =? iStart + 1 then [join " " fs; join " " fe]
  else [(join " " fs ++ " - " ++ join " " fe)%string].

(** No id is more than one above the id before it. *)
Definition noGap (ids : list nat) : Prop :=
  forall j a b, ids !! j = Some a -> ids !! (S j) = Some b -> b <= a + 1.

(** The rules of a tree and their branches, counted. *)
Fixpoint ruleCount {N : Type} (rule : ConversionRule N) : nat :=
  1 + sum_list_with (fun rb => match rb.2 with
                               | Reduce sub => ruleCount sub
                               | _ => 0
                               end) (conversions rule).

Fixpoint branchCount {N : Type} (rule : ConversionRule N) : nat :=
  sum_list_with (fun rb => match rb.2 with
                           | Reduce sub => 1 + branchCount sub
                           | _ => 1
                           end) (conversions rule).

(** A range with ids, and a face sequence for each. *)
Definition textable (r : TossRange) : Prop :=
  ids r <> [] /\ length (ids r) <= length (faces r).

(** [prepareText] on the rule returns, takes two steps for each rule of the
    tree, and adds two lines for each rule and one for each branch. *)
Definition prepares {N : Type} (rule : ConversionRule N) : Prop :=
  forall prefix step lines,
    exists lines',
      prepareText rule prefix step lines
      = Returned (step + 2 * ruleCount rule, lines') /\
      length lines' = length lines + 2 * ruleCount rule + branchCount rule.

(** ** [getConversionTables] *)

(** A row of a table: a JS array of strings in which an index may be a
    hole. *)
Abbreviation Row := (list (option string)).

(** [row[j] = cell], which fills the array with holes up to [j] when it is
    shorter. *)
Definition setCell (j : nat) (cell : string) (row : Row) : Row :=
  if j <? length row then <[j := Some cell]> row
  else row ++ replicate (j - length row) None ++ [Some cell].

Section Tables.
Context {N : Type}.

(** [tablesConversions.findIndex(c => c.dieB.join(' ') ===
    subConversion.dieB.join(' '))], and the [push] when there is none. *)
Fixpoint findIndex (key : string) (tablesConversions : list (ConversionRule N))
    : option nat :=
  match tablesConversions with
  | [] => None
  | c :: rest =>
      if decide (join " " (dieB c) = key) then Some 0
      else S <$> findIndex key rest
  end.

Definition tableIdOf (subConversion : ConversionRule N)
    (tablesConversions : list (ConversionRule N))
    : nat * list (ConversionRule N) :=
  match findIndex (join " " (dieB subConversion)) tablesConversions with
  | Some tableId => (tableId, tablesConversions)
  | None => (length tablesConversions, tablesConversions ++ [subConversion])
  end.

(** The loop [for (let id of range.ids)]; [subConversion] is the value of
    the map, which for a repeat branch is the rule itself. *)
Fixpoint fillIds (columns : nat) (label : option string)
    (subConversion : ConversionRule N) (ids : list nat)
    (table : list Row) (tablesConversions : list (ConversionRule N))
    : Outcome (list Row * list (ConversionRule N)) :=
  match ids with
  | [] => Returned (table, tablesConversions)
  | id :: rest =>
      if columns =? 0 then Thrown TypeError
      else
        let row := id / columns in
        let column := id mod columns in
        let '(cell, tablesConversions') :=
          match label with
          | Some s => (s, tablesConversions)
          | None =>
              let '(tableId, tcs) := tableIdOf subConversion tablesConversions in
              (("Rule " ++ stringOfNat (tableId + 1))%string, tcs)
          end in
        match table !! (row + 1) with
        | None => Thrown TypeError
        | Some r =>
            fillIds columns label subConversion rest
              (<[row + 1 := setCell (column + 1) cell r]> table) tablesConversions'
        end
  end.

(** The loop [for (let [range, subConversion] of conversion.conversions)]. *)
Fixpoint fillTable (columns : nat) (conversion : ConversionRule N)
    (bs : list (TossRange * Branch (ConversionRule N)))
    (table : list Row) (tablesConversions : list (ConversionRule N))
    : Outcome (list Row * list (ConversionRule N)) :=
  match bs with
  | [] => Returned (table, tablesConversions)
  | (range, b) :: rest =>
      '(table', tablesConversions') ←
        match b with
        | Terminal label =>
            fillIds columns (Some label) conversion (ids range) table tablesConversions
        | Reduce sub =>
            fillIds columns None sub (ids range) table tablesConversions
        | Repeat =>
            fillIds columns None conversion (ids range) table tablesConversions
        end;
      fillTable columns conversion rest table' tablesConversions'
  end.

(** [generateTosses(dieA, false, throws)[0].faces] *)
Definition firstFaces (dieA : Die) (throws : nat) : Outcome (list (list string)) :=
  match generateTosses dieA false throws with
  | [] => Thrown TypeError
  | r :: _ => Returned (faces r)
  end.

Definition prepareConversionTable (tablesConversions : list (ConversionRule N))
    (conversion : ConversionRule N)
    : Outcome (list Row * list (ConversionRule N)) :=
  let columnsThrows := throws conversion / 2 in
  let rowThrows := throws conversion - columnsThrows in
  columnsFaces ← firstFaces (dieA conversion) columnsThrows;
  rowFaces ← firstFaces (dieA conversion) rowThrows;
  let header : Row :=
    Some ("Throw " ++ throwsText (throws conversion))%string
    :: ((fun columnsFace => Some (join " " columnsFace)) <$> columnsFaces) in
  let rows : list Row :=
    (fun rowFace => Some (join " " rowFace) :: replicate (length columnsFaces) None)
    <$> rowFaces in
  fillTable (length columnsFaces) conversion (conversions conversion)
    (header :: rows) tablesConversions.

(** The loop [for (let i = 0; i < tablesConversions.length; i++)], which
    runs while [prepareConversionTable] adds rules to the list. *)
Fixpoint tablesLoop (fuel i : nat) (tables : list (list Row))
    (tablesConversions : list (ConversionRule N)) : Outcome (list (list Row)) :=
  match fuel with
  | 0 => OutOfFuel
  | S fuel' =>
      match tablesConversions !! i with
      | None => Returned tables
      | Some conversion =>
          '(table, tablesConversions') ←
            prepareConversionTable tablesConversions conversion;
          tablesLoop fuel' (i + 1) (tables ++ [table]) tablesConversions'
      end
  end.

Definition getConversionTables (fuel : nat) (conversion : ConversionRule N)
    : Outcome (list (list Row)) :=
  tablesLoop fuel 0 [] [conversion].
End Tables.

(** ** Predicates of the tables *)

(** A rule of the tree of a source die [dieA0]: its ranges hold each id of
    its tosses once, and the rules of its reductions are such rules. *)
#[warnings="-register-all"]
Inductive tabular {N : Type} (dieA0 : Die) : ConversionRule N -> Prop :=
  | tabular_rule rule :
      dieA rule = dieA0 ->
      allIds (conversions rule).*1 ≡ₚ seq 0 (length dieA0 ^ throws rule) ->
      Forall (fun rb => forall sub, rb.2 = Reduce sub -> tabular dieA0 sub)
             (conversions rule) ->
      tabular dieA0 rule.

(** The rows of a table as long as one another. *)
Definition tableShape (R C : nat) (table : list Row) : Prop :=
  length table = 1 + R /\ Forall (fun row => length row = 1 + C) table.

(** The cell [j] of the row [i] is not a hole. *)
Definition cellSome (table : list Row) (i j : nat) : Prop :=
  exists row s, table !! i = Some row /\ row !! j = Some (Some s).

(** A table of [1 + R] rows of [1 + C] cells without a hole. *)
Definition fullTable (R C : nat) (table : list Row) : Prop :=
  length table = 1 + R /\
  Forall (fun row => length row = 1 + C /\ Forall is_Some row) table.

(** The rules of the reductions of a list of branches. *)
Definition reductions {N : Type} (bs : list (TossRange * Branch (ConversionRule N)))
    : list (ConversionRule N) :=
  omap (fun rb => match rb.2 with Reduce sub => Some sub | _ => None end) bs.

(** A table, without a hole, of a rule of [t] throws of the source die
    [dieA0], for some [t]. *)
Definition ruleTable (dieA0 : Die) (table : list Row) : Prop :=
  exists t, fullTable (length dieA0 ^ (t - t / 2)) (length dieA0 ^ (t / 2)) table.

(** * The order of the face labels *)

Definition faceLe (x y : string) : Prop := String.leb x y = true.

Lemma ascii_compare_lt_trans a b c :
  Ascii.compare a b = Lt -> Ascii.compare b c = Lt -> Ascii.compare a c = Lt.
Proof.
  unfold Ascii.compare. rewrite !N.compare_lt_iff. lia.
Qed.

Lemma string_compare_trans :
  forall s1 s2 s3,
    String.compare s1 s2 <> Gt -> String.compare s2 s3 <> Gt ->
    String.compare s1 s3 <> Gt.
Proof.
  induction s1 as [|a s1 IH]; intros [|b s2] [|c s3]; simpl; try congruence.
  destruct (Ascii.compare a b) eqn:Hab; try congruence.
  - apply Ascii.compare_eq_iff in Hab. subst b.
    destruct (Ascii.compare a c) eqn:Hac; try congruence.
    apply IH.
  - destruct (Ascii.compare b c) eqn:Hbc; try congruence.
    + apply Ascii.compare_eq_iff in Hbc. subst c. rewrite Hab. congruence.
    + rewrite (ascii_compare_lt_trans _ _ _ Hab Hbc). congruence.
Qed.

Lemma leb_compare s1 s2 : String.leb s1 s2 = true <-> String.compare s1 s2 <> Gt.
Proof.
  unfold String.leb. destruct (String.compare s1 s2); split; congruence.
Qed.

#[local] Instance faceLe_trans : Transitive faceLe.
Proof.
  intros x y z. unfold faceLe. rewrite !leb_compare. apply string_compare_trans.
Qed.

#[local] Instance faceLe_antisym : AntiSymm (=) faceLe.
Proof. intros x y. apply String.leb_antisym. Qed.

Lemma faceLe_total x y : faceLe x y \/ faceLe y x.
Proof. apply String.leb_total. Qed.

(** * [sortFaces] *)

Lemma insertFace_perm x l : insertFace x l ≡ₚ x :: l.
Proof.
  induction l as [|y l IH]; simpl; [done|].
  destruct (String.leb x y); [done|].
  rewrite IH. apply perm_swap.
Qed.

Lemma sortFaces_perm l : sortFaces l ≡ₚ l.
Proof.
  induction l as [|x l IH]; simpl; [done|].
  by rewrite insertFace_perm, IH.
Qed.

Lemma insertFace_sorted x l :
  StronglySorted faceLe l -> StronglySorted faceLe (insertFace x l).
Proof.
  induction 1 as [|y l Hl IH Hy]; simpl.
  - repeat constructor.
  - destruct (String.leb x y) eqn:Hxy.
    + constructor; [by constructor|].
      constructor; [exact Hxy|].
      eapply Forall_impl; [exact Hy|]. intros z Hz. by transitivity y.
    + constructor; [exact IH|].
      rewrite insertFace_perm. constructor; [|exact Hy].
      destruct (faceLe_total x y) as [H|H]; [|exact H].
      unfold faceLe in H. congruence.
Qed.

Lemma sortFaces_sorted l : StronglySorted faceLe (sortFaces l).
Proof.
  induction l; simpl; [constructor|]. by apply insertFace_sorted.
Qed.

Lemma sortFaces_eq_iff l1 l2 : sortFaces l1 = sortFaces l2 <-> l1 ≡ₚ l2.
Proof.
  split.
  - intros Heq. by rewrite <- (sortFaces_perm l1), Heq, sortFaces_perm.
  - intros Hp. apply (StronglySorted_unique faceLe); try apply sortFaces_sorted.
    by rewrite !sortFaces_perm.
Qed.

(** * Digits *)

Lemma digitsValue_foldl n ds a :
  foldl (fun acc d => acc * n + d) a ds = a * n ^ length ds + digitsValue n ds.
Proof.
  unfold digitsValue. revert a.
  induction ds as [|d ds IH]; intros a; simpl; [lia|].
  rewrite (IH (a * n + d)), (IH d). lia.
Qed.

Lemma digitsValue_cons n d ds :
  digitsValue n (d :: ds) = d * n ^ length ds + digitsValue n ds.
Proof. unfold digitsValue at 1. simpl. apply digitsValue_foldl. Qed.

Lemma digitsValue_app n l1 l2 :
  digitsValue n (l1 ++ l2) = digitsValue n l1 * n ^ length l2 + digitsValue n l2.
Proof.
  induction l1 as [|d l1 IH]; simpl; [done|].
  rewrite !digitsValue_cons, IH, length_app, Nat.pow_add_r. lia.
Qed.

Lemma digitsValue_bound n ds :
  Forall (fun d => d < n) ds -> digitsValue n ds < n ^ length ds.
Proof.
  induction 1 as [|d ds Hd _ IH]; [unfold digitsValue; simpl; lia|].
  rewrite digitsValue_cons. simpl.
  pose proof (Nat.mul_le_mono_r (S d) n (n ^ length ds) Hd). lia.
Qed.

Lemma digitsValue_inj n ds1 ds2 :
  length ds1 = length ds2 ->
  Forall (fun d => d < n) ds1 -> Forall (fun d => d < n) ds2 ->
  digitsValue n ds1 = digitsValue n ds2 -> ds1 = ds2.
Proof.
  intros Hlen H1. revert ds2 Hlen.
  induction H1 as [|d ds1 Hd H1 IH]; intros [|e ds2] Hlen H2 Hv;
    simpl in Hlen; try discriminate; [done|].
  inversion H2 as [|? ? He H2']; subst.
  rewrite !digitsValue_cons in Hv.
  injection Hlen as Hlen.
  pose proof (digitsValue_bound n ds1 H1) as B1.
  pose proof (digitsValue_bound n ds2 H2') as B2.
  rewrite <- Hlen in *.
  assert (d = e).
  { destruct (Nat.lt_trichotomy d e) as [Hlt|[Heq|Hgt]]; [|done|].
    - pose proof (Nat.mul_le_mono_r (S d) e (n ^ length ds1) Hlt). lia.
    - pose proof (Nat.mul_le_mono_r (S e) d (n ^ length ds1) Hgt). lia. }
  subst e.
  f_equal. apply IH; [done..|lia].
Qed.

Lemma digitsValue_insert n ds j x :
  j < length ds ->
  digitsValue n (<[j := x]> ds) + nth j ds 0 * n ^ (length ds - 1 - j)
  = digitsValue n ds + x * n ^ (length ds - 1 - j).
Proof.
  intros Hj.
  destruct (lookup_lt_is_Some_2 ds j Hj) as [d Hd].
  rewrite (nth_lookup_Some _ _ _ _ Hd).
  assert (length (drop (S j) ds) = length ds - 1 - j) as Hlen
    by (rewrite length_drop; lia).
  assert (digitsValue n ds
          = digitsValue n (take j ds) * (n * n ^ (length ds - 1 - j))
            + (d * n ^ (length ds - 1 - j) + digitsValue n (drop (S j) ds))) as Hv.
  { rewrite <- (take_drop_middle ds j d Hd) at 1.
    rewrite digitsValue_app, digitsValue_cons. simpl. by rewrite Hlen. }
  rewrite insert_take_drop by done.
  rewrite digitsValue_app, digitsValue_cons. simpl. rewrite Hlen, Hv. lia.
Qed.

Lemma carry_spec n t k : forall ds,
  carrying n t k ds -> digitsValue n ds < n ^ t ->
  length (carry n k ds) = t /\
  Forall (fun d => d < n) (carry n k ds) /\
  digitsValue n (carry n k ds) = digitsValue n ds.
Proof.
  induction k as [|j IH]; intros ds (Hlen & Hk & Hds) Hv; simpl.
  - split; [done|]. split; [|done].
    apply Forall_lookup. intros i d Hd. apply (Hds i d Hd). lia.
  - assert (j < length ds) as Hj by lia.
    destruct (lookup_lt_is_Some_2 ds j Hj) as [d Hd].
    rewrite (nth_lookup_Some _ _ _ _ Hd).
    destruct (Nat.ltb_spec d n) as [Hlt|Hge].
    + split; [done|]. split; [|done].
      apply Forall_lookup. intros i e He.
      destruct (decide (i = j)) as [->|Hne]; [congruence|].
      apply (Hds i e He). lia.
    + assert (d = n) as -> by (pose proof (Hds j d Hd); lia).
      rewrite Nat.sub_diag.
      pose proof (digitsValue_insert n ds j 0 Hj) as E1.
      rewrite (nth_lookup_Some _ _ _ _ Hd) in E1.
      destruct j as [|j'].
      * exfalso. rewrite Hlen, Nat.sub_0_r in E1.
        assert (n * n ^ (t - 1) = n ^ t) as E2.
        { destruct t; [lia|]. simpl. by rewrite Nat.sub_0_r. }
        lia.
      * set (d1 := <[S j' := 0]> ds) in *.
        assert (length d1 = length ds) as Hlen1 by apply length_insert.
        assert (j' < length d1) as Hj' by lia.
        destruct (lookup_lt_is_Some_2 ds j' ltac:(lia)) as [e He].
        assert (d1 !! j' = Some e) as He1.
        { unfold d1. rewrite list_lookup_insert_ne by lia. done. }
        rewrite (nth_lookup_Some _ _ _ _ He1).
        pose proof (digitsValue_insert n d1 j' (e + 1) Hj') as E2.
        rewrite (nth_lookup_Some _ _ _ _ He1) in E2.
        assert (0 < n) as Hn.
        { destruct n; [|lia]. destruct t; [lia|]. simpl in Hv. lia. }
        assert (n ^ (length ds - 1 - j') = n * n ^ (length ds - 1 - S j')) as E3.
        { replace (length ds - 1 - j') with (S (length ds - 1 - S j')) by lia. done. }
        rewrite Hlen1, E3 in E2.
        destruct (IH (<[j' := e + 1]> d1)) as (L & F & V).
        { split; [by rewrite length_insert; lia|]. split; [lia|].
          intros i x Hx.
          destruct (decide (i = j')) as [->|Hne].
          - rewrite list_lookup_insert_eq in Hx by done.
            injection Hx as <-. pose proof (Hds j' e He). lia.
          - rewrite list_lookup_insert_ne in Hx by done.
            unfold d1 in Hx.
            destruct (decide (i = S j')) as [->|Hne'].
            + rewrite list_lookup_insert_eq in Hx by lia. injection Hx as <-. lia.
            + rewrite list_lookup_insert_ne in Hx by done.
              pose proof (Hds i x Hx). lia. }
        { nia. }
        split; [done|]. split; [done|]. nia.
Qed.

Lemma nextDigits_spec n t ds :
  length ds = t -> Forall (fun d => d < n) ds -> digitsValue n ds + 1 < n ^ t ->
  length (nextDigits n t ds) = t /\
  Forall (fun d => d < n) (nextDigits n t ds) /\
  digitsValue n (nextDigits n t ds) = digitsValue n ds + 1.
Proof.
  intros Hlen Hds Hv. unfold nextDigits.
  destruct t as [|j]; [simpl in Hv; lia|].
  assert (j < length ds) as Hj by lia.
  destruct (lookup_lt_is_Some_2 ds j Hj) as [d Hd].
  rewrite (nth_lookup_Some _ _ _ _ Hd).
  pose proof (digitsValue_insert n ds j (d + 1) Hj) as E.
  rewrite (nth_lookup_Some _ _ _ _ Hd) in E.
  replace (length ds - 1 - j) with 0 in E by lia. simpl in E.
  destruct (carry_spec n (S j) (S j) (<[j := d + 1]> ds)) as (L & F & V).
  - split; [by rewrite length_insert|]. split; [done|].
    intros i x Hx. destruct (decide (i = j)) as [->|Hne].
    + rewrite list_lookup_insert_eq in Hx by done. injection Hx as <-.
      pose proof (proj1 (Forall_lookup _ _) Hds j d Hd). simpl in *. lia.
    + rewrite list_lookup_insert_ne in Hx by done.
      pose proof (proj1 (Forall_lookup _ _) Hds i x Hx). simpl in *. lia.
  - lia.
  - split; [done|]. split; [done|]. lia.
Qed.

(** * [addToss] *)

Lemma addToss_new key f id (m : list (ChanceKey * TossRange)) :
  key ∉ m.*1 -> addToss key f id m = m ++ [(key, pushToss f id emptyRange)].
Proof.
  induction m as [|[k r] m IH]; simpl; intros Hk; [done|].
  apply not_elem_of_cons in Hk as [Hne Hk].
  destruct (decide (k = key)); [congruence|]. by rewrite IH.
Qed.

Lemma addToss_old key f id (m1 m2 : list (ChanceKey * TossRange)) r :
  key ∉ m1.*1 ->
  addToss key f id (m1 ++ (key, r) :: m2) = m1 ++ (key, pushToss f id r) :: m2.
Proof.
  induction m1 as [|[k r'] m1 IH]; simpl; intros Hk.
  - by destruct (decide (key = key)).
  - apply not_elem_of_cons in Hk as [Hne Hk].
    destruct (decide (k = key)); [congruence|]. by rewrite IH.
Qed.

Lemma chance_split key (m : list (ChanceKey * TossRange)) :
  key ∈ m.*1 -> exists m1 r m2, m = m1 ++ (key, r) :: m2 /\ key ∉ m1.*1.
Proof.
  induction m as [|[k r] m IH]; simpl; intros Hk; [by apply elem_of_nil in Hk|].
  destruct (decide (k = key)) as [->|Hne].
  - exists [], r, m. split; [done|]. apply not_elem_of_nil.
  - apply elem_of_cons in Hk as [Hk|Hk]; [congruence|].
    destruct (IH Hk) as (m1 & r' & m2 & -> & Hm1).
    exists ((k, r) :: m1), r', m2. split; [done|].
    simpl. apply not_elem_of_cons. split; [congruence|done].
Qed.

(** * The invariant of the loop of [generateTosses] *)

Lemma classOK_mono die unfair t b b' key r :
  b <= b' -> classOK die unfair t b key r -> classOK die unfair t b' key r.
Proof.
  intros Hb [H1 H2 H3 H4]. split; try done.
  intros i f id Hf Hi. destruct (H4 i f id Hf Hi). split; [lia|done].
Qed.

Lemma classOK_push die unfair t id key f r :
  tossAt die unfair t id f key ->
  length (faces r) = length (ids r) ->
  StronglySorted Nat.lt (ids r) ->
  (forall i f' id', faces r !! i = Some f' -> ids r !! i = Some id' ->
                    id' < id /\ tossAt die unfair t id' f' key) ->
  classOK die unfair t (S id) key (pushToss f id r).
Proof.
  intros Hat Hlen Hs Hall. split; simpl.
  - rewrite !length_app. simpl. lia.
  - by destruct (ids r).
  - apply StronglySorted_app_2; [|done|repeat constructor].
    intros x y Hx Hy. apply list_elem_of_singleton in Hy as ->.
    apply list_elem_of_lookup in Hx as [i Hi].
    destruct (lookup_lt_is_Some_2 (faces r) i) as [f' Hf'].
    { rewrite Hlen. by eapply lookup_lt_Some. }
    by destruct (Hall i f' x Hf' Hi).
  - intros i f' id' Hf' Hi'.
    destruct (decide (i < length (ids r))) as [Hlt|Hge].
    + rewrite lookup_app_l in Hf' by lia. rewrite lookup_app_l in Hi' by lia.
      destruct (Hall i f' id' Hf' Hi'). split; [lia|done].
    + rewrite lookup_app_r in Hf' by lia. rewrite lookup_app_r in Hi' by lia.
      rewrite Hlen in Hf'.
      destruct (i - length (ids r)); simpl in *; [|done].
      injection Hf' as <-. injection Hi' as <-. split; [lia|done].
Qed.

Lemma allIds_app rs1 rs2 : allIds (rs1 ++ rs2) = allIds rs1 ++ allIds rs2.
Proof. unfold allIds. by rewrite fmap_app, concat_app. Qed.

Lemma allIds_cons r rs : allIds (r :: rs) = ids r ++ allIds rs.
Proof. done. Qed.

Lemma chanceInv_addToss die unfair t id m f :
  tossAt die unfair t id f (chanceKeyOf unfair f) ->
  chanceInv die unfair t id m ->
  chanceInv die unfair t (S id) (addToss (chanceKeyOf unfair f) f id m).
Proof.
  set (key := chanceKeyOf unfair f).
  intros Hat (Hnd & Hall & Hperm).
  assert (Forall (fun kr => classOK die unfair t (S id) kr.1 kr.2) m) as Hall'.
  { eapply Forall_impl; [exact Hall|]. intros kr. apply classOK_mono. lia. }
  destruct (decide (key ∈ m.*1)) as [Hin|Hnin].
  - destruct (chance_split key m Hin) as (m1 & r & m2 & -> & Hm1).
    rewrite addToss_old by done. unfold chanceInv.
    rewrite !fmap_app, !fmap_cons in *. cbn [fst snd] in *.
    split; [done|]. split.
    + apply Forall_app in Hall as [Ha1 Ha2]. apply Forall_cons in Ha2 as [[L _ S T] Ha2].
      apply Forall_app in Hall' as [Hb1 Hb2]. apply Forall_cons in Hb2 as [_ Hb2].
      apply Forall_app. split; [done|]. apply Forall_cons. split; [|done].
      simpl in *. by apply classOK_push.
    + rewrite allIds_app, allIds_cons in *. cbn [ids pushToss].
      rewrite seq_S. cbn [Nat.add]. rewrite <- Hperm.
      rewrite <- !(assoc_L (++)). do 2 apply Permutation_app_head.
      apply Permutation_app_comm.
  - rewrite addToss_new by done.
    split; [|split].
    + rewrite fmap_app. simpl. apply NoDup_app. split; [done|]. split.
      * intros x Hx Hx'. apply list_elem_of_singleton in Hx' as ->. done.
      * apply NoDup_singleton.
    + apply Forall_app. split; [done|]. apply Forall_singleton. simpl.
      apply classOK_push; [done|done|constructor|].
      intros i f' id' Hf'. simpl in Hf'. by rewrite lookup_nil in Hf'.
    + rewrite fmap_app, allIds_app, seq_S, Hperm. done.
Qed.

Lemma tossLoop_inv die unfair t : forall count id m ds,
  id + count = length die ^ t ->
  (count <> 0 -> length ds = t /\ Forall (fun d => d < length die) ds /\
                 digitsValue (length die) ds = id) ->
  chanceInv die unfair t id m ->
  chanceInv die unfair t (length die ^ t) (tossLoop die unfair t count id m ds).
Proof.
  induction count as [|c IH]; intros id m ds Hid Hds Hinv; simpl.
  - by rewrite Nat.add_0_r in Hid; subst.
  - destruct Hds as (L & F & V); [done|].
    apply IH.
    + lia.
    + intros Hc. destruct (nextDigits_spec (length die) t ds L F) as (L' & F' & V').
      * lia.
      * split; [done|]. split; [done|]. lia.
    + apply (chanceInv_addToss die unfair t id m (facesOf die ds)); [|done].
      by exists ds.
Qed.

Lemma digitsValue_replicate n t : digitsValue n (replicate t 0) = 0.
Proof.
  induction t as [|t IH]; [done|].
  simpl. rewrite digitsValue_cons, IH. lia.
Qed.

(** What [byChance] satisfies when the loop of [generateTosses] ends. *)
Lemma generateTosses_inv die unfair t :
  chanceInv die unfair t (length die ^ t)
    (tossLoop die unfair t (length die ^ t) 0 [] (replicate t 0)).
Proof.
  apply tossLoop_inv.
  - done.
  - intros Hne. split; [apply length_replicate|]. split.
    + destruct t as [|t]; [constructor|].
      apply Forall_replicate.
      destruct (length die) as [|n]; [|lia]. by simpl in Hne.
    + apply digitsValue_replicate.
  - split; [constructor|]. split; [constructor|]. done.
Qed.

(** * [generateTosses] *)

Lemma StronglySorted_seq a n : StronglySorted Nat.lt (seq a n).
Proof.
  revert a. induction n as [|n IH]; intros a; simpl; constructor; [apply IH|].
  apply Forall_forall. intros x Hx. apply elem_of_seq in Hx. unfold Nat.lt. lia.
Qed.

Lemma sorted_ids_unique (l1 l2 : list nat) :
  StronglySorted Nat.lt l1 -> StronglySorted Nat.lt l2 -> l1 ≡ₚ l2 -> l1 = l2.
Proof.
  apply StronglySorted_unique_strong. unfold Nat.lt. intros; lia.
Qed.

Lemma facesOf_inj die ds1 ds2 :
  NoDup die ->
  Forall (fun d => d < length die) ds1 -> Forall (fun d => d < length die) ds2 ->
  facesOf die ds1 = facesOf die ds2 -> ds1 = ds2.
Proof.
  intros Hnd H1. revert ds2.
  induction H1 as [|d ds1 Hd _ IH]; intros ds2 H2 Heq; destruct H2 as [|e ds2 He H2];
    simpl in Heq; try discriminate; [done|].
  injection Heq as Hde Heq. f_equal; [|by apply IH].
  destruct (lookup_lt_is_Some_2 die d Hd) as [x Hx].
  destruct (lookup_lt_is_Some_2 die e He) as [y Hy].
  rewrite (nth_lookup_Some _ _ _ _ Hx), (nth_lookup_Some _ _ _ _ Hy) in Hde. subst y.
  by eapply NoDup_lookup.
Qed.

Lemma filter_unique {A} (P : A -> Prop) `{forall x, Decision (P x)} (l : list A) x :
  NoDup l -> x ∈ l -> P x -> (forall y, y ∈ l -> P y -> y = x) ->
  filter P l = [x].
Proof.
  induction l as [|a l IH]; intros Hnd Hx HP Hall; [by apply elem_of_nil in Hx|].
  apply NoDup_cons in Hnd as [Ha Hnd].
  assert (forall y, y ∈ l -> P y -> y = x) as Hall'
    by (intros y Hy; apply Hall; by right).
  apply elem_of_cons in Hx as [->|Hx].
  - rewrite filter_cons_True by done. f_equal.
    destruct (filter P l) as [|y k] eqn:E; [done|].
    assert (y ∈ filter P l) as Hy by (rewrite E; left).
    apply list_elem_of_filter in Hy as [HPy Hy].
    rewrite (Hall' y Hy HPy) in Hy. done.
  - rewrite filter_cons_False; [by apply IH|].
    intros HPa. apply Ha. rewrite (Hall a) by (done || left). done.
Qed.

Lemma elem_of_concat {A} (x : A) (ls : list (list A)) :
  x ∈ concat ls <-> exists l, l ∈ ls /\ x ∈ l.
Proof.
  induction ls as [|l ls IH]; simpl.
  - split; [by intros ?%elem_of_nil|]. by intros (l & ?%elem_of_nil & _).
  - rewrite elem_of_app, IH. split.
    + intros [Hx|(l' & Hl' & Hx)]; [exists l; split; [left|done]|].
      exists l'. split; [by right|done].
    + intros (l' & Hl' & Hx). apply elem_of_cons in Hl' as [->|Hl']; [by left|].
      right. by exists l'.
Qed.

Lemma elem_of_allTosses f id rs :
  (f, id) ∈ allTosses rs <->
  exists r i, r ∈ rs /\ faces r !! i = Some f /\ ids r !! i = Some id.
Proof.
  unfold allTosses. rewrite elem_of_concat. split.
  - intros (l & Hl & Hx). apply list_elem_of_fmap in Hl as (r & -> & Hr).
    apply list_elem_of_lookup in Hx as [i Hi].
    apply lookup_zip_Some in Hi. exists r, i. tauto.
  - intros (r & i & Hr & Hf & Hi). exists (tossesOf r). split.
    + by apply list_elem_of_fmap_2.
    + apply list_elem_of_lookup. exists i. by apply lookup_zip_Some.
Qed.

Lemma allTosses_ids rs :
  Forall (fun r => length (faces r) = length (ids r)) rs ->
  (allTosses rs).*2 = allIds rs.
Proof.
  unfold allTosses, allIds. induction 1 as [|r rs Hr _ IH]; [done|].
  rewrite !fmap_cons, !concat_cons, fmap_app, IH. f_equal. apply snd_zip. lia.
Qed.

Section GenerateTosses.
Variables (die : Die) (unfair : bool) (t : nat).

Let n := length die.
Let byChance := tossLoop die unfair t (n ^ t) 0 [] (replicate t 0).

Lemma generateTosses_classes : generateTosses die unfair t = byChance.*2.
Proof. done. Qed.

Lemma generateTosses_class r :
  r ∈ generateTosses die unfair t ->
  exists key, (key, r) ∈ byChance /\ classOK die unfair t (n ^ t) key r.
Proof.
  rewrite generateTosses_classes. intros ([key r'] & -> & Hin)%list_elem_of_fmap.
  exists key. split; [done|].
  destruct (generateTosses_inv die unfair t) as (_ & Hall & _).
  by apply (proj1 (Forall_forall _ _) Hall (key, r')).
Qed.

Lemma generateTosses_wf :
  Forall (fun r => length (faces r) = length (ids r)) (generateTosses die unfair t).
Proof.
  apply Forall_forall. intros r Hr.
  destruct (generateTosses_class r Hr) as (key & _ & []). done.
Qed.

Lemma generateTosses_ids : allIds (generateTosses die unfair t) ≡ₚ seq 0 (n ^ t).
Proof. apply generateTosses_inv. Qed.

Lemma generateTosses_toss f id :
  (f, id) ∈ allTosses (generateTosses die unfair t) ->
  id < n ^ t /\
  exists ds, length ds = t /\ Forall (fun d => d < n) ds /\
             f = facesOf die ds /\ id = digitsValue n ds.
Proof.
  intros (r & i & Hr & Hf & Hi)%elem_of_allTosses.
  destruct (generateTosses_class r Hr) as (key & _ & [_ _ _ Ht]).
  destruct (Ht i f id Hf Hi) as (Hlt & ds & ? & ? & ? & ? & _).
  split; [done|]. by exists ds.
Qed.

Lemma generateTosses_NoDup : NoDup (allTosses (generateTosses die unfair t)).
Proof.
  apply (NoDup_fmap_1 snd).
  rewrite allTosses_ids by apply generateTosses_wf.
  rewrite generateTosses_ids. apply NoDup_seq.
Qed.

Lemma generateTosses_complete ds :
  length ds = t -> Forall (fun d => d < n) ds ->
  (facesOf die ds, digitsValue n ds) ∈ allTosses (generateTosses die unfair t).
Proof.
  intros Hlen Hds.
  assert (digitsValue n ds ∈ (allTosses (generateTosses die unfair t)).*2) as Hin.
  { rewrite allTosses_ids by apply generateTosses_wf.
    rewrite generateTosses_ids. apply elem_of_seq.
    pose proof (digitsValue_bound n ds Hds). subst t. lia. }
  apply list_elem_of_fmap in Hin as ([f id] & Hid & Hin). simpl in Hid. subst id.
  destruct (generateTosses_toss _ _ Hin) as (_ & ds' & L & F & -> & V).
  assert (ds = ds') as <- by (apply (digitsValue_inj n); congruence || done).
  done.
Qed.

Lemma generateTosses_once ds :
  NoDup die -> length ds = t -> Forall (fun d => d < n) ds ->
  filter (fun x => x.1 = facesOf die ds) (allTosses (generateTosses die unfair t))
  = [(facesOf die ds, digitsValue n ds)].
Proof.
  intros Hnd Hlen Hds. apply filter_unique.
  - apply generateTosses_NoDup.
  - by apply generateTosses_complete.
  - done.
  - intros [f id] Hin Hf. simpl in Hf. subst f.
    destruct (generateTosses_toss _ _ Hin) as (_ & ds' & L & F & E & ->).
    assert (ds = ds') as <- by (by apply (facesOf_inj die)).
    done.
Qed.

Lemma generateTosses_key i r f :
  generateTosses die unfair t !! i = Some r -> f ∈ faces r ->
  byChance.*1 !! i = Some (chanceKeyOf unfair f).
Proof.
  rewrite generateTosses_classes, !list_lookup_fmap.
  destruct (byChance !! i) as [[key r']|] eqn:E; simpl; [|done].
  intros [= ->] Hf. f_equal.
  destruct (generateTosses_inv die unfair t) as (_ & Hall & _).
  destruct (proj1 (Forall_lookup _ _) Hall i _ E) as [L _ _ Ht]. simpl in *.
  apply list_elem_of_lookup in Hf as [p Hp].
  destruct (lookup_lt_is_Some_2 (ids r) p) as [id Hid].
  { rewrite <- L. by eapply lookup_lt_Some. }
  destruct (Ht p f id Hp Hid) as (_ & ds & _ & _ & _ & _ & <-). done.
Qed.

End GenerateTosses.

Lemma generateTosses_same_class die t i j ri rj fi fj :
  generateTosses die true t !! i = Some ri ->
  generateTosses die true t !! j = Some rj ->
  fi ∈ faces ri -> fj ∈ faces rj ->
  i = j <-> fi ≡ₚ fj.
Proof.
  intros Hi Hj Hfi Hfj.
  pose proof (generateTosses_key die true t i ri fi Hi Hfi) as Ki.
  pose proof (generateTosses_key die true t j rj fj Hj Hfj) as Kj.
  simpl in Ki, Kj. split.
  - intros ->. rewrite Ki in Kj. injection Kj as Kj. by apply sortFaces_eq_iff.
  - intros Hp. apply sortFaces_eq_iff in Hp. rewrite <- Hp in Kj.
    destruct (generateTosses_inv die true t) as (Hnd & _ & _).
    eapply NoDup_lookup; [exact Hnd|exact Ki|exact Kj].
Qed.

Lemma generateTosses_fair die t :
  1 <= length die ^ t ->
  exists r, generateTosses die false t = [r] /\ ids r = seq 0 (length die ^ t) /\
            length (faces r) = length die ^ t.
Proof.
  intros Htot.
  destruct (generateTosses_inv die false t) as (Hnd & Hall & Hperm).
  rewrite generateTosses_classes.
  set (byChance := tossLoop die false t (length die ^ t) 0 [] (replicate t 0)) in *.
  assert (forall kr, kr ∈ byChance -> kr.1 = KeyEmpty) as Hkeys.
  { intros [key r] Hin. simpl.
    destruct (proj1 (Forall_forall _ _) Hall _ Hin) as [L Hne _ Ht]. simpl in *.
    destruct (ids r) as [|id l] eqn:E; [done|].
    destruct (faces r) as [|f l'] eqn:E'; [done|].
    destruct (Ht 0 f id) as (_ & ds & _ & _ & _ & _ & <-); done. }
  destruct byChance as [|[k1 r1] [|[k2 r2] m]] eqn:E.
  - simpl in Hperm. apply Permutation_nil in Hperm.
    destruct (length die ^ t); [lia|done].
  - exists r1. split; [done|].
    apply Forall_singleton in Hall as [L _ S _]. simpl in *.
    unfold allIds in Hperm. simpl in Hperm. rewrite app_nil_r in Hperm.
    assert (ids r1 = seq 0 (length die ^ t)) as Hids
      by (apply sorted_ids_unique; [done|apply StronglySorted_seq|done]).
    split; [done|]. by rewrite L, Hids, length_seq.
  - exfalso. simpl in Hnd. apply NoDup_cons in Hnd as [Hnin _]. apply Hnin.
    pose proof (Hkeys (k1, r1) ltac:(left)) as E1.
    pose proof (Hkeys (k2, r2) ltac:(right; left)) as E2.
    simpl in E1, E2. subst. left.
Qed.

(** * [partitionTosses] *)

(** Permutations of the same lists appended in two orders: the head of the
    left side is looked for on the right side by rotating it. *)
Ltac perm_step :=
  match goal with
  | |- ?a ≡ₚ ?a => reflexivity
  | |- ?a ++ ?l ≡ₚ ?a ++ ?r => apply Permutation_app_head
  | |- ?l ≡ₚ ?x ++ ?r =>
      transitivity (r ++ x);
      [rewrite <- ?(assoc_L (++)) | apply Permutation_app_comm]
  end.
Ltac solve_perm :=
  rewrite <- ?(assoc_L (++)), ?app_nil_r; do 40 (try perm_step).

Lemma nth_seq_slice {A} (l : list A) (d : A) b k :
  b + k <= length l -> (fun x => nth x l d) <$> seq b k = take k (drop b l).
Proof.
  intros Hb. apply list_eq. intros i.
  rewrite list_lookup_fmap.
  destruct (decide (i < k)) as [Hi|Hi].
  - rewrite lookup_seq_lt by done. simpl.
    rewrite lookup_take_lt, lookup_drop by done.
    destruct (lookup_lt_is_Some_2 l (b + i) ltac:(lia)) as [x Hx].
    by rewrite (nth_lookup_Some _ _ _ _ Hx).
  - rewrite lookup_seq_ge, lookup_take_ge by lia. done.
Qed.

Lemma allocate_inner (F : list (list string)) (I : list nat) b i k (sr : list TossRange) :
  foldl (fun sr' j => alter (pushToss (nth (b + j) F []) (nth (b + j) I 0)) i sr')
        sr (seq 0 k)
  = alter (appendRange ((fun x => nth x F []) <$> seq b k)
                       ((fun x => nth x I 0) <$> seq b k)) i sr.
Proof.
  induction k as [|k IH].
  - simpl. symmetry. apply list_alter_id. intros [fs js].
    unfold appendRange. simpl. by rewrite !app_nil_r.
  - rewrite !seq_S, foldl_snoc, IH, list_alter_alter_eq. simpl.
    apply list_alter_ext; [|done]. intros [fs js] _.
    unfold appendRange, pushToss. simpl.
    by rewrite !fmap_app, !(assoc_L (++)).
Qed.

Lemma allocate_alter divisor k u sr :
  divisor * k <= length (faces u) -> divisor * k <= length (ids u) ->
  allocate divisor k u sr
  = foldl (fun sr' i => alter (chunkTo k u i) i sr') sr (seq 0 divisor).
Proof.
  intros HF HI. unfold allocate.
  assert (forall i, i ∈ seq 0 divisor -> i * k + k <= divisor * k) as Hi.
  { intros i Hi%elem_of_seq. nia. }
  revert sr Hi. generalize (seq 0 divisor) as l.
  induction l as [|i l IH]; intros sr Hi; simpl; [done|].
  rewrite allocate_inner, (nth_seq_slice (faces u)), (nth_seq_slice (ids u)).
  - apply IH. intros j Hj. apply Hi. by right.
  - specialize (Hi i ltac:(left)). lia.
  - specialize (Hi i ltac:(left)). lia.
Qed.

Lemma alter_each_lookup {A} (g : nat -> A -> A) (sr : list A) d j :
  foldl (fun sr' i => alter (g i) i sr') sr (seq 0 d) !! j
  = (if decide (j < d) then g j else id) <$> sr !! j.
Proof.
  induction d as [|d IH].
  - simpl. by destruct (sr !! j).
  - rewrite seq_S, foldl_snoc. simpl.
    destruct (decide (j = d)) as [->|Hne].
    + rewrite list_lookup_alter_eq, IH.
      destruct (decide (d < S d)); [|lia]. destruct (decide (d < d)); [lia|].
      by destruct (sr !! d).
    + rewrite list_lookup_alter_ne, IH by done.
      destruct (decide (j < d)), (decide (j < S d)); done || lia.
Qed.

Lemma alter_each_length {A} (g : nat -> A -> A) (sr : list A) (l : list nat) :
  length (foldl (fun sr' i => alter (g i) i sr') sr l) = length sr.
Proof.
  revert sr. induction l as [|i l IH]; intros sr; simpl; [done|].
  by rewrite IH, length_alter.
Qed.

Lemma allocate_lookup divisor k u sr j :
  divisor * k <= length (faces u) -> divisor * k <= length (ids u) ->
  allocate divisor k u sr !! j
  = (if decide (j < divisor) then chunkTo k u j else id) <$> sr !! j.
Proof.
  intros HF HI. rewrite allocate_alter by done. apply alter_each_lookup.
Qed.

Lemma allocate_length divisor k u sr :
  length (allocate divisor k u sr) = length sr.
Proof.
  unfold allocate. revert sr. generalize (seq 0 divisor) as l.
  induction l as [|i l IH]; intros sr; simpl; [done|].
  rewrite IH. generalize (seq 0 k) as l'. revert sr.
  intros sr l'. revert sr.
  induction l' as [|j l' IH']; intros sr; simpl; [done|].
  by rewrite IH', length_alter.
Qed.

Lemma allIds_alter_append fs js (sr : list TossRange) i :
  i < length sr -> allIds (alter (appendRange fs js) i sr) ≡ₚ allIds sr ++ js.
Proof.
  revert i. induction sr as [|r sr IH]; intros i Hi; simpl in Hi; [lia|].
  destruct i as [|i].
  - change (alter (appendRange fs js) 0 (r :: sr)) with (appendRange fs js r :: sr).
    rewrite !allIds_cons. simpl.
    rewrite <- !(assoc_L (++)). apply Permutation_app_head.
    apply Permutation_app_comm.
  - change (alter (appendRange fs js) (S i) (r :: sr))
      with (r :: alter (appendRange fs js) i sr).
    rewrite !allIds_cons, IH by lia. by rewrite (assoc_L (++)).
Qed.

(** The ids of the chunks, one after the other, are the ids taken. *)
Lemma allIds_alter_each k u (sr : list TossRange) d :
  d <= length sr ->
  allIds (foldl (fun sr' i => alter (chunkTo k u i) i sr') sr (seq 0 d))
  ≡ₚ allIds sr ++ take (d * k) (ids u).
Proof.
  intros Hd. induction d as [|d IH].
  - simpl. by rewrite app_nil_r.
  - rewrite seq_S, foldl_snoc. simpl. unfold chunkTo at 1.
    rewrite allIds_alter_append by (rewrite alter_each_length; lia).
    rewrite IH by lia.
    by rewrite (Nat.add_comm k (d * k)), <- take_take_drop, (assoc_L (++)).
Qed.

Lemma allocate_ids divisor k u sr :
  divisor * k <= length (faces u) -> divisor * k <= length (ids u) ->
  divisor <= length sr ->
  allIds (allocate divisor k u sr) ≡ₚ allIds sr ++ take (divisor * k) (ids u).
Proof.
  intros HF HI Hd. rewrite allocate_alter by done. by apply allIds_alter_each.
Qed.

Lemma allocate_wf divisor k u sr :
  divisor * k <= length (faces u) -> divisor * k <= length (ids u) ->
  Forall wfRange sr -> Forall wfRange (allocate divisor k u sr).
Proof.
  intros HF HI Hsr. apply Forall_lookup. intros j r.
  rewrite allocate_lookup by done.
  destruct (sr !! j) as [r0|] eqn:E; simpl; [|done].
  intros [= <-]. pose proof (proj1 (Forall_lookup _ _) Hsr j r0 E) as W.
  destruct (decide (j < divisor)); [|done].
  unfold wfRange, chunkTo, appendRange in *. simpl.
  rewrite !length_app, !length_take, !length_drop.
  assert (j * k + k <= divisor * k) by nia. lia.
Qed.

(** * The loop over the classes *)

Lemma allocateAll_spec divisor : forall tosses sr tosses' sr',
  allocateAll divisor tosses sr = (tosses', sr') ->
  Forall wfRange tosses -> Forall wfRange sr -> divisor <= length sr ->
  length sr' = length sr /\ Forall wfRange tosses' /\ Forall wfRange sr' /\
  allIds tosses' ++ allIds sr' ≡ₚ allIds tosses ++ allIds sr.
Proof.
  induction tosses as [|u tosses IH]; intros sr tosses' sr' Heq Wt Ws Hd; simpl in Heq.
  - injection Heq as <- <-. done.
  - apply Forall_cons in Wt as [Wu Wt]. unfold wfRange in Wu.
    set (k := length (faces u) / divisor) in *.
    assert (divisor * k <= length (faces u)) as Hk.
    { unfold k. destruct divisor; [lia|]. apply Nat.Div0.mul_div_le. }
    destruct (Nat.eqb_spec k 0) as [Hk0|Hk0].
    + destruct (allocateAll divisor tosses sr) as [rest' sr1] eqn:E.
      injection Heq as <- <-.
      destruct (IH sr rest' sr1 E Wt Ws Hd) as (L & W1 & W2 & P).
      split; [done|]. split; [by constructor|]. split; [done|].
      rewrite !allIds_cons, <- !(assoc_L (++)). by apply Permutation_app_head.
    + pose proof (allocate_wf divisor k u sr Hk ltac:(lia) Ws) as Ws1.
      pose proof (allocate_ids divisor k u sr Hk ltac:(lia) Hd) as P1.
      pose proof (allocate_length divisor k u sr) as L1.
      set (sr1 := allocate divisor k u sr) in *.
      assert (ids u = take (divisor * k) (ids u) ++ drop (divisor * k) (ids u)) as Eu
        by (by rewrite take_drop).
      destruct (Nat.eqb_spec (length (faces u)) (divisor * k)) as [Hn|Hn].
      * destruct (IH sr1 tosses' sr' Heq Wt Ws1 ltac:(lia)) as (L & W1 & W2 & P).
        split; [lia|]. split; [done|]. split; [done|].
        rewrite P, P1, allIds_cons.
        rewrite (take_ge (ids u)) by lia. solve_perm.
      * destruct (allocateAll divisor tosses sr1) as [rest' sr2] eqn:E.
        injection Heq as <- <-.
        destruct (IH sr1 rest' sr2 E Wt Ws1 ltac:(lia)) as (L & W1 & W2 & P).
        split; [lia|]. split.
        { constructor; [|done]. unfold wfRange. simpl. rewrite !length_drop. lia. }
        split; [done|].
        rewrite !allIds_cons. simpl.
        set (T := take (divisor * k) (ids u)) in *.
        set (D := drop (divisor * k) (ids u)) in *.
        rewrite <- (assoc_L (++)), P, P1, Eu. solve_perm.
Qed.

Lemma allocateAll_length divisor : forall tosses sr,
  length (allocateAll divisor tosses sr).2 = length sr.
Proof.
  induction tosses as [|u tosses IH]; intros sr; simpl; [done|].
  destruct (_ =? 0).
  - specialize (IH sr). by destruct (allocateAll divisor tosses sr).
  - destruct (_ =? _).
    + by rewrite IH, allocate_length.
    + specialize (IH (allocate divisor (length (faces u) / divisor) u sr)).
      destruct (allocateAll divisor tosses _). simpl in *.
      by rewrite IH, allocate_length.
Qed.

(** With no class left, a divisor allocates nothing. *)
Lemma allocateAll_nil divisor sr : allocateAll divisor [] sr = ([], sr).
Proof. done. Qed.

Lemma allocateAll_cons divisor u rest sr :
  allocateAll divisor (u :: rest) sr
  = let k := length (faces u) / divisor in
    if k =? 0 then
      let '(rest', sr') := allocateAll divisor rest sr in (u :: rest', sr')
    else
      let sr1 := allocate divisor k u sr in
      let n := divisor * k in
      if length (faces u) =? n then allocateAll divisor rest sr1
      else
        let '(rest', sr') := allocateAll divisor rest sr1 in
        ({| faces := drop n (faces u); ids := drop n (ids u) |} :: rest', sr').
Proof. done. Qed.

(** The divisor 1 takes every member of every class. *)
Lemma allocateAll_one : forall tosses sr,
  Forall wfRange tosses -> allIds (allocateAll 1 tosses sr).1 = [].
Proof.
  induction tosses as [|u tosses IH]; intros sr Wt; [done|].
  apply Forall_cons in Wt as [Wu Wt]. unfold wfRange in Wu.
  rewrite allocateAll_cons. cbv zeta.
  rewrite Nat.div_1_r, Nat.mul_1_l, Nat.eqb_refl.
  destruct (Nat.eqb_spec (length (faces u)) 0) as [H0|H0].
  - specialize (IH sr Wt). destruct (allocateAll 1 tosses sr). simpl in *.
    rewrite allIds_cons, IH, app_nil_r.
    destruct (ids u); [done|simpl in *; lia].
  - by apply IH.
Qed.

(** A class with at least [divisor] members loses some of them. *)
Lemma allocateAll_takes divisor : forall tosses sr u,
  1 <= divisor -> u ∈ tosses -> divisor <= length (faces u) ->
  Forall wfRange tosses ->
  length (allIds (allocateAll divisor tosses sr).1) < length (allIds tosses).
Proof.
  intros tosses sr u Hd Hu Hlen Wt.
  assert (forall tosses sr, Forall wfRange tosses ->
            length (allIds (allocateAll divisor tosses sr).1) <= length (allIds tosses))
    as Hle.
  { clear. induction tosses as [|v tosses IH]; intros sr Wt; simpl; [done|].
    apply Forall_cons in Wt as [Wv Wt]. unfold wfRange in Wv.
    destruct (_ =? 0).
    - specialize (IH sr Wt). destruct (allocateAll divisor tosses sr). simpl in *.
      rewrite !allIds_cons, !length_app. lia.
    - destruct (_ =? _).
      + rewrite allIds_cons, length_app. specialize (IH (allocate divisor (length (faces v) / divisor) v sr) Wt). lia.
      + specialize (IH (allocate divisor (length (faces v) / divisor) v sr) Wt).
        destruct (allocateAll divisor tosses _). simpl in *.
        rewrite !allIds_cons, !length_app. simpl. rewrite length_drop. lia. }
  revert sr. induction Wt as [|v tosses Wv Wt IH]; intros sr;
    [by apply elem_of_nil in Hu|].
  unfold wfRange in Wv. simpl.
  apply elem_of_cons in Hu as [<-|Hu].
  - assert (1 <= length (faces u) / divisor) as Hk
      by (apply Nat.div_le_lower_bound; lia).
    destruct (Nat.eqb_spec (length (faces u) / divisor) 0) as [?|_]; [lia|].
    destruct (_ =? _).
    + rewrite allIds_cons, length_app.
      specialize (Hle tosses (allocate divisor (length (faces u) / divisor) u sr) Wt).
      lia.
    + specialize (Hle tosses (allocate divisor (length (faces u) / divisor) u sr) Wt).
      destruct (allocateAll divisor tosses _). simpl in *.
      rewrite !allIds_cons, !length_app. simpl. rewrite length_drop. nia.
  - destruct (_ =? 0).
    + specialize (IH Hu sr). destruct (allocateAll divisor tosses sr). simpl in *.
      rewrite !allIds_cons, !length_app. lia.
    + destruct (_ =? _).
      * rewrite allIds_cons, length_app.
        specialize (IH Hu (allocate divisor (length (faces v) / divisor) v sr)). lia.
      * specialize (IH Hu (allocate divisor (length (faces v) / divisor) v sr)).
        destruct (allocateAll divisor tosses _). simpl in *.
        rewrite !allIds_cons, !length_app. simpl. rewrite length_drop. lia.
Qed.

(** * [sortedRange] *)

Lemma insertById_perm x l : insertById x l ≡ₚ x :: l.
Proof.
  induction l as [|y l IH]; simpl; [done|].
  destruct (_ <=? _); [done|]. rewrite IH. apply perm_swap.
Qed.

Lemma sortById_perm l : sortById l ≡ₚ l.
Proof.
  induction l as [|x l IH]; simpl; [done|]. by rewrite insertById_perm, IH.
Qed.

Lemma imap_zip (F : list (list string)) (I : list nat) :
  length F <= length I ->
  imap (fun i face => (face, nth i I 0)) F = zip F I.
Proof.
  revert I. induction F as [|f F IH]; intros I Hlen; [done|].
  destruct I as [|x I]; simpl in Hlen; [lia|].
  rewrite imap_cons. simpl. f_equal. rewrite <- IH by lia.
  by apply imap_ext.
Qed.

Lemma sortedRange_ids r : wfRange r -> ids (sortedRange r) ≡ₚ ids r.
Proof.
  intros W. unfold wfRange in W. unfold sortedRange. simpl.
  rewrite sortById_perm, imap_zip by lia. by rewrite snd_zip by lia.
Qed.

Lemma sortedRange_length r :
  length (faces (sortedRange r)) = length (faces r) /\
  length (ids (sortedRange r)) = length (faces r).
Proof.
  unfold sortedRange. simpl. rewrite !length_fmap.
  by rewrite (Permutation_length (sortById_perm _)), length_imap.
Qed.

Lemma sortedRange_wf r : wfRange (sortedRange r).
Proof. unfold wfRange. destruct (sortedRange_length r). congruence. Qed.

(** The ids of a stored range are ascending, as [TossRange] documents. *)
Lemma insertById_sorted x l :
  StronglySorted (fun a b => a.2 <= b.2) l ->
  StronglySorted (fun a b => a.2 <= b.2) (insertById x l).
Proof.
  induction 1 as [|y l Hl IH Hy]; simpl.
  - repeat constructor.
  - destruct (Nat.leb_spec x.2 y.2) as [Hxy|Hxy].
    + constructor; [by constructor|].
      constructor; [done|]. eapply Forall_impl; [exact Hy|]. simpl. lia.
    + constructor; [done|]. rewrite insertById_perm. constructor; [lia|done].
Qed.

Lemma sortById_sorted l : StronglySorted (fun a b => a.2 <= b.2) (sortById l).
Proof. induction l; simpl; [constructor|]. by apply insertById_sorted. Qed.

(** * "Add to result" *)

Lemma addToResult_entriesFrom sr subDice :
  addToResult sr subDice = entriesFrom 0 sr subDice.
Proof. done. Qed.

Lemma entriesFrom_cons off r sr subDice :
  entriesFrom off (r :: sr) subDice
  = (if length (faces r) =? 0 then []
     else [(sortedRange r, nth off subDice [])]) ++ entriesFrom (S off) sr subDice.
Proof.
  unfold entriesFrom. rewrite imap_cons. simpl. rewrite Nat.add_0_r.
  assert (imap ((fun i subRange => (off + i, subRange)) ∘ S) sr
          = imap (fun i subRange => (S off + i, subRange)) sr) as ->.
  { apply imap_ext. intros i x _. simpl. f_equal. lia. }
  by destruct (_ =? 0).
Qed.

Lemma entriesFrom_ids subDice : forall sr off,
  Forall wfRange sr -> allIds (entriesFrom off sr subDice).*1 ≡ₚ allIds sr.
Proof.
  induction sr as [|r sr IH]; intros off W; [done|].
  apply Forall_cons in W as [Wr W].
  rewrite entriesFrom_cons, fmap_app, allIds_app, allIds_cons, IH by done.
  apply Permutation_app_tail.
  destruct (Nat.eqb_spec (length (faces r)) 0) as [H0|H0]; simpl.
  - unfold wfRange in Wr. destruct (ids r); [done|simpl in *; lia].
  - unfold allIds. simpl. rewrite app_nil_r. by apply sortedRange_ids.
Qed.

Lemma entriesFrom_wf subDice : forall sr off,
  Forall wfRange (entriesFrom off sr subDice).*1.
Proof.
  induction sr as [|r sr IH]; intros off; [constructor|].
  rewrite entriesFrom_cons, fmap_app. apply Forall_app. split; [|apply IH].
  destruct (_ =? 0); simpl; [constructor|].
  constructor; [apply sortedRange_wf|constructor].
Qed.

(** Every entry holds a non-empty range and the sub-die of its index. *)
Lemma entriesFrom_elem subDice : forall sr off e,
  e ∈ entriesFrom off sr subDice ->
  faces e.1 <> [] /\ exists i, i < length sr /\ e.2 = nth (off + i) subDice [].
Proof.
  induction sr as [|r sr IH]; intros off e He; [by apply elem_of_nil in He|].
  rewrite entriesFrom_cons in He. apply elem_of_app in He as [He|He].
  - destruct (Nat.eqb_spec (length (faces r)) 0) as [H0|H0];
      [by apply elem_of_nil in He|].
    apply list_elem_of_singleton in He as ->. cbn [fst snd]. split.
    + destruct (sortedRange_length r) as [L _].
      destruct (faces (sortedRange r)); [simpl in L; lia|done].
    + exists 0. split; [simpl; lia|]. by rewrite Nat.add_0_r.
  - destruct (IH (S off) e He) as (Hne & i & Hi & Hd). split; [done|].
    exists (S i). split; [simpl; lia|]. rewrite Hd. f_equal. lia.
Qed.

Lemma entriesFrom_length subDice : forall sr off,
  length (entriesFrom off sr subDice) <= length sr.
Proof.
  induction sr as [|r sr IH]; intros off; [done|].
  rewrite entriesFrom_cons, length_app. specialize (IH (S off)).
  destruct (_ =? 0); simpl; lia.
Qed.

Lemma entriesFrom_nonempty subDice : forall sr off r,
  r ∈ sr -> faces r <> [] -> entriesFrom off sr subDice <> [].
Proof.
  induction sr as [|r' sr IH]; intros off r Hr Hne; [by apply elem_of_nil in Hr|].
  rewrite entriesFrom_cons.
  apply elem_of_cons in Hr as [<-|Hr].
  - destruct (Nat.eqb_spec (length (faces r)) 0) as [H0|H0]; [|by simpl].
    destruct (faces r); [done|simpl in H0; lia].
  - intros [_ E]%app_eq_nil. by apply (IH (S off) r Hr Hne).
Qed.

Lemma entriesFrom_replicate subDice n off :
  entriesFrom off (replicate n emptyRange) subDice = [].
Proof.
  revert off. induction n as [|n IH]; intros off; [done|].
  simpl. rewrite entriesFrom_cons. simpl. apply IH.
Qed.

(** * [getDivisors] *)

Lemma divisorsFrom_S n i :
  divisorsFrom n (S i)
  = (if n mod S i =? 0 then [S i] else []) ++ divisorsFrom n i.
Proof. done. Qed.

Lemma divisorsFrom_elem n i d :
  d ∈ divisorsFrom n i -> 1 <= d <= i /\ n mod d = 0.
Proof.
  induction i as [|i IH]; [by intros ?%elem_of_nil|].
  rewrite divisorsFrom_S. intros [Hd|Hd]%elem_of_app.
  - destruct (Nat.eqb_spec (n mod S i) 0) as [H0|H0]; [|by apply elem_of_nil in Hd].
    apply list_elem_of_singleton in Hd as ->. split; [lia|done].
  - destruct (IH Hd). split; [lia|done].
Qed.

Lemma divisorsFrom_one n i :
  1 <= i -> exists l, divisorsFrom n i = l ++ [1] /\ forall d, d ∈ l -> 2 <= d.
Proof.
  induction i as [|i IH]; [lia|]. intros _.
  destruct i as [|i].
  - exists []. rewrite divisorsFrom_S, Nat.mod_1_r. split; [done|].
    by intros d ?%elem_of_nil.
  - destruct IH as (l & E & Hl); [lia|].
    exists ((if n mod S (S i) =? 0 then [S (S i)] else []) ++ l). split.
    + by rewrite divisorsFrom_S, E, (assoc_L (++)).
    + intros d [Hd|Hd]%elem_of_app; [|by apply Hl].
      destruct (_ =? 0); [|by apply elem_of_nil in Hd].
      apply list_elem_of_singleton in Hd as ->. lia.
Qed.

Lemma getDivisors_elem n d : d ∈ getDivisors n -> 1 <= d <= n /\ n mod d = 0.
Proof. apply divisorsFrom_elem. Qed.

Lemma getDivisors_one n :
  1 <= n ->
  exists l, getDivisors n = l ++ [1] /\ forall d, d ∈ l -> 2 <= d <= n /\ n mod d = 0.
Proof.
  intros Hn. destruct (divisorsFrom_one n n Hn) as (l & E & Hl).
  exists l. split; [done|]. intros d Hd.
  destruct (getDivisors_elem n d) as [? ?].
  { unfold getDivisors. rewrite E. apply elem_of_app. by left. }
  specialize (Hl d Hd). lia.
Qed.

Lemma getDivisors_head n :
  1 <= n -> exists l, getDivisors n = n :: l.
Proof.
  intros Hn. unfold getDivisors. destruct n as [|n]; [lia|].
  exists (divisorsFrom (S n) n).
  by rewrite divisorsFrom_S, Nat.Div0.mod_same.
Qed.

(** * The loop over the divisors *)

#[local] Instance fullEntry_dec die e : Decision (fullEntry die e).
Proof. unfold fullEntry. apply _. Defined.

Lemma partitionLoop_cons divisor divisors die tosses result :
  partitionLoop (divisor :: divisors) die tosses result
  = partitionLoop divisors die
      (allocateAll divisor tosses (replicate divisor emptyRange)).1
      (result ++ addToResult
                   (allocateAll divisor tosses (replicate divisor emptyRange)).2
                   (subDiceOf die divisor)).
Proof.
  simpl. by destruct (allocateAll divisor tosses (replicate divisor emptyRange)).
Qed.

Lemma wf_replicate n : Forall wfRange (replicate n emptyRange).
Proof. by apply Forall_replicate. Qed.

Lemma allIds_replicate n : allIds (replicate n emptyRange) = [].
Proof. induction n; [done|]. simpl. by rewrite allIds_cons. Qed.

(** One pass: what the divisor leaves and what it adds to the result. *)
Lemma pass_spec divisor tosses :
  Forall wfRange tosses ->
  let st := allocateAll divisor tosses (replicate divisor emptyRange) in
  length st.2 = divisor /\ Forall wfRange st.1 /\ Forall wfRange st.2 /\
  allIds st.1 ++ allIds st.2 ≡ₚ allIds tosses.
Proof.
  intros W st.
  destruct (allocateAll divisor tosses (replicate divisor emptyRange))
    as [tosses' sr'] eqn:E.
  destruct (allocateAll_spec divisor tosses _ tosses' sr' E W (wf_replicate _))
    as (L & W1 & W2 & P).
  { by rewrite length_replicate. }
  subst st. simpl. rewrite length_replicate in L.
  rewrite allIds_replicate, app_nil_r in P. done.
Qed.

Lemma subDiceOf_length die divisor i :
  1 <= divisor -> length die mod divisor = 0 -> i < divisor ->
  length (nth i (subDiceOf die divisor) []) = length die / divisor.
Proof.
  intros Hd Hm Hi. unfold subDiceOf.
  set (s := length die / divisor).
  assert (length die = divisor * s) as Hlen.
  { unfold s. apply Nat.Div0.div_exact. done. }
  erewrite nth_lookup_Some.
  2:{ rewrite list_lookup_fmap, lookup_seq_lt by done. done. }
  unfold slice. rewrite length_take, length_drop. simpl. nia.
Qed.

Lemma div_eq_self m d : 1 <= m -> 1 <= d -> m mod d = 0 -> m / d = m <-> d = 1.
Proof.
  intros Hm Hd Hmod. split; [|intros ->; apply Nat.div_1_r].
  intros E. apply Nat.Div0.div_exact in Hmod. rewrite E in Hmod. nia.
Qed.

Section PartitionLoop.
Variable die : Die.
Hypothesis die_nonempty : 1 <= length die.

Lemma pass_entries divisor tosses e :
  1 <= divisor -> length die mod divisor = 0 ->
  e ∈ addToResult (allocateAll divisor tosses (replicate divisor emptyRange)).2
        (subDiceOf die divisor) ->
  faces e.1 <> [] /\ length e.2 = length die / divisor.
Proof.
  intros Hd Hm He. rewrite addToResult_entriesFrom in He.
  apply entriesFrom_elem in He as (Hne & i & Hi & Heq). split; [done|].
  rewrite allocateAll_length, length_replicate in Hi.
  rewrite Heq. by apply subDiceOf_length.
Qed.

Lemma pass_full divisor tosses :
  1 <= divisor -> length die mod divisor = 0 ->
  length (filter (fullEntry die)
            (addToResult (allocateAll divisor tosses (replicate divisor emptyRange)).2
               (subDiceOf die divisor)))
  <= (if decide (divisor = 1) then 1 else 0).
Proof.
  intros Hd Hm. destruct (decide (divisor = 1)) as [->|Hne].
  - etransitivity; [apply length_filter|].
    rewrite addToResult_entriesFrom.
    etransitivity; [apply entriesFrom_length|].
    by rewrite allocateAll_length, length_replicate.
  - match goal with |- length ?l <= 0 => assert (l = []) as ->; [|done] end.
    destruct (filter _ _) as [|e l] eqn:E; [done|]. exfalso.
    assert (e ∈ filter (fullEntry die)
              (addToResult (allocateAll divisor tosses (replicate divisor emptyRange)).2
                 (subDiceOf die divisor))) as He by (rewrite E; left).
    apply list_elem_of_filter in He as [Hfull He].
    apply pass_entries in He as [_ Hlen]; [|done..].
    unfold fullEntry in Hfull. rewrite Hfull in Hlen.
    symmetry in Hlen. apply div_eq_self in Hlen; done.
Qed.

(** At most one full entry is added for each occurrence of 1 among the
    divisors. *)
Lemma partitionLoop_full : forall divisors tosses result,
  (forall d, d ∈ divisors -> 1 <= d /\ length die mod d = 0) ->
  length (filter (fullEntry die) (partitionLoop divisors die tosses result))
  <= length (filter (fullEntry die) result) + length (filter (eq 1) divisors).
Proof.
  induction divisors as [|d divisors IH]; intros tosses result Hds; [simpl; lia|].
  rewrite partitionLoop_cons.
  etransitivity; [apply IH|].
  { intros d' Hd'. apply Hds. by right. }
  destruct (Hds d ltac:(left)) as [Hd Hm].
  rewrite filter_app, length_app.
  pose proof (pass_full d tosses Hd Hm) as Hp.
  rewrite filter_cons. destruct (decide (1 = d)) as [<-|Hne].
  - rewrite decide_True in Hp by done. cbn [length]. lia.
  - rewrite decide_False in Hp by done. lia.
Qed.

(** The result only grows, by entries with parallel arrays. *)
Lemma partitionLoop_extends : forall divisors tosses result,
  Forall wfRange tosses ->
  exists extra, partitionLoop divisors die tosses result = result ++ extra /\
                Forall wfRange extra.*1.
Proof.
  induction divisors as [|d divisors IH]; intros tosses result W.
  - exists []. simpl. rewrite app_nil_r. split; [done|constructor].
  - rewrite partitionLoop_cons.
    destruct (pass_spec d tosses W) as (_ & W1 & _ & _).
    destruct (IH _ (result ++ addToResult
                (allocateAll d tosses (replicate d emptyRange)).2 (subDiceOf die d)) W1)
      as (extra & -> & We).
    eexists. rewrite <- (assoc_L (++)). split; [done|].
    rewrite fmap_app. apply Forall_app. split; [|done].
    rewrite addToResult_entriesFrom. apply entriesFrom_wf.
Qed.

(** Ending with the divisor 1, the loop moves every toss to the result. *)
Lemma partitionLoop_ids : forall divisors tosses result,
  Forall wfRange tosses ->
  last divisors = Some 1 \/ allIds tosses = [] ->
  allIds (partitionLoop divisors die tosses result).*1
  ≡ₚ allIds result.*1 ++ allIds tosses.
Proof.
  induction divisors as [|d divisors IH]; intros tosses result W Hlast.
  - destruct Hlast as [?|Hnil]; [done|]. simpl. by rewrite Hnil, app_nil_r.
  - rewrite partitionLoop_cons.
    destruct (pass_spec d tosses W) as (L & W1 & W2 & P).
    rewrite IH; [| done |].
    + rewrite fmap_app, allIds_app, addToResult_entriesFrom, entriesFrom_ids by done.
      rewrite <- P. solve_perm.
    + destruct Hlast as [Hlast|Hnil].
      * destruct divisors as [|d' divisors]; [|by left].
        right. injection Hlast as ->. by apply allocateAll_one.
      * right. rewrite Hnil in P. apply Permutation_nil_r in P.
        by apply app_eq_nil in P as [? _].
Qed.
End PartitionLoop.

(** * [partitionTosses] *)

Lemma partitionTosses_ids tosses die :
  1 <= length die -> Forall wfRange tosses ->
  allIds (partitionTosses tosses die).*1 ≡ₚ allIds tosses.
Proof.
  intros Hm W. unfold partitionTosses.
  rewrite partitionLoop_ids; [done..|].
  left. destruct (getDivisors_one _ Hm) as (l & -> & _). apply last_snoc.
Qed.

Lemma partitionTosses_wf tosses die :
  Forall wfRange tosses -> Forall wfRange (partitionTosses tosses die).*1.
Proof.
  intros W. unfold partitionTosses.
  by destruct (partitionLoop_extends die (getDivisors (length die)) tosses [] W)
    as (extra & -> & We).
Qed.

Lemma partitionTosses_full tosses die :
  1 <= length die ->
  length (filter (fullEntry die) (partitionTosses tosses die)) <= 1.
Proof.
  intros Hm. unfold partitionTosses.
  etransitivity; [apply (partitionLoop_full die Hm)|].
  - intros d Hd. apply getDivisors_elem in Hd. split; [lia|tauto].
  - destruct (getDivisors_one _ Hm) as (l & -> & Hl).
    assert (filter (eq 1) l = []) as Hnil.
    { destruct (filter (eq 1) l) as [|x k] eqn:E; [done|]. exfalso.
      assert (x ∈ filter (eq 1) l) as Hx by (rewrite E; left).
      apply list_elem_of_filter in Hx as [<- Hx]. specialize (Hl 1 Hx). lia. }
    by rewrite filter_app, Hnil.
Qed.

(** A class as large as the die makes the first divisor add entries, none of
    them a repeat branch. *)
Lemma partitionTosses_resolves tosses die u :
  2 <= length die -> Forall wfRange tosses ->
  u ∈ tosses -> length die <= length (faces u) ->
  exists e, e ∈ partitionTosses tosses die /\ ~ fullEntry die e /\ faces e.1 <> [].
Proof.
  intros Hm W Hu Hlen. unfold partitionTosses.
  destruct (getDivisors_head (length die)) as (l & ->); [lia|].
  rewrite partitionLoop_cons. simpl.
  set (st := allocateAll (length die) tosses (replicate (length die) emptyRange)).
  destruct (pass_spec (length die) tosses W) as (L & W1 & W2 & P). fold st in L, W1, W2, P.
  pose proof (allocateAll_takes (length die) tosses
                (replicate (length die) emptyRange) u ltac:(lia) Hu Hlen W) as Hlt.
  fold st in Hlt.
  destruct (partitionLoop_extends die l st.1
              (addToResult st.2 (subDiceOf die (length die))) W1) as (extra & -> & _).
  assert (exists r, r ∈ st.2 /\ faces r <> []) as (r & Hr & Hne).
  { apply Permutation_length in P. rewrite length_app in P.
    assert (allIds st.2 <> []) as Hids by (destruct (allIds st.2); [simpl in P; lia|done]).
    clear -Hids W2. induction W2 as [|r sr Wr _ IH]; [done|].
    rewrite allIds_cons in Hids.
    destruct (ids r) as [|x xs] eqn:E.
    - destruct IH as (r' & Hr' & Hne); [done|]. exists r'. split; [by right|done].
    - exists r. split; [left|]. unfold wfRange in Wr. rewrite E in Wr.
      by destruct (faces r). }
  pose proof (entriesFrom_nonempty (subDiceOf die (length die)) st.2 0 r Hr Hne) as Hent.
  rewrite <- addToResult_entriesFrom in Hent.
  destruct (addToResult st.2 (subDiceOf die (length die))) as [|e es] eqn:E; [done|].
  exists e. split; [left|].
  assert (e ∈ addToResult st.2 (subDiceOf die (length die))) as He by (rewrite E; left).
  destruct (pass_entries die (length die) tosses e ltac:(lia)
              (Nat.Div0.mod_same _) He) as [Hf Hl].
  split; [|done]. unfold fullEntry. rewrite Hl, Nat.div_same by lia. lia.
Qed.

(** * Sizes *)

Lemma sum_entrySize {B} (entries : list (TossRange * B)) :
  Forall wfRange entries.*1 ->
  sum_list_with entrySize entries = length (allIds entries.*1).
Proof.
  induction entries as [|e entries IH]; [done|].
  rewrite fmap_cons. intros [We W]%Forall_cons.
  simpl. rewrite allIds_cons, length_app, IH by done.
  unfold entrySize. by rewrite We.
Qed.

Lemma sum_filter {A} (f : A -> nat) (P : A -> Prop) `{forall x, Decision (P x)} l :
  sum_list_with f l
  = sum_list_with f (filter P l) + sum_list_with f (filter (fun x => ~ P x) l).
Proof.
  induction l as [|x l IH]; [done|].
  rewrite !filter_cons. simpl. destruct (decide (P x)) as [HP|HP].
  - rewrite decide_False by tauto. simpl. lia.
  - rewrite decide_True by done. simpl. lia.
Qed.

(** The cover property, and what it says of the sizes. *)
Lemma partition_cover dieA fair t dieB :
  1 <= length dieB ->
  allIds (partitionTosses (generateTosses dieA fair t) dieB).*1
  ≡ₚ seq 0 (length dieA ^ t).
Proof.
  intros Hm. rewrite partitionTosses_ids; [apply generateTosses_ids|done|].
  apply generateTosses_wf.
Qed.

Lemma partition_sizes dieA fair t dieB :
  1 <= length dieB ->
  sum_list_with entrySize (partitionTosses (generateTosses dieA fair t) dieB)
  = length dieA ^ t.
Proof.
  intros Hm. rewrite sum_entrySize.
  - by rewrite partition_cover, length_seq.
  - apply partitionTosses_wf, generateTosses_wf.
Qed.

(** * The loop of [getConversion] *)

Section BranchLoop.
Context {N : Type} `{JSNumber N}.
Variables (getBest : Die -> Outcome (ConversionRule N)) (dieB : Die) (t : nat) (sizeA : N).
#[local] Abbreviation classified := (classified getBest dieB t sizeA).

Lemma branchLoop_nil z sizeB bs z' sizeB' :
  branchLoop getBest dieB t sizeA [] z sizeB = Returned (bs, z', sizeB') ->
  bs = [] /\ z' = z /\ sizeB' = sizeB.
Proof. simpl. by intros [= <- <- <-]. Qed.

Lemma branchLoop_cons range subDie rest z sizeB bs z' sizeB' :
  branchLoop getBest dieB t sizeA ((range, subDie) :: rest) z sizeB
  = Returned (bs, z', sizeB') ->
  exists b z1 sizeB1 bs0,
    classified range subDie z sizeB b z1 sizeB1 /\
    branchLoop getBest dieB t sizeA rest z1 sizeB1 = Returned (bs0, z', sizeB') /\
    bs = (range, b) :: bs0.
Proof.
  simpl.
  destruct (Nat.eqb_spec (length subDie) (length dieB)) as [Hfull|Hfull].
  - destruct (branchLoop getBest dieB t sizeA rest z (length (faces range)))
      as [[[bs0 z1] s1]| |] eqn:E; simpl; try done.
    intros [= <- <- <-]. eexists _, _, _, _. split; [by constructor|]. done.
  - destruct (Nat.eqb_spec (length subDie) 1) as [Hone|Hone].
    + destruct (branchLoop getBest dieB t sizeA rest _ sizeB)
        as [[[bs0 z1] s1]| |] eqn:E; simpl; try done.
      intros [= <- <- <-]. eexists _, _, _, _. split; [by constructor|]. done.
    + destruct (getBest subDie) as [r| |] eqn:Er; simpl; try done.
      destruct (branchLoop getBest dieB t sizeA rest _ sizeB)
        as [[[bs0 z1] s1]| |] eqn:E; simpl; try done.
      intros [= <- <- <-]. eexists _, _, _, _. split; [by constructor|]. done.
Qed.

(** The ranges are kept, in their order. *)
Lemma branchLoop_ranges : forall entries z sizeB bs z' sizeB',
  branchLoop getBest dieB t sizeA entries z sizeB = Returned (bs, z', sizeB') ->
  bs.*1 = entries.*1.
Proof.
  induction entries as [|[range subDie] rest IH]; intros z sizeB bs z' sizeB' Hrun.
  - by apply branchLoop_nil in Hrun as (-> & _ & _).
  - apply branchLoop_cons in Hrun as (b & z1 & s1 & bs0 & _ & Hrest & ->).
    simpl. f_equal. by eapply IH.
Qed.

(** [sizeB] is the size of the last entry with a full sub-die, which is the
    total size of these entries when there is at most one. *)
Lemma branchLoop_sizeB_none : forall entries z sizeB bs z' sizeB',
  branchLoop getBest dieB t sizeA entries z sizeB = Returned (bs, z', sizeB') ->
  filter (fullEntry dieB) entries = [] -> sizeB' = sizeB.
Proof.
  induction entries as [|[range subDie] rest IH]; intros z sizeB bs z' sizeB' Hrun Hnone.
  - by apply branchLoop_nil in Hrun as (_ & _ & ->).
  - apply branchLoop_cons in Hrun as (b & z1 & s1 & bs0 & Hc & Hrest & ->).
    rewrite filter_cons in Hnone.
    destruct (decide (fullEntry dieB (range, subDie))) as [Hf|Hf]; [done|].
    rewrite (IH _ _ _ _ _ Hrest Hnone).
    destruct Hc; done.
Qed.

Lemma branchLoop_sizeB : forall entries z sizeB bs z' sizeB',
  branchLoop getBest dieB t sizeA entries z sizeB = Returned (bs, z', sizeB') ->
  length (filter (fullEntry dieB) entries) <= 1 ->
  sizeB' = if decide (filter (fullEntry dieB) entries = []) then sizeB
           else sum_list_with entrySize (filter (fullEntry dieB) entries).
Proof.
  induction entries as [|[range subDie] rest IH]; intros z sizeB bs z' sizeB' Hrun Hone.
  - by apply branchLoop_nil in Hrun as (_ & _ & ->).
  - apply branchLoop_cons in Hrun as (b & z1 & s1 & bs0 & Hc & Hrest & ->).
    rewrite filter_cons in Hone |- *.
    destruct (decide (fullEntry dieB (range, subDie))) as [Hf|Hf].
    + rewrite decide_False by done. simpl in Hone.
      assert (filter (fullEntry dieB) rest = []) as Hnone
        by (destruct (filter _ rest); [done|simpl in Hone; lia]).
      rewrite (branchLoop_sizeB_none _ _ _ _ _ _ Hrest Hnone), Hnone.
      destruct Hc; unfold fullEntry in Hf; simpl in *; try done.
    + rewrite (IH _ _ _ _ _ Hrest Hone).
      destruct Hc; unfold fullEntry in Hf; simpl in *; done.
Qed.
End BranchLoop.

(** With the map of [partitionTosses] and [sizeB] initially 0. *)
Lemma branchLoop_partition_sizeB {N} `{JSNumber N} getBest dieB t sizeA tosses z
    bs z' sizeB :
  branchLoop getBest dieB t sizeA (partitionTosses tosses dieB) z 0
  = Returned (bs, z', sizeB) ->
  sizeB = sum_list_with entrySize
            (filter (fullEntry dieB) (partitionTosses tosses dieB)).
Proof.
  intros Hrun.
  destruct (decide (length dieB = 0)) as [H0|H0].
  - unfold partitionTosses in *. rewrite H0 in *. simpl in *.
    by injection Hrun as <- <- <-.
  - rewrite (branchLoop_sizeB _ _ _ _ _ _ _ _ _ _ Hrun)
      by (apply partitionTosses_full; lia).
    destruct (decide _) as [->|]; done.
Qed.

Lemma NoDup_concat_lookup {A} (ls : list (list A)) i j l l' x :
  NoDup (concat ls) -> ls !! i = Some l -> ls !! j = Some l' ->
  x ∈ l -> x ∈ l' -> i = j.
Proof.
  revert i j. induction ls as [|k ls IH]; intros i j Hnd Hi Hj Hx Hx'; [done|].
  simpl in Hnd. apply NoDup_app in Hnd as (_ & Hdisj & Hnd).
  destruct i as [|i], j as [|j]; simpl in *.
  - done.
  - injection Hi as ->. exfalso. apply (Hdisj x Hx).
    apply elem_of_concat. exists l'. split; [|done].
    apply list_elem_of_lookup. by exists j.
  - injection Hj as ->. exfalso. apply (Hdisj x Hx').
    apply elem_of_concat. exists l. split; [|done].
    apply list_elem_of_lookup. by exists i.
  - f_equal. by apply IH.
Qed.

Lemma NoDup_concat_elem {A} (ls : list (list A)) l :
  NoDup (concat ls) -> l ∈ ls -> NoDup l.
Proof.
  induction ls as [|k ls IH]; intros Hnd Hl; [by apply elem_of_nil in Hl|].
  simpl in Hnd. apply NoDup_app in Hnd as (Hk & _ & Hnd).
  apply elem_of_cons in Hl as [->|Hl]; [done|by apply IH].
Qed.

(** C2: the map that [getConversion] gets from
    [partitionTosses(generateTosses(...))] covers the toss ids: the ids of its
    ranges, taken together, are the integers of [[0, n^throws)] each once; so
    every id is in exactly one range, and no range holds an id twice. *)
Theorem partition_map_covers (dieA dieB : Die) (makeFair : bool) (throws : nat) :
  2 <= length dieA -> 2 <= length dieB -> 1 <= throws ->
  let ranges := (partitionTosses (generateTosses dieA makeFair throws) dieB).*1 in
  allIds ranges ≡ₚ seq 0 (length dieA ^ throws) /\
  (forall id, id < length dieA ^ throws ->
     exists i range, ranges !! i = Some range /\ id ∈ ids range /\
       forall j range', ranges !! j = Some range' -> id ∈ ids range' -> j = i) /\
  (forall range, range ∈ ranges -> NoDup (ids range)) /\
  (forall range id, range ∈ ranges -> id ∈ ids range -> id < length dieA ^ throws).
Proof.
  intros _ HB _ ranges.
  assert (allIds ranges ≡ₚ seq 0 (length dieA ^ throws)) as Hperm
    by (apply partition_cover; lia).
  assert (NoDup (allIds ranges)) as Hnd by (rewrite Hperm; apply NoDup_seq).
  split; [done|]. split; [|split].
  - intros id Hid.
    assert (id ∈ allIds ranges) as Hin by (rewrite Hperm; apply elem_of_seq; lia).
    apply elem_of_concat in Hin as (l & Hl & Hin).
    apply list_elem_of_fmap in Hl as (range & -> & Hr).
    apply list_elem_of_lookup in Hr as [i Hi].
    exists i, range. split; [done|]. split; [done|].
    intros j range' Hj Hin'.
    apply (NoDup_concat_lookup (ids <$> ranges) j i (ids range') (ids range) id);
      try done; rewrite list_lookup_fmap; [by rewrite Hj|by rewrite Hi].
  - intros range Hr. apply (NoDup_concat_elem (ids <$> ranges)); [done|].
    by apply list_elem_of_fmap_2.
  - intros range id Hr Hin.
    assert (id ∈ allIds ranges) as Hin'.
    { apply elem_of_concat. exists (ids range). split; [|done].
      by apply list_elem_of_fmap_2. }
    rewrite Hperm in Hin'. apply elem_of_seq in Hin'. lia.
Qed.

Lemma partition_map_covers_witness :
  let ranges := (partitionTosses (generateTosses (createDie 2) true 2) (createDie 3)).*1 in
  allIds ranges ≡ₚ seq 0 (length (createDie 2) ^ 2) /\
  (forall id, id < length (createDie 2) ^ 2 ->
     exists i range, ranges !! i = Some range /\ id ∈ ids range /\
       forall j range', ranges !! j = Some range' -> id ∈ ids range' -> j = i) /\
  (forall range, range ∈ ranges -> NoDup (ids range)) /\
  (forall range id, range ∈ ranges -> id ∈ ids range -> id < length (createDie 2) ^ 2).
Proof.
  apply (partition_map_covers (createDie 2) (createDie 3) true 2); simpl; lia.
Defined.

(** C10: the map of [partitionTosses] has at most one entry whose sub-die is
    as long as the die: a sub-die of the divisor [d] is as long as the die
    only for [d = 1], and the divisor 1 has one sub-die. So the [sizeB] that
    the loop of [getConversion] assigns is the total size of these entries. *)
Theorem partition_one_full_entry {N : Type} `{JSNumber N}
    (tosses : list TossRange) (die : Die) :
  1 <= length die ->
  length (filter (fullEntry die) (partitionTosses tosses die)) <= 1 /\
  (forall d i, d ∈ getDivisors (length die) -> i < d ->
     length (nth i (subDiceOf die d) []) = length die <-> d = 1) /\
  length (subDiceOf die 1) = 1 /\
  (forall getBest throws sizeA z bs z' sizeB,
     branchLoop getBest die throws sizeA (partitionTosses tosses die) z 0
     = Returned (bs, z', sizeB) ->
     sizeB = sum_list_with entrySize
               (filter (fullEntry die) (partitionTosses tosses die))).
Proof.
  intros Hm. split; [by apply partitionTosses_full|]. split; [|split].
  - intros d i Hd Hi. apply getDivisors_elem in Hd as [Hd Hmod].
    rewrite subDiceOf_length by (done || lia).
    apply div_eq_self; done || lia.
  - unfold subDiceOf. by rewrite length_fmap, length_seq.
  - intros getBest throws sizeA z bs z' sizeB Hrun.
    by eapply branchLoop_partition_sizeB.
Qed.

Lemma partition_one_full_entry_witness :
  length (filter (fullEntry (createDie 3))
            (partitionTosses (generateTosses (createDie 2) true 2) (createDie 3))) <= 1.
Proof.
  apply (partition_one_full_entry (N := float)
           (generateTosses (createDie 2) true 2) (createDie 3)).
  simpl. lia.
Defined.

(** C1, as stated, fails: in [getConversion(createDie(2), createDie(3), true,
    2)], a call that [getBestConversion(createDie(2), createDie(3), true)]
    makes first, no class of tosses has three members, every toss goes to
    the repeat branch, [sizeB] is [4 = 2^2] and the expectation is
    [Infinity]. *)
Lemma sizeB_reaches_sizeA :
  (exists bs z,
     branchLoop (N := float)
       (fun subDie => getBestConversion 5 (createDie 2) subDie true)
       (createDie 3) 2 (ofNat (length (createDie 2) ^ 2))
       (partitionTosses (generateTosses (createDie 2) true 2) (createDie 3))
       (ofNat 0) 0
     = Returned (bs, z, 4)) /\
  ~ 4 < length (createDie 2) ^ 2 /\
  minThrows 5 (length (createDie 2)) (length (createDie 3)) 1 (length (createDie 2))
  = Returned 2 /\
  expectation <$> getConversion (N := float) 5 (createDie 2) (createDie 3) true 2
  = Returned infinity.
Proof.
  split; [|split; [|split]].
  - eexists _, _. vm_compute. reflexivity.
  - simpl. lia.
  - reflexivity.
  - vm_compute. reflexivity.
Qed.

(** * The law [x + 0 = x] in the two arithmetics *)

Lemma of_uint63_sign i :
  match Prim2SF (of_uint63 i) with
  | S754_zero s | S754_infinity s | S754_finite s _ _ => s = false
  | S754_nan => True
  end.
Proof.
  rewrite of_uint63_spec. unfold binary_normalize.
  destruct (Uint63.to_Z i) as [|p|p] eqn:E; [reflexivity| |].
  - unfold binary_round. destruct (shl_align _ _ _) as [mz ez].
    unfold binary_round_aux.
    destruct (shr_fexp _ _ _ _ _) as [mrs e].
    destruct (shr_fexp _ _ _ _ _) as [mrs' e'].
    destruct (shr_m mrs'); try exact I; [reflexivity|].
    destruct (_ <=? _)%Z; reflexivity.
  - pose proof (Uint63.to_Z_bounded i). lia.
Qed.

#[export] Instance Double_adds_zero : AddsZero float.
Proof.
  intros t. simpl. apply Prim2SF_inj. rewrite add_spec.
  change (Prim2SF (doubleOfNat 0)) with (S754_zero false).
  unfold doubleOfNat.
  pose proof (of_uint63_sign (of_Z (Z.of_nat t))) as Hs.
  destruct (Prim2SF (of_uint63 (of_Z (Z.of_nat t)))) as [s|s| |s m e];
    simpl in *; subst; reflexivity.
Qed.

#[export] Instance Exact_adds_zero : AddsZero ExtQ.
Proof.
  intros t. simpl. unfold extOfNat. simpl. f_equal.
  change (Q2Qc (inject_Z 0)) with 0%Qc. apply Qcplus_0_r.
Qed.

(** * The double of a face count *)

Lemma digits2_pos_iter p k :
  digits2_pos (Pos.iter xO p k) = (digits2_pos p + k)%positive.
Proof.
  induction k as [|k IH] using Pos.peano_ind.
  - simpl. by rewrite Pos.add_1_r.
  - rewrite Pos.iter_succ. simpl. by rewrite IH, Pos.add_succ_r.
Qed.

Lemma digits2_pos_bound p : forall k : Z,
  (Zpos p < 2 ^ k)%Z -> (Zpos (digits2_pos p) <= k)%Z.
Proof.
  assert (forall k : Z, (k <= 0)%Z -> (2 ^ k <= 1)%Z) as Hsmall.
  { intros k Hk. destruct (Z.eq_dec k 0%Z) as [->|Hne]; [done|].
    rewrite Z.pow_neg_r by lia. lia. }
  induction p as [p IH|p IH|]; intros k Hlt.
  - destruct (Z_le_gt_dec k 0%Z) as [Hk|Hk]; [specialize (Hsmall k Hk); lia|].
    replace k with (Z.succ (k - 1)) in Hlt by lia.
    rewrite Z.pow_succ_r in Hlt by lia.
    specialize (IH (k - 1)%Z ltac:(lia)). simpl. lia.
  - destruct (Z_le_gt_dec k 0%Z) as [Hk|Hk]; [specialize (Hsmall k Hk); lia|].
    replace k with (Z.succ (k - 1)) in Hlt by lia.
    rewrite Z.pow_succ_r in Hlt by lia.
    specialize (IH (k - 1)%Z ltac:(lia)). simpl. lia.
  - destruct (Z_le_gt_dec k 0%Z) as [Hk|Hk]; [specialize (Hsmall k Hk); lia|].
    simpl. lia.
Qed.

(** A mantissa of 53 digits is stored as it is. *)
Lemma binary_round_aux_canonical mz ez :
  digits2_pos mz = 53%positive -> (-1074 <= ez <= 971)%Z ->
  binary_round_aux prec emax false (Zpos mz) ez loc_Exact = S754_finite false mz ez.
Proof.
  intros Hd He. unfold binary_round_aux, shr_fexp, Zdigits2. rewrite Hd.
  assert (fexp prec emax (53 + ez) - ez = 0)%Z as E.
  { unfold fexp, emin, prec, emax. lia. }
  rewrite E. simpl. rewrite Hd, E. simpl.
  destruct (Z.leb_spec ez (emax - prec)) as [|Hgt]; [done|].
  unfold prec, emax in Hgt. lia.
Qed.

(** A positive integer below [2^53] converts to a positive finite double. *)
Lemma binary_normalize_finite p :
  (Zpos p < 2 ^ 53)%Z ->
  exists m e, binary_normalize prec emax (Zpos p) 0 false = S754_finite false m e.
Proof.
  intros Hlt. pose proof (digits2_pos_bound p 53%Z Hlt) as Hd.
  unfold binary_normalize, binary_round, shl_align.
  assert (fexp prec emax (Z.pos (digits2_pos p) + 0) = Zpos (digits2_pos p) - 53)%Z as ->.
  { unfold fexp, emin, prec, emax. lia. }
  destruct (Zpos (digits2_pos p) - 53 - 0)%Z as [|k|k] eqn:Ek; [|lia|].
  - eexists _, _. apply binary_round_aux_canonical; [|lia].
    assert (Zpos (digits2_pos p) = 53)%Z as E by lia. by injection E.
  - eexists _, _. apply binary_round_aux_canonical; [|lia].
    rewrite digits2_pos_iter.
    assert (Zpos (digits2_pos p + k) = 53)%Z as E by lia. by injection E.
Qed.

Lemma doubleOfNat_finite n :
  1 <= n -> (Z.of_nat n < 2 ^ 53)%Z ->
  exists m e, Prim2SF (doubleOfNat n) = S754_finite false m e.
Proof.
  intros Hn Hlt. unfold doubleOfNat. rewrite of_uint63_spec, Uint63.of_Z_spec.
  rewrite Z.mod_small by (change wB with (2 ^ 63)%Z; lia).
  destruct (Z.of_nat n) as [|p|p] eqn:E; [lia| |lia].
  by apply binary_normalize_finite.
Qed.

(** The three operations on the double [x] of a face count that the
    expectation of a rule without branches needs. *)
Lemma double_mul_zero x m e :
  Prim2SF x = S754_finite false m e -> PrimFloat.mul x (doubleOfNat 0) = doubleOfNat 0.
Proof.
  intros Hx. apply Prim2SF_inj. rewrite mul_spec, Hx.
  change (Prim2SF (doubleOfNat 0)) with (S754_zero false). reflexivity.
Qed.

Lemma double_sub_zero x m e :
  Prim2SF x = S754_finite false m e -> PrimFloat.sub x (doubleOfNat 0) = x.
Proof.
  intros Hx. apply Prim2SF_inj. rewrite sub_spec, Hx.
  change (Prim2SF (doubleOfNat 0)) with (S754_zero false). reflexivity.
Qed.

Lemma double_zero_div x m e :
  Prim2SF x = S754_finite false m e -> PrimFloat.div (doubleOfNat 0) x = doubleOfNat 0.
Proof.
  intros Hx. apply Prim2SF_inj. rewrite div_spec, Hx.
  change (Prim2SF (doubleOfNat 0)) with (S754_zero false). reflexivity.
Qed.

(** * Upper bounds of rounded operations *)

Section Rounding.
Local Open Scope Z_scope.

Lemma pow2_pos k : 0 <= k -> 0 < 2 ^ k.
Proof. intros. apply Z.pow_pos_nonneg; lia. Qed.

Lemma pow2_split a b : 0 <= a -> 0 <= b -> 2 ^ (a + b) = 2 ^ a * 2 ^ b.
Proof. intros. apply Z.pow_add_r; lia. Qed.

Lemma pow2_lt_inv a b : 0 <= b -> 2 ^ a < 2 ^ b -> a < b.
Proof. intros Hb Hlt. apply (Z.pow_lt_mono_r_iff 2); lia. Qed.

Lemma digits2_pos_lower p : 2 ^ (Zpos (digits2_pos p) - 1) <= Zpos p.
Proof.
  induction p as [p IH|p IH|]; simpl digits2_pos.
  - rewrite Pos2Z.inj_succ.
    replace (Z.succ (Zpos (digits2_pos p)) - 1) with (Z.succ (Zpos (digits2_pos p) - 1)) by lia.
    rewrite Z.pow_succ_r by lia. lia.
  - rewrite Pos2Z.inj_succ.
    replace (Z.succ (Zpos (digits2_pos p)) - 1) with (Z.succ (Zpos (digits2_pos p) - 1)) by lia.
    rewrite Z.pow_succ_r by lia. lia.
  - simpl. lia.
Qed.

Lemma digits2_pos_upper p : Zpos p < 2 ^ Zpos (digits2_pos p).
Proof.
  induction p as [p IH|p IH|]; simpl digits2_pos.
  - rewrite Pos2Z.inj_succ, Z.pow_succ_r by lia. lia.
  - rewrite Pos2Z.inj_succ, Z.pow_succ_r by lia. lia.
  - simpl. lia.
Qed.

(** One shift to the right. *)
Lemma shr_1_spec mrs :
  0 <= shr_m mrs ->
  shr_m (shr_1 mrs) = shr_m mrs / 2 /\
  (flagsOff (shr_1 mrs) <-> flagsOff mrs /\ shr_m mrs mod 2 = 0).
Proof.
  unfold flagsOff. destruct mrs as [m r s]. simpl. intros Hm.
  destruct m as [|[p|p|]|]; try lia; simpl.
  - split; [done|]. change (0 mod 2) with 0.
    destruct r, s; simpl; intuition congruence.
  - split; [rewrite Pos2Z.inj_xI; Z.to_euclidean_division_equations; lia|].
    rewrite Pos2Z.inj_xI.
    assert ((2 * Zpos p + 1) mod 2 = 1) as -> by (Z.to_euclidean_division_equations; lia).
    intuition congruence.
  - split; [rewrite Pos2Z.inj_xO; Z.to_euclidean_division_equations; lia|].
    rewrite Pos2Z.inj_xO.
    assert ((2 * Zpos p) mod 2 = 0) as -> by (Z.to_euclidean_division_equations; lia).
    destruct r, s; simpl; intuition congruence.
  - split; [done|]. change (1 mod 2) with 1. intuition congruence.
Qed.

Lemma mod_pow2_split m a b :
  0 <= a -> 0 <= b ->
  m mod 2 ^ (a + b) = 0 <-> m mod 2 ^ a = 0 /\ (m / 2 ^ a) mod 2 ^ b = 0.
Proof.
  intros Ha Hb. pose proof (pow2_pos a Ha). pose proof (pow2_pos b Hb).
  rewrite pow2_split, Z.rem_mul_r by lia.
  pose proof (Z.mod_pos_bound m (2 ^ a) ltac:(lia)).
  pose proof (Z.mod_pos_bound (m / 2 ^ a) (2 ^ b) ltac:(lia)).
  nia.
Qed.

(** [k] shifts to the right: the mantissa is divided by [2 ^ k], and the
    flags stay off exactly when they were off and the division is exact. *)
Lemma iter_shr_spec p : forall mrs,
  0 <= shr_m mrs ->
  shr_m (SpecFloat.iter_pos shr_1 p mrs) = shr_m mrs / 2 ^ Zpos p /\
  (flagsOff (SpecFloat.iter_pos shr_1 p mrs) <-> flagsOff mrs /\ shr_m mrs mod 2 ^ Zpos p = 0).
Proof.
  assert (forall (f g : shr_record -> shr_record) a b,
            0 <= a -> 0 <= b ->
            (forall mrs, 0 <= shr_m mrs ->
               shr_m (f mrs) = shr_m mrs / 2 ^ a /\
               (flagsOff (f mrs) <-> flagsOff mrs /\ shr_m mrs mod 2 ^ a = 0)) ->
            (forall mrs, 0 <= shr_m mrs ->
               shr_m (g mrs) = shr_m mrs / 2 ^ b /\
               (flagsOff (g mrs) <-> flagsOff mrs /\ shr_m mrs mod 2 ^ b = 0)) ->
            forall mrs, 0 <= shr_m mrs ->
               shr_m (g (f mrs)) = shr_m mrs / 2 ^ (a + b) /\
               (flagsOff (g (f mrs)) <-> flagsOff mrs /\ shr_m mrs mod 2 ^ (a + b) = 0))
    as Hcomp.
  { intros f g a b Ha Hb Hf Hg mrs Hm.
    destruct (Hf mrs Hm) as [Ef Ff].
    assert (0 <= shr_m (f mrs)) as Hm'.
    { rewrite Ef. apply Z.div_pos; [done|by apply pow2_pos]. }
    destruct (Hg (f mrs) Hm') as [Eg Fg]. split.
    - pose proof (pow2_pos a Ha). pose proof (pow2_pos b Hb).
      rewrite Eg, Ef, Z.div_div, <- pow2_split by lia. done.
    - rewrite Fg, Ff, Ef, (mod_pow2_split _ a b) by done. tauto. }
  assert (forall mrs, 0 <= shr_m mrs ->
            shr_m (shr_1 mrs) = shr_m mrs / 2 ^ 1 /\
            (flagsOff (shr_1 mrs) <-> flagsOff mrs /\ shr_m mrs mod 2 ^ 1 = 0)) as H1.
  { intros mrs Hm. change (2 ^ 1) with 2. by apply shr_1_spec. }
  induction p as [p IH|p IH|]; intros mrs Hm.
  - simpl SpecFloat.iter_pos.
    replace (Zpos p~1) with ((1 + Zpos p) + Zpos p) by lia.
    apply (Hcomp (fun x => SpecFloat.iter_pos shr_1 p (shr_1 x)) (SpecFloat.iter_pos shr_1 p)); try lia; try done.
    apply (Hcomp shr_1 (SpecFloat.iter_pos shr_1 p)); try lia; done.
  - simpl SpecFloat.iter_pos.
    replace (Zpos p~0) with (Zpos p + Zpos p) by lia.
    apply (Hcomp (SpecFloat.iter_pos shr_1 p) (SpecFloat.iter_pos shr_1 p)); try lia; done.
  - simpl SpecFloat.iter_pos. by apply H1.
Qed.

Lemma div_le_scaled m X n : 0 < 2 ^ n -> m <= X * 2 ^ n -> m / 2 ^ n <= X.
Proof. intros Hp Hle. apply Z.div_le_upper_bound; [done|]. lia. Qed.

Lemma div_lt_scaled m X n : 0 < 2 ^ n -> m < X * 2 ^ n -> m / 2 ^ n < X.
Proof. intros Hp Hle. apply Z.div_lt_upper_bound; [done|]. lia. Qed.

(** The exponent that the format gives a mantissa bounded by
    [mB * 2 ^ eB]. *)
Lemma fexp_le m e mB eB :
  0 <= m -> e <= eB -> -1074 <= eB -> 0 <= mB < 2 ^ 53 ->
  m <= mB * 2 ^ (eB - e) ->
  fexp prec emax (Zdigits2 m + e) <= eB.
Proof.
  intros Hm He HeB HmB Hle. unfold fexp, emin, prec, emax.
  assert (Zdigits2 m + e - 53 <= eB); [|lia].
  destruct m as [|p|p]; [simpl; lia| |lia]. simpl Zdigits2.
  pose proof (digits2_pos_lower p) as Hd.
  pose proof (pow2_pos (eB - e) ltac:(lia)) as Hp.
  assert (2 ^ (Zpos (digits2_pos p) - 1) < 2 ^ (53 + (eB - e))) as Hlt.
  { rewrite pow2_split by lia. nia. }
  apply pow2_lt_inv in Hlt; lia.
Qed.

(** Shifting to the exponent of the format keeps a mantissa below a bound
    that is a double. *)
Lemma shr_fexp_le m e l mB eB :
  0 <= m -> e <= eB -> -1074 <= eB -> 0 <= mB < 2 ^ 53 ->
  m <= mB * 2 ^ (eB - e) -> (l <> loc_Exact -> m < mB * 2 ^ (eB - e)) ->
  let r := shr_fexp prec emax m e l in
  e <= r.2 <= eB /\ 0 <= shr_m r.1 <= mB * 2 ^ (eB - r.2) /\
  (~ flagsOff r.1 -> shr_m r.1 < mB * 2 ^ (eB - r.2)).
Proof.
  intros Hm He HeB HmB Hle Hlt.
  pose proof (fexp_le m e mB eB Hm He HeB HmB Hle) as He1.
  assert (flagsOff (shr_record_of_loc m l) <-> l = loc_Exact) as Hoff.
  { unfold flagsOff. destruct l as [|[| |]]; simpl; intuition congruence. }
  assert (shr_m (shr_record_of_loc m l) = m) as Hrec
    by (destruct l as [|[| |]]; reflexivity).
  unfold shr_fexp, shr.
  destruct (fexp prec emax (Zdigits2 m + e) - e) as [|k|k] eqn:En; cbv zeta; simpl fst; simpl snd.
  - rewrite Hrec. split; [lia|]. split; [lia|]. intros Hn. apply Hlt. tauto.
  - destruct (iter_shr_spec k (shr_record_of_loc m l)) as [Em Ef]; [rewrite Hrec; lia|].
    rewrite Hrec in Em, Ef. rewrite Em.
    pose proof (pow2_pos (Zpos k) ltac:(lia)) as Hk.
    assert (mB * 2 ^ (eB - e) = mB * 2 ^ (eB - (e + Zpos k)) * 2 ^ Zpos k) as Esplit.
    { replace (eB - e) with ((eB - (e + Zpos k)) + Zpos k) by lia.
      rewrite pow2_split by lia. ring. }
    rewrite Esplit in Hle, Hlt.
    split; [lia|]. split; [split|].
    + apply Z.div_pos; lia.
    + by apply div_le_scaled.
    + intros Hn. apply div_lt_scaled; [done|].
      destruct (Z.eq_dec (m mod 2 ^ Zpos k) 0) as [E0|E0].
      * apply Hlt. intros ->. apply Hn. apply Ef. split; [by apply Hoff|done].
      * destruct (Z.eq_dec m (mB * 2 ^ (eB - (e + Zpos k)) * 2 ^ Zpos k)) as [E|E]; [|lia].
        exfalso. apply E0. rewrite E. apply Z.mod_mul. lia.
  - rewrite Hrec. split; [lia|]. split; [lia|]. intros Hn. apply Hlt. tauto.
Qed.

(** Rounding keeps a non-negative number below a bound that is a
    double. *)
Lemma binary_round_aux_le mx ex lx mB eB :
  0 <= mx -> ex <= eB -> -1074 <= eB <= 971 -> 0 <= mB < 2 ^ 53 ->
  mx <= mB * 2 ^ (eB - ex) -> (lx <> loc_Exact -> mx < mB * 2 ^ (eB - ex)) ->
  below (binary_round_aux prec emax false mx ex lx) mB eB.
Proof.
  intros Hm He HeB HmB Hle Hlt.
  pose proof (shr_fexp_le mx ex lx mB eB Hm He ltac:(lia) HmB Hle Hlt) as H1.
  unfold binary_round_aux.
  destruct (shr_fexp prec emax mx ex lx) as [mrs1 e1]. simpl in H1.
  destruct H1 as (He1 & Hm1 & Hs1).
  set (m2 := round_nearest_even (shr_m mrs1) (loc_of_shr_record mrs1)).
  assert (0 <= m2 <= mB * 2 ^ (eB - e1)) as Hm2.
  { unfold m2, flagsOff in *. destruct mrs1 as [m r s].
    cbn [shr_m shr_r shr_s] in *.
    destruct s, r; cbn [loc_of_shr_record round_nearest_even]; try lia.
    all: assert (m < mB * 2 ^ (eB - e1)) by (apply Hs1; intuition congruence).
    all: try destruct (IntDef.Z.even m); lia. }
  pose proof (shr_fexp_le m2 e1 loc_Exact mB eB ltac:(lia) ltac:(lia) ltac:(lia)
                HmB ltac:(lia) ltac:(done)) as H2.
  destruct (shr_fexp prec emax m2 e1 loc_Exact) as [mrs2 e2]. simpl in H2.
  destruct H2 as (He2 & Hm3 & _).
  destruct (shr_m mrs2) as [|p|p]; [by left| |lia].
  destruct (Z.leb_spec e2 (emax - prec)) as [_|Hgt]; [|unfold emax, prec in Hgt; lia].
  right. exists p, e2. split; [done|]. split; lia.
Qed.
End Rounding.

Section Operations.
Local Open Scope Z_scope.

Lemma below_mono f mB mB' eB :
  mB <= mB' -> below f mB eB -> below f mB' eB.
Proof.
  intros Hle [->|(m & e & -> & He & Hm)]; [by left|].
  right. exists m, e. split; [done|]. split; [done|].
  pose proof (pow2_pos (eB - e) ltac:(lia)). nia.
Qed.

Lemma SFmul_le mx ex my ey mB eB :
  ex + ey <= eB -> -1074 <= eB <= 971 -> 0 <= mB < 2 ^ 53 ->
  Zpos mx * Zpos my <= mB * 2 ^ (eB - (ex + ey)) ->
  below (SFmul prec emax (S754_finite false mx ex) (S754_finite false my ey)) mB eB.
Proof.
  intros He HeB HmB Hle. simpl.
  apply binary_round_aux_le; try done; lia.
Qed.

Lemma iter_xO_spec m d : Zpos (Pos.iter xO m d) = Zpos m * 2 ^ Zpos d.
Proof.
  induction d as [|d IH] using Pos.peano_ind.
  - simpl. lia.
  - rewrite Pos.iter_succ, Pos2Z.inj_xO, IH, Pos2Z.inj_succ, Z.pow_succ_r by lia. ring.
Qed.

(** Aligning a mantissa to an exponent keeps its value; the exponent does
    not grow. *)
Lemma shl_align_spec mx ex e' :
  let r := shl_align mx ex e' in
  r.2 <= ex /\ (e' <= ex -> r.2 = e') /\ Zpos r.1 = Zpos mx * 2 ^ (ex - r.2).
Proof.
  unfold shl_align. destruct (e' - ex) as [|d|d] eqn:E; simpl.
  - rewrite Z.sub_diag. simpl. lia.
  - rewrite Z.sub_diag. simpl. lia.
  - rewrite iter_xO_spec. replace (ex - e') with (Zpos d) by lia. lia.
Qed.

Lemma binary_round_le mx ex mB eB :
  ex <= eB -> -1074 <= eB <= 971 -> 0 <= mB < 2 ^ 53 ->
  Zpos mx <= mB * 2 ^ (eB - ex) ->
  below (binary_round prec emax false mx ex) mB eB.
Proof.
  intros He HeB HmB Hle. unfold binary_round.
  pose proof (shl_align_spec mx ex (fexp prec emax (Zpos (digits2_pos mx) + ex)))
    as (H1 & _ & H3).
  destruct (shl_align mx ex _) as [mz ez]. simpl in H1, H3.
  apply binary_round_aux_le; try done; try lia.
  rewrite H3. replace (eB - ez) with ((eB - ex) + (ex - ez)) by lia.
  rewrite pow2_split by lia.
  pose proof (pow2_pos (ex - ez) ltac:(lia)). nia.
Qed.

Lemma SFadd_le mx ex my ey mB eB :
  ex <= eB -> ey <= eB -> -1074 <= eB <= 971 -> 0 <= mB < 2 ^ 53 ->
  Zpos mx * 2 ^ (ex - Z.min ex ey) + Zpos my * 2 ^ (ey - Z.min ex ey)
  <= mB * 2 ^ (eB - Z.min ex ey) ->
  below (SFadd prec emax (S754_finite false mx ex) (S754_finite false my ey)) mB eB.
Proof.
  intros Hex Hey HeB HmB Hle. unfold SFadd. cbv zeta. unfold cond_Zopp.
  pose proof (shl_align_spec mx ex (Z.min ex ey)) as (_ & E1 & V1).
  pose proof (shl_align_spec my ey (Z.min ex ey)) as (_ & E2 & V2).
  rewrite E1 in V1 by lia. rewrite E2 in V2 by lia.
  destruct (shl_align mx ex (Z.min ex ey)) as [ax ae].
  destruct (shl_align my ey (Z.min ex ey)) as [bx be].
  simpl fst in *. simpl snd in *.
  change (Zpos ax + Zpos bx) with (Zpos (ax + bx)).
  unfold binary_normalize.
  apply binary_round_le; [lia|done|done|].
  rewrite Pos2Z.inj_add, V1, V2. done.
Qed.

(** An inequality between scaled integers does not depend on the common
    exponent. *)
Lemma scaled_le_rebase X Y a b c c' :
  c <= a -> c <= b -> c' <= a -> c' <= b ->
  X * 2 ^ (a - c) <= Y * 2 ^ (b - c) -> X * 2 ^ (a - c') <= Y * 2 ^ (b - c').
Proof.
  intros Ha Hb Ha' Hb' Hle.
  pose proof (pow2_pos (a - c) ltac:(lia)). pose proof (pow2_pos (b - c) ltac:(lia)).
  pose proof (pow2_pos (a - c') ltac:(lia)). pose proof (pow2_pos (b - c') ltac:(lia)).
  destruct (Z_le_gt_dec c' c) as [Hcc|Hcc].
  - pose proof (pow2_pos (c - c') ltac:(lia)).
    replace (a - c') with ((a - c) + (c - c')) by lia.
    replace (b - c') with ((b - c) + (c - c')) by lia.
    rewrite !pow2_split by lia. nia.
  - pose proof (pow2_pos (c' - c) ltac:(lia)).
    replace (a - c) with ((a - c') + (c' - c)) in Hle by lia.
    replace (b - c) with ((b - c') + (c' - c)) in Hle by lia.
    rewrite !pow2_split in Hle by lia. nia.
Qed.

Lemma new_location_exact n r : new_location n r = loc_Exact <-> r = 0.
Proof.
  unfold new_location, new_location_even, new_location_odd.
  destruct (Z.even n); destruct (Z.eqb_spec r 0); split; try done.
Qed.

(** [a / x] is at most [B] when [a <= B * x]. *)
Lemma SFdiv_le ma ea mx ex mB eB c :
  -1074 <= eB <= 971 -> 0 <= mB < 2 ^ 53 ->
  c <= ea -> c <= eB + ex ->
  Zpos ma * 2 ^ (ea - c) <= mB * Zpos mx * 2 ^ (eB + ex - c) ->
  below (SFdiv prec emax (S754_finite false ma ea) (S754_finite false mx ex)) mB eB.
Proof.
  intros HeB HmB Hc1 Hc2 Hle. unfold SFdiv, SFdiv_core_binary. cbv zeta.
  simpl Zdigits2. simpl xorb.
  set (d1 := Zpos (digits2_pos ma)). set (d2 := Zpos (digits2_pos mx)).
  set (e' := Z.min (fexp prec emax (d1 + ea - (d2 + ex))) (ea - ex)).
  pose proof (digits2_pos_lower ma) as Hd1. fold d1 in Hd1.
  pose proof (digits2_pos_upper mx) as Hd2. fold d2 in Hd2.
  assert (0 < d2) as Hd2pos by (unfold d2; lia).
  assert (0 < d1) as Hd1pos by (unfold d1; lia).
  (* the exponent of the quotient is at most eB *)
  assert (e' <= eB) as He'.
  { assert (fexp prec emax (d1 + ea - (d2 + ex)) <= eB); [|unfold e'; lia].
    unfold fexp, emin, prec, emax.
    assert (d1 + ea - (d2 + ex) - 53 <= eB); [|lia].
    pose proof (pow2_pos (ea - c) ltac:(lia)) as P1.
    pose proof (pow2_pos (eB + ex - c) ltac:(lia)) as P2.
    pose proof (pow2_pos (d1 - 1) ltac:(lia)) as P3.
    assert (2 ^ ((d1 - 1) + (ea - c)) < 2 ^ ((53 + d2) + (eB + ex - c))) as Hlt.
    { rewrite !pow2_split by lia.
      assert (2 ^ (d1 - 1) * 2 ^ (ea - c) <= Zpos ma * 2 ^ (ea - c)) by nia.
      assert (mB * Zpos mx < 2 ^ 53 * 2 ^ d2) by nia.
      nia. }
    apply pow2_lt_inv in Hlt; lia. }
  set (s := ea - ex - e').
  assert (0 <= s) as Hs by (unfold s, e'; lia).
  assert (match s with
          | Zpos _ => Z.shiftl (Zpos ma) s
          | 0 => Zpos ma
          | Zneg _ => 0
          end = Zpos ma * 2 ^ s) as ->.
  { destruct s as [|k|k] eqn:Es; [simpl; lia| |lia].
    by rewrite Z.shiftl_mul_pow2 by lia. }
  pose proof (Z_div_mod (Zpos ma * 2 ^ s) (Zpos mx) ltac:(lia)) as Hdm.
  destruct (Z.div_eucl (Zpos ma * 2 ^ s) (Zpos mx)) as [q r].
  destruct Hdm as [Hq Hr].
  (* the bound at the exponent of the quotient *)
  pose proof (pow2_pos s Hs) as Ps.
  pose proof (pow2_pos (eB - e') ltac:(lia)) as PB.
  assert (Zpos ma * 2 ^ s <= mB * 2 ^ (eB - e') * Zpos mx) as Hbound.
  { apply (scaled_le_rebase _ _ ea (eB + ex) c (ex + e')) in Hle;
      [|done|done|unfold s in Hs; lia|lia].
    replace (ea - (ex + e')) with s in Hle by (unfold s; lia).
    replace (eB + ex - (ex + e')) with (eB - e') in Hle by lia.
    lia. }
  apply binary_round_aux_le; try done.
  - nia.
  - nia.
  - intros Hloc. rewrite new_location_exact in Hloc. nia.
Qed.
End Operations.

(** * The stop test for two dice of the same size, with doubles *)

Section SameSizeDouble.
Local Open Scope Z_scope.

Lemma SFadd_below a b k j eB :
  -1074 <= eB <= 971 -> 0 <= k -> 0 <= j -> k + j < 2 ^ 53 ->
  below a k eB -> below b j eB ->
  below (SFadd prec emax a b) (k + j) eB.
Proof.
  intros HeB Hk Hj Hkj [->|(ma & ea & -> & Hea & Hma)] [->|(mb & eb & -> & Heb & Hmb)].
  - by left.
  - apply (below_mono _ j); [lia|]. right. by exists mb, eb.
  - apply (below_mono _ k); [lia|]. right. by exists ma, ea.
  - apply SFadd_le; try done; try lia.
    set (c := Z.min ea eb).
    assert (Zpos ma * 2 ^ (ea - c) <= k * 2 ^ (eB - c)) as H1.
    { apply (scaled_le_rebase _ _ ea eB ea c); unfold c; try lia.
      by rewrite Z.sub_diag, Z.mul_1_r. }
    assert (Zpos mb * 2 ^ (eb - c) <= j * 2 ^ (eB - c)) as H2.
    { apply (scaled_le_rebase _ _ eb eB eb c); unfold c; try lia.
      by rewrite Z.sub_diag, Z.mul_1_r. }
    lia.
Qed.

(** The running sum of [c] terms that are at most [2 ^ eB], starting at most
    [k * 2 ^ eB], is at most [(k + c) * 2 ^ eB]. *)
Lemma runningSum_below (t : float) eB : forall (c : nat) k (z : float),
  -1074 <= eB <= 971 -> 0 <= k -> k + Z.of_nat c < 2 ^ 53 ->
  below (Prim2SF t) 1 eB -> below (Prim2SF z) k eB ->
  below (Prim2SF (runningSum (N := float) c t z)) (k + Z.of_nat c) eB.
Proof.
  induction c as [|c IH]; intros k z HeB Hk Hlt Ht Hz.
  - simpl. by rewrite Z.add_0_r.
  - simpl runningSum.
    replace (k + Z.of_nat (S c)) with ((k + 1) + Z.of_nat c) by lia.
    apply IH; try done; try lia.
    change (add z t) with (PrimFloat.add z t). rewrite add_spec.
    apply SFadd_below; try done; lia.
Qed.

Lemma compare_cont_le (m p : positive) :
  Zpos m <= Zpos p -> Pos.compare_cont Eq m p <> Gt.
Proof.
  intros Hle Ec. change (Pos.compare m p = Gt) in Ec.
  apply Pos.compare_gt_iff in Ec. lia.
Qed.

(** A double that is at most 2 passes the test [2 >= x]. *)
Lemma below_two_leb (x : float) :
  below (Prim2SF x) 1 1 -> PrimFloat.leb x (doubleOfNat 2) = true.
Proof.
  intros Hx. rewrite leb_spec.
  change (Prim2SF (doubleOfNat 2)) with (S754_finite false 4503599627370496 (-51)).
  pose proof (Prim2SF_valid x) as Hv.
  destruct Hx as [->|(m & e & E & He & Hm)]; [done|].
  rewrite E in Hv |- *. unfold SFleb, SFcompare.
  destruct (Z.compare_spec e (-51)) as [->|Hlt|Hgt]; [|done|].
  - destruct (Pos.compare_cont Eq m 4503599627370496) eqn:Ec; [done..|].
    exfalso. revert Ec. apply compare_cont_le.
    rewrite Z.mul_1_l in Hm. exact Hm.
  - exfalso. unfold valid_binary, bounded, canonical_mantissa in Hv.
    apply andb_prop in Hv as [Hc _]. apply Z.eqb_eq in Hc.
    unfold fexp, emin, FloatOps.prec, FloatOps.emax in Hc.
    pose proof (digits2_pos_lower m) as Hd.
    assert (Zpos (digits2_pos m) = 53) as Ed by lia. rewrite Ed in Hd.
    assert (2 ^ (1 - e) <= 2 ^ 51) by (apply Z.pow_le_mono_r; lia).
    change (2 ^ (53 - 1)) with 4503599627370496 in Hd.
    change (2 ^ 51) with 2251799813685248 in *. lia.
Qed.

(** The double of a face count: its mantissa and exponent. *)
Lemma doubleOfNat_shape n :
  (1 <= n)%nat -> Z.of_nat n < 2 ^ 53 ->
  exists m e, Prim2SF (doubleOfNat n) = S754_finite false m e /\
              -52 <= e <= 0 /\ Zpos m = Z.of_nat n * 2 ^ (- e) /\
              2 ^ 52 <= Zpos m < 2 ^ 53.
Proof.
  intros Hn Hlt. unfold doubleOfNat. rewrite of_uint63_spec, Uint63.of_Z_spec.
  rewrite Z.mod_small by (change wB with (2 ^ 63); lia).
  destruct (Z.of_nat n) as [|p|p] eqn:E; [lia| |lia].
  pose proof (digits2_pos_bound p 53 Hlt) as Hd.
  unfold binary_normalize, binary_round, shl_align.
  assert (fexp prec emax (Z.pos (digits2_pos p) + 0) = Zpos (digits2_pos p) - 53) as ->.
  { unfold fexp, emin, prec, emax. lia. }
  assert (forall m, digits2_pos m = 53%positive -> 2 ^ 52 <= Zpos m < 2 ^ 53) as Hrange.
  { intros m Hm. pose proof (digits2_pos_lower m). pose proof (digits2_pos_upper m).
    rewrite Hm in *. done. }
  destruct (Zpos (digits2_pos p) - 53 - 0) as [|k|k] eqn:Ek; [|lia|].
  - assert (digits2_pos p = 53%positive) as Ed by lia.
    exists p, 0. rewrite binary_round_aux_canonical by (done || lia).
    split; [done|]. split; [lia|]. split; [simpl; lia|]. by apply Hrange.
  - assert (digits2_pos (Pos.iter xO p k) = 53%positive) as Ed.
    { rewrite digits2_pos_iter. lia. }
    exists (Pos.iter xO p k), (Zpos (digits2_pos p) - 53).
    rewrite binary_round_aux_canonical by (done || lia).
    split; [done|]. split; [lia|]. split; [|by apply Hrange].
    rewrite iter_xO_spec. f_equal. f_equal. lia.
Qed.

(** With doubles, the expectation stored for two dice of [n] faces passes
    the stop test of the first round: the running sum of [n] terms that are
    at most [2 ^ -L], for [2 ^ L <= n], is at most [n * 2 ^ -L <= 2]. *)
Lemma sameSizeExpectation_double_stop n :
  (2 <= n)%nat -> Z.of_nat n < 2 ^ 53 ->
  PrimFloat.leb (sameSizeExpectation (N := float) n) (doubleOfNat 2) = true.
Proof.
  intros Hn Hlt.
  destruct (doubleOfNat_shape n ltac:(lia) Hlt) as (mx & ex & Ex & Hex & Vx & Rx).
  pose proof (pow2_pos (- ex) ltac:(lia)) as Pex.
  assert (-51 <= ex) as Hex'.
  { assert (2 ^ (1 + - ex) < 2 ^ 53) as H; [|apply pow2_lt_inv in H; lia].
    rewrite pow2_split by lia. change (2 ^ 1) with 2. nia. }
  set (L := ex + 52).
  apply below_two_leb. unfold sameSizeExpectation. rewrite Nat.pow_1_r. cbv zeta.
  cbn [ofNat add sub mul div Double].
  set (x := doubleOfNat n) in *.
  change (doubleOfNat 0 * doubleOfNat 1)%float with (doubleOfNat 0).
  rewrite (double_sub_zero x mx ex Ex).
  (* the term *)
  assert (below (Prim2SF (doubleOfNat 1 / x * doubleOfNat 1)%float) 1 (- L)) as Ht.
  { assert (below (Prim2SF (doubleOfNat 1 / x)%float) 1 (- L)) as Hq.
    { rewrite div_spec, Ex.
      change (Prim2SF (doubleOfNat 1)) with (S754_finite false 4503599627370496 (-52)).
      apply (SFdiv_le _ _ _ _ _ _ (-52)); unfold L; lia. }
    rewrite mul_spec.
    change (Prim2SF (doubleOfNat 1)) with (S754_finite false 4503599627370496 (-52)).
    destruct Hq as [->|(mq & eq & -> & Heq & Hmq)]; [by left|].
    apply SFmul_le; unfold L in *; try lia.
    replace (- (ex + 52) - (eq + -52)) with ((- (ex + 52) - eq) + 52) by lia.
    rewrite pow2_split by lia. change (2 ^ 52) with 4503599627370496. lia. }
  (* the running sum *)
  pose proof (runningSum_below _ (- L) n 0 (doubleOfNat 0) ltac:(unfold L; lia)
                ltac:(lia) ltac:(lia) Ht ltac:(by left)) as Hz.
  rewrite Z.add_0_l in Hz.
  set (z := runningSum n (doubleOfNat 1 / x * doubleOfNat 1)%float (doubleOfNat 0)) in *.
  (* the product *)
  assert (below (Prim2SF (x * z + doubleOfNat 0)%float) (Zpos mx) (ex + 1)) as Ha.
  { rewrite add_spec. change (Prim2SF (doubleOfNat 0)) with (S754_zero false).
    replace (Zpos mx) with (Zpos mx + 0) by lia.
    apply SFadd_below; try lia; [|by left].
    rewrite mul_spec, Ex.
    destruct Hz as [->|(mz & ez & -> & Hez & Hmz)]; [by left|].
    apply SFmul_le; unfold L in *; try lia.
    replace (ex + 1 - (ex + ez)) with (1 - ez) by lia.
    assert (Zpos mz <= 2 ^ (1 - ez)); [|nia].
    pose proof (pow2_pos (- (ex + 52) - ez) ltac:(lia)) as P1.
    assert (Z.of_nat n <= 2 ^ (ex + 53)) as Hn2.
    { assert (2 ^ 53 = 2 ^ (ex + 53) * 2 ^ (- ex)) as E53
        by (rewrite <- pow2_split by lia; f_equal; lia).
      rewrite E53 in Rx. nia. }
    replace (1 - ez) with ((ex + 53) + (- (ex + 52) - ez)) by lia.
    rewrite pow2_split by lia. nia. }
  (* the quotient *)
  rewrite div_spec, Ex.
  destruct Ha as [->|(ma & ea & -> & Hea & Hma)]; [by left|].
  apply (SFdiv_le _ _ _ _ _ _ ea); try lia.
  rewrite Z.sub_diag. change (2 ^ 0) with 1.
  replace (1 + ex - ea) with (ex + 1 - ea) by lia. lia.
Qed.
End SameSizeDouble.

(** * The expectation of a rule *)

Section Expectation.
Context {N : Type} `{AddsZero N}.

Lemma getConversionWith_inv getBest dieA dieB makeFair throws rule :
  getConversionWith getBest dieA dieB makeFair throws = Returned rule ->
  exists bs z sizeB,
    branchLoop getBest dieB throws (ofNat (length dieA ^ throws))
      (partitionTosses (generateTosses dieA makeFair throws) dieB) (ofNat 0) 0
    = Returned (bs, z, sizeB) /\
    rule = mkRule dieA dieB makeFair throws bs
             (div (add (mul (ofNat (length dieA ^ throws)) z)
                       (mul (ofNat sizeB) (ofNat throws)))
                  (sub (ofNat (length dieA ^ throws)) (ofNat sizeB))).
Proof.
  unfold getConversionWith.
  destruct (branchLoop _ _ _ _ _ _ _) as [[[bs z] sizeB]| |]; simpl; try done.
  intros [= <-]. by eexists _, _, _.
Qed.

Lemma branchLoop_z getBest dieB throws sizeA : forall entries z sizeB bs z' sizeB',
  branchLoop getBest dieB throws sizeA entries z sizeB = Returned (bs, z', sizeB') ->
  z' = foldl (specTerm sizeA throws) z bs.
Proof.
  induction entries as [|[range subDie] rest IH]; intros z sizeB bs z' sizeB' Hrun.
  - by apply branchLoop_nil in Hrun as (-> & -> & _).
  - apply branchLoop_cons in Hrun as (b & z1 & s1 & bs0 & Hc & Hrest & ->).
    rewrite (IH _ _ _ _ _ Hrest). simpl. f_equal.
    destruct Hc; unfold specTerm, entrySize; simpl; [done| |done].
    by rewrite add_zero.
Qed.

Lemma branchLoop_branches getBest dieB throws sizeA :
  forall entries z sizeB bs z' sizeB',
  branchLoop getBest dieB throws sizeA entries z sizeB = Returned (bs, z', sizeB') ->
  Forall2 (fun e rb =>
             rb.1 = e.1 /\
             match rb.2 with
             | Repeat => length e.2 = length dieB
             | Terminal label =>
                 length e.2 = 1 /\ length e.2 <> length dieB /\
                 label = nth 0 e.2 ""%string
             | Reduce sub =>
                 length e.2 <> 1 /\ length e.2 <> length dieB /\
                 getBest e.2 = Returned sub
             end) entries bs.
Proof.
  induction entries as [|[range subDie] rest IH]; intros z sizeB bs z' sizeB' Hrun.
  - apply branchLoop_nil in Hrun as (-> & _ & _). constructor.
  - apply branchLoop_cons in Hrun as (b & z1 & s1 & bs0 & Hc & Hrest & ->).
    constructor; [|by eapply IH].
    split; [done|]. destruct Hc; simpl; done.
Qed.

Lemma branchLoop_repeats getBest dieB throws sizeA :
  forall entries z sizeB bs z' sizeB',
  branchLoop getBest dieB throws sizeA entries z sizeB = Returned (bs, z', sizeB') ->
  specSizeB bs = sum_list_with entrySize (filter (fullEntry dieB) entries).
Proof.
  unfold specSizeB.
  induction entries as [|[range subDie] rest IH]; intros z sizeB bs z' sizeB' Hrun.
  - by apply branchLoop_nil in Hrun as (-> & _ & _).
  - apply branchLoop_cons in Hrun as (b & z1 & s1 & bs0 & Hc & Hrest & ->).
    rewrite !filter_cons. specialize (IH _ _ _ _ _ Hrest).
    destruct Hc; simpl.
    + rewrite decide_True by done. simpl. by rewrite IH.
    + rewrite decide_False by done. done.
    + rewrite decide_False by done. done.
Qed.
End Expectation.

(** C3: the expectation that [getConversion] stores is
    [(a * z + sizeB * throws) / (a - sizeB)], with [a], [z] and [sizeB] as
    the specification defines them from the branches of the rule: a branch
    is the repeat branch when its sub-die has the size of the target, a
    terminal branch, of expectation 0, when its sub-die has one face, and
    otherwise holds the rule that [getBestConversion] returns for its
    sub-die. *)
Theorem expectation_formula {N : Type} `{AddsZero N} (fuel : nat)
    (sourceDie targetDie : Die) (fair : bool) (draws : nat)
    (rule : ConversionRule N) :
  getConversion fuel sourceDie targetDie fair draws = Returned rule ->
  expectation rule = specExpectation rule /\
  dieA rule = sourceDie /\ throws rule = draws /\
  Forall2 (fun e rb =>
             rb.1 = e.1 /\
             match rb.2 with
             | Repeat => length e.2 = length targetDie
             | Terminal label =>
                 length e.2 = 1 /\ length e.2 <> length targetDie /\
                 label = nth 0 e.2 ""%string
             | Reduce sub =>
                 length e.2 <> 1 /\ length e.2 <> length targetDie /\
                 getBestConversion fuel sourceDie e.2 fair = Returned sub
             end)
          (partitionTosses (generateTosses sourceDie fair draws) targetDie)
          (conversions rule).
Proof.
  intros Hrun. unfold getConversion in Hrun.
  apply getConversionWith_inv in Hrun as (bs & z & sizeB & Hloop & ->).
  split; [|split; [done|split; [done|]]].
  - unfold specExpectation, specZ. simpl.
    rewrite (branchLoop_repeats _ _ _ _ _ _ _ _ _ _ Hloop).
    rewrite <- (branchLoop_partition_sizeB _ _ _ _ _ _ _ _ _ Hloop).
    by rewrite (branchLoop_z _ _ _ _ _ _ _ _ _ _ Hloop).
  - exact (branchLoop_branches
             (fun subDie => getBestConversion fuel sourceDie subDie fair)
             targetDie draws _ _ _ _ _ _ _ Hloop).
Qed.

Lemma expectation_formula_witness :
  exists rule,
    getConversion (N := float) 5 (createDie 2) (createDie 6) false 3 = Returned rule /\
    expectation rule = specExpectation rule.
Proof.
  eexists. split; [vm_compute; reflexivity|].
  eapply (proj1 (expectation_formula (N := float) 5 (createDie 2) (createDie 6)
                   false 3 _ _)).
  Unshelve. vm_compute. reflexivity.
Defined.

(** * The two loops of [getBestConversion] *)

Lemma minThrows_spec a b : forall fuel throws total t0,
  minThrows fuel a b throws total = Returned t0 ->
  1 <= throws -> total = a ^ throws ->
  (forall s, 1 <= s < throws -> a ^ s < b) ->
  leastThrows a b t0.
Proof.
  induction fuel as [|fuel IH]; intros throws total t0 Hrun Ht Htot Hlow; [done|].
  simpl in Hrun. destruct (Nat.ltb_spec total b) as [Hlt|Hge].
  - apply IH in Hrun; [done|lia| |].
    + rewrite Nat.add_1_r. simpl. lia.
    + intros s Hs. destruct (decide (s = throws)) as [->|Hne]; [lia|].
      apply Hlow. lia.
  - injection Hrun as <-. split; [done|]. split; [lia|done].
Qed.

Lemma minThrows_not_thrown a b : forall fuel throws total msg,
  minThrows fuel a b throws total <> Thrown msg.
Proof.
  induction fuel as [|fuel IH]; intros throws total msg; [done|].
  simpl. destruct (_ <? _); [apply IH|done].
Qed.

(** A source die of at most one face never reaches a larger target. *)
Lemma minThrows_diverges a b : forall fuel throws,
  a <= 1 -> a < b -> minThrows fuel a b throws a = OutOfFuel.
Proof.
  induction fuel as [|fuel IH]; intros throws Ha Hb; [done|].
  simpl. destruct (Nat.ltb_spec a b) as [_|?]; [|lia].
  assert (a * a = a) as -> by nia. by apply IH.
Qed.

Section Search.
Context {N : Type} `{JSNumber N}.

Lemma search_throws (conversionAt : nat -> Outcome (ConversionRule N)) t0 :
  (forall t rule, conversionAt t = Returned rule -> throws rule = t) ->
  forall fuel t best rule,
    search conversionAt fuel t best = Returned rule ->
    t0 <= t -> (forall b, best = Some b -> t0 <= throws b) ->
    t0 <= throws rule.
Proof.
  intros Hconv. induction fuel as [|fuel IH]; intros t best rule Hrun Ht Hbest; [done|].
  simpl in Hrun.
  destruct (conversionAt t) as [conversion| |] eqn:E; simpl in Hrun; try done.
  apply Hconv in E.
  set (best' := match best with
                | None => conversion
                | Some b => if lt (expectation conversion) (expectation b)
                            then conversion else b
                end) in *.
  assert (t0 <= throws best') as Hb'.
  { unfold best'. destruct best as [b|]; [|lia].
    destruct (lt _ _); [lia|]. by apply Hbest. }
  destruct (ge _ _).
  - by injection Hrun as <-.
  - apply IH in Hrun; [done|lia|]. by intros b [= <-].
Qed.

Lemma search_not_thrown (conversionAt : nat -> Outcome (ConversionRule N)) :
  (forall t msg, conversionAt t <> Thrown msg) ->
  forall fuel t best msg, search conversionAt fuel t best <> Thrown msg.
Proof.
  intros Hconv. induction fuel as [|fuel IH]; intros t best msg; [done|].
  simpl. destruct (conversionAt t) as [conversion| |] eqn:E; simpl; try done.
  - destruct (ge _ _); [done|apply IH].
  - by apply Hconv in E.
Qed.

Lemma branchLoop_not_thrown getBest dieB t sizeA :
  (forall subDie msg, getBest subDie <> Thrown msg) ->
  forall entries z sizeB msg,
    branchLoop getBest dieB t sizeA entries z sizeB <> Thrown msg.
Proof.
  intros Hbest. induction entries as [|[range subDie] rest IH]; intros z sizeB msg;
    [done|].
  simpl. destruct (_ =? _).
  - specialize (IH z (length (faces range)) msg).
    destruct (branchLoop getBest dieB t sizeA rest _ _) as [[[bs z1] s1]| |]; done.
  - destruct (_ =? 1).
    + match goal with |- context [branchLoop _ _ _ _ rest ?z' ?s'] =>
        specialize (IH z' s' msg);
        destruct (branchLoop getBest dieB t sizeA rest z' s') as [[[bs z1] s1]| |]
      end; done.
    + destruct (getBest subDie) as [r| |] eqn:E; simpl; try done.
      * match goal with |- context [branchLoop _ _ _ _ rest ?z' ?s'] =>
          specialize (IH z' s' msg);
          destruct (branchLoop getBest dieB t sizeA rest z' s') as [[[bs z1] s1]| |]
        end; done.
      * by apply Hbest in E.
Qed.

Lemma getConversionWith_not_thrown getBest dieA dieB makeFair t :
  (forall subDie msg, getBest subDie <> Thrown msg) ->
  forall msg, getConversionWith getBest dieA dieB makeFair t <> Thrown msg.
Proof.
  intros Hbest msg. unfold getConversionWith.
  pose proof (branchLoop_not_thrown getBest dieB t (ofNat (length dieA ^ t)) Hbest
                (partitionTosses (generateTosses dieA makeFair t) dieB) (ofNat 0) 0 msg).
  destruct (branchLoop _ _ _ _ _ _ _) as [[[bs z] sizeB]| |]; simpl; congruence.
Qed.

(** No path of [getBestConversion] throws. *)
Lemma getBestConversion_not_thrown : forall fuel dieA dieB makeFair msg,
  getBestConversion fuel dieA dieB makeFair <> Thrown msg.
Proof.
  induction fuel as [|fuel IH]; intros dieA dieB makeFair msg; [done|].
  simpl.
  pose proof (minThrows_not_thrown (length dieA) (length dieB) fuel 1 (length dieA) msg).
  destruct (minThrows _ _ _ _ _) as [t| |]; simpl; try congruence.
  apply search_not_thrown. intros t' msg'.
  apply getConversionWith_not_thrown. intros subDie msg''. apply IH.
Qed.

Lemma getBestConversion_throws : forall fuel dieA dieB makeFair rule,
  getBestConversion fuel dieA dieB makeFair = Returned rule ->
  exists fuel' t0,
    minThrows fuel' (length dieA) (length dieB) 1 (length dieA) = Returned t0 /\
    leastThrows (length dieA) (length dieB) t0 /\ t0 <= throws rule.
Proof.
  intros [|fuel] dieA dieB makeFair rule Hrun; [done|]. simpl in Hrun.
  destruct (minThrows _ _ _ _ _) as [t0| |] eqn:E; simpl in Hrun; try done.
  exists fuel, t0. split; [done|]. split.
  - eapply minThrows_spec; [exact E|lia|simpl; lia|intros s Hs; lia].
  - eapply search_throws; [|exact Hrun|lia|done].
    intros t r Hr. apply getConversionWith_inv in Hr as (bs & z & sizeB & _ & ->). done.
Qed.

(** A source die of at most one face and a larger target: the first loop
    does not end. *)
Lemma getBestConversion_small_source fuel dieA dieB makeFair :
  length dieA <= 1 -> length dieA < length dieB ->
  getBestConversion fuel dieA dieB makeFair = OutOfFuel.
Proof.
  intros Ha Hb. destruct fuel as [|fuel]; [done|]. simpl.
  by rewrite minThrows_diverges.
Qed.
End Search.

(** C7: [getBestConversion(createDie(2), createDie(6), false)] returns a rule
    with [throws >= 3] and an expectation between 3 and 4, both excluded; and
    any rule that [getBestConversion] returns has at least as many throws as
    the value the search starts from, which is the least [t >= 1] with
    [faceCount(dieA) ^ t >= faceCount(dieB)]. *)
Theorem best_conversion_throws :
  (exists rule,
     getBestConversion (N := float) 5 (createDie 2) (createDie 6) false
     = Returned rule /\
     3 <= throws rule /\
     lt (ofNat 3) (expectation rule) = true /\
     lt (expectation rule) (ofNat 4) = true) /\
  (forall (N : Type) (num : JSNumber N) fuel dieA dieB makeFair
          (rule : ConversionRule N),
     getBestConversion fuel dieA dieB makeFair = Returned rule ->
     exists fuel' t0,
       minThrows fuel' (length dieA) (length dieB) 1 (length dieA) = Returned t0 /\
       leastThrows (length dieA) (length dieB) t0 /\ t0 <= throws rule).
Proof.
  split.
  - eexists. split; [vm_compute; reflexivity|].
    split; [simpl; lia|]. split; vm_compute; reflexivity.
  - intros N num. apply getBestConversion_throws.
Qed.

Lemma best_conversion_throws_witness :
  exists fuel' t0,
    minThrows fuel' (length (createDie 2)) (length (createDie 6)) 1
      (length (createDie 2)) = Returned t0 /\
    leastThrows (length (createDie 2)) (length (createDie 6)) t0 /\ t0 <= 3.
Proof.
  refine (proj2 best_conversion_throws float Double 5 (createDie 2) (createDie 6) false
            (mkRule _ _ _ 3 _ _) _).
  vm_compute. reflexivity.
Defined.

(** * Exact arithmetic *)

Lemma extOfNat_qn n : extOfNat n = Finite (qn n).
Proof. done. Qed.

Lemma qn_0 : qn 0 = 0%Qc.
Proof. done. Qed.

Lemma qn_1 : qn 1 = 1%Qc.
Proof. done. Qed.

Lemma qn_S n : qn (S n) = (qn n + 1)%Qc.
Proof.
  unfold qn. apply Qc_is_canon. simpl.
  rewrite !Qred_correct, Nat2Z.inj_succ, <- Z.add_1_r, inject_Z_plus.
  reflexivity.
Qed.

Lemma qn_mul a b : qn (a * b) = (qn a * qn b)%Qc.
Proof.
  unfold qn. apply Qc_is_canon. simpl.
  rewrite !Qred_correct, Nat2Z.inj_mul, inject_Z_mult. reflexivity.
Qed.

Lemma qn_pos n : 1 <= n -> qsign (qn n) = Gt.
Proof.
  intros Hn. unfold qsign, Qccompare, qn. simpl.
  rewrite Qred_correct. apply Qgt_alt.
  unfold Qlt. simpl. lia.
Qed.

Lemma qn_nonzero n : 1 <= n -> qn n <> 0%Qc.
Proof.
  intros Hn E. pose proof (qn_pos n Hn) as Hs. rewrite E in Hs. done.
Qed.

Lemma qsign_0 : qsign 0%Qc = Eq.
Proof. done. Qed.

(** * A target die of one face *)

Section OneFace.
Variable die : Die.
Hypothesis one_face : length die = 1.

Lemma partitionLoop_elem : forall divisors tosses result e,
  (forall d, d ∈ divisors -> 1 <= d /\ length die mod d = 0) ->
  e ∈ partitionLoop divisors die tosses result ->
  e ∈ result \/ exists d, d ∈ divisors /\ length e.2 = length die / d.
Proof.
  clear one_face.
  induction divisors as [|d divisors IH]; intros tosses result e Hds He; [by left|].
  rewrite partitionLoop_cons in He.
  apply IH in He as [He|(d' & Hd' & Hl)].
  - apply elem_of_app in He as [He|He]; [by left|]. right. exists d.
    destruct (Hds d ltac:(left)) as [Hd Hm].
    split; [left|]. by apply (pass_entries die d tosses e Hd Hm) in He as [_ ?].
  - right. exists d'. split; [by right|done].
  - intros d' Hd'. apply Hds. by right.
Qed.

Lemma one_face_full tosses e : e ∈ partitionTosses tosses die -> fullEntry die e.
Proof.
  intros He. unfold partitionTosses in He.
  apply partitionLoop_elem in He as [He|(d & Hd & Hl)].
  - by apply elem_of_nil in He.
  - unfold fullEntry. rewrite Hl. apply getDivisors_elem in Hd.
    rewrite one_face in *. assert (d = 1) as -> by lia. done.
  - intros d Hd. apply getDivisors_elem in Hd. split; [lia|tauto].
Qed.
End OneFace.

Section AllRepeat.
Context {N : Type} `{JSNumber N}.

(** When every entry is a repeat branch, [z] is not touched. *)
Lemma branchLoop_all_full getBest dieB t sizeA : forall entries z sizeB bs z' sizeB',
  branchLoop getBest dieB t sizeA entries z sizeB = Returned (bs, z', sizeB') ->
  Forall (fullEntry dieB) entries ->
  z' = z /\ bs = (fun e => (e.1, Repeat)) <$> entries.
Proof.
  induction entries as [|[range subDie] rest IH]; intros z sizeB bs z' sizeB' Hrun Hall.
  - by apply branchLoop_nil in Hrun as (-> & -> & _).
  - apply branchLoop_cons in Hrun as (b & z1 & s1 & bs0 & Hc & Hrest & ->).
    apply Forall_cons in Hall as [Hf Hall]. unfold fullEntry in Hf. simpl in Hf.
    destruct Hc; try done.
    destruct (IH _ _ _ _ _ Hrest Hall) as [-> ->]. done.
Qed.

(** A loop whose sub-dice are all full or of one face returns. *)
Lemma branchLoop_returns getBest dieB t sizeA : forall entries z sizeB,
  Forall (fun e => length e.2 = length dieB \/ length e.2 = 1) entries ->
  exists bs z' sizeB',
    branchLoop getBest dieB t sizeA entries z sizeB = Returned (bs, z', sizeB').
Proof.
  induction entries as [|[range subDie] rest IH]; intros z sizeB Hall.
  - by eexists _, _, _.
  - apply Forall_cons in Hall as [He Hall]. simpl in He. simpl.
    destruct (Nat.eqb_spec (length subDie) (length dieB)) as [Hf|Hf].
    + destruct (IH z (length (faces range)) Hall) as (bs & z' & s' & ->).
      by eexists _, _, _.
    + destruct (Nat.eqb_spec (length subDie) 1) as [H1|H1]; [|lia].
      match goal with |- context [branchLoop _ _ _ _ rest ?z1 ?s1] =>
        destruct (IH z1 s1 Hall) as (bs & z' & s' & ->) end.
      by eexists _, _, _.
Qed.
End AllRepeat.

(** With a target die of one face, every outcome is in the repeat branch and
    the expectation is infinite, in exact arithmetic. *)
Lemma getConversionWith_one_face getBest dieA dieB makeFair t :
  1 <= length dieA -> length dieB = 1 -> 1 <= t ->
  exists bs,
    getConversionWith (N := ExtQ) getBest dieA dieB makeFair t
    = Returned (mkRule dieA dieB makeFair t bs PosInf).
Proof.
  intros HA HB Ht. unfold getConversionWith.
  set (entries := partitionTosses (generateTosses dieA makeFair t) dieB).
  assert (Forall (fullEntry dieB) entries) as Hfull.
  { apply Forall_forall. intros e He. by eapply one_face_full. }
  destruct (branchLoop_returns getBest dieB t (ofNat (length dieA ^ t)) entries
              (ofNat 0) 0) as (bs & z & sizeB & Hrun).
  { eapply Forall_impl; [exact Hfull|]. intros e He. by left. }
  rewrite Hrun. simpl.
  destruct (branchLoop_all_full _ _ _ _ _ _ _ _ _ _ Hrun Hfull) as [-> _].
  pose proof (branchLoop_partition_sizeB _ _ _ _ _ _ _ _ _ Hrun) as Hs.
  fold entries in Hs.
  assert (filter (fullEntry dieB) entries = entries) as Hfilter.
  { clear -Hfull. induction Hfull as [|e l He _ IH]; [done|].
    by rewrite filter_cons_True, IH. }
  rewrite Hfilter in Hs. unfold entries in Hs.
  rewrite partition_sizes in Hs by lia. subst sizeB.
  exists bs. do 2 f_equal.
  set (a := length dieA ^ t).
  assert (1 <= a) as Ha by (unfold a; apply Nat.pow_lower_bound; lia).
  change (ofNat 0) with (Finite (qn 0)).
  unfold extOfNat. fold (qn a) (qn 0) (qn t).
  unfold extSub, extNeg, extAdd, extMul, extDiv.
  assert (qsign (qn a + - qn a) = Eq) as -> by (by rewrite Qcplus_opp_r).
  assert (qn a * qn 0 + qn a * qn t = qn (a * t))%Qc as ->
    by (rewrite qn_mul, qn_0; ring).
  rewrite qn_pos by nia. done.
Qed.

(** The search does not end while every expectation is infinite. *)
Lemma search_all_infinite (conversionAt : nat -> Outcome (ConversionRule ExtQ)) :
  (forall t, 1 <= t -> exists rule,
     conversionAt t = Returned rule /\ expectation rule = PosInf) ->
  forall fuel t best,
    1 <= t -> (forall b, best = Some b -> expectation b = PosInf) ->
    search conversionAt fuel t best = OutOfFuel.
Proof.
  intros Hconv. induction fuel as [|fuel IH]; intros t best Ht Hbest; [done|].
  simpl. destruct (Hconv t Ht) as (rule & -> & Hinf). simpl.
  set (best' := match best with
                | None => rule
                | Some b => if extLt (expectation rule) (expectation b)
                            then rule else b
                end).
  assert (expectation best' = PosInf) as Hb'.
  { unfold best'. destruct best as [b|]; [|done].
    destruct (extLt _ _); [done|by apply Hbest]. }
  rewrite Hb'. simpl. apply IH; [lia|]. by intros b [= <-].
Qed.

Lemma getBestConversion_one_face fuel dieA dieB makeFair :
  1 <= length dieA -> length dieB = 1 ->
  getBestConversion (N := ExtQ) fuel dieA dieB makeFair = OutOfFuel.
Proof.
  intros HA HB. destruct fuel as [|fuel]; [done|]. simpl.
  destruct (minThrows fuel (length dieA) (length dieB) 1 (length dieA))
    as [t0| |] eqn:E; simpl; try done.
  - apply minThrows_spec in E as (Ht0 & _); [|lia|simpl; lia|intros; lia].
    apply search_all_infinite; [|done|done].
    intros t Ht.
    destruct (getConversionWith_one_face
                (fun subDie => getBestConversion fuel dieA subDie makeFair)
                dieA dieB makeFair t HA HB Ht) as (bs & ->).
    by eexists.
  - by apply minThrows_not_thrown in E.
Qed.

(** * Dice of the same size, one throw *)

Lemma generateTosses_one_throw die :
  1 <= length die ->
  generateTosses die false 1
  = [{| faces := (fun j => [nth j die ""%string]) <$> seq 0 (length die);
        ids := seq 0 (length die) |}].
Proof.
  intros Hn.
  destruct (generateTosses_fair die 1) as (r & E & Hids & Hlen); [simpl; lia|].
  rewrite Nat.pow_1_r in Hids, Hlen.
  rewrite E. f_equal.
  assert (r ∈ generateTosses die false 1) as Hr by (rewrite E; left).
  destruct (generateTosses_class die false 1 r Hr) as (key & _ & [_ _ _ Ht]).
  destruct r as [F I]. simpl in *. subst I. f_equal.
  apply list_eq. intros i. rewrite list_lookup_fmap.
  destruct (decide (i < length die)) as [Hi|Hi].
  - rewrite lookup_seq_lt by done. simpl.
    destruct (lookup_lt_is_Some_2 F i ltac:(lia)) as [f Hf]. rewrite Hf. f_equal.
    destruct (Ht i f i Hf) as (_ & ds & L & _ & V & -> & _).
    { by rewrite lookup_seq_lt. }
    destruct ds as [|d [|? ?]]; try done.
    unfold digitsValue in V. simpl in V. by subst d.
  - rewrite lookup_seq_ge, lookup_ge_None_2 by lia. done.
Qed.

Lemma take_1_drop {A} (l : list A) j x : l !! j = Some x -> take 1 (drop j l) = [x].
Proof. intros Hx. by rewrite (drop_S _ _ _ Hx). Qed.

Lemma allocate_one_each die :
  allocate (length die) 1
    {| faces := (fun j => [nth j die ""%string]) <$> seq 0 (length die);
       ids := seq 0 (length die) |}
    (replicate (length die) emptyRange)
  = singleToss die <$> seq 0 (length die).
Proof.
  apply list_eq. intros j.
  rewrite allocate_lookup
    by (simpl; rewrite ?length_fmap, length_seq; lia).
  rewrite list_lookup_fmap.
  destruct (decide (j < length die)) as [Hj|Hj].
  - rewrite lookup_replicate_2, lookup_seq_lt by done. simpl.
    unfold chunkTo, appendRange, singleToss. simpl. rewrite Nat.mul_1_r.
    f_equal. f_equal.
    + apply take_1_drop. by rewrite list_lookup_fmap, lookup_seq_lt.
    + apply take_1_drop. by rewrite lookup_seq_lt.
  - rewrite lookup_seq_ge by lia.
    by rewrite (proj1 (lookup_replicate_None _ _ _)) by lia.
Qed.

Lemma entriesFrom_singles dieA subDice : forall c off s,
  entriesFrom off (singleToss dieA <$> seq s c) subDice
  = (fun i => (singleToss dieA (s + i), nth (off + i) subDice [])) <$> seq 0 c.
Proof.
  induction c as [|c IH]; intros off s; [done|].
  rewrite <- cons_seq, fmap_cons, entriesFrom_cons, IH. simpl.
  rewrite !Nat.add_0_r. f_equal.
  rewrite <- fmap_S_seq, <- list_fmap_compose.
  apply list_fmap_ext. intros i x _. simpl. f_equal; f_equal; lia.
Qed.

Lemma subDiceOf_singles die j :
  1 <= length die -> j < length die ->
  nth j (subDiceOf die (length die)) [] = [nth j die ""%string].
Proof.
  intros Hn Hj. unfold subDiceOf. rewrite Nat.div_same by lia.
  erewrite nth_lookup_Some.
  2:{ rewrite list_lookup_fmap, lookup_seq_lt by done. done. }
  unfold slice. simpl. rewrite !Nat.mul_1_r.
  replace (j + 1 - j) with 1 by lia.
  destruct (lookup_lt_is_Some_2 die j Hj) as [x Hx].
  by rewrite (take_1_drop _ _ _ Hx), (nth_lookup_Some _ _ _ _ Hx).
Qed.

Lemma partitionLoop_no_tosses die : forall divisors result,
  partitionLoop divisors die [] result = result.
Proof.
  induction divisors as [|d divisors IH]; intros result; [done|].
  rewrite partitionLoop_cons, allocateAll_nil. simpl.
  rewrite addToResult_entriesFrom, entriesFrom_replicate, app_nil_r. apply IH.
Qed.

(** The map for two dice of the same size and one throw: the toss [j] gives
    the face [j] of the target. *)
Lemma partitionTosses_identity dieA dieB :
  1 <= length dieA -> length dieB = length dieA ->
  partitionTosses (generateTosses dieA false 1) dieB
  = (fun j => (singleToss dieA j, [nth j dieB ""%string])) <$> seq 0 (length dieA).
Proof.
  intros Hn Hlen. unfold partitionTosses.
  destruct (getDivisors_head (length dieB)) as (l & ->); [lia|].
  rewrite partitionLoop_cons, generateTosses_one_throw by done.
  rewrite allocateAll_cons. cbv zeta. simpl faces. simpl ids.
  rewrite length_fmap, length_seq, Hlen, Nat.div_same by lia.
  simpl (1 =? 0). cbv iota. rewrite Nat.mul_1_r, Nat.eqb_refl.
  rewrite allocateAll_nil. simpl fst. simpl snd.
  rewrite partitionLoop_no_tosses, app_nil_l.
  rewrite allocate_one_each, addToResult_entriesFrom, entriesFrom_singles.
  apply list_eq. intros j. rewrite !list_lookup_fmap.
  destruct (decide (j < length dieA)) as [Hj|Hj].
  - rewrite lookup_seq_lt by done. simpl.
    rewrite <- Hlen, subDiceOf_singles by lia. done.
  - by rewrite lookup_seq_ge by lia.
Qed.

(** The loop of [getConversion] over this map, in exact arithmetic: every
    branch is terminal and adds [1/n * 1] to [z]. *)
Lemma branchLoop_identity getBest dieA dieB n : forall c s q,
  2 <= n -> length dieB = n ->
  branchLoop (N := ExtQ) getBest dieB 1 (ofNat n)
    ((fun j => (singleToss dieA j, [nth j dieB ""%string])) <$> seq s c)
    (Finite q) 0
  = Returned ((fun j => (singleToss dieA j, Terminal (nth j dieB ""%string)))
                <$> seq s c,
              Finite (q + qn c / qn n)%Qc, 0).
Proof.
  intros c s q Hn Hlen. revert s q.
  induction c as [|c IH]; intros s q.
  - replace (q + qn 0 / qn n)%Qc with q; [done|].
    rewrite qn_0. field. apply qn_nonzero; lia.
  - rewrite <- !cons_seq, !fmap_cons.
    change (branchLoop getBest dieB 1 (ofNat n) (?e :: ?rest) (Finite q) 0)
      with (if length (e.2) =? length dieB then
              '(bs, z', sizeB') ← branchLoop getBest dieB 1 (ofNat n) rest (Finite q)
                                   (length (faces e.1));
              Returned ((e.1, Repeat) :: bs, z', sizeB')
            else if length (e.2) =? 1 then
              '(bs, z', sizeB') ← branchLoop getBest dieB 1 (ofNat n) rest
                (add (Finite q) (mul (div (ofNat (length (faces e.1))) (ofNat n))
                                     (ofNat 1))) 0;
              Returned ((e.1, Terminal (nth 0 e.2 ""%string)) :: bs, z', sizeB')
            else
              subConversion ← getBest e.2;
              '(bs, z', sizeB') ← branchLoop getBest dieB 1 (ofNat n) rest
                (add (Finite q) (mul (div (ofNat (length (faces e.1))) (ofNat n))
                       (add (ofNat 1) (expectation subConversion)))) 0;
              Returned ((e.1, Reduce subConversion) :: bs, z', sizeB')).
    cbn [fst snd length faces singleToss].
    rewrite Hlen. destruct (Nat.eqb_spec 1 n) as [?|_]; [lia|]. simpl (1 =? 1).
    cbv iota.
    assert (add (Finite q) (mul (div (ofNat 1) (ofNat n)) (ofNat 1))
            = Finite (q + qn 1 / qn n * qn 1)%Qc) as ->.
    { simpl. unfold extOfNat. fold (qn 1) (qn n). unfold extDiv.
      rewrite qn_pos by lia. done. }
    rewrite IH. simpl.
    replace (q + qn 1 / qn n * qn 1 + qn c / qn n)%Qc with (q + qn (S c) / qn n)%Qc;
      [done|].
    rewrite qn_S, qn_1. field. apply qn_nonzero; lia.
Qed.

Lemma getConversionWith_identity getBest dieA dieB :
  2 <= length dieA -> length dieB = length dieA ->
  getConversionWith (N := ExtQ) getBest dieA dieB false 1
  = Returned (mkRule dieA dieB false 1
                ((fun j => (singleToss dieA j, Terminal (nth j dieB ""%string)))
                   <$> seq 0 (length dieA))
                (Finite 1%Qc)).
Proof.
  intros Hn Hlen. unfold getConversionWith.
  rewrite partitionTosses_identity, Nat.pow_1_r by lia.
  change (ofNat 0) with (Finite (qn 0)).
  rewrite (branchLoop_identity _ dieA dieB (length dieA)) by lia.
  unfold mbind, Outcome_bind, bindO. cbv beta iota. do 2 f_equal.
  cbn [div add mul sub ofNat Exact].
  unfold extOfNat. fold (qn (length dieA)) (qn 0) (qn 1).
  unfold extSub, extNeg, extAdd, extMul, extDiv.
  assert (qn (length dieA) + - qn 0 = qn (length dieA))%Qc as ->
    by (rewrite qn_0; ring).
  rewrite qn_pos by lia. f_equal. rewrite qn_0, qn_1. field.
  apply qn_nonzero; lia.
Qed.

(** In exact arithmetic, a die converts to a die of the same size in one
    throw, with expectation 1. *)
Lemma getBestConversion_identity fuel dieA dieB :
  2 <= fuel -> 2 <= length dieA -> length dieB = length dieA ->
  getBestConversion (N := ExtQ) fuel dieA dieB false
  = Returned (mkRule dieA dieB false 1
                ((fun j => (singleToss dieA j, Terminal (nth j dieB ""%string)))
                   <$> seq 0 (length dieA))
                (Finite 1%Qc)).
Proof.
  intros Hfuel Hn Hlen.
  destruct fuel as [|[|fuel]]; [lia..|].
  change (getBestConversion (S (S fuel)) dieA dieB false)
    with (throws ← minThrows (S fuel) (length dieA) (length dieB) 1 (length dieA);
          search (getConversionWith
                    (fun subDie => getBestConversion (S fuel) dieA subDie false)
                    dieA dieB false)
                 (S fuel) throws None).
  simpl minThrows. destruct (Nat.ltb_spec (length dieA) (length dieB)); [lia|].
  unfold mbind at 1, Outcome_bind, bindO. cbv beta iota.
  change (search ?c (S fuel) 1 None)
    with (conversion ← c 1;
          if ge (ofNat (1 + 1)) (expectation conversion) then Returned conversion
          else search c fuel (1 + 1) (Some conversion)).
  rewrite getConversionWith_identity by done. done.
Qed.

(** C8, as stated, fails for [n = 6]: the expectation is computed in double
    precision, the six terms [1/6 * 1] add up to [0.9999999999999999], and so
    does the expectation of the rule: it is below 1. *)
Lemma same_size_expectation_rounded :
  exists rule,
    getBestConversion (N := float) 2 (createDie 6) (createDie 6) false
    = Returned rule /\
    throws rule = 1 /\
    expectation rule = 0x1.fffffffffffffp-1%float /\
    expectation rule <> ofNat 1 /\
    lt (expectation rule) (ofNat 1) = true.
Proof.
  eexists. split; [vm_compute; reflexivity|]. simpl.
  split; [done|]. split; [done|]. split; [|done].
  intros E. apply (f_equal (fun x => PrimFloat.ltb x 1)) in E.
  vm_compute in E. discriminate.
Qed.

(** * Two dice of the same size, in any arithmetic *)

Section SameSize.
Context {N : Type} `{JSNumber N}.

(** The loop of [getConversion] over the map of [partitionTosses_identity]:
    every branch is terminal and adds [(1 / sizeA) * 1] to [z]. *)
Lemma branchLoop_same_size getBest dieA dieB (sizeA : N) : forall c s z,
  2 <= length dieB ->
  branchLoop getBest dieB 1 sizeA
    ((fun j => (singleToss dieA j, [nth j dieB ""%string])) <$> seq s c) z 0
  = Returned ((fun j => (singleToss dieA j, Terminal (nth j dieB ""%string)))
                <$> seq s c,
              runningSum c (mul (div (ofNat 1) sizeA) (ofNat 1)) z, 0).
Proof.
  intros c s z HB. revert s z.
  induction c as [|c IH]; intros s z; [done|].
  rewrite <- !cons_seq, !fmap_cons.
  change (branchLoop getBest dieB 1 sizeA (?e :: ?rest) z 0)
    with (if length (e.2) =? length dieB then
            '(bs, z', sizeB') ← branchLoop getBest dieB 1 sizeA rest z
                                 (length (faces e.1));
            Returned ((e.1, Repeat) :: bs, z', sizeB')
          else if length (e.2) =? 1 then
            '(bs, z', sizeB') ← branchLoop getBest dieB 1 sizeA rest
              (add z (mul (div (ofNat (length (faces e.1))) sizeA) (ofNat 1))) 0;
            Returned ((e.1, Terminal (nth 0 e.2 ""%string)) :: bs, z', sizeB')
          else
            subConversion ← getBest e.2;
            '(bs, z', sizeB') ← branchLoop getBest dieB 1 sizeA rest
              (add z (mul (div (ofNat (length (faces e.1))) sizeA)
                     (add (ofNat 1) (expectation subConversion)))) 0;
            Returned ((e.1, Reduce subConversion) :: bs, z', sizeB')).
  cbn [fst snd length faces singleToss].
  destruct (Nat.eqb_spec 1 (length dieB)) as [?|_]; [lia|]. simpl (1 =? 1).
  cbv iota. rewrite IH. done.
Qed.

(** The round of one throw: the toss [j] gives the face [j]. *)
Lemma getConversionWith_same_size getBest dieA dieB :
  2 <= length dieA -> length dieB = length dieA ->
  getConversionWith (N := N) getBest dieA dieB false 1
  = Returned (mkRule dieA dieB false 1 (identityBranches dieA dieB)
                (sameSizeExpectation (length dieA))).
Proof.
  intros Hn Hlen. unfold getConversionWith.
  rewrite partitionTosses_identity by lia.
  rewrite (branchLoop_same_size _ dieA dieB) by lia.
  done.
Qed.

(** [getBestConversion] returns this round when it passes the stop test. *)
Lemma getBestConversion_same_size fuel dieA dieB :
  2 <= fuel -> 2 <= length dieA -> length dieB = length dieA ->
  ge (ofNat 2) (sameSizeExpectation (N := N) (length dieA)) = true ->
  getBestConversion (N := N) fuel dieA dieB false
  = Returned (mkRule dieA dieB false 1 (identityBranches dieA dieB)
                (sameSizeExpectation (length dieA))).
Proof.
  intros Hfuel Hn Hlen Hstop.
  destruct fuel as [|[|fuel]]; [lia..|].
  change (getBestConversion (S (S fuel)) dieA dieB false)
    with (bindO (minThrows (S fuel) (length dieA) (length dieB) 1 (length dieA))
            (fun throws =>
               search (getConversionWith
                         (fun subDie => getBestConversion (S fuel) dieA subDie false)
                         dieA dieB false)
                      (S fuel) throws None)).
  simpl minThrows. destruct (Nat.ltb_spec (length dieA) (length dieB)); [lia|].
  unfold bindO at 1.
  change (search ?c (S fuel) 1 None)
    with (conversion ← c 1;
          if ge (ofNat (1 + 1)) (expectation conversion) then Returned conversion
          else search c fuel (1 + 1) (Some conversion)).
  rewrite getConversionWith_same_size by done.
  unfold mbind, Outcome_bind, bindO. simpl expectation.
  change (1 + 1) with 2. by rewrite Hstop.
Qed.
End SameSize.

(** * Two dice of the same size, with doubles *)

(** The distance of the expectation to 1, evaluated for the sizes from 2 to
    1000. *)
Lemma sameSizeExpectation_double_upto_1000 n :
  2 <= n <= 1000 ->
  PrimFloat.leb
    (PrimFloat.abs (PrimFloat.sub (sameSizeExpectation (N := float) n) 1))
    0x1p-45 = true.
Proof.
  intros Hn.
  assert (forallb (fun n =>
            PrimFloat.leb
              (PrimFloat.abs (PrimFloat.sub (sameSizeExpectation (N := float) n) 1))
              0x1p-45) (seq 2 999) = true) as Hall by (vm_compute; reflexivity).
  rewrite forallb_forall in Hall. apply Hall. apply in_seq. lia.
Qed.

Lemma sameSizeExpectation_exact n :
  2 <= n -> sameSizeExpectation (N := ExtQ) n = Finite 1%Qc.
Proof.
  intros Hn.
  pose proof (getConversionWith_identity (fun _ => OutOfFuel)
                (replicate n ""%string) (replicate n ""%string)) as H1.
  pose proof (getConversionWith_same_size (N := ExtQ) (fun _ => OutOfFuel)
                (replicate n ""%string) (replicate n ""%string)) as H2.
  rewrite length_replicate in H1, H2.
  rewrite H1 in H2 by done. specialize (H2 Hn eq_refl).
  by injection H2.
Qed.

(** C8, amended: with [makeFair] false and two dice of the same size
    [n >= 2], the round of one throw that [getConversion] builds, in any
    arithmetic, gives the toss [j] the face [j] of the target, every branch
    terminal, and stores the expectation [E(n) = (n * z + 0 * 1) / (n - 0)],
    [z] being the running sum of [n] terms [(1 / n) * 1];
    [getBestConversion] returns this round when it passes the stop test
    [2 >= E(n)]. In exact arithmetic [E(n) = 1] and the round is returned,
    for every [n]. With doubles [E(n)] is at most 2 and the round is
    returned, for every [n] below [2^53], which the length of an array
    always is; [E(n)] is within [2^-45] of 1 for every [n <= 1000], but it
    is not always 1: [E(6)] is [0.9999999999999999].
    [getBestConversion(createDie(6), createDie(2), false)] has [throws = 1],
    three faces of the source for each of "H" and "T", and the expectation
    is the double [1]. *)
Theorem same_size_conversion :
  (forall (N : Type) (num : JSNumber N) fuel (dieA dieB : Die),
     2 <= length dieA -> length dieB = length dieA ->
     let rule :=
       mkRule dieA dieB false 1
         ((fun j => ({| faces := [[nth j dieA ""%string]]; ids := [j] |},
                     Terminal (nth j dieB ""%string)))
            <$> seq 0 (length dieA))
         (sameSizeExpectation (N := N) (length dieA)) in
     getConversion (N := N) fuel dieA dieB false 1 = Returned rule /\
     (2 <= fuel -> ge (ofNat 2) (expectation rule) = true ->
      getBestConversion (N := N) fuel dieA dieB false = Returned rule)) /\
  (forall n, 2 <= n -> sameSizeExpectation (N := ExtQ) n = Finite 1%Qc) /\
  (forall fuel (dieA dieB : Die),
     2 <= fuel -> 2 <= length dieA -> length dieB = length dieA ->
     getBestConversion (N := ExtQ) fuel dieA dieB false
     = Returned (mkRule dieA dieB false 1
                   ((fun j => ({| faces := [[nth j dieA ""%string]]; ids := [j] |},
                               Terminal (nth j dieB ""%string)))
                      <$> seq 0 (length dieA))
                   (Finite 1%Qc))) /\
  (forall fuel (dieA dieB : Die),
     2 <= fuel -> 2 <= length dieA -> (Z.of_nat (length dieA) < 2 ^ 53)%Z ->
     length dieB = length dieA ->
     getBestConversion (N := float) fuel dieA dieB false
     = Returned (mkRule dieA dieB false 1
                   ((fun j => ({| faces := [[nth j dieA ""%string]]; ids := [j] |},
                               Terminal (nth j dieB ""%string)))
                      <$> seq 0 (length dieA))
                   (sameSizeExpectation (N := float) (length dieA))) /\
     PrimFloat.leb (sameSizeExpectation (N := float) (length dieA)) 2 = true) /\
  (forall n, 2 <= n <= 1000 ->
     PrimFloat.leb
       (PrimFloat.abs (PrimFloat.sub (sameSizeExpectation (N := float) n) 1))
       0x1p-45 = true) /\
  sameSizeExpectation (N := float) 6 = 0x1.fffffffffffffp-1%float /\
  getBestConversion (N := float) 2 (createDie 6) (createDie 2) false
  = Returned (mkRule (createDie 6) (createDie 2) false 1
                [({| faces := [["1"]; ["2"]; ["3"]]%string; ids := [0; 1; 2] |},
                  Terminal "H"%string);
                 ({| faces := [["4"]; ["5"]; ["6"]]%string; ids := [3; 4; 5] |},
                  Terminal "T"%string)]
                1%float).
Proof.
  split; [|split; [|split; [|split; [|split; [|split]]]]].
  - intros N num fuel dieA dieB Hn Hlen rule. split.
    + apply (getConversionWith_same_size (N := N)); done.
    + intros Hfuel Hstop. by apply (getBestConversion_same_size (N := N)).
  - apply sameSizeExpectation_exact.
  - intros fuel dieA dieB. apply getBestConversion_identity.
  - intros fuel dieA dieB Hfuel Hn Hlt Hlen.
    pose proof (sameSizeExpectation_double_stop (length dieA) Hn Hlt) as Hstop.
    split; [|exact Hstop].
    apply (getBestConversion_same_size (N := float)); done.
  - intros n Hn. by apply sameSizeExpectation_double_upto_1000.
  - vm_compute. reflexivity.
  - vm_compute. reflexivity.
Qed.

Lemma same_size_conversion_witness :
  getBestConversion (N := float) 2 (createDie 7) (createDie 7) false
  = Returned (mkRule (createDie 7) (createDie 7) false 1
                ((fun j => ({| faces := [[nth j (createDie 7) ""%string]]; ids := [j] |},
                            Terminal (nth j (createDie 7) ""%string)))
                   <$> seq 0 (length (createDie 7)))
                (sameSizeExpectation (N := float) (length (createDie 7)))) /\
  PrimFloat.leb (sameSizeExpectation (N := float) (length (createDie 7))) 2 = true.
Proof.
  apply (proj1 (proj2 (proj2 (proj2 same_size_conversion)))
           2 (createDie 7) (createDie 7)).
  - lia.
  - simpl. lia.
  - reflexivity.
  - reflexivity.
Defined.

(** C9: for a die of [n >= 1] distinct faces and [throws >= 1],
    [generateTosses] yields each of the [n ^ throws] sequences of draws once,
    with the id that its face indices spell in base [n], first draw first;
    the classes hold the tosses in ascending order of id; with the flag set
    two tosses share a class exactly when their faces are a permutation of
    one another, and without it there is one class, of all the tosses. *)
Theorem generateTosses_enumerates (die : Die) (assumeUnfair : bool) (throws : nat) :
  NoDup die -> 1 <= length die -> 1 <= throws ->
  let n := length die in
  let classes := generateTosses die assumeUnfair throws in
  (forall f id, (f, id) ∈ allTosses classes ->
     id < n ^ throws /\
     exists ds, length ds = throws /\ Forall (fun d => d < n) ds /\
                f = facesOf die ds /\ id = digitsValue n ds) /\
  length (allTosses classes) = n ^ throws /\
  (forall ds, length ds = throws -> Forall (fun d => d < n) ds ->
     filter (fun x => x.1 = facesOf die ds) (allTosses classes)
     = [(facesOf die ds, digitsValue n ds)]) /\
  (assumeUnfair = true ->
   forall i j ri rj fi fj,
     classes !! i = Some ri -> classes !! j = Some rj ->
     fi ∈ faces ri -> fj ∈ faces rj -> i = j <-> fi ≡ₚ fj) /\
  (assumeUnfair = false ->
   exists r, classes = [r] /\ ids r = seq 0 (n ^ throws) /\
             length (faces r) = n ^ throws) /\
  (forall r, r ∈ classes ->
     length (faces r) = length (ids r) /\ StronglySorted Nat.lt (ids r)).
Proof.
  intros Hnd Hn Ht n classes.
  split; [|split; [|split; [|split; [|split]]]].
  - intros f id. apply generateTosses_toss.
  - rewrite <- (length_fmap snd), allTosses_ids by apply generateTosses_wf.
    unfold classes. by rewrite generateTosses_ids, length_seq.
  - intros ds. by apply generateTosses_once.
  - intros -> i j ri rj fi fj. apply generateTosses_same_class.
  - intros ->. apply generateTosses_fair. apply Nat.pow_lower_bound. lia.
  - intros r Hr. destruct (generateTosses_class die assumeUnfair throws r Hr)
      as (key & _ & [L _ S _]). done.
Qed.

Lemma generateTosses_enumerates_witness :
  length (allTosses (generateTosses (createDie 3) true 2)) = length (createDie 3) ^ 2.
Proof.
  refine (proj1 (proj2 (generateTosses_enumerates (createDie 3) true 2 _ _ _))).
  - apply (proj2 (NoDup_ListNoDup _)). vm_compute.
    repeat (constructor; [simpl; intuition discriminate|]). constructor.
  - simpl; lia.
  - lia.
Defined.

(** * More fuel *)

Section Fuel.
Context {N : Type} `{JSNumber N}.

Lemma minThrows_mono a b : forall fuel fuel' throws total t0,
  minThrows fuel a b throws total = Returned t0 -> fuel <= fuel' ->
  minThrows fuel' a b throws total = Returned t0.
Proof.
  induction fuel as [|fuel IH]; intros fuel' throws total t0 Hrun Hle; [done|].
  destruct fuel' as [|fuel']; [lia|]. simpl in *.
  destruct (_ <? _); [|done]. apply IH; [done|lia].
Qed.

Lemma branchLoop_mono (getBest getBest' : Die -> Outcome (ConversionRule N))
    dieB t sizeA :
  (forall subDie rule, getBest subDie = Returned rule ->
                       getBest' subDie = Returned rule) ->
  forall entries z sizeB res,
    branchLoop getBest dieB t sizeA entries z sizeB = Returned res ->
    branchLoop getBest' dieB t sizeA entries z sizeB = Returned res.
Proof.
  intros Hbest. induction entries as [|[range subDie] rest IH];
    intros z sizeB [[bs z'] sizeB'] Hrun; [done|].
  apply branchLoop_cons in Hrun as (b & z1 & s1 & bs0 & Hc & Hrest & ->).
  apply IH in Hrest. simpl.
  destruct Hc as [Hf|Hf H1|sub Hf H1 Hsub].
  - rewrite (proj2 (Nat.eqb_eq _ _) Hf), Hrest. done.
  - rewrite (proj2 (Nat.eqb_neq _ _) Hf), (proj2 (Nat.eqb_eq _ _) H1), Hrest. done.
  - rewrite (proj2 (Nat.eqb_neq _ _) Hf), (proj2 (Nat.eqb_neq _ _) H1).
    rewrite (Hbest _ _ Hsub). simpl. rewrite Hrest. done.
Qed.

Lemma getConversionWith_mono (getBest getBest' : Die -> Outcome (ConversionRule N))
    dieA dieB makeFair t rule :
  (forall subDie r, getBest subDie = Returned r -> getBest' subDie = Returned r) ->
  getConversionWith getBest dieA dieB makeFair t = Returned rule ->
  getConversionWith getBest' dieA dieB makeFair t = Returned rule.
Proof.
  intros Hbest Hrun.
  apply getConversionWith_inv in Hrun as (bs & z & sizeB & Hloop & ->).
  unfold getConversionWith.
  by rewrite (branchLoop_mono getBest getBest' _ _ _ Hbest _ _ _ _ Hloop).
Qed.

Lemma search_mono (conv conv' : nat -> Outcome (ConversionRule N)) :
  (forall t rule, conv t = Returned rule -> conv' t = Returned rule) ->
  forall fuel fuel' t best rule,
    search conv fuel t best = Returned rule -> fuel <= fuel' ->
    search conv' fuel' t best = Returned rule.
Proof.
  intros Hconv. induction fuel as [|fuel IH]; intros fuel' t best rule Hrun Hle;
    [done|].
  destruct fuel' as [|fuel']; [lia|]. simpl in *.
  destruct (conv t) as [conversion| |] eqn:E; simpl in Hrun; try done.
  rewrite (Hconv _ _ E). simpl.
  destruct (ge _ _); [done|]. apply (IH fuel'); [done|lia].
Qed.

Lemma getBestConversion_mono : forall fuel fuel' dieA dieB makeFair
    (rule : ConversionRule N),
  getBestConversion fuel dieA dieB makeFair = Returned rule -> fuel <= fuel' ->
  getBestConversion fuel' dieA dieB makeFair = Returned rule.
Proof.
  induction fuel as [|fuel IH]; intros fuel' dieA dieB makeFair rule Hrun Hle;
    [done|].
  destruct fuel' as [|fuel']; [lia|]. simpl in *.
  destruct (minThrows fuel _ _ _ _) as [t0| |] eqn:E; simpl in Hrun; try done.
  rewrite (minThrows_mono _ _ _ fuel' _ _ _ E) by lia. simpl.
  eapply search_mono; [|exact Hrun|lia].
  intros t r. apply getConversionWith_mono.
  intros subDie r' Hr'. apply (IH fuel'); [done|lia].
Qed.
End Fuel.

(** * Order in exact arithmetic *)

Lemma qn_nonneg n : (0 <= qn n)%Qc.
Proof.
  unfold Qcle, qn. simpl. rewrite !Qred_correct.
  unfold Qle. simpl. lia.
Qed.

Lemma qn_le a b : a <= b -> (qn a <= qn b)%Qc.
Proof.
  intros Hab. unfold Qcle, qn. simpl. rewrite !Qred_correct.
  unfold Qle. simpl. lia.
Qed.

Lemma qn_sub a b : b <= a -> (qn a + - qn b)%Qc = qn (a - b).
Proof.
  intros Hab. unfold qn. apply Qc_is_canon. simpl.
  rewrite !Qred_correct, Nat2Z.inj_sub by done.
  unfold Zminus. rewrite inject_Z_plus, inject_Z_opp. reflexivity.
Qed.

Lemma Qc_add_nonneg x y : (0 <= x)%Qc -> (0 <= y)%Qc -> (0 <= x + y)%Qc.
Proof.
  intros Hx Hy. unfold Qcle in *. simpl in *. rewrite !Qred_correct.
  change 0%Q with (0 + 0)%Q. by apply Qplus_le_compat.
Qed.

Lemma Qc_mul_nonneg x y : (0 <= x)%Qc -> (0 <= y)%Qc -> (0 <= x * y)%Qc.
Proof.
  intros Hx Hy. unfold Qcle in *. simpl in *. rewrite !Qred_correct.
  by apply Qmult_le_0_compat.
Qed.

Lemma Qc_inv_nonneg x : (0 <= x)%Qc -> (0 <= / x)%Qc.
Proof.
  intros Hx. unfold Qcle in *. simpl in *. rewrite !Qred_correct.
  by apply Qinv_le_0_compat.
Qed.

Lemma Qc_div_nonneg x y : (0 <= x)%Qc -> (0 <= y)%Qc -> (0 <= x / y)%Qc.
Proof. intros Hx Hy. apply Qc_mul_nonneg; [done|]. by apply Qc_inv_nonneg. Qed.

Lemma qsign_pos x : (0 < x)%Qc -> qsign x = Gt.
Proof. intros Hx. unfold qsign. by apply Qcgt_alt. Qed.

Lemma Qc_add_pos x y : (0 <= x)%Qc -> (0 < y)%Qc -> (0 < x + y)%Qc.
Proof.
  intros Hx Hy. unfold Qcle, Qclt in *. simpl in *. rewrite !Qred_correct.
  rewrite Qplus_comm. change 0%Q with (0 + 0)%Q. by apply Qplus_lt_le_compat.
Qed.

Lemma qn_lt_0 n : 1 <= n -> (0 < qn n)%Qc.
Proof. intros Hn. apply Qcgt_alt. by apply qn_pos. Qed.

(** A natural number above a rational. *)
Lemma qn_above (q : Qc) : exists k, (q <= qn k)%Qc.
Proof.
  exists (Z.to_nat (Qceiling q)).
  unfold Qcle, qn. simpl. rewrite !Qred_correct.
  eapply Qle_trans; [apply Qle_ceiling|].
  rewrite <- Zle_Qle. lia.
Qed.

Lemma extGe_finite x y : extGe (Finite x) (Finite y) = true <-> (y <= x)%Qc.
Proof.
  simpl. rewrite Qcle_alt. unfold Qccompare.
  rewrite <- (Qcompare_antisym x y).
  destruct (x ?= y)%Q; simpl; split; congruence.
Qed.

Lemma extLt_finite x y : extLt (Finite x) (Finite y) = true <-> (x < y)%Qc.
Proof.
  simpl. rewrite Qclt_alt. destruct (x ?= y)%Qc; split; congruence.
Qed.

(** * The expectations the search compares *)

(** The expectation of a round from its [z] and [sizeB]: infinite when every
    outcome repeats, a non-negative rational otherwise. *)
Lemma expectation_shape a t sizeB z :
  1 <= a -> 1 <= t -> sizeB <= a -> (0 <= z)%Qc ->
  let e := extDiv (extAdd (extMul (extOfNat a) (Finite z))
                          (extMul (extOfNat sizeB) (extOfNat t)))
                  (extSub (extOfNat a) (extOfNat sizeB)) in
  (sizeB = a -> e = PosInf) /\ (sizeB < a -> finiteNonneg e).
Proof.
  intros Ha Ht Hs Hz e. subst e.
  unfold extOfNat. fold (qn a) (qn sizeB) (qn t).
  unfold extSub, extNeg, extAdd, extMul, extDiv.
  rewrite qn_sub by done.
  assert (0 <= qn a * z + qn sizeB * qn t)%Qc as Hnum.
  { apply Qc_add_nonneg; apply Qc_mul_nonneg; done || apply qn_nonneg. }
  split.
  - intros ->. rewrite Nat.sub_diag. change (qsign (qn 0)) with Eq.
    rewrite qsign_pos; [done|].
    apply Qc_add_pos; [apply Qc_mul_nonneg; done || apply qn_nonneg|].
    rewrite <- qn_mul. apply qn_lt_0. nia.
  - intros Hlt. rewrite qn_pos by lia.
    eexists. split; [done|]. apply Qc_div_nonneg; [done|apply qn_nonneg].
Qed.

Section ExactLoop.
Variables (getBest : Die -> Outcome (ConversionRule ExtQ)) (dieB : Die) (t a : nat).
Hypothesis a_pos : 1 <= a.
Hypothesis getBest_finite :
  forall subDie rule, getBest subDie = Returned rule -> finiteNonneg (expectation rule).

(** [z] stays a non-negative rational. *)
Lemma branchLoop_finite : forall entries z sizeB bs z' sizeB',
  branchLoop getBest dieB t (ofNat a) entries (Finite z) sizeB
  = Returned (bs, z', sizeB') ->
  (0 <= z)%Qc -> finiteNonneg z'.
Proof.
  induction entries as [|[range subDie] rest IH]; intros z sizeB bs z' sizeB' Hrun Hz.
  - apply branchLoop_nil in Hrun as (_ & -> & _). by exists z.
  - apply branchLoop_cons in Hrun as (b & z1 & s1 & bs0 & Hc & Hrest & ->).
    assert (forall y, (0 <= y)%Qc ->
              add (Finite z) (mul (div (ofNat (length (faces range))) (ofNat a))
                                  (Finite y))
              = Finite (z + qn (length (faces range)) / qn a * y)%Qc /\
              (0 <= z + qn (length (faces range)) / qn a * y)%Qc) as Hstep.
    { intros y Hy. split.
      - simpl. unfold extOfNat. fold (qn (length (faces range))) (qn a).
        unfold extDiv. rewrite qn_pos by done. done.
      - apply Qc_add_nonneg; [done|]. apply Qc_mul_nonneg; [|done].
        apply Qc_div_nonneg; apply qn_nonneg. }
    inversion Hc; subst.
    + by eapply IH.
    + destruct (Hstep (qn t) (qn_nonneg t)) as [E Hnn].
      change (ofNat t) with (Finite (qn t)) in Hrest. rewrite E in Hrest.
      by eapply IH.
    + destruct (getBest_finite _ _ H1) as (y & Ey & Hy).
      rewrite Ey in Hrest.
      destruct (Hstep (qn t + y)%Qc) as [E Hnn].
      { apply Qc_add_nonneg; [apply qn_nonneg|done]. }
      change (add (ofNat t) (Finite y)) with (Finite (qn t + y)%Qc) in Hrest.
      rewrite E in Hrest. by eapply IH.
Qed.
End ExactLoop.

(** The expectation of a rule that [getConversion] builds, in exact
    arithmetic, when those of the sub-rules are non-negative rationals. *)
Lemma getConversionWith_comparable getBest dieA dieB makeFair t rule :
  1 <= length dieA -> 1 <= t ->
  (forall subDie r, getBest subDie = Returned r -> finiteNonneg (expectation r)) ->
  getConversionWith (N := ExtQ) getBest dieA dieB makeFair t = Returned rule ->
  comparable (expectation rule) /\
  (2 <= length dieB ->
   (exists u, u ∈ generateTosses dieA makeFair t /\ length dieB <= length (faces u)) ->
   finiteNonneg (expectation rule)).
Proof.
  intros HA Ht Hbest Hrun.
  apply getConversionWith_inv in Hrun as (bs & z & sizeB & Hloop & ->). simpl.
  set (a := length dieA ^ t) in *.
  assert (1 <= a) as Ha by (unfold a; apply Nat.pow_lower_bound; lia).
  change (ofNat 0) with (Finite 0%Qc) in Hloop.
  destruct (branchLoop_finite getBest dieB t a Ha Hbest _ _ _ _ _ _ Hloop)
    as (q & -> & Hq); [done|].
  pose proof (branchLoop_partition_sizeB _ _ _ _ _ _ _ _ _ Hloop) as Hs.
  set (entries := partitionTosses (generateTosses dieA makeFair t) dieB) in *.
  assert (1 <= length dieB -> sum_list_with entrySize entries = a) as Hsum
    by (intros HB; by apply partition_sizes).
  rewrite (sum_filter entrySize (fullEntry dieB)) in Hsum.
  assert (sizeB <= a) as Hle.
  { destruct (decide (length dieB = 0)) as [H0|H0]; [|lia].
    unfold entries, partitionTosses in Hs. rewrite H0 in Hs. simpl in Hs. lia. }
  destruct (expectation_shape a t sizeB q Ha Ht Hle Hq) as [Hinf Hfin].
  split.
  - destruct (decide (sizeB = a)) as [E|E]; [left; by apply Hinf|].
    right. apply Hfin. lia.
  - intros HB2 (u & Hu & Hlen). apply Hfin.
    destruct (partitionTosses_resolves (generateTosses dieA makeFair t) dieB u)
      as (e & He & Hnf & Hne); [done|apply generateTosses_wf|done..|].
    fold entries in He.
    assert (e ∈ filter (fun x => ~ fullEntry dieB x) entries) as He'
      by (by apply list_elem_of_filter).
    pose proof (sum_list_with_in _ entrySize _ He') as Hle'.
    assert (1 <= entrySize e)
      by (unfold entrySize; destruct (faces e.1); [done|simpl; lia]).
    specialize (Hsum ltac:(lia)). lia.
Qed.

(** * The search ends *)

Lemma search_S {N : Type} `{JSNumber N}
    (conv : nat -> Outcome (ConversionRule N)) fuel t best :
  search conv (S fuel) t best
  = bindO (conv t) (fun conversion =>
      let best' := match best with
                   | None => conversion
                   | Some b => if lt (expectation conversion) (expectation b)
                               then conversion else b
                   end in
      if ge (ofNat (t + 1)) (expectation best') then Returned best'
      else search conv fuel (t + 1) (Some best')).
Proof. done. Qed.

Section SearchEnds.
Variables (conv : nat -> Outcome (ConversionRule ExtQ)) (t0 T tstar : nat) (qT : Qc).
Hypothesis conv_comparable :
  forall t, t0 <= t <= tstar ->
    exists rule, conv t = Returned rule /\ comparable (expectation rule).
Hypothesis T_range : t0 <= T <= tstar.
Hypothesis conv_T :
  exists rule, conv T = Returned rule /\ expectation rule = Finite qT.
Hypothesis qT_bound : (qT <= qn (tstar + 1))%Qc.

Lemma search_ends : forall fuel t best,
  t0 <= t <= tstar -> tstar - t < fuel ->
  (forall b, best = Some b -> comparable (expectation b)) ->
  (T < t -> exists b q, best = Some b /\ expectation b = Finite q /\ (q <= qT)%Qc) ->
  exists rule, search conv fuel t best = Returned rule /\
               finiteNonneg (expectation rule).
Proof.
  induction fuel as [|fuel IH]; intros t best Ht Hfuel Hbest Hafter; [lia|].
  rewrite search_S. destruct (conv_comparable t Ht) as (r & Er & Hr). rewrite Er.
  unfold bindO. cbv zeta. cbn [lt ge ofNat Exact].
  set (best' := match best with
                | None => r
                | Some b => if extLt (expectation r) (expectation b) then r else b
                end).
  assert (comparable (expectation best')) as Hc'.
  { unfold best'. destruct best as [b|]; [|done].
    destruct (extLt _ _); [done|by apply Hbest]. }
  assert (T <= t -> exists q, expectation best' = Finite q /\ (q <= qT)%Qc) as HT'.
  { intros HTt. destruct (decide (t = T)) as [->|Hne].
    - destruct conv_T as (rT & ET & EqT).
      assert (r = rT) as -> by congruence.
      unfold best'. destruct best as [b|]; [|exists qT; split; [done|apply Qcle_refl]].
      rewrite EqT.
      destruct (extLt (Finite qT) (expectation b)) eqn:Elt;
        [exists qT; split; [done|apply Qcle_refl]|].
      destruct (Hbest b eq_refl) as [Einf|(qb & Eb & _)].
      + rewrite Einf in Elt. done.
      + exists qb. split; [done|]. rewrite Eb in Elt.
        apply Qcnot_lt_le. intros Hlt. apply extLt_finite in Hlt. congruence.
    - destruct Hafter as (b & qb & -> & Eb & Hqb); [lia|].
      unfold best'. rewrite Eb.
      destruct (extLt (expectation r) (Finite qb)) eqn:Elt; [|by exists qb].
      destruct Hr as [Einf|(qr & Eqr & _)].
      + rewrite Einf in Elt. done.
      + exists qr. split; [done|]. rewrite Eqr in Elt. apply extLt_finite in Elt.
        apply Qclt_le_weak. by eapply Qclt_le_trans. }
  destruct (extGe (extOfNat (t + 1)) (expectation best')) eqn:Ege.
  - exists best'. split; [done|].
    destruct Hc' as [Einf|?]; [|done]. rewrite Einf in Ege. done.
  - assert (t < tstar) as Hlt.
    { destruct (decide (t = tstar)) as [->|?]; [|lia]. exfalso.
      destruct HT' as (q & Eq & Hq); [lia|]. rewrite Eq in Ege.
      assert (extGe (extOfNat (tstar + 1)) (Finite q) = true) as Hge.
      { apply extGe_finite. by eapply Qcle_trans. }
      congruence. }
    apply IH; [lia|lia| |].
    + by intros b [= <-].
    + intros HTt. destruct HT' as (q & Eq & Hq); [lia|]. by exists best', q.
Qed.
End SearchEnds.

(** * The first loop ends *)

Lemma minThrows_ends a b : forall fuel throws total,
  2 <= a -> 1 <= total -> b - total < fuel ->
  exists t0, minThrows fuel a b throws total = Returned t0.
Proof.
  induction fuel as [|fuel IH]; intros throws total Ha Htot Hfuel; [lia|].
  simpl. destruct (Nat.ltb_spec total b) as [Hlt|Hge]; [|by eexists].
  apply IH; [done|nia|nia].
Qed.

(** * A class with [throws] members *)

Lemma oneHot_perm t i : i < t -> oneHot t i ≡ₚ 1 :: replicate (t - 1) 0.
Proof.
  unfold oneHot. revert i. induction t as [|t IH]; intros i Hi; [lia|].
  destruct i as [|i]; simpl.
  - by rewrite Nat.sub_0_r.
  - rewrite IH by lia. rewrite Nat.sub_0_r.
    destruct t as [|t]; [lia|]. simpl. rewrite Nat.sub_0_r. apply perm_swap.
Qed.

Lemma oneHot_valid n t i :
  2 <= n -> length (oneHot t i) = t /\ Forall (fun d => d < n) (oneHot t i).
Proof.
  intros Hn. unfold oneHot. split; [by rewrite length_insert, length_replicate|].
  apply Forall_insert; [|lia]. apply Forall_replicate. lia.
Qed.

Lemma oneHot_inj t i j : i < t -> oneHot t i = oneHot t j -> i = j.
Proof.
  intros Hi Heq. destruct (decide (i = j)) as [|Hne]; [done|]. exfalso.
  assert (oneHot t i !! i = Some 1) as H1.
  { unfold oneHot. apply list_lookup_insert_eq. by rewrite length_replicate. }
  rewrite Heq in H1. unfold oneHot in H1.
  rewrite list_lookup_insert_ne, lookup_replicate in H1 by done.
  by destruct H1.
Qed.

Lemma generateTosses_big_class die unfair t :
  2 <= length die -> 1 <= t ->
  exists u, u ∈ generateTosses die unfair t /\ t <= length (faces u).
Proof.
  intros Hn Ht. destruct unfair.
  2:{ destruct (generateTosses_fair die t) as (r & E & _ & L).
      { apply Nat.pow_lower_bound. lia. }
      exists r. rewrite E, L. split; [left|].
      pose proof (Nat.pow_gt_lin_r (length die) t ltac:(lia)). lia. }
  set (classes := generateTosses die true t).
  assert (forall i, i < t ->
            exists c r, classes !! c = Some r /\
                        facesOf die (oneHot t i) ∈ faces r /\
                        digitsValue (length die) (oneHot t i) ∈ ids r) as Hin.
  { intros i Hi. destruct (oneHot_valid (length die) t i Hn) as [L F].
    pose proof (generateTosses_complete die true t _ L F) as Hc.
    apply elem_of_allTosses in Hc as (r & p & Hr & Hf & Hid).
    apply list_elem_of_lookup in Hr as [c Hc].
    exists c, r. split; [done|].
    split; apply list_elem_of_lookup; by exists p. }
  destruct (Hin 0 ltac:(lia)) as (c0 & u & Hc0 & Hf0 & _).
  exists u. split; [apply list_elem_of_lookup; by exists c0|].
  assert (length (faces u) = length (ids u)) as ->.
  { pose proof (generateTosses_wf die true t) as W.
    by apply (proj1 (Forall_lookup _ _) W c0 u). }
  set (L := (fun i => digitsValue (length die) (oneHot t i)) <$> seq 0 t).
  assert (length L = t) as HL by (unfold L; by rewrite length_fmap, length_seq).
  transitivity (length L); [lia|].
  apply submseteq_length, NoDup_submseteq.
  - apply NoDup_fmap_2_strong; [|apply NoDup_seq].
    intros i j Hi%elem_of_seq Hj%elem_of_seq Heq.
    destruct (oneHot_valid (length die) t i Hn) as [Li Fi].
    destruct (oneHot_valid (length die) t j Hn) as [Lj Fj].
    apply (oneHot_inj t); [lia|].
    apply (digitsValue_inj (length die)); congruence || done.
  - intros x (i & -> & Hi%elem_of_seq)%list_elem_of_fmap.
    destruct (Hin i ltac:(lia)) as (c & r & Hc & Hf & Hid).
    assert (c = c0) as ->.
    { apply (generateTosses_same_class die t c c0 r u _ _ Hc Hc0 Hf Hf0).
      unfold facesOf. rewrite !oneHot_perm by lia. done. }
    assert (r = u) as -> by congruence. done.
Qed.

(** * Fuel for finitely many calls *)

Lemma fuel_for_all {A B} (call : nat -> A -> Outcome B) (l : list A) :
  (forall fuel fuel' x r, call fuel x = Returned r -> fuel <= fuel' ->
                          call fuel' x = Returned r) ->
  (forall x, x ∈ l -> exists fuel r, call fuel x = Returned r) ->
  exists fuel, forall x, x ∈ l -> exists r, call fuel x = Returned r.
Proof.
  intros Hmono. induction l as [|x l IH]; intros Hall.
  - exists 0. by intros x ?%elem_of_nil.
  - destruct IH as (F1 & H1); [intros y Hy; apply Hall; by right|].
    destruct (Hall x ltac:(left)) as (F2 & r & Hr).
    exists (max F1 F2). intros y [->|Hy]%elem_of_cons.
    + exists r. apply (Hmono F2); [done|lia].
    + destruct (H1 y Hy) as (r' & Hr'). exists r'. apply (Hmono F1); [done|lia].
Qed.

(** * What [getBestConversion] returns is a non-negative rational *)

Lemma search_finite (conv : nat -> Outcome (ConversionRule ExtQ)) :
  (forall t rule, 1 <= t -> conv t = Returned rule -> comparable (expectation rule)) ->
  forall fuel t best rule,
    1 <= t -> (forall b, best = Some b -> comparable (expectation b)) ->
    search conv fuel t best = Returned rule -> finiteNonneg (expectation rule).
Proof.
  intros Hconv. induction fuel as [|fuel IH]; intros t best rule Ht Hbest Hrun;
    [done|].
  rewrite search_S in Hrun.
  destruct (conv t) as [r| |] eqn:Er; try done.
  unfold bindO in Hrun. cbv zeta in Hrun. cbn [lt ge ofNat Exact] in Hrun.
  pose proof (Hconv t r Ht Er) as Hr.
  set (best' := match best with
                | None => r
                | Some b => if extLt (expectation r) (expectation b) then r else b
                end) in *.
  assert (comparable (expectation best')) as Hc'.
  { unfold best'. destruct best as [b|]; [|done].
    destruct (extLt _ _); [done|by apply Hbest]. }
  destruct (extGe (extOfNat (t + 1)) (expectation best')) eqn:Ege.
  - injection Hrun as <-. destruct Hc' as [Einf|?]; [|done].
    rewrite Einf in Ege. done.
  - apply IH in Hrun; [done|lia|]. by intros b [= <-].
Qed.

Lemma getBestConversion_finite : forall fuel dieA dieB makeFair rule,
  1 <= length dieA ->
  getBestConversion (N := ExtQ) fuel dieA dieB makeFair = Returned rule ->
  finiteNonneg (expectation rule).
Proof.
  induction fuel as [|fuel IH]; intros dieA dieB makeFair rule HA Hrun; [done|].
  simpl in Hrun.
  destruct (minThrows fuel _ _ _ _) as [t0| |] eqn:E; simpl in Hrun; try done.
  apply minThrows_spec in E as (Ht0 & _); [|lia|simpl; lia|intros; lia].
  eapply search_finite; [|exact Ht0| |exact Hrun]; [|done].
  intros t r Ht Hr.
  apply getConversionWith_comparable in Hr as [Hc _]; [done..|].
  intros subDie r'. by apply IH.
Qed.

(** * [getBestConversion] returns *)

Section Returns.
Context {N : Type} `{JSNumber N}.

Lemma branchLoop_returns_with getBest dieB t sizeA : forall entries z sizeB,
  (forall e, e ∈ entries ->
     length e.2 = length dieB \/ length e.2 = 1 \/
     exists rule, getBest e.2 = Returned rule) ->
  exists res, branchLoop getBest dieB t sizeA entries z sizeB = Returned res.
Proof.
  induction entries as [|[range subDie] rest IH]; intros z sizeB Hall; [by eexists|].
  assert (forall e, e ∈ rest ->
            length e.2 = length dieB \/ length e.2 = 1 \/
            exists rule, getBest e.2 = Returned rule) as Hrest
    by (intros e He; apply Hall; by right).
  simpl.
  destruct (Nat.eqb_spec (length subDie) (length dieB)) as [Hf|Hf].
  - destruct (IH z (length (faces range)) Hrest) as ([[bs z'] s'] & ->). by eexists.
  - destruct (Nat.eqb_spec (length subDie) 1) as [H1|H1].
    + match goal with |- context [branchLoop _ _ _ _ rest ?z1 ?s1] =>
        destruct (IH z1 s1 Hrest) as ([[bs z'] s'] & ->) end.
      by eexists.
    + destruct (Hall (range, subDie) ltac:(left)) as [?|[?|(rule & Hr)]]; [done..|].
      simpl in Hr. rewrite Hr. simpl.
      match goal with |- context [branchLoop _ _ _ _ rest ?z1 ?s1] =>
        destruct (IH z1 s1 Hrest) as ([[bs z'] s'] & ->) end.
      by eexists.
Qed.
End Returns.

Section Converges.
Variables (dieA dieB : Die) (makeFair : bool).
Hypothesis source_faces : 2 <= length dieA.
Hypothesis target_faces : 2 <= length dieB.
Hypothesis smaller_converge :
  forall subDie, 2 <= length subDie < length dieB -> converges dieA subDie makeFair.

Let conv (fuel t : nat) : Outcome (ConversionRule ExtQ) :=
  getConversionWith (fun subDie => getBestConversion fuel dieA subDie makeFair)
    dieA dieB makeFair t.

Lemma conv_mono fuel fuel' t rule :
  conv fuel t = Returned rule -> fuel <= fuel' -> conv fuel' t = Returned rule.
Proof.
  intros Hrun Hle. eapply getConversionWith_mono; [|exact Hrun].
  intros subDie r Hr. by apply (getBestConversion_mono fuel).
Qed.

Lemma conv_comparable fuel t rule :
  1 <= t -> conv fuel t = Returned rule ->
  comparable (expectation rule) /\
  (length dieB <= t -> finiteNonneg (expectation rule)).
Proof.
  intros Ht Hrun.
  apply getConversionWith_comparable in Hrun as [Hc Hf]; [|lia|done|].
  - split; [done|]. intros Hm. apply Hf; [done|].
    destruct (generateTosses_big_class dieA makeFair t source_faces Ht) as (u & Hu & L).
    exists u. split; [done|lia].
  - intros subDie r. apply getBestConversion_finite. lia.
Qed.

(** Every round is built, given enough fuel. *)
Lemma conv_returns t : exists fuel rule, conv fuel t = Returned rule.
Proof.
  set (entries := partitionTosses (generateTosses dieA makeFair t) dieB).
  destruct (fuel_for_all
              (fun fuel subDie => getBestConversion (N := ExtQ) fuel dieA subDie makeFair)
              (snd <$> filter (fun e => 2 <= length e.2 < length dieB) entries))
    as (fuel & Hfuel).
  { intros f f' x r. apply getBestConversion_mono. }
  { intros subDie (e & -> & [He _]%list_elem_of_filter)%list_elem_of_fmap.
    destruct (smaller_converge e.2 He) as (F & r & _ & Hr).
    exists F, r. by apply Hr. }
  exists fuel. unfold conv, getConversionWith. fold entries.
  destruct (branchLoop_returns_with
              (fun subDie => getBestConversion (N := ExtQ) fuel dieA subDie makeFair)
              dieB t (ofNat (length dieA ^ t)) entries (ofNat 0) 0)
    as ([[bs z] sizeB] & ->); [|by eexists].
  intros e He.
  assert (exists d, d ∈ getDivisors (length dieB) /\ length e.2 = length dieB / d)
    as (d & Hd & Hl).
  { unfold entries, partitionTosses in He.
    apply partitionLoop_elem in He as [He|?]; [by apply elem_of_nil in He|done|].
    intros d Hd. apply getDivisors_elem in Hd. split; [lia|tauto]. }
  apply getDivisors_elem in Hd as [Hd Hmod].
  apply Nat.Div0.div_exact in Hmod.
  destruct (decide (d = 1)) as [->|Hd1]; [left; rewrite Hl; apply Nat.div_1_r|].
  destruct (decide (d = length dieB)) as [->|Hdm].
  { right; left. rewrite Hl. apply Nat.div_same. lia. }
  right; right.
  destruct (Hfuel e.2) as (r & Hr); [|by exists r].
  apply list_elem_of_fmap_2, list_elem_of_filter. split; [|done].
  rewrite Hl. set (s := length dieB / d) in *. nia.
Qed.

Lemma converges_step : converges dieA dieB makeFair.
Proof.
  (* the first loop *)
  destruct (minThrows_ends (length dieA) (length dieB) (S (length dieB)) 1 (length dieA))
    as (t0 & Hmin); [lia..|].
  pose proof (minThrows_spec _ _ _ _ _ _ Hmin ltac:(lia) ltac:(simpl; lia)
                ltac:(intros; lia)) as (Ht0 & _).
  (* a round with a finite expectation *)
  set (T := max t0 (length dieB)).
  destruct (conv_returns T) as (FT & rT & HrT).
  destruct (conv_comparable FT T rT ltac:(lia) HrT) as [_ HfT].
  destruct HfT as (qT & EqT & HqT); [lia|].
  destruct (qn_above qT) as (k & Hk).
  set (tstar := max T k).
  (* the rounds the search can reach *)
  destruct (fuel_for_all conv (seq t0 (S (tstar - t0)))) as (F1 & HF1).
  { intros f f' t r. apply conv_mono. }
  { intros t _. apply conv_returns. }
  set (f := max (max (S (length dieB)) F1) (max FT (S (tstar - t0)))).
  destruct (search_ends (conv f) t0 T tstar qT) with (fuel := f) (t := t0)
                                                       (best := @None (ConversionRule ExtQ))
    as (rule & Hrule & Hfin).
  - intros t Ht. destruct (HF1 t) as (r & Hr); [apply elem_of_seq; lia|].
    exists r. split; [apply (conv_mono F1); [done|lia]|].
    by apply (conv_comparable F1 t r ltac:(lia)).
  - lia.
  - exists rT. split; [apply (conv_mono FT); [done|lia]|done].
  - eapply Qcle_trans; [exact Hk|]. apply qn_le. lia.
  - lia.
  - lia.
  - done.
  - lia.
  - exists (S f), rule. split; [done|]. intros fuel Hfuel.
    apply (getBestConversion_mono (S f)); [|done]. simpl.
    rewrite (minThrows_mono _ _ _ f _ _ _ Hmin) by lia. done.
Qed.
End Converges.

Lemma getBestConversion_converges : forall m dieA dieB makeFair,
  2 <= length dieA -> length dieB = m -> 2 <= m -> converges dieA dieB makeFair.
Proof.
  induction m as [m IH] using lt_wf_ind. intros dieA dieB makeFair HA HB Hm.
  apply converges_step; [done|lia|].
  intros subDie Hs. apply (IH (length subDie)); lia || done.
Qed.

(** * A target die of no face *)

Lemma getBestConversion_no_face fuel dieA makeFair :
  2 <= fuel -> 1 <= length dieA ->
  getBestConversion (N := ExtQ) fuel dieA [] makeFair
  = Returned (mkRule dieA [] makeFair 1 [] (Finite 0%Qc)).
Proof.
  intros Hfuel HA. destruct fuel as [|[|fuel]]; [lia..|].
  change (getBestConversion (S (S fuel)) dieA [] makeFair)
    with (bindO (minThrows (S fuel) (length dieA) 0 1 (length dieA))
            (fun throws =>
               search (getConversionWith
                         (fun subDie => getBestConversion (S fuel) dieA subDie makeFair)
                         dieA [] makeFair)
                      (S fuel) throws None)).
  simpl minThrows. unfold bindO at 1. rewrite search_S.
  assert (getConversionWith
            (fun subDie => getBestConversion (N := ExtQ) (S fuel) dieA subDie makeFair)
            dieA [] makeFair 1
          = Returned (mkRule dieA [] makeFair 1 [] (Finite 0%Qc))) as ->; [|done].
  unfold getConversionWith, partitionTosses. simpl getDivisors. simpl partitionLoop.
  simpl branchLoop. unfold mbind, Outcome_bind, bindO. cbv beta iota.
  do 2 f_equal. rewrite Nat.pow_1_r.
  cbn [div add mul sub ofNat Exact].
  unfold extOfNat. fold (qn (length dieA)) (qn 0) (qn 1).
  unfold extSub, extNeg, extAdd, extMul, extDiv.
  assert (qn (length dieA) + - qn 0 = qn (length dieA))%Qc as ->
    by (rewrite qn_0; ring).
  rewrite qn_pos by lia. f_equal. rewrite qn_0. field.
  apply qn_nonzero; lia.
Qed.

(** * The sub-die of a reduction *)

Lemma reduction_shrinks tosses die e :
  1 <= length die -> e ∈ partitionTosses tosses die ->
  length e.2 <> length die -> length e.2 <> 1 ->
  2 <= length e.2 < length die.
Proof.
  intros Hm He Hf H1.
  unfold partitionTosses in He.
  apply partitionLoop_elem in He as [He|(d & Hd & Hl)];
    [by apply elem_of_nil in He| |].
  - apply getDivisors_elem in Hd as [Hd Hmod].
    apply Nat.Div0.div_exact in Hmod.
    set (s := length die / d) in *.
    assert (d <> 1) by (intros ->; lia).
    assert (s <> 0) by (intros E; rewrite E in Hmod; lia).
    nia.
  - intros d Hd. apply getDivisors_elem in Hd. split; [lia|tauto].
Qed.

(** * The expectation is at least the number of throws *)

Lemma qn_add a b : qn (a + b) = (qn a + qn b)%Qc.
Proof.
  unfold qn. apply Qc_is_canon. simpl.
  rewrite !Qred_correct, Nat2Z.inj_add, inject_Z_plus. reflexivity.
Qed.

Lemma Qc_add_le_mono a b c d : (a <= b)%Qc -> (c <= d)%Qc -> (a + c <= b + d)%Qc.
Proof.
  intros H1 H2. unfold Qcle in *. simpl. rewrite !Qred_correct.
  by apply Qplus_le_compat.
Qed.

Section LowerLoop.
Variables (getBest : Die -> Outcome (ConversionRule ExtQ)) (dieB : Die) (t a : nat).
Hypothesis a_pos : 1 <= a.
Hypothesis getBest_finite :
  forall subDie rule, getBest subDie = Returned rule -> finiteNonneg (expectation rule).

(** One addition to [z]. *)
Lemma z_step z s S' y :
  (qn t <= y)%Qc ->
  add (Finite z) (mul (div (ofNat s) (ofNat a)) (Finite y))
  = Finite (z + qn s / qn a * y)%Qc /\
  (z + qn (s + S') / qn a * qn t
   <= z + qn s / qn a * y + qn S' / qn a * qn t)%Qc.
Proof.
  intros Hy. split.
  - simpl. unfold extOfNat. fold (qn s) (qn a).
    unfold extDiv. rewrite qn_pos by done. done.
  - rewrite qn_add.
    assert (z + (qn s + qn S') / qn a * qn t
            = z + qn S' / qn a * qn t + qn s / qn a * qn t)%Qc as ->
      by (field; apply qn_nonzero; lia).
    assert (z + qn s / qn a * y + qn S' / qn a * qn t
            = z + qn S' / qn a * qn t + qn s / qn a * y)%Qc as ->
      by (field; apply qn_nonzero; lia).
    apply Qc_add_le_mono; [apply Qcle_refl|].
    rewrite !(Qcmult_comm (qn s / qn a)).
    apply Qcmult_le_compat_r; [done|].
    apply Qc_div_nonneg; apply qn_nonneg.
Qed.

(** Each entry that does not repeat adds at least [size / a * t] to [z]. *)
Lemma branchLoop_lower : forall entries z sizeB bs z' sizeB',
  branchLoop getBest dieB t (ofNat a) entries (Finite z) sizeB
  = Returned (bs, z', sizeB') ->
  exists q, z' = Finite q /\
    (z + qn (sum_list_with entrySize (filter (fun e => ~ fullEntry dieB e) entries))
         / qn a * qn t <= q)%Qc.
Proof.
  induction entries as [|[range subDie] rest IH]; intros z sizeB bs z' sizeB' Hrun.
  - apply branchLoop_nil in Hrun as (_ & -> & _). exists z. split; [done|].
    simpl. rewrite qn_0.
    assert (z + 0 / qn a * qn t = z)%Qc as ->
      by (field; apply qn_nonzero; lia).
    apply Qcle_refl.
  - apply branchLoop_cons in Hrun as (b & z1 & s1 & bs0 & Hc & Hrest & ->).
    rewrite filter_cons.
    inversion Hc; subst.
    + rewrite decide_False by (unfold fullEntry; simpl; tauto).
      by eapply IH.
    + rewrite decide_True by (unfold fullEntry; simpl; tauto).
      destruct (z_step z (length (faces range))
                  (sum_list_with entrySize
                     (filter (fun e => ~ fullEntry dieB e) rest))
                  (qn t) (Qcle_refl _)) as [E Hle].
      change (ofNat t) with (Finite (qn t)) in Hrest. rewrite E in Hrest.
      apply IH in Hrest as (q & -> & Hq). exists q. split; [done|].
      cbn [sum_list_with]. unfold entrySize at 1. cbn [fst].
      eapply Qcle_trans; [exact Hle|exact Hq].
    + rewrite decide_True by (unfold fullEntry; simpl; tauto).
      destruct (getBest_finite _ _ H1) as (y & Ey & Hy).
      rewrite Ey in Hrest.
      destruct (z_step z (length (faces range))
                  (sum_list_with entrySize
                     (filter (fun e => ~ fullEntry dieB e) rest))
                  (qn t + y)%Qc) as [E Hle].
      { rewrite <- (Qcplus_0_r (qn t)) at 1.
        apply Qc_add_le_mono; [apply Qcle_refl|done]. }
      change (add (ofNat t) (Finite y)) with (Finite (qn t + y)%Qc) in Hrest.
      rewrite E in Hrest.
      apply IH in Hrest as (q & -> & Hq). exists q. split; [done|].
      cbn [sum_list_with]. unfold entrySize at 1. cbn [fst].
      eapply Qcle_trans; [exact Hle|exact Hq].
Qed.
End LowerLoop.

(** The closed form is at least [t] when [z] accounts for every outcome that
    does not repeat. *)
Lemma expectation_lower a t sizeB z :
  1 <= a -> sizeB < a -> (qn (a - sizeB) / qn a * qn t <= z)%Qc ->
  exists q,
    extDiv (extAdd (extMul (extOfNat a) (Finite z))
                   (extMul (extOfNat sizeB) (extOfNat t)))
           (extSub (extOfNat a) (extOfNat sizeB)) = Finite q /\
    (qn t <= q)%Qc.
Proof.
  intros Ha Hs Hz.
  unfold extOfNat. fold (qn a) (qn sizeB) (qn t).
  unfold extSub, extNeg, extAdd, extMul, extDiv.
  rewrite qn_sub by lia. rewrite qn_pos by lia.
  eexists. split; [done|].
  set (d := qn (a - sizeB)) in *.
  assert (d <> 0)%Qc as Hd by (apply qn_nonzero; lia).
  assert (qn a <> 0)%Qc as Hqa by (apply qn_nonzero; lia).
  assert (d * qn t <= qn a * z)%Qc as Hmul.
  { assert (d * qn t = d / qn a * qn t * qn a)%Qc as -> by (by field).
    rewrite (Qcmult_comm (qn a) z).
    apply Qcmult_le_compat_r; [done|apply qn_nonneg]. }
  assert (qn t = d * qn t * / d)%Qc as Et by (by field).
  rewrite Et at 1. unfold Qcdiv.
  apply Qcmult_le_compat_r; [|apply Qc_inv_nonneg, qn_nonneg].
  rewrite <- (Qcplus_0_r (d * qn t)).
  apply Qc_add_le_mono; [done|].
  apply Qc_mul_nonneg; apply qn_nonneg.
Qed.

Lemma getConversionWith_lower getBest dieA dieB makeFair t rule :
  1 <= length dieA -> 1 <= length dieB -> 1 <= t ->
  (forall subDie r, getBest subDie = Returned r -> finiteNonneg (expectation r)) ->
  getConversionWith (N := ExtQ) getBest dieA dieB makeFair t = Returned rule ->
  atLeast (throws rule) (expectation rule).
Proof.
  intros HA HB Ht Hbest Hrun.
  pose proof (getConversionWith_comparable _ _ _ _ _ _ HA Ht Hbest Hrun) as [Hc _].
  apply getConversionWith_inv in Hrun as (bs & z & sizeB & Hloop & ->). simpl in *.
  set (a := length dieA ^ t) in *.
  assert (1 <= a) as Ha by (unfold a; apply Nat.pow_lower_bound; lia).
  change (ofNat 0) with (Finite 0%Qc) in Hloop.
  destruct (branchLoop_lower getBest dieB t a Ha Hbest _ _ _ _ _ _ Hloop)
    as (q & -> & Hq).
  pose proof (branchLoop_partition_sizeB _ _ _ _ _ _ _ _ _ Hloop) as Hs.
  set (entries := partitionTosses (generateTosses dieA makeFair t) dieB) in *.
  pose proof (partition_sizes dieA makeFair t dieB HB) as Hsum.
  fold entries a in Hsum.
  rewrite (sum_filter entrySize (fullEntry dieB)) in Hsum.
  destruct (decide (sizeB = a)) as [E|E].
  - destruct Hc as [Hinf|(q' & Hq' & _)]; [by left|].
    exfalso.
    assert (0 <= q)%Qc as Hq0.
    { eapply Qcle_trans; [|exact Hq].
      rewrite Qcplus_0_l. apply Qc_mul_nonneg; [|apply qn_nonneg].
      apply Qc_div_nonneg; apply qn_nonneg. }
    destruct (expectation_shape a t sizeB q Ha Ht ltac:(lia) Hq0) as [Hinf _].
    assert (Finite q' = PosInf) by (rewrite <- Hq'; by apply Hinf). done.
  - right. cbn [div add mul sub ofNat Exact].
    apply expectation_lower; [done|lia|].
    replace (a - sizeB)
      with (sum_list_with entrySize (filter (fun e => ~ fullEntry dieB e) entries))
      by lia.
    by rewrite Qcplus_0_l in Hq.
Qed.

(** The search returns one of the rules it builds. *)
Lemma search_preserves {N : Type} `{JSNumber N}
    (conv : nat -> Outcome (ConversionRule N)) (P : ConversionRule N -> Prop) t0 :
  (forall t rule, t0 <= t -> conv t = Returned rule -> P rule) ->
  forall fuel t best rule,
    t0 <= t -> (forall b, best = Some b -> P b) ->
    search conv fuel t best = Returned rule -> P rule.
Proof.
  intros Hconv. induction fuel as [|fuel IH]; intros t best rule Ht Hbest Hrun;
    [done|].
  rewrite search_S in Hrun.
  destruct (conv t) as [r| |] eqn:Er; try done.
  unfold bindO in Hrun. cbv zeta in Hrun.
  pose proof (Hconv t r Ht Er) as Hr.
  set (best' := match best with
                | None => r
                | Some b => if lt (expectation r) (expectation b) then r else b
                end) in *.
  assert (P best') as Hp'.
  { unfold best'. destruct best as [b|]; [|done].
    destruct (lt _ _); [done|by apply Hbest]. }
  destruct (ge _ _).
  - by injection Hrun as <-.
  - apply IH in Hrun; [done|lia|]. by intros b [= <-].
Qed.

Lemma getBestConversion_lower fuel dieA dieB makeFair rule :
  1 <= length dieA -> 1 <= length dieB ->
  getBestConversion (N := ExtQ) fuel dieA dieB makeFair = Returned rule ->
  exists q, expectation rule = Finite q /\ (qn (throws rule) <= q)%Qc /\
            1 <= throws rule.
Proof.
  intros HA HB Hrun.
  pose proof (getBestConversion_finite _ _ _ _ _ HA Hrun) as (q & Eq & _).
  exists q. split; [done|].
  destruct fuel as [|fuel]; [done|]. simpl in Hrun.
  destruct (minThrows fuel _ _ _ _) as [t0| |] eqn:E; simpl in Hrun; try done.
  apply minThrows_spec in E as (Ht0 & _); [|lia|simpl; lia|intros; lia].
  assert (atLeast (throws rule) (expectation rule) /\ 1 <= throws rule) as [Hl H1].
  { eapply (search_preserves _ (fun r => atLeast (throws r) (expectation r) /\
                                         1 <= throws r) 1);
      [|exact Ht0| |exact Hrun]; [|done].
    intros t r Ht Hr. split.
    - apply getConversionWith_lower in Hr; [done..|].
      intros subDie r'. by apply getBestConversion_finite.
    - apply getConversionWith_inv in Hr as (bs & z & sizeB & _ & ->). done. }
  split; [|done].
  destruct Hl as [Hinf|(q' & Eq' & Hq')]; congruence.
Qed.

(** * Termination, validation and the bounds of the expectation *)

(** C4: the claim includes a target die of one face, and for it
    [getBestConversion] does not terminate: every round of
    [getConversion(dieA, dieB, makeFair, throws)] puts all the outcomes in the
    repeat branch, its expectation is infinite, and the search goes on
    whatever the fuel (in exact arithmetic for every source die and every
    fuel; with doubles evaluated for [createDie(2)] up to 8 rounds).
    For a target die of at least two faces the claim holds in exact
    arithmetic: from some fuel on, [getBestConversion] returns one and the
    same rule; and the sub-die of a reduction has at least two faces and
    fewer than the target. *)
Theorem one_face_target_diverges :
  (forall fuel dieA dieB makeFair,
     1 <= length dieA -> length dieB = 1 ->
     getBestConversion (N := ExtQ) fuel dieA dieB makeFair = OutOfFuel) /\
  getBestConversion (N := float) 8 (createDie 2) (createDie 1) false = OutOfFuel /\
  (forall dieA dieB makeFair,
     2 <= length dieA -> 2 <= length dieB ->
     exists fuel0 rule, forall fuel, fuel0 <= fuel ->
       getBestConversion (N := ExtQ) fuel dieA dieB makeFair = Returned rule) /\
  (forall tosses dieB e,
     1 <= length dieB -> e ∈ partitionTosses tosses dieB ->
     length e.2 <> length dieB -> length e.2 <> 1 ->
     2 <= length e.2 < length dieB).
Proof.
  split; [|split; [|split]].
  - intros fuel dieA dieB makeFair. apply getBestConversion_one_face.
  - vm_compute. reflexivity.
  - intros dieA dieB makeFair HA HB.
    destruct (getBestConversion_converges (length dieB) dieA dieB makeFair HA eq_refl HB)
      as (fuel0 & rule & _ & Hrun).
    by exists fuel0, rule.
  - intros tosses dieB e. apply reduction_shrinks.
Qed.

Lemma one_face_target_diverges_witness :
  getBestConversion (N := ExtQ) 5 (createDie 2) (createDie 1) false = OutOfFuel /\
  exists fuel0 rule, forall fuel, fuel0 <= fuel ->
    getBestConversion (N := ExtQ) fuel (createDie 2) (createDie 3) false
    = Returned rule.
Proof.
  split.
  - apply (proj1 one_face_target_diverges 5 (createDie 2) (createDie 1) false).
    + simpl. lia.
    + reflexivity.
  - apply (proj1 (proj2 (proj2 one_face_target_diverges))
             (createDie 2) (createDie 3) false).
    + simpl. lia.
    + simpl. lia.
Defined.

(** C5, as stated, fails: [getBestConversion] has no validation and no path
    that throws. Called with a target die of no face, it enumerates the two
    tosses of the source die and returns a rule. *)
Lemma invalid_size_not_rejected :
  ~ (exists fuel dieA dieB makeFair msg,
       (length dieB < 1 \/ length dieA < 2) /\
       getBestConversion (N := float) fuel dieA dieB makeFair = Thrown msg) /\
  length (createDie 0) < 1 /\
  getBestConversion (N := float) 2 (createDie 2) (createDie 0) false
  = Returned (mkRule (createDie 2) (createDie 0) false 1 [] (ofNat 0)) /\
  allIds (generateTosses (createDie 2) false 1) = [0; 1].
Proof.
  split; [|split; [|split]].
  - intros (fuel & dieA & dieB & makeFair & msg & _ & Hrun).
    by apply getBestConversion_not_thrown in Hrun.
  - simpl. lia.
  - vm_compute. reflexivity.
  - reflexivity.
Qed.

(** * A target die of no face, with doubles *)

(** With doubles: a target die of no face gives a rule of one throw, without
    branches, of expectation 0. *)
Lemma getBestConversion_no_face_double fuel dieA makeFair :
  2 <= fuel -> 1 <= length dieA -> (Z.of_nat (length dieA) < 2 ^ 53)%Z ->
  getBestConversion (N := float) fuel dieA [] makeFair
  = Returned (mkRule dieA [] makeFair 1 [] (doubleOfNat 0)).
Proof.
  intros Hfuel HA Hlt. destruct fuel as [|[|fuel]]; [lia..|].
  change (getBestConversion (S (S fuel)) dieA [] makeFair)
    with (bindO (minThrows (S fuel) (length dieA) 0 1 (length dieA))
            (fun throws =>
               search (getConversionWith
                         (fun subDie =>
                            getBestConversion (N := float) (S fuel) dieA subDie makeFair)
                         dieA [] makeFair)
                      (S fuel) throws None)).
  simpl minThrows. unfold bindO at 1. rewrite search_S.
  assert (getConversionWith
            (fun subDie => getBestConversion (N := float) (S fuel) dieA subDie makeFair)
            dieA [] makeFair 1
          = Returned (mkRule dieA [] makeFair 1 [] (doubleOfNat 0))) as ->; [|done].
  unfold getConversionWith, partitionTosses. simpl getDivisors. simpl partitionLoop.
  simpl branchLoop. unfold mbind, Outcome_bind, bindO. cbv beta iota.
  do 2 f_equal. rewrite Nat.pow_1_r.
  cbn [div add mul sub ofNat Double].
  destruct (doubleOfNat_finite (length dieA) HA Hlt) as (m & e & Hx).
  rewrite (double_mul_zero _ m e Hx), (double_sub_zero _ m e Hx).
  change (doubleOfNat 0 + doubleOfNat 0 * doubleOfNat 1)%float with (doubleOfNat 0).
  apply (double_zero_div _ m e Hx).
Qed.

(** C5, amended: [getBestConversion] validates nothing and throws for no
    dice at all, in any arithmetic. With a source die of at most one face and
    a target die of more faces it does not return, whatever the fuel. With a
    target die of no face and a source die of at least one face it
    enumerates the tosses of one throw and returns a rule of one throw,
    without branches, whose expectation is 0: in exact arithmetic for every
    source die, and with doubles for every source die of fewer than [2^53]
    faces, which the length of an array always is. *)
Theorem no_input_validation :
  (forall (N : Type) (num : JSNumber N) fuel dieA dieB makeFair msg,
     getBestConversion (N := N) fuel dieA dieB makeFair <> Thrown msg) /\
  (forall (N : Type) (num : JSNumber N) fuel dieA dieB makeFair,
     length dieA <= 1 -> length dieA < length dieB ->
     getBestConversion (N := N) fuel dieA dieB makeFair = OutOfFuel) /\
  (forall fuel dieA makeFair,
     2 <= fuel -> 1 <= length dieA ->
     getBestConversion (N := ExtQ) fuel dieA [] makeFair
     = Returned (mkRule dieA [] makeFair 1 [] (Finite 0%Qc))) /\
  (forall fuel dieA makeFair,
     2 <= fuel -> 1 <= length dieA -> (Z.of_nat (length dieA) < 2 ^ 53)%Z ->
     getBestConversion (N := float) fuel dieA [] makeFair
     = Returned (mkRule dieA [] makeFair 1 [] 0%float)).
Proof.
  split; [|split; [|split]].
  - intros N num fuel dieA dieB makeFair msg. apply getBestConversion_not_thrown.
  - intros N num fuel dieA dieB makeFair. apply getBestConversion_small_source.
  - intros fuel dieA makeFair. apply getBestConversion_no_face.
  - intros fuel dieA makeFair. apply getBestConversion_no_face_double.
Qed.

Lemma no_input_validation_witness :
  getBestConversion (N := float) 3 (createDie 1) (createDie 2) false = OutOfFuel /\
  getBestConversion (N := ExtQ) 2 (createDie 2) (createDie 0) true
  = Returned (mkRule (createDie 2) [] true 1 [] (Finite 0%Qc)) /\
  getBestConversion (N := float) 2 (createDie 3) (createDie 0) true
  = Returned (mkRule (createDie 3) [] true 1 [] 0%float).
Proof.
  split; [|split].
  - apply (proj1 (proj2 no_input_validation) float Double 3 (createDie 1)
             (createDie 2) false).
    + simpl. lia.
    + simpl. lia.
  - apply (proj1 (proj2 (proj2 no_input_validation)) 2 (createDie 2) true).
    + lia.
    + simpl. lia.
  - apply (proj2 (proj2 (proj2 no_input_validation)) 2 (createDie 3) true).
    + lia.
    + simpl. lia.
    + reflexivity.
Defined.

(** C6: for a target die of one face the rule that [getConversion] builds has
    one round, a repeat branch with every outcome, and the expectation
    [Infinity], not 0; and [getBestConversion] returns no rule for it.
    The rest of the claim holds in exact arithmetic: a rule that
    [getBestConversion] returns, for the target die or for the sub-die of a
    reduction, has a target of at least two faces, at least one throw, and
    a rational expectation that is at least its number of throws, hence
    positive. *)
Theorem one_face_target_expectation :
  getConversion (N := float) 1 (createDie 2) (createDie 1) false 1
  = Returned (mkRule (createDie 2) (createDie 1) false 1
                [({| faces := [["H"]; ["T"]]%string; ids := [0; 1] |}, Repeat)]
                infinity) /\
  PrimFloat.eqb infinity (ofNat 0) = false /\
  (forall fuel dieA dieB makeFair,
     1 <= length dieA -> length dieB = 1 ->
     getBestConversion (N := ExtQ) fuel dieA dieB makeFair = OutOfFuel) /\
  (forall fuel dieA dieB makeFair rule,
     1 <= length dieA -> 1 <= length dieB ->
     getBestConversion (N := ExtQ) fuel dieA dieB makeFair = Returned rule ->
     2 <= length dieB /\ 1 <= throws rule /\
     exists q, expectation rule = Finite q /\
               (qn (throws rule) <= q)%Qc /\ (0 < q)%Qc).
Proof.
  split; [vm_compute; reflexivity|]. split; [reflexivity|]. split.
  - intros fuel dieA dieB makeFair. apply getBestConversion_one_face.
  - intros fuel dieA dieB makeFair rule HA HB Hrun.
    split.
    { destruct (decide (length dieB = 1)) as [H1|H1]; [|lia].
      by rewrite getBestConversion_one_face in Hrun. }
    destruct (getBestConversion_lower _ _ _ _ _ HA HB Hrun) as (q & Eq & Hq & Ht).
    split; [done|]. exists q. split; [done|]. split; [done|].
    eapply Qclt_le_trans; [|exact Hq]. by apply qn_lt_0.
Qed.

Lemma one_face_target_expectation_witness :
  getBestConversion (N := ExtQ) 4 (createDie 2) (createDie 1) false = OutOfFuel /\
  exists rule q,
    getBestConversion (N := ExtQ) 3 (createDie 6) (createDie 2) false
    = Returned rule /\
    throws rule = 1 /\ expectation rule = Finite q /\ (qn 1 <= q)%Qc.
Proof.
  split.
  - apply (proj1 (proj2 (proj2 one_face_target_expectation)) 4 (createDie 2)
             (createDie 1) false).
    + simpl. lia.
    + reflexivity.
  - assert (exists rule,
              getBestConversion (N := ExtQ) 3 (createDie 6) (createDie 2) false
              = Returned rule /\ throws rule = 1) as (rule & Hrun & Ht)
      by (vm_compute; eexists; split; reflexivity).
    destruct (proj2 (proj2 (proj2 one_face_target_expectation)) 3 (createDie 6)
                (createDie 2) false rule) as (_ & _ & q & Eq & Hq & _).
    + simpl. lia.
    + simpl. lia.
    + exact Hrun.
    + exists rule, q. rewrite Ht in Hq. done.
Defined.

(** * [getDivisors] and [createDie] on their own *)

Lemma divisorsFrom_complete n : forall i d,
  1 <= d <= i -> n mod d = 0 -> d ∈ divisorsFrom n i.
Proof.
  induction i as [|i IH]; intros d Hd Hm; [lia|].
  rewrite divisorsFrom_S. destruct (decide (d = S i)) as [->|Hne].
  - rewrite Hm. simpl. left.
  - apply elem_of_app. right. apply IH; [lia|done].
Qed.

Lemma divisorsFrom_sorted n : forall i,
  StronglySorted gt (divisorsFrom n i).
Proof.
  induction i as [|i IH]; [constructor|].
  rewrite divisorsFrom_S. destruct (n mod S i =? 0); [|done].
  simpl. constructor; [done|].
  apply Forall_forall. intros d Hd. apply divisorsFrom_elem in Hd. lia.
Qed.

(** [getDivisors(n)] is the list of the positive divisors of [n], from the
    largest to the smallest, each once; for [n = 0] the loop does not run. *)
Theorem getDivisors_divisors (n : nat) :
  (forall d, d ∈ getDivisors n <-> 1 <= d <= n /\ n mod d = 0) /\
  StronglySorted gt (getDivisors n) /\
  NoDup (getDivisors n) /\
  (n = 0 -> getDivisors n = []) /\
  (1 <= n -> head (getDivisors n) = Some n /\ last (getDivisors n) = Some 1).
Proof.
  split; [|split; [|split; [|split]]].
  - intros d. split; [apply getDivisors_elem|].
    intros [Hd Hm]. by apply divisorsFrom_complete.
  - apply divisorsFrom_sorted.
  - pose proof (divisorsFrom_sorted n n) as Hs. unfold getDivisors.
    induction Hs as [|x l _ IH Hall]; constructor; [|done].
    intros Hin. rewrite Forall_forall in Hall. apply Hall in Hin. lia.
  - by intros ->.
  - intros Hn. split.
    + destruct (getDivisors_head n Hn) as (l & ->). done.
    + destruct (getDivisors_one n Hn) as (l & -> & _). by rewrite last_snoc.
Qed.

Lemma getDivisors_divisors_witness :
  head (getDivisors 12) = Some 12 /\ last (getDivisors 12) = Some 1.
Proof. apply (proj2 (proj2 (proj2 (proj2 (getDivisors_divisors 12))))). lia. Defined.

Lemma stringOfNat_inj i j : stringOfNat i = stringOfNat j -> i = j.
Proof.
  unfold stringOfNat. intros Heq.
  assert (Nat.to_uint i = Nat.to_uint j) as Hu.
  { pose proof (NilEmpty.usu (Nat.to_uint i)) as Hi.
    pose proof (NilEmpty.usu (Nat.to_uint j)) as Hj.
    rewrite Heq in Hi. congruence. }
  by apply DecimalNat.Unsigned.to_uint_inj.
Qed.

(** [createDie(n)] has [n] faces, all different; but for [n = 2], the face
    [i] (from 1) is the decimal numeral of [i]. *)
Theorem createDie_faces (n : nat) :
  length (createDie n) = n /\
  NoDup (createDie n) /\
  (n <> 2 -> forall i, i < n -> createDie n !! i = Some (stringOfNat (i + 1))) /\
  (n = 2 -> createDie n = ["H"; "T"]%string).
Proof.
  unfold createDie. destruct (Nat.eqb_spec n 2) as [->|Hne].
  - split; [done|]. split; [|split; [done|done]].
    apply NoDup_cons. split; [|apply NoDup_singleton].
    intros Hin. apply list_elem_of_singleton in Hin. discriminate.
  - split; [by rewrite length_fmap, length_seq|]. split; [|split; [|done]].
    + apply NoDup_fmap_2; [intros i j; apply stringOfNat_inj|apply NoDup_seq].
    + intros _ i Hi. rewrite list_lookup_fmap, lookup_seq_lt by done.
      simpl. do 2 f_equal. lia.
Qed.

Lemma createDie_faces_witness :
  createDie 6 !! 5 = Some (stringOfNat 6).
Proof. apply (proj1 (proj2 (proj2 (createDie_faces 6)))); lia. Defined.

(** * [getPartitions] of the analytic script *)

Lemma partitionsLoop_cons divisor rest a b :
  Analytic.partitionsLoop (divisor :: rest) a b
  = if a / divisor =? 0 then Analytic.partitionsLoop rest a b
    else Analytic.mkPartition (divisor * (a / divisor)) (b / divisor) (a / divisor) divisor
           :: Analytic.partitionsLoop rest (a - divisor * (a / divisor)) b.
Proof. done. Qed.

Lemma partitionsLoop_elem b : forall divisors a p,
  p ∈ Analytic.partitionsLoop divisors a b ->
  Analytic.d p ∈ divisors /\ 1 <= Analytic.k p /\
  Analytic.size p = Analytic.d p * Analytic.k p /\
  Analytic.b p = b / Analytic.d p.
Proof.
  induction divisors as [|dv rest IH]; intros a p Hp; [by apply elem_of_nil in Hp|].
  rewrite partitionsLoop_cons in Hp.
  destruct (Nat.eqb_spec (a / dv) 0) as [Hk|Hk].
  - apply IH in Hp as (? & ? & ? & ?). split; [by right|done].
  - apply elem_of_cons in Hp as [->|Hp].
    + simpl. split; [left|]. split; [lia|done].
    + apply IH in Hp as (? & ? & ? & ?). split; [by right|done].
Qed.

Lemma filter_none {A} (P : A -> Prop) `{forall x, Decision (P x)} (l : list A) :
  (forall x, x ∈ l -> ~ P x) -> filter P l = [].
Proof.
  induction l as [|x l IH]; intros Hall; [done|].
  rewrite filter_cons_False by (apply Hall; left).
  apply IH. intros y Hy. apply Hall. by right.
Qed.

Lemma sum_drop_le {A} (f : A -> nat) (l : list A) i :
  sum_list_with f (drop i l) <= sum_list_with f l.
Proof.
  revert i. induction l as [|x l IH]; intros [|i]; simpl; try lia.
  specialize (IH i). lia.
Qed.

(** What is left after a divisor is less than it. *)
Lemma partitionsLoop_greedy b : forall divisors a,
  StronglySorted gt divisors -> Forall (fun dv => 1 <= dv) divisors ->
  let ps := Analytic.partitionsLoop divisors a b in
  sum_list_with Analytic.size ps <= a /\
  (forall q, q ∈ divisors -> a - sum_list_with Analytic.size ps < q) /\
  (forall i p, ps !! i = Some p ->
     sum_list_with Analytic.size (drop (S i) ps) < Analytic.d p) /\
  (forall i p q, ps !! i = Some p -> q ∈ divisors -> Analytic.d p < q ->
     sum_list_with Analytic.size (drop i ps) < q) /\
  StronglySorted gt (Analytic.d <$> ps).
Proof.
  induction divisors as [|dv rest IH]; intros a Hs Hpos.
  { simpl. split; [lia|]. split; [by intros q Hq%elem_of_nil|].
    split; [done|]. split; [done|constructor]. }
  apply StronglySorted_inv in Hs as [Hs Hall].
  apply Forall_cons in Hpos as [Hdv Hpos].
  rewrite Forall_forall in Hall.
  cbv zeta. rewrite partitionsLoop_cons.
  destruct (Nat.eqb_spec (a / dv) 0) as [Hk|Hk].
  - destruct (IH a Hs Hpos) as (H1 & H2 & H3 & H4 & H5).
    assert (a < dv) as Hlt by (apply Nat.div_small_iff in Hk; lia).
    split; [done|]. split.
    { intros q [->|Hq]%elem_of_cons; [lia|by apply H2]. }
    split; [done|]. split; [|done].
    intros i p q Hi [->|Hq]%elem_of_cons Hlt'.
    + pose proof (sum_drop_le Analytic.size (Analytic.partitionsLoop rest a b) i). lia.
    + by eapply H4.
  - set (k := a / dv) in *.
    assert (dv * k <= a) as Hle by (apply Nat.Div0.mul_div_le).
    assert (a - dv * k < dv) as Hrem.
    { pose proof (Nat.div_mod_eq a dv). pose proof (Nat.mod_upper_bound a dv).
      fold k in H. lia. }
    destruct (IH (a - dv * k) Hs Hpos) as (H1 & H2 & H3 & H4 & H5).
    set (ps' := Analytic.partitionsLoop rest (a - dv * k) b) in *.
    split; [simpl; lia|]. split.
    { intros q [->|Hq]%elem_of_cons; simpl; [lia|]. specialize (H2 q Hq). lia. }
    split.
    { intros [|i] p Hi; simpl in *.
      - injection Hi as <-. simpl. rewrite drop_0. lia.
      - by eapply H3. }
    split.
    { intros [|i] p q Hi Hq Hlt'; simpl in *.
      - injection Hi as <-. simpl in Hlt'.
        apply elem_of_cons in Hq as [->|Hq]; [lia|].
        apply Hall in Hq. lia.
      - apply elem_of_cons in Hq as [->|Hq]; [|by eapply H4].
        pose proof (sum_drop_le Analytic.size ps' i). lia. }
    rewrite fmap_cons. constructor; [done|]. simpl.
    apply Forall_forall. intros x Hx.
    apply list_elem_of_fmap in Hx as (p & -> & Hp).
    apply partitionsLoop_elem in Hp as (Hd & _). by apply Hall.
Qed.

Lemma getDivisors_pos n : Forall (fun dv => 1 <= dv) (getDivisors n).
Proof.
  apply Forall_forall. intros dv Hd. apply getDivisors_elem in Hd. lia.
Qed.

Lemma getDivisors_sorted n : StronglySorted gt (getDivisors n).
Proof. apply divisorsFrom_sorted. Qed.

Lemma getDivisors_has_one n : 1 <= n -> 1 ∈ getDivisors n.
Proof.
  intros Hn. destruct (getDivisors_one n Hn) as (l & -> & _).
  apply elem_of_app. right. left.
Qed.

(** [getPartitions(a, b)] cuts [a] into the sizes [k * d] of its objects,
    [d] running down the divisors of [b] and [k >= 1] being as large as what
    is left allows, so what comes after an object is less than its [d]. *)
Theorem getPartitions_greedy (a b : nat) :
  1 <= b ->
  let ps := Analytic.getPartitions a b in
  sum_list_with Analytic.size ps = a /\
  Forall (fun p => 1 <= Analytic.d p <= b /\ b mod Analytic.d p = 0 /\
                   1 <= Analytic.k p /\
                   Analytic.size p = Analytic.d p * Analytic.k p /\
                   Analytic.b p = b / Analytic.d p) ps /\
  StronglySorted gt (Analytic.d <$> ps) /\
  (forall i p, ps !! i = Some p ->
     sum_list_with Analytic.size (drop (S i) ps) < Analytic.d p).
Proof.
  intros Hb ps.
  destruct (partitionsLoop_greedy b (getDivisors b) a (getDivisors_sorted b)
              (getDivisors_pos b)) as (H1 & H2 & H3 & _ & H5).
  fold (Analytic.getPartitions a b) in H1, H2, H3, H5. fold ps in H1, H2, H3, H5.
  split; [|split; [|split]]; try done.
  - specialize (H2 1 (getDivisors_has_one b Hb)). lia.
  - apply Forall_forall. intros p Hp.
    apply partitionsLoop_elem in Hp as (Hd & Hk & Hsz & Hpb).
    apply getDivisors_elem in Hd. tauto.
Qed.

Lemma getPartitions_greedy_witness :
  sum_list_with Analytic.size (Analytic.getPartitions 101 39) = 101.
Proof. apply (proj1 (getPartitions_greedy 101 39 ltac:(lia))). Defined.

(** The sub-problems of [getPartitions(a, b)]: each [b / d] is at least 1
    and at most [b]; at most one object repeats the problem ([b / d = b]),
    the one of the divisor 1, and its size is less than every divisor of [b]
    other than 1. *)
Theorem getPartitions_repeat (a b : nat) :
  1 <= b ->
  let ps := Analytic.getPartitions a b in
  Forall (fun p => 1 <= Analytic.b p <= b) ps /\
  length (filter (fun p => Analytic.b p = b) ps) <= 1 /\
  (forall p, p ∈ ps -> Analytic.b p = b ->
     Analytic.d p = 1 /\
     forall q, 2 <= q -> b mod q = 0 -> Analytic.size p < q).
Proof.
  intros Hb ps.
  destruct (partitionsLoop_greedy b (getDivisors b) a (getDivisors_sorted b)
              (getDivisors_pos b)) as (_ & _ & _ & H4 & H5).
  fold (Analytic.getPartitions a b) in H4, H5. fold ps in H4, H5.
  assert (forall p, p ∈ ps ->
            1 <= Analytic.d p <= b /\ b mod Analytic.d p = 0 /\
            Analytic.b p = b / Analytic.d p) as Hel.
  { intros p Hp. apply partitionsLoop_elem in Hp as (Hd & _ & _ & Hpb).
    apply getDivisors_elem in Hd. tauto. }
  assert (forall p, p ∈ ps -> Analytic.b p = b -> Analytic.d p = 1) as Hone.
  { intros p Hp Hpb. destruct (Hel p Hp) as (Hd & Hm & E).
    rewrite E in Hpb. apply div_eq_self in Hpb; [done|lia..]. }
  split; [|split].
  - apply Forall_forall. intros p Hp. destruct (Hel p Hp) as (Hd & Hm & ->).
    apply Nat.Div0.div_exact in Hm.
    assert (b / Analytic.d p <> 0) by (intros E; rewrite E in Hm; lia).
    split; [lia|]. apply Nat.Div0.div_le_upper_bound. nia.
  - assert (forall l : list Analytic.Partition,
              StronglySorted gt (Analytic.d <$> l) ->
              (forall p, p ∈ l -> Analytic.b p = b -> Analytic.d p = 1) ->
              length (filter (fun p => Analytic.b p = b) l) <= 1) as Hgen.
    { clear. induction l as [|x l IH]; intros Hs Hone; [simpl; lia|].
      rewrite fmap_cons in Hs. apply StronglySorted_inv in Hs as [Hs Hall].
      rewrite filter_cons. destruct (decide (Analytic.b x = b)) as [Hx|Hx].
      - assert (filter (fun p => Analytic.b p = b) l = []) as ->; [|simpl; lia].
        apply filter_none. intros p Hp Hpb.
        rewrite Forall_forall in Hall.
        specialize (Hall (Analytic.d p)
                      ltac:(apply list_elem_of_fmap; by exists p)).
        rewrite (Hone x ltac:(left) Hx), (Hone p ltac:(by right) Hpb) in Hall. lia.
      - apply IH; [done|]. intros p Hp. apply Hone. by right. }
    by apply Hgen.
  - intros p Hp Hpb. split; [by apply Hone|].
    intros q Hq Hm.
    apply list_elem_of_lookup in Hp as [i Hi].
    assert (q ∈ getDivisors b) as Hqd.
    { apply divisorsFrom_complete; [|done].
      split; [lia|]. apply Nat.Div0.div_exact in Hm.
      destruct (b / q) eqn:E; nia. }
    pose proof (H4 i p q Hi Hqd) as Hlt.
    rewrite (Hone p ltac:(apply list_elem_of_lookup; by exists i) Hpb) in Hlt.
    specialize (Hlt ltac:(lia)).
    rewrite (drop_S _ _ _ Hi) in Hlt. simpl in Hlt. lia.
Qed.

Lemma getPartitions_repeat_witness :
  length (filter (fun p => Analytic.b p = 6) (Analytic.getPartitions 8 6)) <= 1.
Proof. apply (proj1 (proj2 (getPartitions_repeat 8 6 ltac:(lia)))). Defined.

(** * One pass of [partitionTosses] gives every sub-range the same share *)

Lemma elem_of_drop_1 {A} (x : A) n (l : list A) : x ∈ drop n l -> x ∈ l.
Proof.
  intros [i Hi]%list_elem_of_lookup. rewrite lookup_drop in Hi.
  by eapply list_elem_of_lookup_2.
Qed.

Lemma elem_of_take_1 {A} (x : A) n (l : list A) : x ∈ take n l -> x ∈ l.
Proof.
  intros [i Hi]%list_elem_of_lookup.
  assert (i < n).
  { apply lookup_lt_Some in Hi. rewrite length_take in Hi. lia. }
  rewrite lookup_take_lt in Hi by done. by eapply list_elem_of_lookup_2.
Qed.

Section Shares.
Context {K : Type} (key : list string -> K).

#[local] Abbreviation uniformClass := (uniformClass key).

Lemma chunk_keys k u j d :
  uniformClass u -> 1 <= k -> j < d -> d * k <= length (faces u) ->
  key <$> take k (drop (j * k) (faces u))
  = replicate k (key (nth 0 (faces u) [])).
Proof.
  intros Hu Hk Hj Hle.
  assert (length (take k (drop (j * k) (faces u))) = k) as Hlen.
  { rewrite length_take, length_drop. nia. }
  apply list_eq. intros i. rewrite list_lookup_fmap.
  destruct (decide (i < k)) as [Hi|Hi].
  - rewrite lookup_replicate_2 by done.
    destruct (lookup_lt_is_Some_2 (take k (drop (j * k) (faces u))) i ltac:(lia))
      as [f Hf].
    rewrite Hf. simpl. f_equal. apply Hu.
    + apply list_elem_of_lookup_2 in Hf.
      apply elem_of_take_1 in Hf. by apply elem_of_drop_1 in Hf.
    + apply list_elem_of_lookup. exists 0.
      destruct (faces u) as [|x l]; [simpl in Hle; nia|done].
  - rewrite lookup_ge_None_2 by lia.
    symmetry. apply lookup_replicate_None. lia.
Qed.

(** The sub-ranges below [d] all grow by the same keys [M], one share of
    each class, and the classes that remain are uniform. *)
Lemma allocateAll_shares d : forall tosses sr,
  1 <= d -> Forall wfRange tosses -> Forall uniformClass tosses ->
  exists M,
    length M = sum_list_with (fun u => length (faces u) / d) tosses /\
    (forall j r, j < d -> sr !! j = Some r ->
       exists r', (allocateAll d tosses sr).2 !! j = Some r' /\
                  key <$> faces r' = (key <$> faces r) ++ M) /\
    Forall uniformClass (allocateAll d tosses sr).1.
Proof.
  induction tosses as [|u rest IH]; intros sr Hd Hwf Hun.
  { exists []. split; [done|]. split; [|done].
    intros j r _ Hr. exists r. by rewrite app_nil_r. }
  apply Forall_cons in Hwf as [Wu Hwf]. apply Forall_cons in Hun as [Uu Hun].
  rewrite allocateAll_cons. cbv zeta.
  set (k := length (faces u) / d).
  assert (d * k <= length (faces u)) as Hle by (apply Nat.Div0.mul_div_le).
  destruct (Nat.eqb_spec k 0) as [Hk|Hk].
  - destruct (IH sr Hd Hwf Hun) as (M & HM & Hsr & Hrest).
    destruct (allocateAll d rest sr) as [rest' sr'] eqn:E. simpl in *.
    exists M. split; [fold k; lia|]. split; [done|]. by constructor.
  - set (sr1 := allocate d k u sr).
    destruct (IH sr1 Hd Hwf Hun) as (M & HM & Hsr & Hrest).
    exists (replicate k (key (nth 0 (faces u) [])) ++ M).
    assert (forall j r, j < d -> sr !! j = Some r ->
              exists r1, sr1 !! j = Some r1 /\
                key <$> faces r1
                = (key <$> faces r) ++ replicate k (key (nth 0 (faces u) []))) as H1.
    { intros j r Hj Hr. unfold sr1.
      rewrite allocate_lookup by (done || (rewrite <- Wu; done)).
      rewrite Hr, decide_True by done. simpl. eexists. split; [done|].
      unfold chunkTo, appendRange. simpl.
      rewrite fmap_app. f_equal. apply (chunk_keys k u j d); [done|lia|done..]. }
    assert (forall st : list TossRange * list TossRange,
              (forall j r, j < d -> sr1 !! j = Some r ->
                 exists r', st.2 !! j = Some r' /\
                            key <$> faces r' = (key <$> faces r) ++ M) ->
              forall j r, j < d -> sr !! j = Some r ->
                exists r', st.2 !! j = Some r' /\
                  key <$> faces r'
                  = (key <$> faces r) ++ replicate k (key (nth 0 (faces u) [])) ++ M)
      as Hcomb.
    { intros st Hst j r Hj Hr. destruct (H1 j r Hj Hr) as (r1 & Hr1 & E1).
      destruct (Hst j r1 Hj Hr1) as (r' & Hr' & E').
      exists r'. split; [done|]. by rewrite E', E1, <- app_assoc. }
    split; [rewrite length_app, length_replicate; simpl; fold k; lia|].
    destruct (Nat.eqb_spec (length (faces u)) (d * k)) as [Hall|Hpart].
    + split; [by apply Hcomb|done].
    + destruct (allocateAll d rest sr1) as [rest' sr'] eqn:E.
      split; [by apply (Hcomb (rest', sr'))|].
      simpl in *. constructor; [|done].
      intros f g Hf Hg. simpl in *.
      apply elem_of_drop_1 in Hf, Hg. by apply Uu.
Qed.

(** Starting from the empty sub-ranges. *)
Lemma pass_shares d tosses :
  1 <= d -> Forall wfRange tosses -> Forall uniformClass tosses ->
  let st := allocateAll d tosses (replicate d emptyRange) in
  exists M,
    length M = sum_list_with (fun u => length (faces u) / d) tosses /\
    length st.2 = d /\
    (forall j r, st.2 !! j = Some r -> key <$> faces r = M) /\
    Forall uniformClass st.1.
Proof.
  intros Hd Hwf Hun st.
  destruct (allocateAll_shares d tosses (replicate d emptyRange) Hd Hwf Hun)
    as (M & HM & Hsr & Hrest).
  assert (length st.2 = d) as Hlen
    by (unfold st; by rewrite allocateAll_length, length_replicate).
  exists M. split; [done|]. split; [done|]. split; [|done].
  intros j r Hr.
  assert (j < d) as Hj by (rewrite <- Hlen; by eapply lookup_lt_Some).
  destruct (Hsr j emptyRange Hj) as (r' & Hr' & E).
  { by apply lookup_replicate_2. }
  fold st in Hr'. assert (r' = r) as -> by congruence. done.
Qed.
End Shares.

(** * The entries of one pass *)

Lemma sortedRange_faces r : wfRange r -> faces (sortedRange r) ≡ₚ faces r.
Proof.
  intros Hwf. unfold sortedRange. simpl.
  rewrite sortById_perm, imap_zip by (rewrite Hwf; done).
  rewrite fst_zip; [done|]. by rewrite Hwf.
Qed.

Lemma entriesFrom_all subDice : forall sr off,
  Forall (fun r => faces r <> []) sr ->
  entriesFrom off sr subDice
  = imap (fun i r => (sortedRange r, nth (off + i) subDice [])) sr.
Proof.
  induction sr as [|r sr IH]; intros off Hall; [done|].
  apply Forall_cons in Hall as [Hr Hall].
  rewrite entriesFrom_cons.
  destruct (faces r) as [|x l] eqn:E; [done|]. simpl.
  rewrite Nat.add_0_r. f_equal. rewrite IH by done.
  apply imap_ext. intros i x' _. simpl. do 2 f_equal. lia.
Qed.

Lemma entriesFrom_none subDice : forall sr off,
  Forall (fun r => faces r = []) sr -> entriesFrom off sr subDice = [].
Proof.
  induction sr as [|r sr IH]; intros off Hall; [done|].
  apply Forall_cons in Hall as [Hr Hall].
  rewrite entriesFrom_cons, Hr. simpl. by apply IH.
Qed.

Lemma subDiceOf_nth die d : length (subDiceOf die d) = d.
Proof. unfold subDiceOf. by rewrite length_fmap, length_seq. Qed.

Lemma imap_snd_nth {A} (g : A -> TossRange) (l : list A) (subDice : list Die) :
  length l = length subDice ->
  (imap (fun i r => (g r, nth i subDice [])) l).*2 = subDice.
Proof.
  intros Hlen. apply list_eq. intros i.
  rewrite list_lookup_fmap, list_lookup_imap.
  destruct (l !! i) as [x|] eqn:E; simpl.
  - symmetry.
    assert (i < length subDice) as Hi
      by (rewrite <- Hlen; by eapply lookup_lt_Some).
    destruct (lookup_lt_is_Some_2 subDice i Hi) as [y Hy]. rewrite Hy.
    f_equal. symmetry. by apply nth_lookup_Some.
  - symmetry. apply lookup_ge_None. rewrite <- Hlen. by apply lookup_ge_None.
Qed.

Section Pass.
Context {K : Type} (key : list string -> K).
Variable die : Die.

#[local] Abbreviation uniformClass := (uniformClass key).
#[local] Abbreviation passEntries := (passEntries key die).

Lemma pass_entries_shares d tosses :
  1 <= d -> Forall wfRange tosses -> Forall uniformClass tosses ->
  let st := allocateAll d tosses (replicate d emptyRange) in
  passEntries d (addToResult st.2 (subDiceOf die d)) /\
  Forall wfRange st.1 /\ Forall uniformClass st.1 /\
  sum_list_with entrySize (addToResult st.2 (subDiceOf die d))
  = d * sum_list_with (fun u => length (faces u) / d) tosses.
Proof.
  intros Hd Hwf Hun st.
  destruct (pass_shares key d tosses Hd Hwf Hun) as (M & HM & Hlen & Hsr & Hrest).
  fold st in Hlen, Hsr, Hrest.
  destruct (pass_spec d tosses Hwf) as (_ & Hwf1 & Hwf2 & _). fold st in Hwf1, Hwf2.
  split; [|split; [done|split; [done|]]].
  - rewrite addToResult_entriesFrom.
    destruct M as [|m M].
    + left. apply entriesFrom_none. apply Forall_forall. intros r Hr.
      apply list_elem_of_lookup in Hr as [j Hj]. apply Hsr in Hj.
      by apply fmap_nil_inv in Hj.
    + right.
      assert (Forall (fun r => faces r <> []) st.2) as Hne.
      { apply Forall_forall. intros r Hr.
        apply list_elem_of_lookup in Hr as [j Hj]. apply Hsr in Hj.
        intros E. by rewrite E in Hj. }
      rewrite entriesFrom_all by done. split.
      * change (fun i r => (sortedRange r, nth (0 + i) (subDiceOf die d) []))
          with (fun i r => (sortedRange r, nth i (subDiceOf die d) [])).
        apply imap_snd_nth. by rewrite subDiceOf_nth.
      * exists (m :: M). split; [done|].
        apply Forall_forall. intros e He.
        apply list_elem_of_lookup in He as [j Hj].
        rewrite list_lookup_imap in Hj.
        destruct (st.2 !! j) as [r|] eqn:Er; [|done]. injection Hj as <-. cbn [fst].
        rewrite sortedRange_faces; [by rewrite (Hsr j r Er)|].
        apply (proj1 (Forall_forall _ _) Hwf2). by eapply list_elem_of_lookup_2.
  - rewrite addToResult_entriesFrom.
    rewrite sum_entrySize by apply entriesFrom_wf.
    rewrite entriesFrom_ids by done.
    rewrite <- HM.
    assert (forall l : list TossRange,
              (forall j r, l !! j = Some r -> length (ids r) = length M) ->
              length (allIds l) = length l * length M) as Hgen.
    { clear. induction l as [|r l IH]; intros Hall; [done|].
      rewrite allIds_cons, length_app. simpl.
      rewrite (Hall 0 r eq_refl), IH; [lia|].
      intros j r' Hj. by apply (Hall (S j)). }
    rewrite Hgen, Hlen; [done|].
    intros j r Hr. rewrite <- (Hsr j r Hr), length_fmap.
    symmetry. apply (proj1 (Forall_forall _ _) Hwf2). by eapply list_elem_of_lookup_2.
Qed.

(** The map is the passes of the divisors, one after the other. *)
Lemma partitionLoop_passes : forall divisors tosses result,
  Forall (fun d => 1 <= d) divisors ->
  Forall wfRange tosses -> Forall uniformClass tosses ->
  exists blocks,
    partitionLoop divisors die tosses result = result ++ concat blocks /\
    Forall2 passEntries divisors blocks.
Proof.
  induction divisors as [|d divisors IH]; intros tosses result Hpos Hwf Hun.
  { exists []. split; [by rewrite app_nil_r|constructor]. }
  apply Forall_cons in Hpos as [Hd Hpos].
  rewrite partitionLoop_cons.
  destruct (pass_entries_shares d tosses Hd Hwf Hun) as (Hp & Hwf1 & Hun1 & _).
  cbv zeta in Hp, Hwf1, Hun1.
  destruct (IH _ (result ++ addToResult
                    (allocateAll d tosses (replicate d emptyRange)).2
                    (subDiceOf die d)) Hpos Hwf1 Hun1) as (blocks & E & Hb).
  eexists (_ :: blocks). split; [|constructor; [exact Hp|exact Hb]].
  rewrite E. simpl. by rewrite <- app_assoc.
Qed.
End Pass.

(** * The sub-dice of a pass *)

Lemma subDiceOf_elem die d x :
  1 <= d -> length die mod d = 0 -> x ∈ subDiceOf die d ->
  length x = length die / d.
Proof.
  intros Hd Hm Hx. apply list_elem_of_lookup in Hx as [i Hi].
  assert (i < d) as Hlt.
  { apply lookup_lt_Some in Hi. by rewrite subDiceOf_nth in Hi. }
  rewrite <- (subDiceOf_length die d i Hd Hm Hlt).
  f_equal. symmetry. by apply nth_lookup_Some.
Qed.

Lemma concat_chunks {A} (l : list A) s : forall d,
  concat ((fun i => slice (i * s) ((i + 1) * s) l) <$> seq 0 d) = take (d * s) l.
Proof.
  induction d as [|d IH]; [done|].
  rewrite seq_S, fmap_app, concat_app, IH. simpl. rewrite app_nil_r.
  unfold slice. replace ((d + 1) * s - d * s) with s by lia.
  rewrite take_take_drop. f_equal. lia.
Qed.

Lemma subDiceOf_concat die d :
  length die mod d = 0 -> concat (subDiceOf die d) = die.
Proof.
  intros Hm. unfold subDiceOf. rewrite concat_chunks.
  apply take_ge. apply Nat.Div0.div_exact in Hm. lia.
Qed.

Lemma div_inj m d1 d2 :
  1 <= m -> m mod d1 = 0 -> m mod d2 = 0 -> 1 <= d1 -> 1 <= d2 ->
  m / d1 = m / d2 -> d1 = d2.
Proof.
  intros Hm H1 H2 Hd1 Hd2 Heq.
  apply Nat.Div0.div_exact in H1, H2. rewrite <- Heq in H2.
  assert (m / d1 <> 0) by (intros E; rewrite E in H1; lia).
  nia.
Qed.

Section Blocks.
Context {K : Type} (key : list string -> K).
Variable die : Die.
Hypothesis die_nonempty : 1 <= length die.

Lemma passEntries_length d es e :
  passEntries key die d es -> 1 <= d -> length die mod d = 0 -> e ∈ es ->
  length e.2 = length die / d.
Proof.
  intros [->|(Hsub & _)] Hd Hm He; [by apply elem_of_nil in He|].
  apply (subDiceOf_elem die d); [done..|].
  rewrite <- Hsub. apply list_elem_of_fmap. by exists e.
Qed.

Lemma block_of : forall divisors blocks e,
  Forall2 (passEntries key die) divisors blocks -> e ∈ concat blocks ->
  exists i d es, divisors !! i = Some d /\ blocks !! i = Some es /\ e ∈ es.
Proof.
  intros divisors blocks e HF He.
  apply elem_of_concat in He as (es & Hes & He).
  apply list_elem_of_lookup in Hes as [i Hi].
  destruct (Forall2_lookup_r _ _ _ _ _ HF Hi) as (d & Hd & _).
  by exists i, d, es.
Qed.

(** The entries whose sub-die has [length die / d] faces are those of the
    pass of [d]. *)
Lemma filter_block : forall divisors blocks,
  Forall2 (passEntries key die) divisors blocks ->
  NoDup divisors ->
  (forall d, d ∈ divisors -> 1 <= d /\ length die mod d = 0) ->
  forall i d es,
    divisors !! i = Some d -> blocks !! i = Some es ->
    filter (fun e => length e.2 = length die / d) (concat blocks) = es.
Proof.
  induction 1 as [|d0 es0 divisors blocks Hp HF IH]; intros Hnd Hdiv i d es Hd Hes;
    [done|].
  apply NoDup_cons in Hnd as [Hnotin Hnd].
  destruct (Hdiv d0 ltac:(left)) as [Hd0 Hm0].
  simpl. rewrite filter_app. destruct i as [|i]; simpl in *.
  - injection Hd as <-. injection Hes as <-.
    assert (filter (fun e => length e.2 = length die / d0) es0 = es0) as ->.
    { assert (Forall (fun e => length e.2 = length die / d0) es0) as Hall.
      { apply Forall_forall. intros e He. by eapply passEntries_length. }
      clear -Hall. induction Hall as [|e l He _ IHl]; [done|].
      by rewrite filter_cons_True, IHl. }
    assert (filter (fun e => length e.2 = length die / d0) (concat blocks) = [])
      as ->; [|by rewrite app_nil_r].
    apply filter_none. intros e He Hlen.
    destruct (block_of _ _ _ HF He) as (j & d' & es' & Hd' & Hes' & He').
    assert (d' ∈ divisors) as Hin by (by eapply list_elem_of_lookup_2).
    destruct (Hdiv d' ltac:(by right)) as [Hd'1 Hm'].
    pose proof (Forall2_lookup_lr _ _ _ _ _ _ HF Hd' Hes') as Hp'.
    rewrite (passEntries_length d' es' e Hp' Hd'1 Hm' He') in Hlen.
    apply div_inj in Hlen; [|done..]. by subst d'.
  - assert (d ∈ divisors) as Hin by (by eapply list_elem_of_lookup_2).
    destruct (Hdiv d ltac:(by right)) as [Hd1 Hm].
    assert (filter (fun e => length e.2 = length die / d) es0 = []) as ->.
    { apply filter_none. intros e He Hlen.
      rewrite (passEntries_length d0 es0 e Hp Hd0 Hm0 He) in Hlen.
      apply div_inj in Hlen; [|done..]. by subst d0. }
    simpl. apply (IH Hnd) with (i := i); [|done..].
    intros d' Hd'. apply Hdiv. by right.
Qed.
End Blocks.

(** The tosses of [generateTosses] are uniform for the chance key. *)
Lemma generateTosses_uniform die unfair t :
  Forall (uniformClass (chanceKeyOf unfair)) (generateTosses die unfair t).
Proof.
  apply Forall_forall. intros r Hr f g Hf Hg.
  apply list_elem_of_lookup in Hr as [i Hi].
  pose proof (generateTosses_key die unfair t i r f Hi Hf) as E1.
  pose proof (generateTosses_key die unfair t i r g Hi Hg) as E2.
  congruence.
Qed.

Lemma getDivisors_divides n d : d ∈ getDivisors n -> 1 <= d /\ n mod d = 0.
Proof. intros Hd%getDivisors_elem. split; [lia|tauto]. Qed.

Lemma getDivisors_NoDup n : NoDup (getDivisors n).
Proof.
  pose proof (getDivisors_sorted n) as Hs.
  induction Hs as [|x l _ IH Hall]; constructor; [|done].
  intros Hin. rewrite Forall_forall in Hall. apply Hall in Hin. lia.
Qed.

(** The map of [partitionTosses], pass by pass. *)
Lemma partitionTosses_passes {K} (key : list string -> K) tosses die :
  Forall wfRange tosses -> Forall (uniformClass key) tosses ->
  exists blocks,
    partitionTosses tosses die = concat blocks /\
    Forall2 (passEntries key die) (getDivisors (length die)) blocks.
Proof.
  intros Hwf Hun. unfold partitionTosses.
  destruct (partitionLoop_passes key die (getDivisors (length die)) tosses []
              (getDivisors_pos _) Hwf Hun) as (blocks & E & HF).
  by exists blocks.
Qed.

(** The entries of the map that [getConversion] gets whose sub-dice have the
    same number of faces are equally likely, whatever the chances of the
    faces of an unfair source die when [makeFair] is set: their tosses have
    the same chance keys, as many times each. So they have as many tosses,
    and any weight of a toss that does not depend on the order of its faces
    adds up to the same for both. *)
Theorem partition_equal_shares (dieA dieB : Die) (makeFair : bool) (throws : nat)
    (e1 e2 : TossRange * Die) :
  1 <= length dieB ->
  e1 ∈ partitionTosses (generateTosses dieA makeFair throws) dieB ->
  e2 ∈ partitionTosses (generateTosses dieA makeFair throws) dieB ->
  length e1.2 = length e2.2 ->
  chanceKeyOf makeFair <$> faces e1.1 ≡ₚ chanceKeyOf makeFair <$> faces e2.1 /\
  entrySize e1 = entrySize e2 /\
  (makeFair = true ->
   forall w : list string -> nat,
     (forall f g, f ≡ₚ g -> w f = w g) ->
     sum_list_with w (faces e1.1) = sum_list_with w (faces e2.1)).
Proof.
  intros HB He1 He2 Hlen.
  destruct (partitionTosses_passes (chanceKeyOf makeFair)
              (generateTosses dieA makeFair throws) dieB
              (generateTosses_wf _ _ _) (generateTosses_uniform _ _ _))
    as (blocks & E & HF).
  rewrite E in He1, He2.
  destruct (block_of _ dieB _ _ _ HF He1) as (i1 & d1 & es1 & Hd1 & Hes1 & Hin1).
  destruct (block_of _ dieB _ _ _ HF He2) as (i2 & d2 & es2 & Hd2 & Hes2 & Hin2).
  pose proof (Forall2_lookup_lr _ _ _ _ _ _ HF Hd1 Hes1) as Hp1.
  pose proof (Forall2_lookup_lr _ _ _ _ _ _ HF Hd2 Hes2) as Hp2.
  destruct (getDivisors_divides _ _ (list_elem_of_lookup_2 _ _ _ Hd1)) as [Hd11 Hm1].
  destruct (getDivisors_divides _ _ (list_elem_of_lookup_2 _ _ _ Hd2)) as [Hd21 Hm2].
  rewrite (passEntries_length _ dieB d1 es1 e1 Hp1 Hd11 Hm1 Hin1) in Hlen.
  rewrite (passEntries_length _ dieB d2 es2 e2 Hp2 Hd21 Hm2 Hin2) in Hlen.
  apply div_inj in Hlen; [|done..]. subst d2.
  assert (i1 = i2) as <-.
  { eapply NoDup_lookup; [apply getDivisors_NoDup|exact Hd1|exact Hd2]. }
  assert (es2 = es1) as -> by congruence.
  assert (chanceKeyOf makeFair <$> faces e1.1 ≡ₚ chanceKeyOf makeFair <$> faces e2.1)
    as Hperm.
  { destruct Hp1 as [->|(_ & M & _ & Hall)]; [by apply elem_of_nil in Hin1|].
    rewrite Forall_forall in Hall.
    by rewrite (Hall e1 Hin1), (Hall e2 Hin2). }
  split; [done|]. split.
  - unfold entrySize.
    rewrite <- (length_fmap (chanceKeyOf makeFair) (faces e1.1)), Hperm.
    by rewrite length_fmap.
  - intros -> w Hw.
    set (w' := fun key => match key with KeyJSON s => w s | KeyEmpty => 0 end).
    assert (forall l : list (list string),
              sum_list_with w l = sum_list_with w' (chanceKeyOf true <$> l)) as Hsum.
    { induction l as [|f l IH]; [done|]. simpl. rewrite IH. f_equal.
      apply Hw. symmetry. apply sortFaces_perm. }
    by rewrite !Hsum, Hperm.
Qed.

Lemma partition_equal_shares_witness :
  entrySize ({| faces := [["H"; "H"]; ["H"; "T"]]%string; ids := [0; 1] |},
             ["H"]%string)
  = entrySize ({| faces := [["T"; "H"]; ["T"; "T"]]%string; ids := [2; 3] |},
               ["T"]%string).
Proof.
  refine (proj1 (proj2 (partition_equal_shares (createDie 2) (createDie 2) false 2
                          (_, _) (_, _) _ _ _ _))).
  - simpl. lia.
  - vm_compute. left.
  - vm_compute. right. left.
  - reflexivity.
Defined.

(** * The ranges of the map *)

Lemma sortedRange_sorted r : StronglySorted le (ids (sortedRange r)).
Proof.
  unfold sortedRange. simpl.
  pose proof (sortById_sorted (imap (fun i face => (face, nth i (ids r) 0)) (faces r)))
    as Hs.
  induction Hs as [|x l _ IH Hall]; [constructor|].
  rewrite fmap_cons. constructor; [done|].
  apply Forall_fmap. by eapply Forall_impl.
Qed.

Lemma sorted_le_NoDup (l : list nat) :
  StronglySorted le l -> NoDup l -> StronglySorted Nat.lt l.
Proof.
  induction 1 as [|x l _ IH Hall]; intros Hnd; [constructor|].
  apply NoDup_cons in Hnd as [Hx Hnd]. constructor; [by apply IH|].
  rewrite Forall_forall in Hall |- *. intros y Hy.
  specialize (Hall y Hy). assert (x <> y) by (by intros ->). lia.
Qed.

Lemma entriesFrom_sorted subDice : forall sr off e,
  e ∈ entriesFrom off sr subDice -> exists r, e.1 = sortedRange r.
Proof.
  induction sr as [|r sr IH]; intros off e He.
  - by apply elem_of_nil in He.
  - rewrite entriesFrom_cons in He. apply elem_of_app in He as [He|He].
    + destruct (length (faces r) =? 0); [by apply elem_of_nil in He|].
      apply list_elem_of_singleton in He as ->. by exists r.
    + by eapply IH.
Qed.

Lemma partitionLoop_forall (P : TossRange * Die -> Prop) die :
  (forall d tosses e,
     e ∈ addToResult (allocateAll d tosses (replicate d emptyRange)).2
           (subDiceOf die d) -> P e) ->
  forall divisors tosses result,
    Forall P result -> Forall P (partitionLoop divisors die tosses result).
Proof.
  intros Hpass. induction divisors as [|d divisors IH]; intros tosses result Hres;
    [done|].
  rewrite partitionLoop_cons. apply IH. apply Forall_app. split; [done|].
  apply Forall_forall. intros e He. by eapply Hpass.
Qed.

Lemma partitionTosses_sorted tosses die e :
  e ∈ partitionTosses tosses die -> StronglySorted le (ids e.1).
Proof.
  revert e. apply Forall_forall. unfold partitionTosses.
  apply partitionLoop_forall; [|done].
  intros d tosses' e He. rewrite addToResult_entriesFrom in He.
  apply entriesFrom_sorted in He as (r & ->). apply sortedRange_sorted.
Qed.

(** Every entry of the map of [partitionTosses(tosses, die)], for a [die] of
    at least one face and classes whose arrays run in parallel and share no
    id: its range is not empty, its arrays run in parallel and its ids
    ascend; its sub-die has [length die / d] faces for a divisor [d] of the
    number of faces, and the entries with sub-dice of that length hold, in
    the order of the map, the [d] consecutive slices of the die. *)
Theorem partitionTosses_entries (tosses : list TossRange) (die : Die)
    (e : TossRange * Die) :
  1 <= length die -> Forall wfRange tosses -> NoDup (allIds tosses) ->
  e ∈ partitionTosses tosses die ->
  faces e.1 <> [] /\ wfRange e.1 /\ StronglySorted Nat.lt (ids e.1) /\
  exists d,
    1 <= d /\ length die mod d = 0 /\ length e.2 = length die / d /\
    (filter (fun e' => length e'.2 = length e.2) (partitionTosses tosses die)).*2
    = subDiceOf die d /\
    concat (subDiceOf die d) = die.
Proof.
  intros Hdie Hwf Hnd He.
  assert (Forall (uniformClass (fun _ : list string => tt)) tosses) as Hun.
  { apply Forall_forall. by intros u _ f g _ _. }
  destruct (partitionTosses_passes (fun _ => tt) tosses die Hwf Hun)
    as (blocks & E & HF).
  pose proof He as He'. rewrite E in He'.
  destruct (block_of _ die _ _ _ HF He') as (i & d & es & Hd & Hes & Hin).
  pose proof (Forall2_lookup_lr _ _ _ _ _ _ HF Hd Hes) as Hp.
  destruct (getDivisors_divides _ _ (list_elem_of_lookup_2 _ _ _ Hd)) as [Hd1 Hm].
  pose proof (passEntries_length _ die d es e Hp Hd1 Hm Hin) as Hlen.
  assert (wfRange e.1) as Hwfe.
  { apply (proj1 (Forall_forall _ _) (partitionTosses_wf tosses die Hwf)).
    apply list_elem_of_fmap. by exists e. }
  assert (NoDup (ids e.1)) as Hnde.
  { apply (NoDup_concat_elem (ids <$> (partitionTosses tosses die).*1)).
    - change (NoDup (allIds (partitionTosses tosses die).*1)).
      by rewrite partitionTosses_ids.
    - apply list_elem_of_fmap. exists e.1. split; [done|].
      apply list_elem_of_fmap. by exists e. }
  split; [|split; [done|split]].
  - destruct Hp as [->|(_ & M & HM & Hall)]; [by apply elem_of_nil in Hin|].
    rewrite Forall_forall in Hall. specialize (Hall e Hin).
    intros E0. rewrite E0 in Hall. simpl in Hall.
    apply Permutation_nil_l in Hall. done.
  - apply sorted_le_NoDup; [by eapply partitionTosses_sorted|done].
  - exists d. split; [done|]. split; [done|]. split; [done|].
    split; [|by apply subDiceOf_concat].
    rewrite (list_filter_iff _ (fun e' => length e'.2 = length die / d))
      by (intros e'; by rewrite Hlen).
    rewrite E.
    rewrite (filter_block _ die Hdie _ _ HF (getDivisors_NoDup _)
               (getDivisors_divides _) i d es Hd Hes).
    destruct Hp as [->|(Hsub & _)]; [by apply elem_of_nil in Hin|done].
Qed.

Lemma partitionTosses_entries_witness :
  StronglySorted Nat.lt [2; 3].
Proof.
  apply (proj1 (proj2 (proj2
    (partitionTosses_entries (generateTosses (createDie 2) false 2) (createDie 2)
       ({| faces := [["T"; "H"]; ["T"; "T"]]%string; ids := [2; 3] |}, ["T"]%string)
       ltac:(simpl; lia) (generateTosses_wf _ _ _)
       ltac:(rewrite generateTosses_ids; apply NoDup_seq)
       ltac:(vm_compute; right; left))))).
Defined.

(** * [partitionTosses] on one class and [getPartitions] *)

Lemma pass_one_class die d u :
  1 <= d -> length die mod d = 0 -> wfRange u ->
  let k := length (faces u) / d in
  let st := allocateAll d [u] (replicate d emptyRange) in
  entryShape <$> addToResult st.2 (subDiceOf die d)
  = (if k =? 0 then [] else replicate d (k, length die / d)) /\
  st.1 = (if k =? 0 then [u]
          else if length (faces u) =? d * k then []
               else [{| faces := drop (d * k) (faces u);
                        ids := drop (d * k) (ids u) |}]).
Proof.
  intros Hd Hm Hwf k st.
  assert (Forall wfRange [u]) as Hwfs by (by constructor).
  assert (Forall (uniformClass (fun _ : list string => tt)) [u]) as Hun.
  { constructor; [|done]. by intros f g _ _. }
  destruct (pass_entries_shares (fun _ => tt) die d [u] Hd Hwfs Hun)
    as (Hp & _ & _ & Hsum).
  fold st in Hp, Hsum. simpl in Hsum. fold k in Hsum. rewrite Nat.add_0_r in Hsum.
  split.
  - set (es := addToResult st.2 (subDiceOf die d)) in *.
    destruct Hp as [E|(Hsub & M & HM & Hall)].
    + rewrite E in *. simpl in Hsum.
      assert (k = 0) as -> by nia. done.
    + assert (length es = d) as Hlen
        by (by rewrite <- (length_fmap snd), Hsub, subDiceOf_nth).
      assert (Forall (fun e => entrySize e = length M) es) as Hsz.
      { eapply Forall_impl; [exact Hall|]. intros e Hperm. unfold entrySize.
        by rewrite <- (length_fmap (fun _ => tt) (faces e.1)), Hperm. }
      assert (sum_list_with entrySize es = length es * length M) as Hs2.
      { clear -Hsz. induction Hsz as [|e l He _ IH]; [done|]. simpl. lia. }
      assert (length M = k) as HMk by nia.
      assert (k <> 0) as Hk by (destruct M; [done|simpl in HMk; lia]).
      rewrite (proj2 (Nat.eqb_neq _ _) Hk).
      apply list_eq. intros j. rewrite list_lookup_fmap.
      destruct (decide (j < d)) as [Hj|Hj].
      * rewrite lookup_replicate_2 by done.
        destruct (lookup_lt_is_Some_2 es j ltac:(lia)) as [e He]. rewrite He. simpl.
        f_equal. unfold entryShape. f_equal.
        -- rewrite <- HMk. apply (proj1 (Forall_forall _ _) Hsz).
           by eapply list_elem_of_lookup_2.
        -- apply (subDiceOf_elem die d); [done..|]. rewrite <- Hsub.
           apply list_elem_of_fmap. exists e. split; [done|].
           by eapply list_elem_of_lookup_2.
      * rewrite (lookup_ge_None_2 es) by lia. simpl. symmetry.
        apply lookup_replicate_None. lia.
  - unfold st. rewrite allocateAll_cons. cbv zeta. fold k.
    destruct (k =? 0); [by rewrite allocateAll_nil|].
    destruct (length (faces u) =? d * k); by rewrite allocateAll_nil.
Qed.

Lemma pass_no_class die d :
  addToResult (allocateAll d [] (replicate d emptyRange)).2 (subDiceOf die d) = [] /\
  (allocateAll d [] (replicate d emptyRange)).1 = [].
Proof.
  rewrite allocateAll_nil. simpl. split; [|done].
  rewrite addToResult_entriesFrom. apply entriesFrom_replicate.
Qed.

Lemma partitionsLoop_zero b : forall divisors,
  Forall (fun d => 1 <= d) divisors -> Analytic.partitionsLoop divisors 0 b = [].
Proof.
  induction divisors as [|d divisors IH]; intros Hpos; [done|].
  apply Forall_cons in Hpos as [Hd Hpos].
  rewrite partitionsLoop_cons, Nat.Div0.div_0_l. simpl. by apply IH.
Qed.

Lemma partitionLoop_one_class die : forall divisors u result,
  (forall d, d ∈ divisors -> 1 <= d /\ length die mod d = 0) -> wfRange u ->
  entryShape <$> partitionLoop divisors die [u] result
  = (entryShape <$> result)
    ++ (Analytic.partitionsLoop divisors (length (faces u)) (length die)
        ≫= partitionShape).
Proof.
  induction divisors as [|d divisors IH]; intros u result Hdiv Hwf.
  { simpl. by rewrite app_nil_r. }
  destruct (Hdiv d ltac:(left)) as [Hd Hm].
  assert (forall d', d' ∈ divisors -> 1 <= d' /\ length die mod d' = 0) as Hdiv'
    by (intros d' Hd'; apply Hdiv; by right).
  rewrite partitionLoop_cons, partitionsLoop_cons.
  destruct (pass_one_class die d u Hd Hm Hwf) as [Hshape Hrest].
  cbv zeta in Hshape, Hrest. rewrite Hrest.
  set (k := length (faces u) / d) in *.
  destruct (Nat.eqb_spec k 0) as [Hk|Hk].
  - rewrite IH by done. rewrite fmap_app, Hshape, app_nil_r. done.
  - assert (d * k <= length (faces u)) as Hle by apply Nat.Div0.mul_div_le.
    destruct (Nat.eqb_spec (length (faces u)) (d * k)) as [Hall|Hpart].
    + (* the class is used up *)
      assert (forall divs result',
                (forall d', d' ∈ divs -> 1 <= d' /\ length die mod d' = 0) ->
                partitionLoop divs die [] result' = result') as Hnil.
      { clear. induction divs as [|d' divs IH]; intros result' Hdiv; [done|].
        rewrite partitionLoop_cons.
        destruct (pass_no_class die d') as [-> ->]. rewrite app_nil_r.
        apply IH. intros d'' Hd''. apply Hdiv. by right. }
      rewrite Hnil by done. rewrite fmap_app, Hshape.
      replace (length (faces u) - d * k) with 0 by lia.
      rewrite partitionsLoop_zero
        by (apply Forall_forall; intros d' Hd'; by apply Hdiv').
      simpl. by rewrite app_nil_r.
    + rewrite IH; [|done|].
      2:{ unfold wfRange. simpl. rewrite !length_drop. by rewrite Hwf. }
      rewrite fmap_app, Hshape, <- app_assoc. simpl. rewrite length_drop. done.
Qed.

(** With [makeFair] unset all the tosses make one class, and the map of
    [partitionTosses] is what [getPartitions(a, b)] of the analytic script
    describes with [a] the number of tosses and [b] the number of faces of
    the target die: each of its objects [{size, b, k, d}] stands for [d]
    consecutive entries of [k] tosses each, with sub-dice of [b] faces. *)
Theorem partitionTosses_getPartitions (dieA dieB : Die) (throws : nat) :
  1 <= length dieA -> 1 <= length dieB ->
  entryShape <$> partitionTosses (generateTosses dieA false throws) dieB
  = Analytic.getPartitions (length dieA ^ throws) (length dieB) ≫= partitionShape.
Proof.
  intros HA HB.
  destruct (generateTosses_fair dieA throws) as (r & E & _ & Hlen).
  { apply Nat.pow_lower_bound. lia. }
  assert (wfRange r) as Hwf.
  { apply (proj1 (Forall_forall _ _) (generateTosses_wf dieA false throws)).
    rewrite E. left. }
  rewrite E. unfold partitionTosses, Analytic.getPartitions.
  rewrite partitionLoop_one_class; [by rewrite Hlen|apply getDivisors_divides|done].
Qed.

Lemma partitionTosses_getPartitions_witness :
  entryShape <$> partitionTosses (generateTosses (createDie 2) false 3) (createDie 6)
  = Analytic.getPartitions (length (createDie 2) ^ 3) (length (createDie 6))
    ≫= partitionShape.
Proof.
  apply (partitionTosses_getPartitions (createDie 2) (createDie 6) 3); simpl; lia.
Defined.

(** * The edges of [getBestExpectedValue] *)

Lemma minWeight_diverges a b : forall fuel weight,
  a <= 1 -> a < b -> Analytic.minWeight fuel a b weight a = OutOfFuel.
Proof.
  induction fuel as [|fuel IH]; intros weight Ha Hb; [done|].
  simpl. rewrite (proj2 (Nat.ltb_lt _ _) Hb).
  replace (a * a) with a by nia. by apply IH.
Qed.

Section OneFaceAnalytic.
Context {N : Type} `{JSNumber N} `{JSInfinity N}.
Hypothesis zero_lt_infinity : lt (ofNat 0) Infinity = true.
Hypothesis two_ge_zero : ge (ofNat 2) (ofNat 0) = true.

Lemma getExpectedValueWith_one getBest a weight :
  Analytic.getExpectedValueWith (N := N) getBest a 1 weight
  = Returned (Analytic.mkExpected 0 (ofNat 0) ""%string).
Proof. done. Qed.

Lemma getBestExpectedValue_one_face_with fuel a :
  2 <= fuel -> 1 <= a ->
  Analytic.getBestExpectedValue (N := N) fuel a 1
  = Returned (Analytic.mkExpected 1 (ofNat 0) ""%string).
Proof.
  intros Hfuel Ha. destruct fuel as [|[|fuel]]; [lia..|].
  cbn [Analytic.getBestExpectedValue]. cbn [Analytic.minWeight].
  rewrite (proj2 (Nat.ltb_ge _ _) Ha).
  cbn [mbind Outcome_bind bindO]. cbn [Analytic.bestLoop].
  rewrite getExpectedValueWith_one.
  cbn [mbind Outcome_bind bindO Analytic.expected Analytic.desc].
  rewrite zero_lt_infinity. cbn [Analytic.expected].
  change (1 + 1) with 2. by rewrite two_ge_zero.
Qed.
End OneFaceAnalytic.

(** The analytic script has the case of a target of one face that [lib.js]
    lacks: [getBestExpectedValue(a, 1)] returns, after one round, the
    expected value 0 with the weight 1, for every [a >= 1], with doubles and
    in exact arithmetic. And as in [lib.js] the first loop does not end for
    [a <= 1 < b]. *)
Theorem getBestExpectedValue_edges :
  (forall fuel a, 2 <= fuel -> 1 <= a ->
     Analytic.getBestExpectedValue (N := float) fuel a 1
     = Returned (Analytic.mkExpected 1 (ofNat 0) ""%string)) /\
  (forall fuel a, 2 <= fuel -> 1 <= a ->
     Analytic.getBestExpectedValue (N := ExtQ) fuel a 1
     = Returned (Analytic.mkExpected 1 (ofNat 0) ""%string)) /\
  (forall (N : Type) (num : JSNumber N) (inf : JSInfinity N) fuel a b,
     a <= 1 -> a < b ->
     Analytic.getBestExpectedValue (N := N) fuel a b = OutOfFuel).
Proof.
  split; [|split].
  - intros fuel a. by apply getBestExpectedValue_one_face_with.
  - intros fuel a. by apply getBestExpectedValue_one_face_with.
  - intros N num inf [|fuel] a b Ha Hb; [done|].
    cbn [Analytic.getBestExpectedValue]. by rewrite minWeight_diverges.
Qed.

Lemma getBestExpectedValue_edges_witness :
  Analytic.getBestExpectedValue (N := float) 2 8 1
  = Returned (Analytic.mkExpected 1 (ofNat 0) ""%string) /\
  Analytic.getBestExpectedValue (N := float) 5 1 6 = OutOfFuel.
Proof.
  split.
  - apply (proj1 getBestExpectedValue_edges 2 8); lia.
  - apply (proj2 (proj2 getBestExpectedValue_edges) float Double Double_infinity 5 1 6);
      lia.
Defined.

(** * [getTossRangeText] *)

Lemma string_app_assoc (s1 s2 s3 : string) :
  ((s1 ++ s2) ++ s3)%string = (s1 ++ s2 ++ s3)%string.
Proof.
  induction s1 as [|c s1 IH]; [done|].
  change (String c ((s1 ++ s2) ++ s3)%string = String c (s1 ++ s2 ++ s3)%string).
  by rewrite IH.
Qed.

Lemma join_cons sep x l :
  l <> [] -> join sep (x :: l) = (x ++ sep ++ join sep l)%string.
Proof. destruct l; [done|]. done. Qed.

Lemma join_app sep l1 l2 :
  l1 <> [] -> l2 <> [] ->
  join sep (l1 ++ l2) = (join sep l1 ++ sep ++ join sep l2)%string.
Proof.
  intros H1 H2. induction l1 as [|x l1 IH]; [done|].
  destruct l1 as [|y l1].
  - simpl app. by rewrite join_cons.
  - change ((x :: y :: l1) ++ l2) with (x :: ((y :: l1) ++ l2)).
    rewrite join_cons by done. rewrite IH by done.
    rewrite (join_cons sep x (y :: l1)) by done.
    by rewrite !string_app_assoc.
Qed.

Lemma pushSeq_runText range s e seq fs fe :
  faces range !! s = Some fs -> faces range !! e = Some fe ->
  pushSeq range (Some s) e seq = Returned (seq ++ runText fs s e fe).
Proof.
  intros Hs He. unfold pushSeq, runText. rewrite Hs.
  destruct (Nat.eqb_spec e s) as [->|Hne]; [done|].
  rewrite He. by destruct (e =? s + 1).
Qed.

Lemma runText_nonempty fs s e fe : runText fs s e fe <> [].
Proof. unfold runText. by repeat case_match. Qed.

(** What [pushSeq] returns is [seq] and at least one more piece, which does
    not depend on [seq]. *)
Lemma pushSeq_inv range st e seq seq' :
  pushSeq range st e seq = Returned seq' ->
  exists s fs fe,
    st = Some s /\ faces range !! s = Some fs /\ faces range !! e = Some fe /\
    seq' = seq ++ runText fs s e fe.
Proof.
  unfold pushSeq, runText. destruct st as [s|]; [|done].
  destruct (faces range !! s) as [fs|] eqn:Hs; [|done].
  destruct (Nat.eqb_spec e s) as [->|Hne].
  - intros [= <-]. exists s, fs, fs. by rewrite Nat.eqb_refl.
  - destruct (faces range !! e) as [fe|] eqn:He.
    + intros Hrun. exists s, fs, fe.
      rewrite (proj2 (Nat.eqb_neq _ _) Hne).
      destruct (e =? s + 1); by injection Hrun as <-.
    + by destruct (e =? s + 1).
Qed.

(** ** The loop returns on a range whose arrays run in parallel *)

Lemma textLoop_cons range id rest i iStart lastId seq :
  textLoop range (id :: rest) i iStart lastId seq
  = if match lastId with None => true | Some l => l + 1 <? id end
    then bindO (match iStart with
                | None => Returned seq
                | Some _ => pushSeq range iStart (i - 1) seq
                end)
               (fun seq' => textLoop range rest (i + 1) (Some i) (Some id) seq')
    else textLoop range rest (i + 1) iStart (Some id) seq.
Proof. done. Qed.

Lemma textLoop_returns range : forall js i iStart lastId seq,
  i + length js <= length (faces range) ->
  (iStart = None /\ lastId = None) \/
  (exists s l, iStart = Some s /\ lastId = Some l /\ s < i) ->
  exists st seq',
    textLoop range js i iStart lastId seq = Returned (st, seq') /\
    (js <> [] -> exists s, st = Some s /\ s < i + length js) /\
    (js = [] -> st = iStart).
Proof.
  induction js as [|id rest IH]; intros i iStart lastId seq Hlen Hst.
  { exists iStart, seq. by split. }
  simpl in Hlen. rewrite textLoop_cons.
  assert (forall seq1,
            exists st seq',
              textLoop range rest (i + 1) (Some i) (Some id) seq1 = Returned (st, seq') /\
              exists s, st = Some s /\ s < i + S (length rest)) as Hnew.
  { intros seq1.
    destruct (IH (i + 1) (Some i) (Some id) seq1 ltac:(lia)) as (st & seq' & E & H1 & H2).
    { right. exists i, id. split; [done|]. split; [done|lia]. }
    exists st, seq'. split; [done|].
    destruct rest as [|x rest'].
    - rewrite (H2 eq_refl). exists i. split; [done|simpl; lia].
    - destruct (H1 ltac:(done)) as (s & -> & Hs). exists s. split; [done|].
      simpl in *. lia. }
  destruct Hst as [[-> ->]|(s & l & -> & -> & Hs)].
  - destruct (Hnew seq) as (st & seq' & E & Hst). unfold bindO. rewrite E.
    exists st, seq'. split; [done|]. split; [done|done].
  - destruct (l + 1 <? id).
    + destruct (lookup_lt_is_Some_2 (faces range) s ltac:(lia)) as [fs Hfs].
      destruct (lookup_lt_is_Some_2 (faces range) (i - 1) ltac:(lia)) as [fe Hfe].
      rewrite (pushSeq_runText range s (i - 1) seq fs fe Hfs Hfe). unfold bindO.
      destruct (Hnew (seq ++ runText fs s (i - 1) fe)) as (st & seq' & E & Hst).
      rewrite E. exists st, seq'. split; [done|]. split; [done|done].
    + destruct (IH (i + 1) (Some s) (Some id) seq ltac:(lia)) as (st & seq' & E & H1 & H2).
      { right. exists s, id. split; [done|]. split; [done|lia]. }
      exists st, seq'. split; [done|]. split; [|done].
      intros _. destruct rest as [|x rest'].
      * rewrite (H2 eq_refl). exists s. split; [done|simpl; lia].
      * destruct (H1 ltac:(done)) as (s' & -> & Hs'). exists s'. split; [done|].
        simpl in *. lia.
Qed.

Lemma getTossRangeText_textable range :
  textable range -> exists text, getTossRangeText range = Returned text.
Proof.
  intros [Hne Hlen]. unfold getTossRangeText.
  destruct (textLoop_returns range (ids range) 0 None None [] ltac:(simpl; lia))
    as (st & seq' & E & H1 & _); [by left|].
  rewrite E. simpl.
  destruct (H1 Hne) as (s & -> & Hs).
  destruct (lookup_lt_is_Some_2 (faces range) s ltac:(lia)) as [fs Hfs].
  destruct (lookup_lt_is_Some_2 (faces range) (length (ids range) - 1))
    as [fe Hfe].
  { destruct (ids range); [done|simpl in *; lia]. }
  rewrite (pushSeq_runText range s _ seq' fs fe Hfs Hfe). simpl. by eexists.
Qed.

(** [getTossRangeText] throws a [TypeError] on a range without ids, and
    returns a text on every other range that has a face sequence for each of
    its ids. *)
Theorem getTossRangeText_returns (range : TossRange) :
  (ids range = [] -> getTossRangeText range = Thrown TypeError) /\
  (ids range <> [] -> length (ids range) <= length (faces range) ->
   exists text, getTossRangeText range = Returned text).
Proof.
  split.
  - intros E. unfold getTossRangeText. by rewrite E.
  - intros Hne Hlen. by apply getTossRangeText_textable.
Qed.

Lemma getTossRangeText_returns_witness :
  exists text,
    getTossRangeText {| faces := [["H"]; ["T"]]%string; ids := [0; 1] |}
    = Returned text.
Proof.
  apply (proj2 (getTossRangeText_returns
                  {| faces := [["H"]; ["T"]]%string; ids := [0; 1] |})).
  - done.
  - simpl. lia.
Defined.

(** ** One run *)

Lemma noGap_tail a ids : noGap (a :: ids) -> noGap ids.
Proof. intros H j x y Hx Hy. by apply (H (S j) x y). Qed.

Lemma textLoop_run range : forall js i s l seq,
  noGap (l :: js) ->
  textLoop range js i (Some s) (Some l) seq = Returned (Some s, seq).
Proof.
  induction js as [|id rest IH]; intros i s l seq Hng; [done|].
  rewrite textLoop_cons.
  assert (id <= l + 1) as Hle by (by apply (Hng 0 l id)).
  rewrite (proj2 (Nat.ltb_ge _ _) Hle).
  apply IH. by eapply noGap_tail.
Qed.

(** The text of a range whose ids make one run, each id at most one above
    the one before: its only face sequence, or its two face sequences with
    a comma, or the first and the last with a dash. *)
Theorem getTossRangeText_run (range : TossRange) (fs fe : list string) :
  noGap (ids range) -> ids range <> [] ->
  faces range !! 0 = Some fs ->
  faces range !! (length (ids range) - 1) = Some fe ->
  getTossRangeText range
  = Returned (join ", " (runText fs 0 (length (ids range) - 1) fe)).
Proof.
  intros Hng Hne Hfs Hfe. unfold getTossRangeText.
  destruct (ids range) as [|id rest] eqn:E; [done|].
  rewrite textLoop_cons. unfold bindO.
  rewrite (textLoop_run range rest (0 + 1) 0 id [] Hng).
  cbn [mbind Outcome_bind bindO].
  rewrite (pushSeq_runText range 0 _ [] fs fe Hfs Hfe). done.
Qed.

Lemma getTossRangeText_run_witness :
  getTossRangeText {| faces := [["1"]; ["2"]; ["3"]]%string; ids := [0; 1; 2] |}
  = Returned "1 - 3"%string.
Proof.
  apply (getTossRangeText_run
           {| faces := [["1"]; ["2"]; ["3"]]%string; ids := [0; 1; 2] |}
           ["1"]%string ["3"]%string).
  - intros [|[|[|j]]] a b; simpl; intros [= <-] [= <-] || done; lia.
  - done.
  - done.
  - done.
Defined.

(** ** Two ranges with a gap between them *)

(** More faces after those of the range change nothing. *)
Lemma pushSeq_more F1 F2 I I' st e seq seq' :
  pushSeq {| faces := F1; ids := I |} st e seq = Returned seq' ->
  pushSeq {| faces := F1 ++ F2; ids := I' |} st e seq = Returned seq'.
Proof.
  intros Hrun. apply pushSeq_inv in Hrun as (s & fs & fe & -> & Hs & He & ->).
  simpl in Hs, He. apply pushSeq_runText; by apply lookup_app_l_Some.
Qed.

Lemma textLoop_more F1 F2 I I' : forall js i st l seq res,
  textLoop {| faces := F1; ids := I |} js i st l seq = Returned res ->
  textLoop {| faces := F1 ++ F2; ids := I' |} js i st l seq = Returned res.
Proof.
  induction js as [|id rest IH]; intros i st l seq res Hrun; [done|].
  rewrite textLoop_cons in Hrun |- *.
  destruct (match l with None => true | Some l0 => l0 + 1 <? id end).
  - destruct st as [s|]; unfold bindO in *.
    + destruct (pushSeq {| faces := F1; ids := I |} (Some s) (i - 1) seq)
        as [seq1| |] eqn:E; try done.
      rewrite (pushSeq_more F1 F2 I I' _ _ _ _ E). by apply IH.
    + by apply IH.
  - by apply IH.
Qed.

(** The loop over two lists of ids. *)
Lemma textLoop_app range : forall ids1 ids2 i st l seq,
  textLoop range (ids1 ++ ids2) i st l seq
  = bindO (textLoop range ids1 i st l seq)
      (fun res =>
         textLoop range ids2 (i + length ids1) res.1
           (match last ids1 with Some a => Some a | None => l end) res.2).
Proof.
  induction ids1 as [|id rest IH]; intros ids2 i st l seq.
  { simpl. by rewrite Nat.add_0_r. }
  change ((id :: rest) ++ ids2) with (id :: (rest ++ ids2)).
  rewrite !textLoop_cons.
  assert (forall st' seq',
            textLoop range ids2 (i + 1 + length rest) st'
              (match last rest with Some a => Some a | None => Some id end) seq'
            = textLoop range ids2 (i + length (id :: rest)) st'
                (match last (id :: rest) with Some a => Some a | None => l end) seq')
    as Hk.
  { intros st' seq'. replace (i + 1 + length rest) with (i + length (id :: rest))
      by (simpl; lia).
    f_equal. destruct rest as [|x rest']; [done|].
    change (last (id :: x :: rest')) with (last (x :: rest')).
    destruct (last (x :: rest')) eqn:E; [done|]. by apply last_None in E. }
  destruct (match l with None => true | Some l0 => l0 + 1 <? id end).
  - unfold bindO at 1 3.
    destruct (match st with
              | None => Returned seq
              | Some _ => pushSeq range st (i - 1) seq
              end) as [seq1| |]; try done.
    rewrite IH. unfold bindO.
    destruct (textLoop range rest (i + 1) (Some i) (Some id) seq1) as [[st' seq']| |];
      done || apply Hk.
  - rewrite IH. unfold bindO.
    destruct (textLoop range rest (i + 1) st (Some id) seq) as [[st' seq']| |];
      done || apply Hk.
Qed.

(** The loop on a range moved behind [n1] faces: the indices move, the text
    does not. *)
Lemma pushSeq_shift F1 F2 I I' s e seqB seqB' :
  pushSeq {| faces := F2; ids := I |} (Some s) e seqB = Returned seqB' ->
  exists added,
    added <> [] /\ seqB' = seqB ++ added /\
    forall seqA,
      pushSeq {| faces := F1 ++ F2; ids := I' |} (Some (length F1 + s))
        (length F1 + e) seqA
      = Returned (seqA ++ added).
Proof.
  intros Hrun. apply pushSeq_inv in Hrun as (s' & fs & fe & [= <-] & Hs & He & ->).
  simpl in Hs, He.
  exists (runText fs s e fe). split; [apply runText_nonempty|]. split; [done|].
  intros seqA.
  rewrite (pushSeq_runText _ (length F1 + s) (length F1 + e) seqA fs fe).
  - f_equal. f_equal. unfold runText.
    replace (length F1 + e =? length F1 + s) with (e =? s)
      by (destruct (Nat.eqb_spec e s), (Nat.eqb_spec (length F1 + e) (length F1 + s));
          done || lia).
    replace (length F1 + e =? length F1 + s + 1) with (e =? s + 1)
      by (destruct (Nat.eqb_spec e (s + 1)),
                   (Nat.eqb_spec (length F1 + e) (length F1 + s + 1)); done || lia).
    done.
  - simpl. by rewrite lookup_app_r, Nat.add_comm, Nat.add_sub by lia.
  - simpl. by rewrite lookup_app_r, Nat.add_comm, Nat.add_sub by lia.
Qed.

Lemma textLoop_shift F1 F2 I I' : forall js i s l seqB st' seqB',
  1 <= i ->
  textLoop {| faces := F2; ids := I |} js i (Some s) l seqB = Returned (st', seqB') ->
  exists s' added,
    st' = Some s' /\ seqB' = seqB ++ added /\
    forall seqA,
      textLoop {| faces := F1 ++ F2; ids := I' |} js (length F1 + i)
        (Some (length F1 + s)) l seqA
      = Returned (Some (length F1 + s'), seqA ++ added).
Proof.
  induction js as [|id rest IH]; intros i s l seqB st' seqB' Hi Hrun.
  { injection Hrun as <- <-. exists s, []. split; [done|].
    split; [by rewrite app_nil_r|]. intros seqA. simpl. by rewrite app_nil_r. }
  rewrite textLoop_cons in Hrun.
  destruct (match l with None => true | Some l0 => l0 + 1 <? id end) eqn:Hc.
  - unfold bindO in Hrun.
    destruct (pushSeq {| faces := F2; ids := I |} (Some s) (i - 1) seqB)
      as [seq1| |] eqn:E; try done.
    destruct (pushSeq_shift F1 F2 I I' _ _ _ _ E) as (add1 & _ & -> & Hpush).
    destruct (IH (i + 1) i (Some id) _ _ _ ltac:(lia) Hrun) as (s' & add2 & -> & -> & Hloop).
    exists s', (add1 ++ add2). split; [done|]. split; [by rewrite app_assoc|].
    intros seqA. rewrite textLoop_cons, Hc. unfold bindO.
    replace (length F1 + i - 1) with (length F1 + (i - 1)) by lia.
    rewrite Hpush.
    replace (length F1 + i + 1) with (length F1 + (i + 1)) by lia.
    rewrite Hloop. by rewrite app_assoc.
  - destruct (IH (i + 1) s (Some id) _ _ _ ltac:(lia) Hrun) as (s' & add2 & -> & -> & Hloop).
    exists s', add2. split; [done|]. split; [done|].
    intros seqA. rewrite textLoop_cons, Hc.
    replace (length F1 + i + 1) with (length F1 + (i + 1)) by lia.
    apply Hloop.
Qed.

(** What the loop leaves when it started from nothing on a range with
    ids. *)
Lemma textLoop_start range id rest st seq :
  textLoop range (id :: rest) 0 None None [] = Returned (st, seq) ->
  textLoop range rest 1 (Some 0) (Some id) [] = Returned (st, seq).
Proof. by rewrite textLoop_cons. Qed.

Lemma textLoop_some range : forall js i s l seq st seq',
  textLoop range js i (Some s) l seq = Returned (st, seq') ->
  exists s', st = Some s'.
Proof.
  induction js as [|id rest IH]; intros i s l seq st seq' Hrun.
  { injection Hrun as <- <-. by exists s. }
  rewrite textLoop_cons in Hrun.
  destruct (match l with None => true | Some l0 => l0 + 1 <? id end).
  - unfold bindO in Hrun. destruct (pushSeq _ _ _ _); try done. by eapply IH.
  - by eapply IH.
Qed.

(** When the first id of a range is more than one above the last id of the
    range before it, the text of the two ranges put end to end is the text
    of the first, a comma, and the text of the second. *)
Theorem getTossRangeText_gap (r1 r2 : TossRange) (a b : nat) (t1 t2 : string) :
  length (faces r1) = length (ids r1) ->
  last (ids r1) = Some a -> head (ids r2) = Some b -> a + 1 < b ->
  getTossRangeText r1 = Returned t1 ->
  getTossRangeText r2 = Returned t2 ->
  getTossRangeText {| faces := faces r1 ++ faces r2; ids := ids r1 ++ ids r2 |}
  = Returned (t1 ++ ", " ++ t2)%string.
Proof.
  destruct r1 as [F1 I1], r2 as [F2 I2]. simpl.
  intros Hwf Hlast Hhead Hgap Ht1 Ht2.
  set (R := {| faces := F1 ++ F2; ids := I1 ++ I2 |}).
  unfold getTossRangeText in Ht1, Ht2. simpl in Ht1, Ht2.
  destruct (textLoop {| faces := F1; ids := I1 |} I1 0 None None [])
    as [[st1 seq1]| |] eqn:E1; try done.
  destruct (textLoop {| faces := F2; ids := I2 |} I2 0 None None [])
    as [[st2 seq2]| |] eqn:E2; try done.
  cbn [mbind Outcome_bind bindO] in Ht1, Ht2.
  destruct (pushSeq {| faces := F1; ids := I1 |} st1 (length I1 - 1) seq1)
    as [seq1'| |] eqn:P1; try done.
  destruct (pushSeq {| faces := F2; ids := I2 |} st2 (length I2 - 1) seq2)
    as [seq2'| |] eqn:P2; try done.
  cbn [mbind Outcome_bind bindO] in Ht1, Ht2.
  injection Ht1 as <-. injection Ht2 as <-.
  destruct I2 as [|b' I2']; [done|]. injection Hhead as ->.
  assert (I1 <> []) as Hne1 by (intros ->; done).
  (* the first range *)
  pose proof (textLoop_more F1 F2 I1 (I1 ++ b :: I2') _ _ _ _ _ _ E1) as E1'.
  pose proof (pushSeq_more F1 F2 I1 (I1 ++ b :: I2') _ _ _ _ P1) as P1'.
  fold R in E1', P1'.
  apply pushSeq_inv in P1 as (s1 & fs1 & fe1 & -> & _ & _ & Hseq1).
  (* the second range *)
  apply textLoop_start in E2.
  destruct (textLoop_shift F1 F2 (b :: I2') (I1 ++ b :: I2') I2' 1 0 (Some b) []
              st2 seq2 ltac:(lia) E2) as (s2 & add2 & -> & Hseq2 & Hloop2).
  fold R in Hloop2. simpl in Hseq2. subst seq2.
  destruct (pushSeq_shift F1 F2 (b :: I2') (I1 ++ b :: I2') _ _ _ _ P2)
    as (add3 & Hne3 & -> & Hpush3).
  fold R in Hpush3.
  (* the two together *)
  unfold getTossRangeText. simpl ids. rewrite textLoop_app, E1'.
  cbn [bindO fst snd]. rewrite Hlast, textLoop_cons.
  rewrite (proj2 (Nat.ltb_lt _ _) Hgap).
  change (0 + length I1) with (length I1). rewrite P1'. cbn [bindO].
  rewrite <- Hwf.
  replace (Some (length F1)) with (Some (length F1 + 0)) by (f_equal; lia).
  rewrite Hloop2. cbn [mbind Outcome_bind bindO].
  replace (length (I1 ++ b :: I2') - 1) with (length F1 + (length (b :: I2') - 1))
    by (rewrite length_app, Hwf; simpl; lia).
  rewrite Hpush3. cbn [mbind Outcome_bind bindO].
  f_equal. rewrite <- app_assoc. apply join_app.
  - rewrite Hseq1. intros E. apply app_eq_nil in E as [_ E].
    by apply runText_nonempty in E.
  - intros E. apply app_eq_nil in E as [_ E]. done.
Qed.

Lemma getTossRangeText_gap_witness :
  getTossRangeText {| faces := [["1"]; ["2"]] ++ [["4"]]; ids := [0; 1] ++ [3] |}%string
  = Returned ("1, 2" ++ ", " ++ "4")%string.
Proof.
  apply (getTossRangeText_gap {| faces := [["1"]; ["2"]]%string; ids := [0; 1] |}
           {| faces := [["4"]]%string; ids := [3] |} 1 3);
    reflexivity || (simpl; lia).
Defined.

(** * The rules that [getBestConversion] builds *)

Lemma partitionTosses_nonempty tosses die e :
  e ∈ partitionTosses tosses die -> faces e.1 <> [].
Proof.
  revert e. apply Forall_forall. unfold partitionTosses.
  apply partitionLoop_forall; [|done].
  intros d tosses' e He. rewrite addToResult_entriesFrom in He.
  by apply entriesFrom_elem in He as [? _].
Qed.

Section Tree.
Context {N : Type} `{JSNumber N}.
Variables (dieA : Die) (makeFair : bool).
Variable P : Die -> ConversionRule N -> Prop.

(** A property of the rules, given their target dice, holds of every rule
    that [getBestConversion] returns when a rule has it whose map is that of
    [partitionTosses], range for range, and whose reductions have it for
    their sub-dice. *)
Hypothesis P_rule : forall dieB t bs e,
  Forall2 (fun en rb => rb.1 = en.1 /\
                        match rb.2 with Reduce sub => P en.2 sub | _ => True end)
          (partitionTosses (generateTosses dieA makeFair t) dieB) bs ->
  P dieB (mkRule dieA dieB makeFair t bs e).

Lemma getBestConversion_tree : forall fuel dieB rule,
  getBestConversion fuel dieA dieB makeFair = Returned rule -> P dieB rule.
Proof.
  induction fuel as [|fuel IH]; intros dieB rule Hrun; [done|].
  simpl in Hrun.
  destruct (minThrows fuel _ _ _ _) as [t0| |] eqn:E; simpl in Hrun; try done.
  eapply (search_preserves _ (P dieB) 0); [|lia| |exact Hrun]; [|done].
  intros t r _ Hr.
  apply getConversionWith_inv in Hr as (bs & z & sizeB & Hloop & ->).
  apply P_rule.
  eapply Forall2_impl; [exact (branchLoop_branches _ _ _ _ _ _ _ _ _ _ Hloop)|].
  intros en rb [E1 Hb]. split; [done|].
  destruct rb.2 as [label|sub|]; [done| |done].
  destruct Hb as (_ & _ & Hsub). by eapply IH.
Qed.
End Tree.

(** * [getConversionText] *)

Section Lines.
Context {N : Type}.

Lemma branchLines_prepares prefix firstStep :
  forall (bs : list (TossRange * Branch (ConversionRule N))) step lines,
  Forall (fun rb => textable rb.1 /\
                    match rb.2 with Reduce sub => prepares sub | _ => True end) bs ->
  exists lines',
    branchLines prepareText prefix firstStep bs step lines
    = Returned (step + 2 * sum_list_with
                             (fun rb => match rb.2 with
                                        | Reduce sub => ruleCount sub
                                        | _ => 0
                                        end) bs, lines') /\
    length lines'
    = length lines
      + 2 * sum_list_with (fun rb => match rb.2 with
                                     | Reduce sub => ruleCount sub
                                     | _ => 0
                                     end) bs
      + sum_list_with (fun rb => match rb.2 with
                                 | Reduce sub => 1 + branchCount sub
                                 | _ => 1
                                 end) bs.
Proof.
  induction bs as [|[range b] rest IH]; intros step lines Hall.
  { exists lines. split; [simpl; do 2 f_equal; lia|simpl; lia]. }
  apply Forall_cons in Hall as [[Hr Hb] Hall]. simpl in Hr, Hb.
  destruct (getTossRangeText_textable range Hr) as [text Ht].
  cbn [branchLines]. rewrite Ht. cbn [mbind Outcome_bind bindO].
  destruct b as [label|sub|].
  - destruct (IH step (lines ++ [(prefix ++ "  " ++ text ++ " => return " ++ label)%string])
                Hall) as (lines' & E & L).
    exists lines'. split; [rewrite E; simpl; do 2 f_equal; lia|].
    rewrite L, length_app. simpl. lia.
  - destruct (Hb (prefix ++ "    ")%string step
                (lines ++ [(prefix ++ "  " ++ text ++ " => execute the following")%string]))
      as (lines1 & E1 & L1).
    rewrite E1. cbn [mbind Outcome_bind bindO].
    destruct (IH (step + 2 * ruleCount sub) lines1 Hall) as (lines' & E & L).
    exists lines'. split; [rewrite E; simpl; do 2 f_equal; lia|].
    rewrite L, L1, length_app. simpl. lia.
  - destruct (IH step (lines ++ [(prefix ++ "  " ++ text ++ " => repeat from step "
                                  ++ stringOfNat firstStep)%string])
                Hall) as (lines' & E & L).
    exists lines'. split; [rewrite E; simpl; do 2 f_equal; lia|].
    rewrite L, length_app. simpl. lia.
Qed.
End Lines.

Lemma partition_textable dieA dieB makeFair t en :
  en ∈ partitionTosses (generateTosses dieA makeFair t) dieB -> textable en.1.
Proof.
  intros Hen.
  assert (wfRange en.1) as Hwf.
  { apply (proj1 (Forall_forall _ _)
             (partitionTosses_wf _ dieB (generateTosses_wf dieA makeFair t))).
    apply list_elem_of_fmap. by exists en. }
  pose proof (partitionTosses_nonempty _ _ _ Hen) as Hne.
  unfold wfRange in Hwf. split; [|lia].
  intros E. rewrite E in Hwf. by destruct (faces en.1).
Qed.

Lemma getBestConversion_prepares {N : Type} `{JSNumber N} fuel dieA dieB makeFair
    (rule : ConversionRule N) :
  getBestConversion fuel dieA dieB makeFair = Returned rule -> prepares rule.
Proof.
  apply (getBestConversion_tree dieA makeFair (fun _ => prepares)). clear dieB rule.
  intros dieB t bs e HF. red. intros prefix step lines.
  assert (Forall (fun rb => textable rb.1 /\
                            match rb.2 with
                            | Reduce sub => prepares sub
                            | _ => True
                            end) bs) as Hall.
  { assert (forall entries (bs' : list (TossRange * Branch (ConversionRule N))),
              (forall en, en ∈ entries ->
                 en ∈ partitionTosses (generateTosses dieA makeFair t) dieB) ->
              Forall2 (fun en rb => rb.1 = en.1 /\
                         match rb.2 with Reduce sub => prepares sub | _ => True end)
                      entries bs' ->
              Forall (fun rb => textable rb.1 /\
                         match rb.2 with Reduce sub => prepares sub | _ => True end)
                     bs') as Hgen.
    { clear. intros entries bs' Hsub HF'.
      induction HF' as [|en rb entries bs' [E Hb] _ IH]; constructor.
      - split; [|done]. rewrite E. eapply partition_textable. apply Hsub. left.
      - apply IH. intros en' Hen'. apply Hsub. by right. }
    apply (Hgen (partitionTosses (generateTosses dieA makeFair t) dieB));
      [done|exact HF]. }
  destruct (branchLines_prepares prefix step bs (step + 2)
              ((lines ++ [(prefix ++ stringOfNat step ++ ". Throw it "
                           ++ throwsText t)%string])
               ++ [(prefix ++ stringOfNat (step + 1)
                    ++ ". Find the result in the following table:")%string])
              Hall) as (lines' & E & L).
  exists lines'. split.
  - change (prepareText (mkRule dieA dieB makeFair t bs e) prefix step lines)
      with (branchLines prepareText prefix step bs (step + 2)
              ((lines ++ [(prefix ++ stringOfNat step ++ ". Throw it "
                           ++ throwsText t)%string])
               ++ [(prefix ++ stringOfNat (step + 1)
                    ++ ". Find the result in the following table:")%string])).
    rewrite E. do 2 f_equal.
    change (ruleCount (mkRule dieA dieB makeFair t bs e))
      with (1 + sum_list_with (fun rb => match rb.2 with
                                         | Reduce sub => ruleCount sub
                                         | _ => 0
                                         end) bs).
    lia.
  - rewrite L, !length_app.
    change (ruleCount (mkRule dieA dieB makeFair t bs e))
      with (1 + sum_list_with (fun rb => match rb.2 with
                                         | Reduce sub => ruleCount sub
                                         | _ => 0
                                         end) bs).
    change (branchCount (mkRule dieA dieB makeFair t bs e))
      with (sum_list_with (fun rb => match rb.2 with
                                     | Reduce sub => 1 + branchCount sub
                                     | _ => 1
                                     end) bs).
    simpl length. lia.
Qed.

(** [getConversionText] does not throw on a rule that [getBestConversion]
    returned, whatever the dice and the arithmetic: every range of the tree
    has tosses, so [getTossRangeText] finds the face sequences it reads. *)
Theorem getConversionText_returns {N : Type} `{JSNumber N} (toFixed1 : N -> string)
    (fuel : nat) (dieA dieB : Die) (makeFair : bool) (rule : ConversionRule N) :
  getBestConversion fuel dieA dieB makeFair = Returned rule ->
  exists text, getConversionText toFixed1 rule = Returned text.
Proof.
  intros Hrun. apply getBestConversion_prepares in Hrun.
  unfold getConversionText, conversionLines. cbv zeta.
  match goal with
  | |- context [prepareText rule ?p ?s ?l] =>
      destruct (Hrun p s l) as (lines' & E & _)
  end.
  rewrite E. cbn [mbind Outcome_bind bindO]. by eexists.
Qed.

Lemma getConversionText_returns_witness :
  exists text,
    getConversionText (fun _ : float => "1.0"%string)
      (mkRule (createDie 6) (createDie 2) false 1
         [({| faces := [["1"]; ["2"]; ["3"]]%string; ids := [0; 1; 2] |},
           Terminal "H"%string);
          ({| faces := [["4"]; ["5"]; ["6"]]%string; ids := [3; 4; 5] |},
           Terminal "T"%string)]
         1%float)
    = Returned text.
Proof.
  apply (getConversionText_returns (fun _ : float => "1.0"%string) 3
           (createDie 6) (createDie 2) false).
  vm_compute. reflexivity.
Defined.

(** The text that [getConversionText] joins for a rule that
    [getBestConversion] returned has two lines of heading, two lines for each
    rule of the tree and one line for each branch. *)
Theorem conversionLines_count {N : Type} `{JSNumber N} (toFixed1 : N -> string)
    (fuel : nat) (dieA dieB : Die) (makeFair : bool) (rule : ConversionRule N) :
  getBestConversion fuel dieA dieB makeFair = Returned rule ->
  exists lines,
    conversionLines toFixed1 rule = Returned lines /\
    length lines = 2 + 2 * ruleCount rule + branchCount rule.
Proof.
  intros Hrun. apply getBestConversion_prepares in Hrun.
  unfold conversionLines. cbv zeta.
  match goal with
  | |- context [prepareText rule ?p ?s ?l] =>
      destruct (Hrun p s l) as (lines' & E & L)
  end.
  rewrite E. cbn [mbind Outcome_bind bindO]. exists lines'. split; [done|].
  rewrite L. simpl length. lia.
Qed.

Lemma conversionLines_count_witness :
  exists lines,
    conversionLines (fun _ : float => "3.7"%string)
      (match getBestConversion (N := float) 5 (createDie 2) (createDie 6) false with
       | Returned rule => rule
       | _ => mkRule [] [] false 0 [] 0%float
       end)
    = Returned lines /\
    length lines = 2 + 2 * 3 + 16.
Proof.
  destruct (conversionLines_count (fun _ : float => "3.7"%string) 5
              (createDie 2) (createDie 6) false
              (match getBestConversion (N := float) 5 (createDie 2) (createDie 6) false with
               | Returned rule => rule
               | _ => mkRule [] [] false 0 [] 0%float
               end)) as (lines & E & L).
  - vm_compute. reflexivity.
  - exists lines. split; [done|]. rewrite L. vm_compute. reflexivity.
Defined.

(** * [getConversionTables] *)

(** ** Writing a cell *)

Lemma setCell_inside j cell (row : Row) :
  j < length row -> setCell j cell row = <[j := Some cell]> row.
Proof. intros Hj. unfold setCell. by rewrite (proj2 (Nat.ltb_lt _ _) Hj). Qed.

Lemma write_cell R C (table : list Row) r c cell row :
  tableShape R C table -> c < C -> table !! (r + 1) = Some row ->
  let table' := <[r + 1 := setCell (c + 1) cell row]> table in
  tableShape R C table' /\ cellSome table' (r + 1) (c + 1) /\
  (forall i j, cellSome table i j -> cellSome table' i j).
Proof.
  intros [Hlen Hrows] Hc Hrow table'.
  assert (length row = 1 + C) as Hl
    by (apply (proj1 (Forall_forall _ _) Hrows); by eapply list_elem_of_lookup_2).
  assert (r + 1 < length table) as Hr by (by eapply lookup_lt_Some).
  unfold table'. clear table'. rewrite setCell_inside by lia.
  set (table' := <[r + 1 := <[c + 1 := Some cell]> row]> table).
  split; [|split].
  - split; [unfold table'; by rewrite length_insert|].
    apply Forall_insert; [done|]. by rewrite length_insert.
  - exists (<[c + 1 := Some cell]> row), cell. split.
    + unfold table'. by apply list_lookup_insert_eq.
    + apply list_lookup_insert_eq. lia.
  - intros i j (row0 & s & Hi & Hj).
    destruct (decide (i = r + 1)) as [->|Hne].
    + assert (row0 = row) as -> by congruence.
      destruct (decide (j = c + 1)) as [->|Hnj].
      * exists (<[c + 1 := Some cell]> row), cell. split.
        -- unfold table'. by apply list_lookup_insert_eq.
        -- apply list_lookup_insert_eq. lia.
      * exists (<[c + 1 := Some cell]> row), s. split.
        -- unfold table'. by apply list_lookup_insert_eq.
        -- by rewrite list_lookup_insert_ne.
    + exists row0, s. split; [|done].
      unfold table'. by rewrite list_lookup_insert_ne.
Qed.

(** ** The list of the rules that have a table *)

Section Worklist.
Context {N : Type}.
Implicit Types (tcs : list (ConversionRule N)) (c sub : ConversionRule N).

Lemma findIndex_elem c tcs :
  c ∈ tcs -> exists k, findIndex (join " " (dieB c)) tcs = Some k.
Proof.
  induction tcs as [|x tcs IH]; intros Hc; [by apply elem_of_nil in Hc|].
  simpl. destruct (decide (join " " (dieB x) = join " " (dieB c))); [by eexists|].
  apply elem_of_cons in Hc as [->|Hc]; [done|].
  destruct (IH Hc) as [k ->]. by eexists.
Qed.

Lemma findIndex_app key tcs tcs' k :
  findIndex key tcs = Some k -> findIndex key (tcs ++ tcs') = Some k.
Proof.
  revert k. induction tcs as [|x tcs IH]; intros k Hk; [done|].
  simpl in *. destruct (decide (join " " (dieB x) = key)); [done|].
  destruct (findIndex key tcs) as [k'|]; [|done].
  by rewrite (IH k' eq_refl).
Qed.

(** After [tableIdOf] the rule, or one with its key, is in the list. *)
Lemma tableIdOf_spec sub tcs :
  let res := tableIdOf sub tcs in
  (exists k, findIndex (join " " (dieB sub)) res.2 = Some k) /\
  (res.2 = tcs \/
   findIndex (join " " (dieB sub)) tcs = None /\ res.2 = tcs ++ [sub]).
Proof.
  unfold tableIdOf.
  destruct (findIndex (join " " (dieB sub)) tcs) as [k|] eqn:E; simpl.
  - split; [by exists k|by left].
  - split; [|by right]. apply findIndex_elem. apply elem_of_app. right. left.
Qed.

(** The loop over the ids of a range fills their cells, keeps the shape of
    the table and what was filled, and adds at most the rule at hand to the
    list. *)
Lemma fillIds_spec R C label sub : forall js table tcs,
  1 <= C -> tableShape R C table -> Forall (fun id => id < R * C) js ->
  exists table' tcs',
    fillIds C label sub js table tcs = Returned (table', tcs') /\
    tableShape R C table' /\
    (forall i j, cellSome table i j -> cellSome table' i j) /\
    (forall id, id ∈ js -> cellSome table' (id / C + 1) (id mod C + 1)) /\
    (tcs' = tcs \/
     label = None /\ findIndex (join " " (dieB sub)) tcs = None /\
     tcs' = tcs ++ [sub]).
Proof.
  induction js as [|id rest IH]; intros table tcs HC Hshape Hids.
  { exists table, tcs. split; [done|]. split; [done|]. split; [done|].
    split; [by intros id Hid%elem_of_nil|by left]. }
  apply Forall_cons in Hids as [Hid Hids].
  cbn [fillIds]. rewrite (proj2 (Nat.eqb_neq C 0)) by lia.
  assert (id / C < R) as Hr by (apply Nat.Div0.div_lt_upper_bound; lia).
  assert (id mod C < C) as Hc by (apply Nat.mod_upper_bound; lia).
  destruct (lookup_lt_is_Some_2 table (id / C + 1)) as [row Hrow].
  { destruct Hshape as [-> _]. lia. }
  set (res := match label with
              | Some s => (s, tcs)
              | None =>
                  let '(tableId, tcs0) := tableIdOf sub tcs in
                  (("Rule " ++ stringOfNat (tableId + 1))%string, tcs0)
              end).
  assert (res.2 = tcs \/
          label = None /\ findIndex (join " " (dieB sub)) tcs = None /\
          res.2 = tcs ++ [sub]) as Hres.
  { unfold res. destruct label as [s|]; [by left|].
    destruct (tableIdOf_spec sub tcs) as [_ Hsp].
    destruct (tableIdOf sub tcs) as [k tcs0]. simpl in *.
    destruct Hsp as [->|[? ->]]; [by left|by right]. }
  assert (label = None ->
          exists k, findIndex (join " " (dieB sub)) res.2 = Some k) as Hfound.
  { intros ->. unfold res. destruct (tableIdOf_spec sub tcs) as [Hsp _].
    by destruct (tableIdOf sub tcs) as [k tcs0]. }
  destruct res as [cell tcs1] eqn:Eres. simpl in Hres, Hfound.
  rewrite Hrow.
  destruct (write_cell R C table (id / C) (id mod C) cell row Hshape Hc Hrow)
    as (Hshape1 & Hcell1 & Hmono1).
  destruct (IH _ tcs1 HC Hshape1 Hids) as (table' & tcs' & E & Hshape' & Hmono & Hcells & Htcs).
  exists table', tcs'. split; [done|]. split; [done|]. split; [|split].
  - intros i j Hij. by apply Hmono, Hmono1.
  - intros id' [->|Hin]%elem_of_cons; [by apply Hmono|by apply Hcells].
  - destruct Htcs as [->|(Hl & Hnone & _)]; [done|].
    destruct (Hfound Hl) as [k Hk]. congruence.
Qed.
End Worklist.

Section Fill.
Context {N : Type}.
Implicit Types (tcs : list (ConversionRule N)) (c sub : ConversionRule N).

Lemma reductions_cons (range : TossRange) (b : Branch (ConversionRule N)) rest :
  reductions ((range, b) :: rest)
  = match b with Reduce sub => [sub] | _ => [] end ++ reductions rest.
Proof. unfold reductions. simpl. by destruct b. Qed.

Lemma ruleCount_reductions c :
  ruleCount c = 1 + sum_list_with ruleCount (reductions (conversions c)).
Proof.
  destruct c as [dA dB mf t bs e]. simpl conversions.
  change (ruleCount (mkRule dA dB mf t bs e))
    with (1 + sum_list_with (fun rb => match rb.2 with
                                       | Reduce sub => ruleCount sub
                                       | _ => 0
                                       end) bs).
  f_equal. induction bs as [|[range b] rest IH]; [done|].
  rewrite reductions_cons, sum_list_with_app. cbn [sum_list_with snd].
  rewrite IH. destruct b; simpl; lia.
Qed.

(** The loop over the branches. *)
Lemma fillTable_spec R C c : forall bs table tcs,
  1 <= C -> tableShape R C table ->
  Forall (fun id => id < R * C) (allIds bs.*1) -> c ∈ tcs ->
  exists table' extra,
    fillTable C c bs table tcs = Returned (table', tcs ++ extra) /\
    tableShape R C table' /\
    (forall i j, cellSome table i j -> cellSome table' i j) /\
    (forall id, id ∈ allIds bs.*1 -> cellSome table' (id / C + 1) (id mod C + 1)) /\
    sum_list_with ruleCount extra <= sum_list_with ruleCount (reductions bs) /\
    Forall (fun x => x ∈ reductions bs) extra.
Proof.
  induction bs as [|[range b] rest IH]; intros table tcs HC Hshape Hids Hc.
  { exists table, []. rewrite app_nil_r. split; [done|]. split; [done|].
    split; [done|]. split; [by intros id Hid%elem_of_nil|]. split; [done|done]. }
  rewrite fmap_cons, allIds_cons in Hids. apply Forall_app in Hids as [Hids1 Hids2].
  simpl in Hids1.
  assert (exists table1 extra1,
            match b with
            | Terminal label => fillIds C (Some label) c (ids range) table tcs
            | Reduce sub => fillIds C None sub (ids range) table tcs
            | Repeat => fillIds C None c (ids range) table tcs
            end = Returned (table1, tcs ++ extra1) /\
            tableShape R C table1 /\
            (forall i j, cellSome table i j -> cellSome table1 i j) /\
            (forall id, id ∈ ids range ->
               cellSome table1 (id / C + 1) (id mod C + 1)) /\
            (extra1 = [] \/ exists sub, b = Reduce sub /\ extra1 = [sub]))
    as (table1 & extra1 & E1 & Hshape1 & Hmono1 & Hcells1 & Hex1).
  { destruct b as [label|sub|].
    - destruct (fillIds_spec R C (Some label) c (ids range) table tcs HC Hshape Hids1)
        as (t1 & tcs1 & E & ? & ? & ? & [->|(? & _)]); [|done].
      exists t1, []. rewrite app_nil_r. repeat (split; [done|]). by left.
    - destruct (fillIds_spec R C None sub (ids range) table tcs HC Hshape Hids1)
        as (t1 & tcs1 & E & ? & ? & ? & [->|(_ & _ & ->)]).
      + exists t1, []. rewrite app_nil_r. repeat (split; [done|]). by left.
      + exists t1, [sub]. repeat (split; [done|]). right. by exists sub.
    - destruct (fillIds_spec R C None c (ids range) table tcs HC Hshape Hids1)
        as (t1 & tcs1 & E & ? & ? & ? & [->|(_ & Hnone & _)]).
      + exists t1, []. rewrite app_nil_r. repeat (split; [done|]). by left.
      + destruct (findIndex_elem c tcs Hc) as [k Hk]. congruence. }
  destruct (IH table1 (tcs ++ extra1) HC Hshape1 Hids2) as
    (table' & extra2 & E2 & Hshape' & Hmono2 & Hcells2 & Hsum2 & Hin2).
  { apply elem_of_app. by left. }
  exists table', (extra1 ++ extra2).
  cbn [fillTable]. rewrite E1. cbn [mbind Outcome_bind bindO].
  rewrite E2, <- app_assoc. split; [done|]. split; [done|]. split; [|split; [|split]].
  - intros i j Hij. by apply Hmono2, Hmono1.
  - intros id. rewrite fmap_cons, allIds_cons.
    intros [Hid|Hid]%elem_of_app; [by apply Hmono2, Hcells1|by apply Hcells2].
  - rewrite reductions_cons, !sum_list_with_app.
    destruct Hex1 as [->|(sub & -> & ->)]; simpl; lia.
  - rewrite reductions_cons. apply Forall_app. split.
    + destruct Hex1 as [->|(sub & -> & ->)]; [done|].
      constructor; [|done]. left.
    + eapply Forall_impl; [exact Hin2|]. intros x Hx. apply elem_of_app. by right.
Qed.
End Fill.

(** ** One table *)

Lemma firstFaces_fair dieA t :
  1 <= length dieA ->
  exists F, firstFaces dieA t = Returned F /\ length F = length dieA ^ t.
Proof.
  intros HA. destruct (generateTosses_fair dieA t) as (r & E & _ & L).
  { apply Nat.pow_lower_bound. lia. }
  exists (faces r). unfold firstFaces. by rewrite E.
Qed.

Lemma fmap_cell {A} (g : A -> string) (l : list A) j :
  j < length l -> exists s, ((fun f => Some (g f)) <$> l) !! j = Some (Some s).
Proof.
  intros Hj. destruct (lookup_lt_is_Some_2 l j Hj) as [f Hf].
  exists (g f). by rewrite list_lookup_fmap, Hf.
Qed.

Lemma full_from_cells R C (table : list Row) :
  tableShape R C table ->
  (forall i j, i < 1 + R -> j < 1 + C -> cellSome table i j) ->
  fullTable R C table.
Proof.
  intros [Hlen Hrows] Hcells. split; [done|].
  apply Forall_forall. intros row Hrow.
  pose proof (proj1 (Forall_forall _ _) Hrows row Hrow) as Hl. split; [done|].
  apply list_elem_of_lookup in Hrow as [i Hi].
  assert (i < 1 + R) as Hir by (rewrite <- Hlen; by eapply lookup_lt_Some).
  apply Forall_forall. intros x Hx.
  apply list_elem_of_lookup in Hx as [j Hj].
  assert (j < 1 + C) as Hjc by (rewrite <- Hl; by eapply lookup_lt_Some).
  destruct (Hcells i j Hir Hjc) as (row' & s & Hi' & Hj').
  assert (row' = row) as -> by congruence.
  assert (x = Some s) as -> by congruence. done.
Qed.

Lemma reductions_tabular {N : Type} dieA0 (c x : ConversionRule N) :
  tabular dieA0 c -> x ∈ reductions (conversions c) -> tabular dieA0 x.
Proof.
  intros Htab Hx. inversion Htab as [c' _ _ Hall Heq]. subst c'.
  unfold reductions in Hx.
  apply list_elem_of_omap in Hx as (rb & Hrb & Hsome).
  rewrite Forall_forall in Hall. apply (Hall rb Hrb).
  destruct rb.2; by try injection Hsome as ->.
Qed.

Lemma prepareConversionTable_spec {N : Type} dieA0 (c : ConversionRule N) tcs :
  1 <= length dieA0 -> tabular dieA0 c -> c ∈ tcs ->
  exists table extra,
    prepareConversionTable tcs c = Returned (table, tcs ++ extra) /\
    fullTable (length dieA0 ^ (throws c - throws c / 2))
              (length dieA0 ^ (throws c / 2)) table /\
    sum_list_with ruleCount extra < ruleCount c /\
    Forall (tabular dieA0) extra.
Proof.
  intros HA Htab Hc. inversion Htab as [c' HdA Hcover _ Heq]. subst c'.
  unfold prepareConversionTable. cbv zeta. rewrite HdA.
  destruct (firstFaces_fair dieA0 (throws c / 2) HA) as (CF & -> & HCF).
  destruct (firstFaces_fair dieA0 (throws c - throws c / 2) HA) as (RF & -> & HRF).
  cbn [mbind Outcome_bind bindO].
  set (R := length dieA0 ^ (throws c - throws c / 2)) in *.
  set (C := length dieA0 ^ (throws c / 2)) in *.
  assert (1 <= C) as HC by (apply Nat.pow_lower_bound; lia).
  assert (R * C = length dieA0 ^ throws c) as HRC.
  { unfold R, C. rewrite <- Nat.pow_add_r. f_equal.
    pose proof (Nat.Div0.div_le_upper_bound (throws c) 2 (throws c)). lia. }
  set (header := Some ("Throw " ++ throwsText (throws c))%string
                 :: ((fun columnsFace => Some (join " " columnsFace)) <$> CF)).
  set (rows := (fun rowFace => Some (join " " rowFace) :: replicate (length CF) None)
               <$> RF).
  assert (tableShape R C (header :: rows)) as Hshape.
  { split; [simpl; unfold rows; by rewrite length_fmap, HRF|].
    constructor; [simpl; by rewrite length_fmap, HCF|].
    apply Forall_fmap, Forall_forall. intros f _. simpl.
    by rewrite length_replicate, HCF. }
  destruct (fillTable_spec R C c (conversions c) (header :: rows) tcs HC Hshape)
    as (table & extra & E & Hshape' & Hmono & Hcells & Hsum & Hin); [|done|].
  { rewrite Hcover, HRC. apply Forall_forall. intros id Hid.
    apply elem_of_seq in Hid. lia. }
  rewrite HCF. fold C. exists table, extra. split; [done|]. split; [|split].
  - apply full_from_cells; [done|]. intros i j Hi Hj.
    destruct i as [|r].
    { apply Hmono. exists header. unfold header.
      destruct j as [|j]; [by eexists|].
      destruct (fmap_cell (join " ") CF j ltac:(lia)) as [s Hs].
      exists s. split; [done|exact Hs]. }
    destruct j as [|c0].
    { apply Hmono. unfold cellSome. simpl. unfold rows.
      rewrite list_lookup_fmap.
      destruct (lookup_lt_is_Some_2 RF r ltac:(lia)) as [f ->]. simpl.
      by eexists _, _. }
    assert (r * C + c0 < R * C) as Hid by nia.
    assert (r * C + c0 ∈ allIds (conversions c).*1) as Hin'.
    { rewrite Hcover, <- HRC. apply elem_of_seq. lia. }
    apply Hcells in Hin'.
    assert ((r * C + c0) / C = r) as Ediv
      by (rewrite Nat.div_add_l by lia; rewrite Nat.div_small by lia; lia).
    assert ((r * C + c0) mod C = c0) as Emod
      by (rewrite Nat.add_comm, Nat.Div0.mod_add; apply Nat.mod_small; lia).
    rewrite Ediv, Emod, !Nat.add_1_r in Hin'. exact Hin'.
  - rewrite ruleCount_reductions. lia.
  - eapply Forall_impl; [exact Hin|]. intros x Hx. by eapply reductions_tabular.
Qed.

(** ** The tables *)

Section Loop.
Context {N : Type}.
Variable dieA0 : Die.
Hypothesis source_faces : 1 <= length dieA0.

#[local] Abbreviation ruleTable := (ruleTable dieA0).

Lemma ruleCount_pos (c : ConversionRule N) : 1 <= ruleCount c.
Proof. rewrite ruleCount_reductions. lia. Qed.

Lemma tablesLoop_spec : forall fuel i tables (tcs : list (ConversionRule N)),
  Forall (tabular dieA0) tcs -> i <= length tcs ->
  sum_list_with ruleCount (drop i tcs) < fuel ->
  exists more,
    tablesLoop fuel i tables tcs = Returned (tables ++ more) /\
    Forall ruleTable more /\
    length more <= sum_list_with ruleCount (drop i tcs).
Proof.
  induction fuel as [|fuel IH]; intros i tables tcs Htab Hi Hfuel; [lia|].
  cbn [tablesLoop].
  destruct (tcs !! i) as [c|] eqn:Ec.
  2:{ exists []. rewrite app_nil_r. split; [done|]. split; [done|simpl; lia]. }
  assert (c ∈ tcs) as Hc by (by eapply list_elem_of_lookup_2).
  assert (tabular dieA0 c) as Htc by (by apply (proj1 (Forall_forall _ _) Htab)).
  destruct (prepareConversionTable_spec dieA0 c tcs source_faces Htc Hc)
    as (table & extra & E & Hfull & Hsum & Hex).
  rewrite E. cbn [mbind Outcome_bind bindO].
  assert (i < length tcs) as Hlt by (by eapply lookup_lt_Some).
  rewrite (drop_S _ _ _ Ec) in Hfuel |- *. simpl in Hfuel.
  assert (drop (i + 1) (tcs ++ extra) = drop (S i) tcs ++ extra) as Edrop.
  { rewrite Nat.add_1_r, drop_app_le by lia. done. }
  destruct (IH (i + 1) (tables ++ [table]) (tcs ++ extra)) as (more & E' & Hmore & Hlen).
  { apply Forall_app. by split. }
  { rewrite length_app. lia. }
  { rewrite Edrop, sum_list_with_app. lia. }
  exists (table :: more). split; [by rewrite E', <- app_assoc|]. split.
  - constructor; [by exists (throws c)|done].
  - rewrite Edrop, sum_list_with_app in Hlen. simpl. lia.
Qed.
End Loop.

(** The rules that [getBestConversion] returns are tabular. *)
Lemma getBestConversion_tabular {N : Type} `{JSNumber N} fuel dieA dieB makeFair
    (rule : ConversionRule N) :
  1 <= length dieB ->
  getBestConversion fuel dieA dieB makeFair = Returned rule ->
  tabular dieA rule.
Proof.
  intros HB Hrun. revert HB.
  apply (getBestConversion_tree dieA makeFair
           (fun dieB rule => 1 <= length dieB -> tabular dieA rule))
    with (fuel := fuel); [|done].
  clear. intros dieB t bs e HF HB.
  assert (bs.*1 = (partitionTosses (generateTosses dieA makeFair t) dieB).*1) as Hr.
  { clear -HF. induction HF as [|en rb entries bs [E _] _ IH]; [done|].
    rewrite !fmap_cons. by f_equal. }
  constructor; [done| |].
  - simpl. rewrite Hr. by apply partition_cover.
  - simpl.
    assert (forall entries,
              (forall en, en ∈ entries ->
                 en ∈ partitionTosses (generateTosses dieA makeFair t) dieB) ->
              forall bs' : list (TossRange * Branch (ConversionRule N)),
              Forall2 (fun en rb => rb.1 = en.1 /\
                         match rb.2 with
                         | Reduce sub => 1 <= length en.2 -> tabular dieA sub
                         | _ => True
                         end) entries bs' ->
              Forall (fun rb => forall sub, rb.2 = Reduce sub -> tabular dieA sub) bs')
      as Hgen.
    { clear -HB. intros entries Hsub bs' HF'.
      induction HF' as [|en rb entries bs' [_ Hb] _ IH]; constructor.
      - intros sub Hsubeq. rewrite Hsubeq in Hb. apply Hb.
        assert (en ∈ partitionTosses (generateTosses dieA makeFair t) dieB) as Hen
          by (apply Hsub; left).
        unfold partitionTosses in Hen.
        apply partitionLoop_elem in Hen as [Hen|(d & Hd & Hl)];
          [by apply elem_of_nil in Hen| |].
        + apply getDivisors_elem in Hd as [Hd Hm].
          apply Nat.Div0.div_exact in Hm. rewrite Hl.
          destruct (length dieB / d) eqn:E0; [nia|lia].
        + intros d Hd. apply getDivisors_elem in Hd. split; [lia|tauto].
      - apply IH. intros en' Hen'. apply Hsub. by right. }
    by apply (Hgen (partitionTosses (generateTosses dieA makeFair t) dieB)).
Qed.

(** For a rule that [getBestConversion] returned for dice of at least one
    face, [getConversionTables] does not throw and ends after at most as
    many tables as the tree has rules; the first table is that of the rule,
    with a row of heading and a row for each sequence of the first half of
    the throws, rounded up, a column of heading and a column for each
    sequence of the other throws; and no table has a hole. *)
Theorem getConversionTables_full {N : Type} `{JSNumber N} (fuel fuel' : nat)
    (dieA dieB : Die) (makeFair : bool) (rule : ConversionRule N) :
  1 <= length dieA -> 1 <= length dieB ->
  getBestConversion fuel dieA dieB makeFair = Returned rule ->
  ruleCount rule < fuel' ->
  exists first more,
    getConversionTables fuel' rule = Returned (first :: more) /\
    length (first :: more) <= ruleCount rule /\
    fullTable (length dieA ^ (throws rule - throws rule / 2))
              (length dieA ^ (throws rule / 2)) first /\
    Forall (fun table =>
              exists t, fullTable (length dieA ^ (t - t / 2))
                                  (length dieA ^ (t / 2)) table) more.
Proof.
  intros HA HB Hrun Hfuel.
  pose proof (getBestConversion_tabular _ _ _ _ _ HB Hrun) as Htab.
  unfold getConversionTables.
  destruct fuel' as [|fuel']; [lia|]. cbn [tablesLoop]. simpl lookup.
  destruct (prepareConversionTable_spec dieA rule [rule] HA Htab ltac:(left))
    as (table & extra & E & Hfull & Hsum & Hex).
  rewrite E. cbn [mbind Outcome_bind bindO].
  destruct (tablesLoop_spec dieA HA fuel' (0 + 1) ([] ++ [table]) ([rule] ++ extra))
    as (more & E' & Hmore & Hlen).
  { constructor; [done|]. exact Hex. }
  { simpl. lia. }
  { simpl. rewrite drop_0. lia. }
  exists table, more. split; [done|]. split; [|split; [done|exact Hmore]].
  simpl in Hlen |- *. rewrite drop_0 in Hlen. lia.
Qed.

Lemma getConversionTables_full_witness :
  exists first more,
    getConversionTables 4
      (match getBestConversion (N := float) 5 (createDie 2) (createDie 6) false with
       | Returned rule => rule
       | _ => mkRule [] [] false 0 [] 0%float
       end)
    = Returned (first :: more) /\
    length (first :: more) <= 3.
Proof.
  destruct (getConversionTables_full 5 4 (createDie 2) (createDie 6) false
              (match getBestConversion (N := float) 5 (createDie 2) (createDie 6) false with
               | Returned rule => rule
               | _ => mkRule [] [] false 0 [] 0%float
               end)) as (first & more & E & L & _).
  - simpl. lia.
  - simpl. lia.
  - vm_compute. reflexivity.
  - vm_compute. lia.
  - exists first, more. split; [done|].
    etransitivity; [exact L|]. vm_compute. lia.
Defined.

(** * The classes that a divisor can take from *)

(** A divisor above the size of every class takes nothing. *)
Lemma allocateAll_idle d : forall tosses sr,
  Forall (fun v => length (faces v) < d) tosses ->
  allocateAll d tosses sr = (tosses, sr).
Proof.
  induction tosses as [|v tosses IH]; intros sr Hs; [done|].
  apply Forall_cons in Hs as [Hv Hs]. simpl.
  rewrite Nat.div_small by done. simpl. by rewrite IH.
Qed.

(** The divisors that take nothing add nothing to the map. *)
Lemma partitionLoop_idle die : forall l rest tosses result,
  (forall d, d ∈ l -> Forall (fun v => length (faces v) < d) tosses) ->
  partitionLoop (l ++ rest) die tosses result = partitionLoop rest die tosses result.
Proof.
  induction l as [|d l IH]; intros rest tosses result Hs; [done|].
  rewrite <- app_comm_cons, partitionLoop_cons.
  rewrite allocateAll_idle by (apply Hs; left). simpl.
  rewrite addToResult_entriesFrom, entriesFrom_replicate, app_nil_r.
  apply IH. intros d' Hd'. apply Hs. by right.
Qed.

(** When no class has as many members as a divisor above 1, every entry of
    the map is a repeat branch. *)
Lemma partitionTosses_all_full tosses die :
  1 <= length die ->
  (forall u d, u ∈ tosses -> 2 <= d -> length die mod d = 0 ->
     length (faces u) < d) ->
  Forall (fullEntry die) (partitionTosses tosses die).
Proof.
  intros Hm Hs. unfold partitionTosses.
  destruct (getDivisors_one _ Hm) as (l & -> & Hl).
  rewrite partitionLoop_idle.
  - rewrite partitionLoop_cons. simpl. apply Forall_forall. intros e He.
    destruct (pass_entries die 1 tosses e ltac:(lia) (Nat.mod_1_r _) He) as [_ L].
    unfold fullEntry. by rewrite L, Nat.div_1_r.
  - intros d Hd. apply Forall_forall. intros u Hu.
    destruct (Hl d Hd). apply Hs; [done|lia|tauto].
Qed.

(** A class with as many members as a divisor above 1 gives the map an
    entry that is no repeat branch: the greatest such divisor that finds a
    class large enough takes from it. *)
Lemma partitionLoop_takes die : forall divisors tosses result u d,
  1 <= length die ->
  StronglySorted gt divisors ->
  (forall d', d' ∈ divisors -> 1 <= d' /\ length die mod d' = 0) ->
  Forall wfRange tosses ->
  u ∈ tosses -> d ∈ divisors -> 2 <= d -> d <= length (faces u) ->
  exists e, e ∈ partitionLoop divisors die tosses result /\
            ~ fullEntry die e /\ faces e.1 <> [].
Proof.
  induction divisors as [|d0 divisors IH];
    intros tosses result u d Hm Hsort Hdiv W Hu Hd H2 Hlen;
    [by apply elem_of_nil in Hd|].
  apply StronglySorted_inv in Hsort as [Hsort Hgt].
  assert (2 <= d0) as H20.
  { apply elem_of_cons in Hd as [<-|Hd]; [done|].
    rewrite Forall_forall in Hgt. specialize (Hgt d Hd). lia. }
  destruct (Hdiv d0 ltac:(left)) as [_ Hmod].
  rewrite partitionLoop_cons.
  set (st := allocateAll d0 tosses (replicate d0 emptyRange)).
  destruct (decide (Exists (fun v => d0 <= length (faces v)) tosses)) as [Hex|Hno].
  - apply Exists_exists in Hex as (v & Hv & Hvlen).
    destruct (pass_spec d0 tosses W) as (L & W1 & W2 & P).
    fold st in L, W1, W2, P.
    pose proof (allocateAll_takes d0 tosses (replicate d0 emptyRange) v
                  ltac:(lia) Hv Hvlen W) as Hlt.
    fold st in Hlt.
    destruct (partitionLoop_extends die divisors st.1
                (result ++ addToResult st.2 (subDiceOf die d0)) W1)
      as (extra & -> & _).
    assert (exists r, r ∈ st.2 /\ faces r <> []) as (r & Hr & Hne).
    { apply Permutation_length in P. rewrite length_app in P.
      assert (allIds st.2 <> []) as Hids
        by (destruct (allIds st.2); [simpl in P; lia|done]).
      clear -Hids W2. induction W2 as [|r sr Wr _ IH]; [done|].
      rewrite allIds_cons in Hids.
      destruct (ids r) as [|x xs] eqn:E.
      - destruct IH as (r' & Hr' & Hne); [done|]. exists r'. split; [by right|done].
      - exists r. split; [left|]. unfold wfRange in Wr. rewrite E in Wr.
        by destruct (faces r). }
    pose proof (entriesFrom_nonempty (subDiceOf die d0) st.2 0 r Hr Hne) as Hent.
    rewrite <- addToResult_entriesFrom in Hent.
    destruct (addToResult st.2 (subDiceOf die d0)) as [|e es] eqn:E; [done|].
    exists e. split; [apply elem_of_app; left; apply elem_of_app; right; left|].
    assert (e ∈ addToResult st.2 (subDiceOf die d0)) as He by (rewrite E; left).
    destruct (pass_entries die d0 tosses e ltac:(lia) Hmod He) as [Hf Hl].
    split; [|done]. unfold fullEntry. rewrite Hl.
    intros Hfull. apply div_eq_self in Hfull; lia.
  - assert (Forall (fun v => length (faces v) < d0) tosses) as Hsmall.
    { apply Forall_forall. intros v Hv.
      destruct (decide (length (faces v) < d0)) as [|Hge]; [done|].
      exfalso. apply Hno. apply Exists_exists. exists v. split; [done|lia]. }
    unfold st. rewrite allocateAll_idle by done. simpl.
    apply (IH tosses _ u d); try done.
    + intros d' Hd'. apply Hdiv. by right.
    + apply elem_of_cons in Hd as [->|Hd]; [|done].
      rewrite Forall_forall in Hsmall. specialize (Hsmall u Hu). lia.
Qed.

Lemma partitionTosses_takes tosses die u d :
  1 <= length die -> Forall wfRange tosses ->
  u ∈ tosses -> 2 <= d -> length die mod d = 0 -> d <= length (faces u) ->
  exists e, e ∈ partitionTosses tosses die /\ ~ fullEntry die e /\ faces e.1 <> [].
Proof.
  intros Hm W Hu H2 Hmod Hlen. unfold partitionTosses.
  assert (d <= length die) as Hle.
  { destruct (decide (d <= length die)) as [|Hgt]; [done|].
    rewrite Nat.mod_small in Hmod by lia. lia. }
  apply (partitionLoop_takes die _ tosses [] u d); try done.
  - apply getDivisors_sorted.
  - intros d' Hd'. apply getDivisors_elem in Hd'. split; [lia|tauto].
  - apply divisorsFrom_complete; [lia|done].
Qed.

(** C1, amended: [sizeB] never exceeds [a = n^throws], and it is below [a]
    exactly when some class of equiprobable tosses has at least as many
    members as some divisor above 1 of the target's face count; otherwise
    every toss goes to the repeat branch and [sizeB = a]. With [makeFair]
    false there is one class, of [a] tosses, so [sizeB < a] exactly when [a]
    is at least some divisor above 1 of the target's face count, and at any
    rate when [a] is at least the face count itself. *)
Theorem sizeB_bound {N : Type} `{JSNumber N}
    (getBest : Die -> Outcome (ConversionRule N)) (dieA dieB : Die)
    (makeFair : bool) (throws : nat) (sizeA z z' : N)
    (bs : list (TossRange * Branch (ConversionRule N))) (sizeB : nat) :
  2 <= length dieA -> 2 <= length dieB -> 1 <= throws ->
  branchLoop getBest dieB throws sizeA
    (partitionTosses (generateTosses dieA makeFair throws) dieB) z 0
  = Returned (bs, z', sizeB) ->
  sizeB <= length dieA ^ throws /\
  (sizeB < length dieA ^ throws <->
   exists u d, u ∈ generateTosses dieA makeFair throws /\
               2 <= d /\ length dieB mod d = 0 /\ d <= length (faces u)) /\
  (sizeB = length dieA ^ throws <->
   forall u d, u ∈ generateTosses dieA makeFair throws ->
               2 <= d -> length dieB mod d = 0 -> length (faces u) < d) /\
  (makeFair = false ->
   (sizeB < length dieA ^ throws <->
    exists d, 2 <= d /\ length dieB mod d = 0 /\ d <= length dieA ^ throws)) /\
  (makeFair = false -> length dieB <= length dieA ^ throws ->
   sizeB < length dieA ^ throws).
Proof.
  intros HA HB _ Hrun.
  assert (1 <= length dieA ^ throws) as Hpos
    by (pose proof (Nat.pow_nonzero (length dieA) throws ltac:(lia)); lia).
  apply branchLoop_partition_sizeB in Hrun.
  set (entries := partitionTosses (generateTosses dieA makeFair throws) dieB) in *.
  pose proof (partition_sizes dieA makeFair throws dieB ltac:(lia)) as Hsum.
  fold entries in Hsum.
  rewrite (sum_filter entrySize (fullEntry dieB)) in Hsum.
  assert ((exists u d, u ∈ generateTosses dieA makeFair throws /\
              2 <= d /\ length dieB mod d = 0 /\ d <= length (faces u)) ->
          sizeB < length dieA ^ throws) as Hstrict.
  { intros (u & d & Hu & H2 & Hmod & Hlen).
    destruct (partitionTosses_takes (generateTosses dieA makeFair throws) dieB u d)
      as (e & He & Hnf & Hne); [lia|apply generateTosses_wf|done..|].
    fold entries in He.
    assert (e ∈ filter (fun x => ~ fullEntry dieB x) entries) as He'
      by (by apply list_elem_of_filter).
    pose proof (sum_list_with_in _ entrySize _ He') as Hle.
    assert (1 <= entrySize e) by (unfold entrySize; destruct (faces e.1); [done|simpl; lia]).
    lia. }
  assert ((forall u d, u ∈ generateTosses dieA makeFair throws ->
              2 <= d -> length dieB mod d = 0 -> length (faces u) < d) ->
          sizeB = length dieA ^ throws) as Hall.
  { intros Hs.
    pose proof (partitionTosses_all_full (generateTosses dieA makeFair throws) dieB
                  ltac:(lia) Hs) as Hfull.
    fold entries in Hfull.
    assert (filter (fun x => ~ fullEntry dieB x) entries = []) as Hnil.
    { clear -Hfull. induction Hfull as [|e l He _ IH]; [done|].
      rewrite filter_cons, decide_False by tauto. done. }
    rewrite Hnil in Hsum. simpl in Hsum. lia. }
  assert (sizeB < length dieA ^ throws <->
          exists u d, u ∈ generateTosses dieA makeFair throws /\
               2 <= d /\ length dieB mod d = 0 /\ d <= length (faces u)) as Hiff.
  { split; [|done]. intros Hlt.
    destruct (decide (Exists (fun u =>
                Exists (fun d => length dieB mod d = 0 /\ d <= length (faces u))
                       (seq 2 (length (faces u))))
              (generateTosses dieA makeFair throws))) as [Hex|Hno].
    - apply Exists_exists in Hex as (u & Hu & Hex).
      apply Exists_exists in Hex as (d & Hd & Hmod & Hle).
      apply elem_of_seq in Hd. exists u, d. split; [done|]. split; [lia|done].
    - exfalso. assert (sizeB = length dieA ^ throws); [|lia].
      apply Hall. intros u d Hu H2 Hmod.
      destruct (decide (length (faces u) < d)) as [|Hge]; [done|].
      exfalso. apply Hno. apply Exists_exists. exists u. split; [done|].
      apply Exists_exists. exists d. split; [apply elem_of_seq; lia|].
      split; [done|lia]. }
  split; [lia|]. split; [done|]. split; [|split].
  - split; [|done]. intros E u d Hu H2 Hmod.
    destruct (decide (length (faces u) < d)) as [|Hge]; [done|].
    assert (sizeB < length dieA ^ throws); [|lia].
    apply Hstrict. exists u, d. split; [done|]. split; [done|]. split; [done|lia].
  - intros ->. destruct (generateTosses_fair dieA throws) as (r & E & _ & L); [done|].
    rewrite Hiff, E. split.
    + intros (u & d & Hu & H2 & Hmod & Hle). apply list_elem_of_singleton in Hu as ->.
      exists d. split; [done|]. split; [done|lia].
    + intros (d & H2 & Hmod & Hle). exists r, d. split; [left|].
      split; [done|]. split; [done|lia].
  - intros -> Hle. apply Hstrict.
    destruct (generateTosses_fair dieA throws) as (r & E & _ & L); [done|].
    exists r, (length dieB). rewrite E. split; [left|].
    split; [done|]. split; [apply Nat.Div0.mod_same|lia].
Qed.

Lemma sizeB_bound_witness :
  2 <= length (createDie 4) /\ 2 < length (createDie 2) ^ 2.
Proof.
  split; [simpl; lia|].
  refine (proj2 (proj1 (proj2 (sizeB_bound (N := float)
           (fun subDie => getBestConversion 5 (createDie 2) subDie true)
           (createDie 2) (createDie 4) true 2 (ofNat 4) (ofNat 0) _ _ 2 _ _ _ _))) _).
  - simpl; lia.
  - simpl; lia.
  - lia.
  - vm_compute. reflexivity.
  - exists {| faces := [["H"; "T"]; ["T"; "H"]]%string; ids := [1; 2] |}, 2.
    split; [|simpl; lia].
    vm_compute. apply list_elem_of_further, list_elem_of_here.
Defined.
